(** * compylr: finite automata, lexers and the LR(1) table generator

    A shallow embedding of [fsa.py], [lexer.py], [regexpr.py] (its hand-written
    lexer) and [parsergen.py], with the properties of their algorithms.

    Conventions of the embedding.
    - Python integers are [Z]; a Python [set] of integers is a [gset Z], a
      [dict] is a [gmap].
    - A Python [list] that is indexed is a Rocq [list] read through
      [Py.getitem], which follows Python: a negative index counts from the end
      and an index out of range raises [IndexError] (here [None]).
    - A list used as a stack ([append] / [pop()]) is kept top first: [append]
      is [cons] and [pop()] takes the head.
    - Python leaves the iteration order of a set unspecified.  Every loop over
      a set or over the items of a dict goes through the class [IterOrder], and
      every general theorem below holds for all of its instances.
    - A [while] loop is a recursive function on a fuel argument; the public
      function supplies fuel computed from its input and the theorems show that
      this fuel is never exhausted.  [closure] and [generate] of the parser
      generator take the fuel as an argument instead: what is proved of their
      results holds for every fuel, and enough fuel exists ([generate_total]).
      [None] is a raised exception. *)

From stdpp Require Import gmap list numbers option sorting.
From Stdlib Require Import ZArith Lia.

Local Open Scope Z_scope.

(** ** Python primitives *)

Module Py.

(** The position a Python list of length [n] reads for index [i]. *)
Definition index (n : nat) (i : Z) : option nat :=
  if decide (0 ≤ i < Z.of_nat n) then Some (Z.to_nat i)
  else if decide (- Z.of_nat n ≤ i < 0) then Some (Z.to_nat (Z.of_nat n + i))
  else None.

(** [l[i]] *)
Definition getitem {A} (l : list A) (i : Z) : option A :=
  k ← index (length l) i; l !! k.

(** [l[i] = x] *)
Definition setitem {A} (l : list A) (i : Z) (x : A) : option (list A) :=
  k ← index (length l) i; Some (<[k:=x]> l).

(** [range(a, b)] *)
Definition range (a b : Z) : list Z := seqZ a (b - a).

(** [for x in l: s = body(s, x)], stopping at the first exception. *)
Fixpoint for_each {A S} (body : S → A → option S) (s : S) (l : list A) : option S :=
  match l with
  | [] => Some s
  | x :: l => s' ← body s x; for_each body s' l
  end.

(** [while len(frontier) > 0: x = frontier.pop(); s = body(x, s)], where [pop]
    returns [None] on an empty frontier. *)
Fixpoint while_pop {S A} (pop : S → option (A * S)) (body : A → S → option S)
    (fuel : nat) (s : S) : option S :=
  match fuel with
  | O => None
  | S fuel =>
      match pop s with
      | None => Some s
      | Some (x, s) => s' ← body x s; while_pop pop body fuel s'
      end
  end.

End Py.

(** The order in which a set, or the items of a dict, are enumerated. *)
Class IterOrder := {
  iter : ∀ {A : Type} `{Countable A}, gset A → list A;
  iter_perm : ∀ {A : Type} `{Countable A} (X : gset A), iter X ≡ₚ elements X;
  items : ∀ {K : Type} `{Countable K} {V : Type}, gmap K V → list (K * V);
  items_perm : ∀ {K : Type} `{Countable K} {V : Type} (m : gmap K V),
      items m ≡ₚ map_to_list m
}.

(** Two concrete orders, used to run the model on examples. *)
Definition forward_order : IterOrder :=
  {| iter := λ A _ _ X, elements X;
     iter_perm := λ A _ _ X, reflexivity (elements X);
     items := λ K _ _ V m, map_to_list m;
     items_perm := λ K _ _ V m, reflexivity (map_to_list m) |}.

Definition backward_order : IterOrder :=
  {| iter := λ A _ _ X, reverse (elements X);
     iter_perm := λ A _ _ X, reverse_Permutation (elements X);
     items := λ K _ _ V m, reverse (map_to_list m);
     items_perm := λ K _ _ V m, reverse_Permutation (map_to_list m) |}.

(** All subsets of a finite set. *)
Definition powerset `{Countable A} (X : gset A) : gset (gset A) :=
  foldr (λ x acc, acc ∪ set_map (λ Y : gset A, {[x]} ∪ Y) acc) {[∅]} (elements X).

(** ** fsa.py *)

Definition NUM_CHARS : Z := 256.
Definition EPSILON : Z := NUM_CHARS.

(** The input symbols: bytes. *)
Definition is_byte (c : Z) : Prop := 0 ≤ c < NUM_CHARS.

Module DFA.

Record t := mk {
  transitions : list (list Z);
  outputs : gmap Z (gset Z);
  initial_state : Z
}.

(** [DFA()] *)
Definition new : t := mk [] ∅ (-1).

Definition add_state (d : t) : t * Z :=
  (mk (transitions d ++ [replicate (Z.to_nat NUM_CHARS) (-1)]) (outputs d) (initial_state d),
   Z.of_nat (length (transitions d))).

(** [self.transitions[state][c]] *)
Definition lookup (d : t) (state c : Z) : option Z :=
  row ← Py.getitem (transitions d) state; Py.getitem row c.

(** [self.transitions[state][symbol] = target] *)
Definition set_transition (d : t) (state symbol target : Z) : option t :=
  row ← Py.getitem (transitions d) state;
  row' ← Py.setitem row symbol target;
  rows ← Py.setitem (transitions d) state row';
  Some (mk rows (outputs d) (initial_state d)).

(** [self.outputs.get(state, set())] *)
Definition get_outputs (d : t) (state : Z) : gset Z := default ∅ (outputs d !! state).

Section with_order.
Context `{IterOrder}.

(** The [for c in range(0, NUM_CHARS)] loop of [is_sink_state]. *)
Definition sink_scan (d : t) (state : Z) (explored frontier : gset Z) : option (gset Z) :=
  Py.for_each
    (λ frontier c,
       next_state ← lookup d state c;
       Some (if decide (next_state ∈ explored) then frontier else frontier ∪ {[next_state]}))
    frontier (Py.range 0 NUM_CHARS).

(** The [while len(frontier) > 0] loop of [is_sink_state]; [frontier.pop()]
    takes the element the set enumerates first. *)
Fixpoint is_sink_loop (fuel : nat) (d : t) (explored frontier : gset Z) : option bool :=
  match fuel with
  | O => None
  | S fuel =>
      match iter frontier with
      | [] => Some true
      | state :: _ =>
          let frontier := frontier ∖ {[state]} in
          let explored := explored ∪ {[state]} in
          if decide (0 < size (get_outputs d state))%nat then Some false
          else
            frontier ← sink_scan d state explored frontier;
            is_sink_loop fuel d explored frontier
      end
  end.

(** Each pass explores a new index of the table, and a list of [n] rows has
    [2 * n] indices (negative ones included). *)
Definition is_sink_fuel (d : t) : nat := S (S (2 * length (transitions d))).

Definition is_sink_state (d : t) (state : Z) : option bool :=
  is_sink_loop (is_sink_fuel d) d ∅ {[state]}.

End with_order.

(** The state of the product construction: the DFA being built, [state_map]
    and [frontier]. *)
Record builder (K : Type) `{Countable K} := mk_builder {
  dfa : t;
  state_map : gmap K Z;
  frontier : list K
}.
Global Arguments mk_builder {K _ _} _ _ _.
Global Arguments dfa {K _ _} _.
Global Arguments state_map {K _ _} _.
Global Arguments frontier {K _ _} _.

(** [if key not in state_map: state_map[key] = dfa.add_state(); frontier.append(key)] *)
Definition intern {K} `{Countable K} (st : builder K) (key : K) : builder K :=
  match state_map st !! key with
  | Some _ => st
  | None =>
      let '(d, q) := add_state (dfa st) in
      mk_builder d (<[key:=q]> (state_map st)) (key :: frontier st)
  end.

(** [frontier.pop()] *)
Definition pop {K} `{Countable K} (st : builder K) : option (K * builder K) :=
  match frontier st with
  | [] => None
  | key :: rest => Some (key, mk_builder (dfa st) (state_map st) rest)
  end.

(** [dfa.transitions[state][symbol] = state_map[key]] *)
Definition connect {K} `{Countable K} (st : builder K) (state symbol : Z) (key : K)
    : option (builder K) :=
  q ← state_map st !! key;
  d ← set_transition (dfa st) state symbol q;
  Some (mk_builder d (state_map st) (frontier st)).

(** The body of [for symbol in range(0, NUM_CHARS)] in [union]. *)
Definition union_symbol (lhs rhs : t) (pr : Z * Z) (state : Z)
    (st : builder (Z * Z)) (symbol : Z) : option (builder (Z * Z)) :=
  l ← lookup lhs pr.1 symbol;
  r ← lookup rhs pr.2 symbol;
  let next_pair := (l, r) in
  connect (intern st next_pair) state symbol next_pair.

(** The [if len(lhs_outputs) > 0 or len(rhs_outputs) > 0] block of [union]. *)
Definition union_outputs (lhs rhs : t) (pr : Z * Z) (state : Z) (d : t) : t :=
  let lhs_outputs := get_outputs lhs pr.1 in
  let rhs_outputs := get_outputs rhs pr.2 in
  if decide ((0 < size lhs_outputs)%nat ∨ (0 < size rhs_outputs)%nat) then
    let outs := match outputs d !! state with
                | Some _ => outputs d
                | None => <[state:=∅]> (outputs d)
                end in
    let outs := alter (λ T, T ∪ lhs_outputs) state outs in
    let outs := alter (λ T, T ∪ rhs_outputs) state outs in
    mk (transitions d) outs (initial_state d)
  else d.

(** The body of the [while] loop of [union]. *)
Definition union_body (lhs rhs : t) (pr : Z * Z) (st : builder (Z * Z))
    : option (builder (Z * Z)) :=
  state ← state_map st !! pr;
  st ← Py.for_each (union_symbol lhs rhs pr state) st (Py.range 0 NUM_CHARS);
  Some (mk_builder (union_outputs lhs rhs pr state (dfa st)) (state_map st) (frontier st)).

(** Every integer a DFA mentions as a state. *)
Definition mentioned (d : t) : gset Z :=
  {[initial_state d]} ∪ list_to_set (concat (transitions d)).

(** Each pass of [union] takes one pair off the frontier, and a pair enters the
    frontier once. *)
Definition union_fuel (lhs rhs : t) : nat :=
  S (size (cprod (mentioned lhs) (mentioned rhs))).

Definition union_start (lhs rhs : t) : builder (Z * Z) :=
  let '(d, q) := add_state new in
  let d := mk (transitions d) (outputs d) q in
  let pr := (initial_state lhs, initial_state rhs) in
  mk_builder d (<[pr:=initial_state d]> ∅) [pr].

(** [union], with the [state_map] it ends with. *)
Definition union_run (lhs rhs : t) : option (builder (Z * Z)) :=
  Py.while_pop pop (union_body lhs rhs) (union_fuel lhs rhs) (union_start lhs rhs).

Definition union (lhs rhs : t) : option t := dfa <$> union_run lhs rhs.

(** [minimize] returns the automaton itself. *)
Definition minimize (d : t) : t := d.

(** *** The language of a DFA

    States are the row indices [0 .. |Q|-1]; the transition from [s] on the
    byte [c] is defined when the entry of the table is not the sentinel [-1];
    a state is accepting when its entry in [outputs] is a non-empty set. *)
Definition num_states (d : t) : Z := Z.of_nat (length (transitions d)).
Definition is_state (d : t) (s : Z) : Prop := 0 ≤ s < num_states d.

Definition step (d : t) (s c : Z) : option Z :=
  if decide (is_state d s ∧ is_byte c) then
    s' ← lookup d s c; if decide (s' = -1) then None else Some s'
  else None.

Fixpoint run (d : t) (s : Z) (w : list Z) : option Z :=
  match w with
  | [] => Some s
  | c :: w => s' ← step d s c; run d s' w
  end.

Definition accepting (d : t) (s : Z) : Prop := get_outputs d s ≠ ∅.

Definition accepts (d : t) (w : list Z) : Prop :=
  ∃ s, run d (initial_state d) w = Some s ∧ accepting d s.

(** The data-model invariant: rows of [NUM_CHARS] entries, each [-1] or a
    state; the initial state and the keys of [outputs] are states. *)
Definition invariant (d : t) : Prop :=
  is_state d (initial_state d)
  ∧ Forall (λ row, length row = Z.to_nat NUM_CHARS
                   ∧ Forall (λ s, s = -1 ∨ is_state d s) row) (transitions d)
  ∧ map_Forall (λ s _, is_state d s) (outputs d).

(** A DFA whose table has no [-1] left. *)
Definition complete (d : t) : Prop :=
  is_state d (initial_state d)
  ∧ Forall (λ row, length row = Z.to_nat NUM_CHARS ∧ Forall (is_state d) row)
      (transitions d).

(** A complete DFA whose [outputs] maps states to non-empty sets. *)
Definition well_formed (d : t) : Prop :=
  complete d ∧ map_Forall (λ s T, is_state d s ∧ T ≠ ∅) (outputs d).

End DFA.

Module NFA.

Record t := mk {
  next_state : Z;
  transitions : gmap (Z * Z) (gset Z);
  outputs : gmap Z (gset Z);
  initial_state : Z
}.

(** [NFA()] *)
Definition new : t := mk (-1) ∅ ∅ (-1).

Definition add_state (n : t) : t * Z :=
  (mk (next_state n + 1) (transitions n) (outputs n) (initial_state n), next_state n + 1).

Definition add_transition (n : t) (old_state new_state symbol : Z) : t :=
  let key := (old_state, symbol) in
  let trans := match transitions n !! key with
               | Some _ => transitions n
               | None => <[key:=∅]> (transitions n)
               end in
  mk (next_state n) (alter (λ T, T ∪ {[new_state]}) key trans) (outputs n) (initial_state n).

(** Every state some transition leads to, and the number of transitions. *)
Definition targets (n : t) : gset Z := ⋃ (snd <$> map_to_list (transitions n)).
Definition mentioned (n : t) : gset Z := {[initial_state n]} ∪ targets n.
Definition edge_count (n : t) : nat :=
  sum_list_with (λ kv : Z * Z * gset Z, size kv.2) (map_to_list (transitions n)).

(** *** The language of an NFA

    A path consumes a byte on a transition labelled with it and nothing on an
    ε-transition; a state is accepting when it is a key of [outputs]. *)
Definition delta (n : t) (s c : Z) : gset Z := default ∅ (transitions n !! (s, c)).

Inductive path (n : t) : Z → list Z → Z → Prop :=
  | path_nil s : path n s [] s
  | path_eps s s' u w :
      s' ∈ delta n s EPSILON → path n s' w u → path n s w u
  | path_sym s c s' u w :
      is_byte c → s' ∈ delta n s c → path n s' w u → path n s (c :: w) u.

Definition accepting (n : t) (s : Z) : Prop := is_Some (outputs n !! s).

Definition accepts (n : t) (w : list Z) : Prop :=
  ∃ u, path n (initial_state n) w u ∧ accepting n u.

(** No key of [transitions] has the symbol [EPSILON]. *)
Definition epsilon_free (n : t) : Prop := ∀ s, transitions n !! (s, EPSILON) = None.

(** The initial state is one of the states [add_state] handed out. *)
Definition valid_initial (n : t) : Prop := 0 ≤ initial_state n ≤ next_state n.

Section with_order.
Context `{IterOrder}.

(** The [for state in transitions[key]] loop of [epsilon_closure]. *)
Definition closure_push (closure : gset Z) (frontier : list Z) (states : gset Z) : list Z :=
  foldl (λ frontier state, if decide (state ∈ closure) then frontier else state :: frontier)
    frontier (iter states).

(** [frontier.pop()] on the pair of [closure] and [frontier]. *)
Definition closure_pop (st : gset Z * list Z) : option (Z * (gset Z * list Z)) :=
  match st.2 with
  | [] => None
  | state :: frontier => Some (state, (st.1, frontier))
  end.

(** The body of the [while] loop of [epsilon_closure]. *)
Definition closure_body (n : t) (state : Z) (st : gset Z * list Z)
    : option (gset Z * list Z) :=
  let closure := st.1 ∪ {[state]} in
  match transitions n !! (state, EPSILON) with
  | None => Some (closure, st.2)
  | Some states => Some (closure, closure_push closure st.2 states)
  end.

(** A state joins the closure once, and leaves at most one frontier entry per
    target behind. *)
Definition closure_fuel (n : t) : nat :=
  let u := S (size (targets n)) in S (S (u * S u)).

Definition epsilon_closure (n : t) (state : Z) : option (gset Z) :=
  fst <$> Py.while_pop closure_pop (closure_body n) (closure_fuel n) (∅, [state]).

(** The state of [remove_epsilons]: the new NFA, [state_ids], [frontier] and
    [explored]. *)
Record eps_builder := mk_eps {
  nfa : t;
  state_ids : gmap Z Z;
  frontier : list Z;
  explored : gset Z
}.

Definition get_new_state (st : eps_builder) (state : Z) : eps_builder * Z :=
  match state_ids st !! state with
  | Some q => (st, q)
  | None =>
      let '(n, q) := add_state (nfa st) in
      (mk_eps n (<[state:=q]> (state_ids st)) (frontier st) (explored st), q)
  end.

(** The body of [for next_state in states]. *)
Definition eps_target (new_state symbol : Z) (st : eps_builder) (next_state : Z)
    : eps_builder :=
  let '(st, new_next_state) := get_new_state st next_state in
  mk_eps (add_transition (nfa st) new_state new_next_state symbol)
    (state_ids st) (next_state :: frontier st) (explored st).

(** The body of [for (s, symbol), states in self.transitions.items()]. *)
Definition eps_item (intermediate_state new_state : Z) (st : eps_builder)
    (item : Z * Z * gset Z) : eps_builder :=
  let '((s, symbol), states) := item in
  if decide (s ≠ intermediate_state ∨ symbol = EPSILON) then st
  else foldl (eps_target new_state symbol) st (iter states).

(** The body of [for intermediate_state in self.epsilon_closure(state)]. *)
Definition eps_intermediate (self : t) (new_state : Z) (st : eps_builder)
    (intermediate_state : Z) : eps_builder :=
  let st :=
    match outputs self !! intermediate_state with
    | Some tags =>
        let n := nfa st in
        mk_eps (mk (next_state n) (transitions n) (<[new_state:=tags]> (outputs n))
                  (initial_state n))
          (state_ids st) (frontier st) (explored st)
    | None => st
    end in
  foldl (eps_item intermediate_state new_state) st (items (transitions self)).

Definition eps_pop (st : eps_builder) : option (Z * eps_builder) :=
  match frontier st with
  | [] => None
  | state :: rest => Some (state, mk_eps (nfa st) (state_ids st) rest (explored st))
  end.

(** The body of the [while] loop of [remove_epsilons]. *)
Definition remove_eps_body (self : t) (state : Z) (st : eps_builder) : option eps_builder :=
  if decide (state ∈ explored st) then Some st
  else
    let st := mk_eps (nfa st) (state_ids st) (frontier st) (explored st ∪ {[state]}) in
    let '(st, new_state) := get_new_state st state in
    closure ← epsilon_closure self state;
    Some (foldl (eps_intermediate self new_state) st (iter closure)).

(** An unexplored state is explored once and pushes at most one frontier entry
    per state of its closure and transition of the automaton. *)
Definition remove_eps_fuel (n : t) : nat :=
  let u := size (mentioned n) in S (S (u * S (u * edge_count n))).

Definition remove_eps_start (self : t) : eps_builder :=
  let '(st, q) := get_new_state (mk_eps new ∅ [] ∅) (initial_state self) in
  let n := nfa st in
  mk_eps (mk (next_state n) (transitions n) (outputs n) q)
    (state_ids st) [initial_state self] ∅.

(** [remove_epsilons], with the bookkeeping it ends with. *)
Definition remove_epsilons_run (self : t) : option eps_builder :=
  Py.while_pop eps_pop (remove_eps_body self) (remove_eps_fuel self) (remove_eps_start self).

Definition remove_epsilons (self : t) : option t :=
  nfa <$> remove_epsilons_run self.

(** [next_states] after the [for state in states] loop of [get_dfa]. *)
Definition next_states (n : t) (states : gset Z) (symbol : Z) : gset Z :=
  foldl (λ acc state, acc ∪ default ∅ (transitions n !! (state, symbol))) ∅ (iter states).

(** The body of [for symbol in range(0, NUM_CHARS)] in [get_dfa]. *)
Definition get_dfa_symbol (n : t) (states : gset Z) (st : DFA.builder (gset Z))
    (symbol : Z) : option (DFA.builder (gset Z)) :=
  let next := next_states n states symbol in
  let st := DFA.intern st next in
  src ← DFA.state_map st !! states;
  DFA.connect st src symbol next.

(** [outputs] after the second [for state in states] loop of [get_dfa]. *)
Definition collect_outputs (n : t) (states : gset Z) : gset Z :=
  foldl (λ acc state, acc ∪ default ∅ (outputs n !! state)) ∅ (iter states).

(** [if len(outputs) > 0: dfa.outputs[state_map[states]] = outputs] *)
Definition get_dfa_outputs (n : t) (states : gset Z) (st : DFA.builder (gset Z))
    : option (DFA.builder (gset Z)) :=
  let outs := collect_outputs n states in
  if decide (0 < size outs)%nat then
    q ← DFA.state_map st !! states;
    let d := DFA.dfa st in
    Some (DFA.mk_builder
            (DFA.mk (DFA.transitions d) (<[q:=outs]> (DFA.outputs d)) (DFA.initial_state d))
            (DFA.state_map st) (DFA.frontier st))
  else Some st.

(** The body of the [while] loop of [get_dfa]. *)
Definition get_dfa_body (n : t) (states : gset Z) (st : DFA.builder (gset Z))
    : option (DFA.builder (gset Z)) :=
  st ← Py.for_each (get_dfa_symbol n states) st (Py.range 0 NUM_CHARS);
  get_dfa_outputs n states st.

(** Each pass takes one set of states off the frontier, and a set enters the
    frontier once. *)
Definition get_dfa_fuel (n : t) : nat := S (size (powerset (mentioned n))).

Definition get_dfa_start (n : t) : DFA.builder (gset Z) :=
  let '(d, q) := DFA.add_state DFA.new in
  let d := DFA.mk (DFA.transitions d) (DFA.outputs d) q in
  let states : gset Z := {[initial_state n]} in
  DFA.mk_builder d (<[states:=DFA.initial_state d]> ∅) [states].

(** [get_dfa], with the [state_map] it ends with. *)
Definition get_dfa_run (n : t) : option (DFA.builder (gset Z)) :=
  Py.while_pop DFA.pop (get_dfa_body n) (get_dfa_fuel n) (get_dfa_start n).

Definition get_dfa (n : t) : option DFA.t := DFA.dfa <$> get_dfa_run n.

End with_order.

End NFA.

(** ** lexer.py *)

Module Lexer.

(** What [get_next_token] does: return a terminal and a value, or raise
    [LexerError]. *)
Inductive outcome :=
  | Return (terminal : Z) (value : option (list Z))
  | LexerError.

(** A [Lexer] object; [source] is held as the list of the code points
    [ord(c)] of its characters. *)
Record t := mk {
  transitions : gmap (Z * Z) Z;
  initial_state : Z;
  outputs : gmap Z Z;
  source : list Z;
  position : Z
}.

(** [source[a:b]] for [0 ≤ a]. *)
Definition slice (source : list Z) (a b : Z) : list Z :=
  take (Z.to_nat (b - a)) (drop (Z.to_nat a) source).

(** The [for c in self.source[old_position:]] loop; it returns [lexeme] and
    [new_position]. *)
Fixpoint scan (self : t) (state position new_position : Z) (lexeme : option Z)
    (rest : list Z) : option Z * Z :=
  match rest with
  | [] => (lexeme, new_position)
  | c :: rest =>
      match transitions self !! (state, c) with
      | None => (lexeme, new_position)
      | Some next_state =>
          let '(lexeme, new_position) :=
            match outputs self !! next_state with
            | Some out => (Some out, position + 1)
            | None => (lexeme, new_position)
            end in
          scan self next_state (position + 1) new_position lexeme rest
      end
  end.

Section with_end.
(** The reserved terminal [END] of the module [parser]. *)
Variable END : Z.

Definition get_next_token (self : t) : outcome * t :=
  if decide (Z.of_nat (length (source self)) ≤ position self) then (Return END None, self)
  else
    let state := initial_state self in
    let old_position := position self in
    let '(lexeme, new_position) :=
      match outputs self !! state with
      | Some out => (Some out, old_position + 1)
      | None => (None, old_position)
      end in
    let '(lexeme, new_position) :=
      scan self state old_position new_position lexeme
        (drop (Z.to_nat old_position) (source self)) in
    match lexeme with
    | None => (LexerError, self)
    | Some lexeme =>
        (Return lexeme (Some (slice (source self) old_position new_position)),
         mk (transitions self) (initial_state self) (outputs self) (source self)
           new_position)
    end.

End with_end.

(** Whitespace token that the lexer will ignore. *)
Definition WHITESPACE : Z := 0.

Section lex.
Variable END : Z.

(** The [while True] loop of [lex]; [None] when the fuel is used up. *)
Fixpoint lex_loop (fuel : nat) (self : t) : option (outcome * t) :=
  match fuel with
  | O => None
  | S fuel =>
      let '(token, self) := get_next_token END self in
      match token with
      | Return terminal value =>
          if decide (terminal ≠ WHITESPACE) then Some (token, self) else lex_loop fuel self
      | LexerError => Some (LexerError, self)
      end
  end.

(** A token that is not [END] moves the position forward by a character at
    least. *)
Definition lex_fuel (self : t) : nat :=
  S (S (Z.to_nat (Z.of_nat (length (source self)) - position self))).

Definition lex (self : t) : option (outcome * t) := lex_loop (lex_fuel self) self.

End lex.

End Lexer.

(** ** regexpr.py: the hand-written lexer *)

Module Regexpr.

(** The terminals of the grammar of regular expressions, and [END]. *)
Inductive terminal :=
  | END | BAR | ASTERISK | PLUS | QUESTION | CHAR
  | LPAREN | RPAREN | LSQUARE | RSQUARE | CARET | HYPHEN.

(** Code points of the characters the lexer looks at. *)
Definition ord_backslash : Z := 92.
Definition ord_x : Z := 120.
Definition ord_n : Z := 110.
Definition ord_t : Z := 116.

(** [SPECIAL_CHARS], keyed by code point. *)
Definition SPECIAL_CHARS (c : Z) : option terminal :=
  if decide (c = 124) then Some BAR
  else if decide (c = 42) then Some ASTERISK
  else if decide (c = 43) then Some PLUS
  else if decide (c = 63) then Some QUESTION
  else if decide (c = 40) then Some LPAREN
  else if decide (c = 41) then Some RPAREN
  else if decide (c = 91) then Some LSQUARE
  else if decide (c = 93) then Some RSQUARE
  else if decide (c = 94) then Some CARET
  else if decide (c = 45) then Some HYPHEN
  else None.

(** The value of a character of [HEXADECIMAL_CHARS], [None] for any other. *)
Definition hex_value (c : Z) : option Z :=
  if decide (48 ≤ c ≤ 57) then Some (c - 48)
  else if decide (97 ≤ c ≤ 102) then Some (c - 87)
  else if decide (65 ≤ c ≤ 70) then Some (c - 55)
  else None.

(** [c in HEXADECIMAL_CHARS] *)
Definition is_hex (c : Z) : bool := bool_decide (is_Some (hex_value c)).

(** [int('0x' + digits, base=16)] on hexadecimal digits. *)
Definition int_hex (digits : list Z) : Z :=
  foldl (λ acc c, 16 * acc + default 0 (hex_value c)) 0 digits.

Definition get_codepoint (c : list Z) : option Z :=
  if decide (c = [ord_backslash; ord_n]) then Some 10
  else if decide (c = [ord_backslash; ord_t]) then Some 9
  else match c with
       | c0 :: c1 :: rest =>
           if decide (c0 = ord_backslash ∧ c1 = ord_x) then Some (int_hex rest)
           else if decide (c0 = ord_backslash) then Some c1
           else Some c0
       | [c0] => if decide (c0 = ord_backslash) then None else Some c0
       | [] => None
       end.

(** What a call does: return a value, or raise one of two exceptions. *)
Inductive result (A : Type) :=
  | Ok (a : A)
  | LexerError
  | IndexError.
Global Arguments Ok {A} _.
Global Arguments LexerError {A}.
Global Arguments IndexError {A}.

Record t := mk { source : list Z; position : Z }.

(** The states of the lexer; [None] in the source ends the token. *)
Inductive state := state0 | state1 | state2 | state3.

Definition step (s : state) (c : Z) : result (option state) :=
  match s with
  | state0 => if decide (c = ord_backslash) then Ok (Some state1) else Ok None
  | state1 => if decide (c = ord_x) then Ok (Some state2) else Ok None
  | state2 => if is_hex c then Ok (Some state3) else LexerError
  | state3 => if is_hex c then Ok None else LexerError
  end.

Definition consume (self : t) : result (Z * t) :=
  match Py.getitem (source self) (position self) with
  | Some c => Ok (c, mk (source self) (position self + 1))
  | None => IndexError
  end.

(** The [while state is not None] loop; no token has more than four
    characters. *)
Fixpoint lex_loop (fuel : nat) (s : state) (self : t) : option (result t) :=
  match fuel with
  | O => None
  | S fuel =>
      match consume self with
      | Ok (c, self) =>
          match step s c with
          | Ok (Some s) => lex_loop fuel s self
          | Ok None => Some (Ok self)
          | LexerError => Some LexerError
          | IndexError => Some IndexError
          end
      | LexerError => Some LexerError
      | IndexError => Some IndexError
      end
  end.

(** [SPECIAL_CHARS.get(value, CHAR)] *)
Definition classify (value : list Z) : terminal :=
  match value with
  | [c] => default CHAR (SPECIAL_CHARS c)
  | _ => CHAR
  end.

Definition lex (self : t) : option (result (terminal * option Z * t)) :=
  if decide (Z.of_nat (length (source self)) ≤ position self) then
    Some (Ok (END, None, self))
  else
    let prev_position := position self in
    r ← lex_loop 4 state0 self;
    match r with
    | Ok self =>
        let value := Lexer.slice (source self) prev_position (position self) in
        match get_codepoint value with
        | Some cp => Some (Ok (classify value, Some cp, self))
        | None => Some IndexError
        end
    | LexerError => Some LexerError
    | IndexError => Some IndexError
    end.

End Regexpr.

(** ** regexpr.py: the reduction callbacks *)

Module Reductions.

(** The values on the stack of the parser: the code point of a token, the
    pair of the entry and the exit state of a part of the NFA, a set of
    characters, and the DFA that [accept] returns. *)
Inductive term :=
  | Codepoint (c : Z)
  | Fragment (entry exit : Z)
  | Chars (chars : gset Z)
  | Automaton (dfa : DFA.t).

(** [terms[i]] where the callback uses a pair of states, a code point or a
    set of characters; a term of another shape is not modelled ([None], as an
    index out of range). *)
Definition fragment (terms : list term) (i : Z) : option (Z * Z) :=
  t ← Py.getitem terms i;
  match t with Fragment entry exit => Some (entry, exit) | _ => None end.

Definition codepoint (terms : list term) (i : Z) : option Z :=
  t ← Py.getitem terms i;
  match t with Codepoint c => Some c | _ => None end.

Definition chars (terms : list term) (i : Z) : option (gset Z) :=
  t ← Py.getitem terms i;
  match t with Chars X => Some X | _ => None end.

(** A callback gets [terms] and the [context], the pair of the NFA under
    construction and the terminal of the token; it returns a term, and the
    NFA as it has left it. *)
Definition context : Type := NFA.t * Z.
Definition callback : Type := list term → context → option (term * NFA.t).

Section with_order.
Context `{IterOrder}.

Definition accept : callback := λ terms context,
  let '(nfa, output) := context in
  '(q0, q1) ← fragment terms 0;
  let nfa :=
    NFA.mk (NFA.next_state nfa) (NFA.transitions nfa)
      (<[q1:={[output]}]> (NFA.outputs nfa)) q0 in
  nfa' ← NFA.remove_epsilons nfa;
  dfa ← NFA.get_dfa nfa';
  Some (Automaton dfa, nfa).

Definition r1 : callback := λ terms context,
  let '(nfa, _) := context in
  '(qa, qb) ← fragment terms 0;
  '(qc, qd) ← fragment terms 2;
  let '(nfa, q0) := NFA.add_state nfa in
  let '(nfa, q1) := NFA.add_state nfa in
  let nfa := NFA.add_transition nfa q0 qa EPSILON in
  let nfa := NFA.add_transition nfa q0 qc EPSILON in
  let nfa := NFA.add_transition nfa qb q1 EPSILON in
  let nfa := NFA.add_transition nfa qd q1 EPSILON in
  Some (Fragment q0 q1, nfa).

Definition r2 : callback := λ terms context,
  t ← Py.getitem terms 0; Some (t, context.1).

Definition r3 : callback := λ terms context,
  let '(nfa, _) := context in
  '(qa, qb) ← fragment terms 0;
  '(qc, qd) ← fragment terms 1;
  let nfa := NFA.add_transition nfa qb qc EPSILON in
  Some (Fragment qa qd, nfa).

Definition r4 : callback := λ terms context,
  t ← Py.getitem terms 0; Some (t, context.1).

Definition r5 : callback := λ terms context,
  t ← Py.getitem terms 0; Some (t, context.1).

Definition r6 : callback := λ terms context,
  let '(nfa, _) := context in
  '(qa, qb) ← fragment terms 0;
  let '(nfa, q0) := NFA.add_state nfa in
  let '(nfa, q1) := NFA.add_state nfa in
  let nfa := NFA.add_transition nfa q0 q1 EPSILON in
  let nfa := NFA.add_transition nfa qb qa EPSILON in
  let nfa := NFA.add_transition nfa q0 qa EPSILON in
  let nfa := NFA.add_transition nfa qb q1 EPSILON in
  Some (Fragment q0 q1, nfa).

Definition r7 : callback := λ terms context,
  let '(nfa, _) := context in
  '(qa, qb) ← fragment terms 0;
  let '(nfa, q0) := NFA.add_state nfa in
  let '(nfa, q1) := NFA.add_state nfa in
  let nfa := NFA.add_transition nfa q0 qa EPSILON in
  let nfa := NFA.add_transition nfa qb q1 EPSILON in
  let nfa := NFA.add_transition nfa qb qa EPSILON in
  Some (Fragment q0 q1, nfa).

Definition r8 : callback := λ terms context,
  let '(nfa, _) := context in
  '(qa, qb) ← fragment terms 0;
  let '(nfa, q0) := NFA.add_state nfa in
  let '(nfa, q1) := NFA.add_state nfa in
  let nfa := NFA.add_transition nfa q0 qa EPSILON in
  let nfa := NFA.add_transition nfa qb q1 EPSILON in
  let nfa := NFA.add_transition nfa q0 q1 EPSILON in
  Some (Fragment q0 q1, nfa).

Definition r9 : callback := λ terms context,
  let '(nfa, _) := context in
  let '(nfa, q0) := NFA.add_state nfa in
  let '(nfa, q1) := NFA.add_state nfa in
  c ← codepoint terms 0;
  let nfa := NFA.add_transition nfa q0 q1 c in
  Some (Fragment q0 q1, nfa).

Definition r10 : callback := λ terms context,
  t ← Py.getitem terms 1; Some (t, context.1).

Definition r11 : callback := λ terms context,
  let '(nfa, _) := context in
  let '(nfa, q0) := NFA.add_state nfa in
  let '(nfa, q1) := NFA.add_state nfa in
  X ← chars terms 1;
  let nfa := foldl (λ nfa c, NFA.add_transition nfa q0 q1 c) nfa (iter X) in
  Some (Fragment q0 q1, nfa).

Definition r12 : callback := λ terms context,
  X ← chars terms 0; Y ← chars terms 2; Some (Chars (X ∖ Y), context.1).

Definition r13 : callback := λ terms context,
  t ← Py.getitem terms 0; Some (t, context.1).

(** [chars.update(terms[1])] changes the set [terms[0]] itself, which the
    parser has taken off its stack. *)
Definition r14 : callback := λ terms context,
  X ← chars terms 0; Y ← chars terms 1; Some (Chars (X ∪ Y), context.1).

Definition r15 : callback := λ terms context,
  t ← Py.getitem terms 0; Some (t, context.1).

Definition r16 : callback := λ terms context,
  lo ← codepoint terms 0; hi ← codepoint terms 2;
  Some (Chars (list_to_set (Py.range lo (1 + hi))), context.1).

Definition r17 : callback := λ terms context,
  c ← codepoint terms 0; Some (Chars {[c]}, context.1).

End with_order.

End Reductions.

(** ** lexergen.py *)

Module Lexergen.

Section with_parser.
Context `{IterOrder}.

(** [self.parser.parse], of the module [parser]: from a regular expression
    (the code points of its characters) and a terminal to a DFA, or an
    exception. *)
Variable parse : list Z → Z → option DFA.t.

(** The raw string [r'[ \n\t]+']. *)
Definition whitespace_expr : list Z := [91; 32; 92; 110; 92; 116; 93; 43].

Definition get_whitespace_dfa : option DFA.t := parse whitespace_expr Lexer.WHITESPACE.

Definition compute_dfa (tokens : list (Z * list Z)) : option DFA.t :=
  dfa ← get_whitespace_dfa;
  dfa ← Py.for_each
           (λ dfa token, other ← parse token.2 token.1; DFA.union dfa other)
           dfa tokens;
  Some (DFA.minimize dfa).

End with_parser.

(** What [print_dfa] prints, without the text around it: the initial state,
    the lines [(state, c):next_state] of the transition table, the lines
    [state:terminal] of the outputs, in the order of printing, and the number
    of conflicts. *)
Record printed := mk_printed {
  printed_initial_state : Z;
  printed_transitions : list (Z * Z * Z);
  printed_outputs : list (Z * Z);
  printed_conflicts : Z
}.

(** The exceptions of [print_dfa]: an index out of range, and [pop] on an
    empty set. *)
Inductive result (A : Type) :=
  | Ok (a : A)
  | IndexError
  | KeyError.
Global Arguments Ok {A} _.
Global Arguments IndexError {A}.
Global Arguments KeyError {A}.

Section print_dfa.
Context `{IterOrder}.

(** The first loop of [print_dfa]. *)
Definition sink_states (dfa : DFA.t) : option (gset Z) :=
  Py.for_each
    (λ sink_states state,
       b ← DFA.is_sink_state dfa state;
       Some (if b : bool then sink_states ∪ {[state]} else sink_states))
    ∅ (Py.range 0 (DFA.num_states dfa)).

(** The body of the loop over the states that prints the table. *)
Definition print_row (dfa : DFA.t) (sink_states : gset Z) (lines : list (Z * Z * Z))
    (state : Z) : option (list (Z * Z * Z)) :=
  if decide (state ∈ sink_states) then Some lines
  else
    Py.for_each
      (λ lines c,
         next_state ← DFA.lookup dfa state c;
         Some (if decide (next_state ∈ sink_states) then lines
               else lines ++ [(state, c, next_state)]))
      lines (Py.range 0 NUM_CHARS).

(** The body of the loop over [dfa.outputs.items()], on the lines printed,
    [num_conflicts] and [dfa.outputs]: [terminals.pop()] takes the terminal
    out of the set that [dfa.outputs] holds, and raises [KeyError] ([None])
    on an empty set. *)
Definition print_output (acc : list (Z * Z) * Z * gmap Z (gset Z)) (item : Z * gset Z)
    : option (list (Z * Z) * Z * gmap Z (gset Z)) :=
  let '(lines, num_conflicts, outputs) := acc in
  let '(state, terminals) := item in
  if decide (1 < size terminals)%nat then
    Some (lines ++ ((λ terminal, (state, terminal)) <$> iter terminals),
          num_conflicts + 1, outputs)
  else
    match iter terminals with
    | [] => None
    | terminal :: _ =>
        Some (lines ++ [(state, terminal)], num_conflicts,
              <[state:=terminals ∖ {[terminal]}]> outputs)
    end.

(** [print_dfa], with the DFA as it leaves it; what was printed before an
    exception is not kept. *)
Definition print_dfa (dfa : DFA.t) : result (printed * DFA.t) :=
  match sink_states dfa with
  | None => IndexError
  | Some sinks =>
      match Py.for_each (print_row dfa sinks) [] (Py.range 0 (DFA.num_states dfa)) with
      | None => IndexError
      | Some transitions =>
          match Py.for_each print_output ([], 0, DFA.outputs dfa)
                  (items (DFA.outputs dfa)) with
          | None => KeyError
          | Some (lines, num_conflicts, outputs) =>
              Ok (mk_printed (DFA.initial_state dfa) transitions lines num_conflicts,
                  DFA.mk (DFA.transitions dfa) outputs (DFA.initial_state dfa))
          end
      end
  end.

End print_dfa.

End Lexergen.

(** ** parsergen.py *)

Module Parsergen.

(** The dataclass [Production]. *)
Record Production := mk_production {
  index : Z;
  lhs : Z;
  rhs : list Z
}.

Global Instance Production_eq_dec : EqDecision Production.
Proof. solve_decision. Defined.

Global Instance Production_countable : Countable Production.
Proof.
  apply (inj_countable' (λ p, (index p, lhs p, rhs p))
           (λ t, mk_production t.1.1 t.1.2 t.2)).
  by intros [].
Defined.

(** The dataclass [Item]. *)
Record Item := mk_item {
  rule : Production;
  cursor : nat;
  lookahead : Z
}.

Global Instance Item_eq_dec : EqDecision Item.
Proof. solve_decision. Defined.

Global Instance Item_countable : Countable Item.
Proof.
  apply (inj_countable' (λ i, (rule i, cursor i, lookahead i))
           (λ t, mk_item t.1.1 t.1.2 t.2)).
  by intros [].
Defined.

Definition has_successor (item : Item) : bool :=
  bool_decide (cursor item < length (rhs (rule item)))%nat.

Definition get_successor (item : Item) : Item :=
  mk_item (rule item) (cursor item + 1) (lookahead item).

(** [self.rule.rhs[self.cursor]] *)
Definition get_locus (item : Item) : option Z :=
  Py.getitem (rhs (rule item)) (Z.of_nat (cursor item)).

(** The action kinds [SHIFT], [REDUCE], [ACCEPT] and [GOTO] of the module
    [parser]. *)
Inductive action_kind := SHIFT | REDUCE | ACCEPT | GOTO.

Global Instance action_kind_eq_dec : EqDecision action_kind.
Proof. solve_decision. Defined.

Global Instance action_kind_countable : Countable action_kind.
Proof.
  apply (inj_countable' (λ k, match k with SHIFT => 0 | REDUCE => 1 | ACCEPT => 2 | GOTO => 3 end)
           (λ z, if decide (z = 0) then SHIFT else if decide (z = 1) then REDUCE
                 else if decide (z = 2) then ACCEPT else GOTO)).
  by intros [].
Defined.

(** An LR(1) state, and the data of an action of the table [generate]
    builds: a state for [SHIFT] and [GOTO], the index of a production for
    [REDUCE] and [ACCEPT]. *)
Definition lr_state : Type := gset Item.

Inductive action_data :=
  | to_state (next_state : gset Item)
  | to_rule (index : Z).

Global Instance action_data_eq_dec : EqDecision action_data.
Proof. solve_decision. Defined.

Global Instance action_data_countable : Countable action_data.
Proof.
  apply (inj_countable' (λ d, match d with to_state s => inl s | to_rule i => inr i end)
           (λ s, match s with inl s => to_state s | inr i => to_rule i end)).
  by intros [].
Defined.

(** A [ParserGenerator].

    Modelled from the spec: the classes [TerminalSet] and [NonTerminalSet] of
    the module [parser], which is not among the sources, as finite sets of
    integers; [x in s] is membership and [len(s)] the number of elements.
    The reserved symbols [END], [NIL] and [GOAL] of that module are variables
    of the sections below. *)
Record t := mk {
  terminals : gset Z;
  non_terminals : gset Z;
  rules : list Production;
  first : list (gset Z)
}.

(** The rules [__init__] builds from its argument (callbacks left out): the
    index of a production is its position. *)
Definition make_rules (input : list (Z * list Z)) : list Production :=
  imap (λ i r, mk_production (Z.of_nat i) r.1 r.2) input.

(** [table[key].add(x)] on a [defaultdict(set)]. *)
Definition table_add `{Countable K} `{Countable A} (table : gmap K (gset A)) (key : K) (x : A)
    : gmap K (gset A) :=
  <[key:=default ∅ (table !! key) ∪ {[x]}]> table.

(** [transitions[key].append(x)] on a [defaultdict(list)]. *)
Definition list_add `{Countable K} {A} (table : gmap K (list A)) (key : K) (x : A)
    : gmap K (list A) :=
  <[key:=default [] (table !! key) ++ [x]]> table.

Section with_symbols.
Context `{IterOrder}.
Variables END NIL GOAL : Z.

(** *** [compute_first_map] *)

(** The state of [compute_first_map]: [first] and [changed]. *)
Definition first_state : Type := list (gset Z) * bool.

(** The local function [insert]. *)
Definition insert (st : first_state) (non_terminal terminal : Z) : option first_state :=
  entry ← Py.getitem st.1 non_terminal;
  if decide (terminal ∈ entry) then Some st
  else
    first ← Py.setitem st.1 non_terminal (entry ∪ {[terminal]});
    Some (first, true).

(** The [for terminal in first[symbol]] loop; the second component is
    [nil_not_found].  The loop never changes the set it enumerates: what it
    inserts into the same set is already there. *)
Definition first_copy (non_terminal : Z) (st : first_state) (entry : gset Z)
    : option (first_state * bool) :=
  Py.for_each
    (λ (acc : first_state * bool) terminal,
       if decide (terminal = NIL) then Some (acc.1, false)
       else st ← insert acc.1 non_terminal terminal; Some (st, acc.2))
    (st, true) (iter entry).

(** The [for symbol in rule.rhs] loop; the second component is [empty]. *)
Fixpoint first_symbols (g : t) (non_terminal : Z) (st : first_state) (symbols : list Z)
    : option (first_state * bool) :=
  match symbols with
  | [] => Some (st, true)
  | symbol :: symbols =>
      if decide (symbol ∈ terminals g) then
        st ← insert st non_terminal symbol; Some (st, false)
      else
        entry ← Py.getitem st.1 symbol;
        '(st, nil_not_found) ← first_copy non_terminal st entry;
        if nil_not_found : bool then Some (st, false)
        else first_symbols g non_terminal st symbols
  end.

(** The body of [for rule in rules]. *)
Definition first_rule (g : t) (st : first_state) (rule : Production) : option first_state :=
  '(st, empty) ← first_symbols g (lhs rule) st (rhs rule);
  if empty : bool then insert st (lhs rule) NIL else Some st.

(** The [while changed] loop. *)
Fixpoint first_loop (fuel : nat) (g : t) (first : list (gset Z)) : option (list (gset Z)) :=
  match fuel with
  | O => None
  | S fuel =>
      '(first, changed) ← Py.for_each (first_rule g) (first, false) (rules g);
      if changed : bool then first_loop fuel g first else Some first
  end.

(** Every symbol of a right-hand side, and [NIL]: all that a FIRST set
    can hold. *)
Definition first_universe (g : t) : gset Z :=
  {[NIL]} ∪ list_to_set (concat (rhs <$> rules g)).

(** A pass that changes a set adds an element to it. *)
Definition first_fuel (g : t) : nat :=
  S (size (non_terminals g) * size (first_universe g)).

Definition compute_first_map (g : t) : option (list (gset Z)) :=
  first_loop (first_fuel g) g (replicate (size (non_terminals g)) ∅).

(** *** [closure] *)

(** The [for terminal in first[symbol]] loop of [closure]; the second
    component is [nil_not_found]. *)
Definition follow_copy (follow : gset Z) (entry : gset Z) : gset Z * bool :=
  foldl
    (λ (acc : gset Z * bool) terminal,
       if decide (terminal = NIL) then (acc.1, false) else (acc.1 ∪ {[terminal]}, acc.2))
    (follow, true) (iter entry).

(** The [while item.has_successor()] loop of [closure], over the symbols
    from the cursor of [item] on; the second component is [empty]. *)
Fixpoint follow_scan (g : t) (follow : gset Z) (symbols : list Z) : option (gset Z * bool) :=
  match symbols with
  | [] => Some (follow, true)
  | symbol :: symbols =>
      if decide (symbol ∈ terminals g) then Some (follow ∪ {[symbol]}, false)
      else
        entry ← Py.getitem (first g) symbol;
        let '(follow, nil_not_found) := follow_copy follow entry in
        if nil_not_found : bool then Some (follow, false)
        else follow_scan g follow symbols
  end.

(** The [for rule in rules] loop of [closure]. *)
Definition closure_expand (g : t) (non_terminal : Z) (follow : gset Z) (kernel : list Item)
    : list Item :=
  foldl
    (λ kernel rule,
       if decide (lhs rule ≠ non_terminal) then kernel
       else foldl (λ kernel symbol, mk_item rule 0 symbol :: kernel) kernel (iter follow))
    kernel (rules g).

Definition closure_pop (st : gset Item * list Item) : option (Item * (gset Item * list Item)) :=
  match st.2 with
  | [] => None
  | item :: kernel => Some (item, (st.1, kernel))
  end.

(** The body of the [while] loop of [closure], on [state] and [kernel]. *)
Definition closure_body (g : t) (item : Item) (st : gset Item * list Item)
    : option (gset Item * list Item) :=
  if decide (item ∈ st.1) then Some st
  else
    let state := st.1 ∪ {[item]} in
    if negb (has_successor item) then Some (state, st.2)
    else
      non_terminal ← get_locus item;
      if decide (non_terminal ∉ non_terminals g) then Some (state, st.2)
      else
        let item := get_successor item in
        '(follow, empty) ← follow_scan g ∅ (drop (cursor item) (rhs (rule item)));
        let follow := if empty : bool then follow ∪ {[lookahead item]} else follow in
        Some (state, closure_expand g non_terminal follow st.2).

(** [closure]; a [kernel] is a Python list, whose last element is the top of
    the stack, and [fuel] bounds the passes of the loop. *)
Definition closure (fuel : nat) (g : t) (kernel : list Item) : option (gset Item) :=
  fst <$> Py.while_pop closure_pop (closure_body g) fuel (∅, reverse kernel).

(** *** [generate] *)

(** The state of [generate]: [table], [explored] and [frontier]. *)
Record gen_state := mk_gen {
  table : gmap (gset Item * Z) (gset (action_kind * action_data));
  explored : gset (gset Item);
  frontier : list (gset Item)
}.

Definition gen_pop (st : gen_state) : option (gset Item * gen_state) :=
  match frontier st with
  | [] => None
  | state :: rest => Some (state, mk_gen (table st) (explored st) rest)
  end.

(** The body of [for item in state]: [transitions] and [table]. *)
Definition gen_item (state : gset Item)
    (acc : gmap Z (list Item) * gmap (gset Item * Z) (gset (action_kind * action_data)))
    (item : Item)
    : option (gmap Z (list Item) * gmap (gset Item * Z) (gset (action_kind * action_data))) :=
  if has_successor item then
    locus ← get_locus item;
    Some (list_add acc.1 locus (get_successor item), acc.2)
  else
    Some (acc.1,
          table_add acc.2 (state, lookahead item)
            (if decide (lhs (rule item) = GOAL) then ACCEPT else REDUCE,
             to_rule (index (rule item)))).

(** The body of [for symbol, kernel in transitions.items()]. *)
Definition gen_transition (fuel : nat) (g : t) (state : gset Item) (st : gen_state)
    (entry : Z * list Item) : option gen_state :=
  next_state ← closure fuel g entry.2;
  Some (mk_gen
          (table_add (table st) (state, entry.1)
             (if decide (entry.1 ∈ terminals g) then SHIFT else GOTO, to_state next_state))
          (explored st) (next_state :: frontier st)).

(** The body of the [while] loop of [generate]. *)
Definition gen_body (fuel : nat) (g : t) (state : gset Item) (st : gen_state)
    : option gen_state :=
  if decide (state ∈ explored st) then Some st
  else
    let st := mk_gen (table st) (explored st ∪ {[state]}) (frontier st) in
    '(transitions, table) ← Py.for_each (gen_item state) (∅, table st) (iter state);
    Py.for_each (gen_transition fuel g state) (mk_gen table (explored st) (frontier st))
      (items transitions).

(** *** [simplify_table] *)

(** The state of [simplify_table]: [state_ids], [next_state_id] and
    [new_table]. *)
Record simplify_state := mk_simplify {
  state_ids : gmap (gset Item) Z;
  next_state_id : Z;
  new_table : gmap (Z * Z) (gset (action_kind * Z))
}.

(** The local function [get_id]. *)
Definition get_id (st : simplify_state) (state : gset Item) : simplify_state * Z :=
  match state_ids st !! state with
  | Some id => (st, id)
  | None =>
      (mk_simplify (<[state:=next_state_id st]> (state_ids st)) (next_state_id st + 1)
         (new_table st),
       next_state_id st)
  end.

(** The body of [for action, data in actions].  [generate] pairs [SHIFT] and
    [GOTO] with a state and [REDUCE] and [ACCEPT] with the index of a
    production; the other pairs are left out. *)
Definition simplify_action (position : Z * Z) (st : simplify_state)
    (entry : action_kind * action_data) : simplify_state :=
  match entry with
  | (SHIFT, to_state data) | (GOTO, to_state data) =>
      let '(st, id) := get_id st data in
      mk_simplify (state_ids st) (next_state_id st)
        (table_add (new_table st) position (entry.1, id))
  | (REDUCE, to_rule data) | (ACCEPT, to_rule data) =>
      mk_simplify (state_ids st) (next_state_id st)
        (table_add (new_table st) position (entry.1, data))
  | _ => st
  end.

(** The body of [for (state, symbol), actions in table.items()]. *)
Definition simplify_cell (st : simplify_state)
    (cell : gset Item * Z * gset (action_kind * action_data)) : simplify_state :=
  let '(st, id) := get_id st cell.1.1 in
  foldl (simplify_action (id, cell.1.2)) st (iter cell.2).

Definition simplify_table (table : gmap (gset Item * Z) (gset (action_kind * action_data)))
    (initial_state : gset Item) : gmap (Z * Z) (gset (action_kind * Z)) :=
  new_table (foldl simplify_cell (mk_simplify {[initial_state := 0]} 1 ∅) (items table)).

(** [generate]; [fuel] bounds the passes of its loop and of each run of
    [closure]. *)
Definition generate (fuel : nat) (g : t) : option (gmap (Z * Z) (gset (action_kind * Z))) :=
  rule0 ← Py.getitem (rules g) 0;
  initial_state ← closure fuel g [mk_item rule0 0 END];
  st ← Py.while_pop gen_pop (gen_body fuel g) fuel (mk_gen ∅ ∅ [initial_state]);
  Some (simplify_table (table st) initial_state).

(** [__init__]: the generator, with its FIRST sets, and its table. *)
Definition init (fuel : nat) (terminals non_terminals : gset Z) (input : list (Z * list Z))
    : option (t * gmap (Z * Z) (gset (action_kind * Z))) :=
  let rules := make_rules input in
  first ← compute_first_map (mk terminals non_terminals rules []);
  let self := mk terminals non_terminals rules first in
  table ← generate fuel self;
  Some (self, table).

End with_symbols.

(** What [print_table] prints, without the text around it: the lines
    [position: action] of the table in the order of printing, the lines
    [(lhs, n, name)] of the reduction lookup buffer without the names,
    [num_entries] and [conflicts]. *)
Record printed := mk_printed {
  printed_table : list (Z * Z * (action_kind * Z));
  printed_reductions : list (Z * Z);
  printed_entries : Z;
  printed_conflicts : bool
}.

Section print_table.
Context `{IterOrder}.

(** The body of the loop over [self.table.items()], on the lines printed,
    [num_entries], [conflicts] and [self.table]: [actions.pop()] takes the
    action out of the set that the table holds, and raises [KeyError]
    ([None]) on an empty set. *)
Definition print_cell
    (acc : list (Z * Z * (action_kind * Z)) * Z * bool * gmap (Z * Z) (gset (action_kind * Z)))
    (item : Z * Z * gset (action_kind * Z))
    : option (list (Z * Z * (action_kind * Z)) * Z * bool
              * gmap (Z * Z) (gset (action_kind * Z))) :=
  let '(lines, num_entries, conflicts, table) := acc in
  let '(position, actions) := item in
  let num_entries := num_entries + Z.of_nat (size actions) in
  if decide (1 < size actions)%nat then
    Some (lines ++ ((λ action, (position, action)) <$> iter actions),
          num_entries, true, table)
  else
    match iter actions with
    | [] => None
    | action :: _ =>
        Some (lines ++ [(position, action)], num_entries, conflicts,
              <[position:=actions ∖ {[action]}]> table)
    end.

(** [self.callbacks], without the names of the functions. *)
Definition callbacks (g : t) : list (Z * Z) :=
  (λ r, (lhs r, Z.of_nat (length (rhs r)))) <$> rules g.

(** [print_table], with [self.table] as it leaves it; what was printed
    before an exception is not kept. *)
Definition print_table (g : t) (table : gmap (Z * Z) (gset (action_kind * Z)))
    : option (printed * gmap (Z * Z) (gset (action_kind * Z))) :=
  '(lines, num_entries, conflicts, table') ←
    Py.for_each print_cell ([], 0, false, table) (items table);
  Some (mk_printed lines (callbacks g) num_entries conflicts, table').

End print_table.

(** Derivations of the grammar: one step rewrites an occurrence of the
    left-hand side of a rule into its right-hand side. *)
Inductive derives_step (g : t) : list Z → list Z → Prop :=
  | derives_rule u v r :
      r ∈ rules g → derives_step g (u ++ lhs r :: v) (u ++ rhs r ++ v).

Definition derives (g : t) : list Z → list Z → Prop := rtc (derives_step g).

End Parsergen.

(** * Properties *)

(** ** Python primitives *)

Section py_lemmas.
Context {A : Type}.
Implicit Types (l : list A) (i : Z).

Lemma index_nonneg n i : 0 ≤ i < Z.of_nat n → Py.index n i = Some (Z.to_nat i).
Proof. intros. unfold Py.index. by rewrite decide_True. Qed.

Lemma index_Some n i k : Py.index n i = Some k → (k < n)%nat.
Proof. unfold Py.index. repeat case_decide; intros; simplify_eq; lia. Qed.

Lemma index_nonneg_Some n i k :
  0 ≤ i → Py.index n i = Some k → k = Z.to_nat i ∧ i < Z.of_nat n.
Proof. unfold Py.index. repeat case_decide; intros; simplify_eq; lia. Qed.

Lemma getitem_nonneg l i : 0 ≤ i → Py.getitem l i = l !! Z.to_nat i.
Proof.
  intros Hi. unfold Py.getitem, Py.index.
  case_decide; [done|]. rewrite decide_False by lia. simpl.
  symmetry. apply lookup_ge_None. lia.
Qed.

Lemma getitem_elem_of l i x : Py.getitem l i = Some x → x ∈ l.
Proof.
  unfold Py.getitem. intros (k & _ & Hk)%bind_Some. by eapply list_elem_of_lookup_2.
Qed.

Lemma setitem_nonneg l i x :
  0 ≤ i < Z.of_nat (length l) → Py.setitem l i x = Some (<[Z.to_nat i:=x]> l).
Proof. intros. unfold Py.setitem. by rewrite index_nonneg. Qed.

End py_lemmas.

(** Loops: an invariant indexed by the part of the list already visited. *)
Lemma for_each_total {A S} (body : S → A → option S) (I : list A → S → Prop) l s :
  I [] s →
  (∀ pre x post s, l = pre ++ x :: post → I pre s →
     ∃ s', body s x = Some s' ∧ I (pre ++ [x]) s') →
  ∃ s', Py.for_each body s l = Some s' ∧ I l s'.
Proof.
  intros H0 Hstep.
  cut (∀ post pre s, l = pre ++ post → I pre s →
         ∃ s', Py.for_each body s post = Some s' ∧ I l s').
  { intros Hgen. by apply (Hgen l [] s). }
  induction post as [|x post IH]; intros pre s1 -> Hpre; simpl.
  - rewrite app_nil_r. eauto.
  - destruct (Hstep pre x post s1 eq_refl Hpre) as (s2 & -> & H2). simpl.
    apply (IH (pre ++ [x])); [by rewrite <- app_assoc | done].
Qed.

Lemma for_each_partial {A S} (body : S → A → option S) (I : list A → S → Prop) l s s' :
  I [] s →
  (∀ pre x post s s', l = pre ++ x :: post → I pre s → body s x = Some s' →
     I (pre ++ [x]) s') →
  Py.for_each body s l = Some s' → I l s'.
Proof.
  intros H0 Hstep.
  cut (∀ post pre s, l = pre ++ post → I pre s →
         Py.for_each body s post = Some s' → I l s').
  { intros Hgen. by apply (Hgen l [] s). }
  induction post as [|x post IH]; intros pre s1 -> Hpre; simpl.
  - rewrite app_nil_r. by intros [= <-].
  - intros (s2 & Hb & Hrest)%bind_Some.
    apply (IH (pre ++ [x]) s2); [by rewrite <- app_assoc | by eapply Hstep | done].
Qed.

Lemma while_pop_total {S A} (pop : S → option (A * S)) (body : A → S → option S)
    (I : S → Prop) (Φ : S → nat) :
  (∀ s x s1, I s → pop s = Some (x, s1) →
     ∃ s2, body x s1 = Some s2 ∧ I s2 ∧ (Φ s2 < Φ s)%nat) →
  ∀ fuel s, I s → (Φ s < fuel)%nat →
    ∃ r, Py.while_pop pop body fuel s = Some r ∧ I r ∧ pop r = None.
Proof.
  intros Hstep. induction fuel as [|fuel IH]; intros s Hs Hlt; [lia|]. simpl.
  destruct (pop s) as [[x s1]|] eqn:Hpop; [|by eauto].
  destruct (Hstep s x s1 Hs Hpop) as (s2 & -> & H2 & Hdec). simpl.
  apply IH; [done|lia].
Qed.

Lemma while_pop_partial {S A} (pop : S → option (A * S)) (body : A → S → option S)
    (I : S → Prop) :
  (∀ s x s1 s2, I s → pop s = Some (x, s1) → body x s1 = Some s2 → I s2) →
  ∀ fuel s r, I s → Py.while_pop pop body fuel s = Some r → I r ∧ pop r = None.
Proof.
  intros Hstep. induction fuel as [|fuel IH]; intros s r Hs; [done|]. simpl.
  destruct (pop s) as [[x s1]|] eqn:Hpop; [|by intros [= <-]].
  intros (s2 & Hb & Hrest)%bind_Some. eapply IH; [|done]. by eapply Hstep.
Qed.

(** Enumerations and membership. *)
Section order_lemmas.
Context `{IterOrder}.

Lemma elem_of_iter `{Countable A} (X : gset A) x : x ∈ iter X ↔ x ∈ X.
Proof. by rewrite iter_perm, elem_of_elements. Qed.

Lemma NoDup_iter `{Countable A} (X : gset A) : NoDup (iter X).
Proof. rewrite iter_perm. apply NoDup_elements. Qed.

Lemma length_iter `{Countable A} (X : gset A) : length (iter X) = size X.
Proof. by rewrite iter_perm. Qed.

Lemma iter_nil `{Countable A} (X : gset A) : iter X = [] ↔ X = ∅.
Proof.
  split.
  - intros Hnil. apply leibniz_equiv, elem_of_equiv_empty. intros x Hx.
    apply elem_of_iter in Hx. rewrite Hnil in Hx. by apply elem_of_nil in Hx.
  - intros ->. apply Permutation_nil_r. by rewrite iter_perm, elements_empty.
Qed.

Lemma elem_of_items `{Countable K} {V} (m : gmap K V) k v :
  (k, v) ∈ items m ↔ m !! k = Some v.
Proof. by rewrite items_perm, elem_of_map_to_list. Qed.

End order_lemmas.

Lemma elem_of_powerset `{Countable A} (X Y : gset A) : Y ⊆ X → Y ∈ powerset X.
Proof.
  unfold powerset. intros HY.
  assert (∀ y, y ∈ Y → y ∈ elements X) as Hin by (intros; apply elem_of_elements; set_solver).
  clear HY. revert Y Hin. induction (elements X) as [|x l IH]; intros Y Hin; simpl.
  - apply elem_of_singleton, leibniz_equiv, elem_of_equiv_empty.
    intros y Hy%Hin. by apply elem_of_nil in Hy.
  - apply elem_of_union. destruct (decide (x ∈ Y)) as [Hx|Hx].
    + right. apply elem_of_map. exists (Y ∖ {[x]}). split.
      * apply leibniz_equiv. intros y. rewrite elem_of_union, elem_of_difference, !elem_of_singleton.
        destruct (decide (y = x)) as [->|]; naive_solver.
      * apply IH. intros y [Hy Hne]%elem_of_difference.
        apply Hin, elem_of_cons in Hy as [->|]; [set_solver|done].
    + left. apply IH. intros y Hy. pose proof (Hin y Hy) as [->|]%elem_of_cons; done.
Qed.

(** ** The table of a DFA *)

Lemma elem_of_concat {A} (x : A) (ls : list (list A)) :
  x ∈ concat ls ↔ ∃ l, l ∈ ls ∧ x ∈ l.
Proof.
  rewrite list_elem_of_In, in_concat. setoid_rewrite list_elem_of_In. done.
Qed.

Lemma lookup_nonneg d q c :
  0 ≤ q → 0 ≤ c →
  DFA.lookup d q c = DFA.transitions d !! Z.to_nat q ≫= λ row, row !! Z.to_nat c.
Proof.
  intros. unfold DFA.lookup. rewrite getitem_nonneg by done.
  destruct (_ !! _); simpl; [by apply getitem_nonneg|done].
Qed.

Lemma lookup_mentioned d q c s : DFA.lookup d q c = Some s → s ∈ DFA.mentioned d.
Proof.
  unfold DFA.lookup. intros (row & Hrow%getitem_elem_of & Hs%getitem_elem_of)%bind_Some.
  apply elem_of_union_r, elem_of_list_to_set, elem_of_concat. eauto.
Qed.

Lemma num_states_add_state d :
  DFA.num_states (DFA.add_state d).1 = DFA.num_states d + 1.
Proof. unfold DFA.num_states. simpl. rewrite length_app. simpl. lia. Qed.

Lemma lookup_add_state d q c :
  0 ≤ q < DFA.num_states d → 0 ≤ c →
  DFA.lookup (DFA.add_state d).1 q c = DFA.lookup d q c.
Proof.
  unfold DFA.num_states. intros. rewrite !lookup_nonneg by lia. simpl.
  by rewrite lookup_app_l by lia.
Qed.

Lemma set_transition_Some d q c v row :
  0 ≤ q → DFA.transitions d !! Z.to_nat q = Some row →
  0 ≤ c < Z.of_nat (length row) →
  DFA.set_transition d q c v =
    Some (DFA.mk (<[Z.to_nat q:=<[Z.to_nat c:=v]> row]> (DFA.transitions d))
            (DFA.outputs d) (DFA.initial_state d)).
Proof.
  intros Hq Hrow Hc. unfold DFA.set_transition.
  rewrite getitem_nonneg, Hrow by done. simpl.
  rewrite setitem_nonneg by done. simpl.
  rewrite setitem_nonneg; [done|]. apply lookup_lt_Some in Hrow. lia.
Qed.

Lemma lookup_set_transition d d' q c v q' c' :
  DFA.set_transition d q c v = Some d' → 0 ≤ q → 0 ≤ c → 0 ≤ q' → 0 ≤ c' →
  DFA.lookup d' q' c' =
    if decide (q' = q ∧ c' = c) then Some v else DFA.lookup d q' c'.
Proof.
  unfold DFA.set_transition.
  intros (row & Hrow & (row' & Hrow' & (rows & Hrows & [= <-])%bind_Some)%bind_Some)%bind_Some.
  intros Hq Hc Hq' Hc'.
  rewrite getitem_nonneg in Hrow by done.
  unfold Py.setitem in Hrow', Hrows.
  apply bind_Some in Hrow' as (k & Hk & [= <-]).
  apply bind_Some in Hrows as (j & Hj & [= <-]).
  apply index_nonneg_Some in Hk as [-> Hklt]; [|done].
  apply index_nonneg_Some in Hj as [-> Hjlt]; [|done].
  rewrite !lookup_nonneg by done. simpl.
  destruct (decide (q' = q)) as [->|Hne].
  - rewrite list_lookup_insert_eq by lia. simpl. rewrite Hrow. simpl.
    destruct (decide (c' = c)) as [->|Hnec].
    + rewrite decide_True by done. by rewrite list_lookup_insert_eq by lia.
    + rewrite decide_False by tauto. rewrite list_lookup_insert_ne by lia. done.
  - rewrite decide_False by tauto. by rewrite list_lookup_insert_ne by lia.
Qed.

Lemma set_transition_fields d d' q c v :
  DFA.set_transition d q c v = Some d' →
  DFA.outputs d' = DFA.outputs d ∧ DFA.initial_state d' = DFA.initial_state d.
Proof.
  unfold DFA.set_transition.
  intros (row & _ & (row' & _ & (rows & _ & [= <-])%bind_Some)%bind_Some)%bind_Some. done.
Qed.

Lemma set_transition_rows d d' q c v (n : nat) :
  DFA.set_transition d q c v = Some d' →
  Forall (λ row, length row = n) (DFA.transitions d) →
  length (DFA.transitions d') = length (DFA.transitions d)
  ∧ Forall (λ row, length row = n) (DFA.transitions d').
Proof.
  unfold DFA.set_transition.
  intros (row & Hrow%getitem_elem_of & (row' & Hrow' & (rows & Hrows & [= <-])%bind_Some)%bind_Some)%bind_Some Hall.
  unfold Py.setitem in Hrow', Hrows.
  apply bind_Some in Hrow' as (k & Hk & [= <-]).
  apply bind_Some in Hrows as (j & Hj & [= <-]). simpl.
  rewrite length_insert. split; [done|].
  apply Forall_insert; [done|]. rewrite length_insert.
  by eapply (proj1 (Forall_forall _ _) Hall).
Qed.

(** ** The construction shared by [get_dfa] and [union]

    Both build a DFA whose states stand for keys (sets of NFA states, pairs of
    DFA states): [next] is the transition on keys, [tags] the tag set of a key,
    [k0] the initial key and [P] a finite set that holds every key. *)

Section explore.
Context {K : Type} `{Countable K}.
Variable next : K → Z → option K.
Variable tags : K → gset Z.
Variable k0 : K.
Variable P : gset K.

Implicit Types (st : DFA.builder K) (k : K) (q c : Z).

(** The entry for [k] and [c] is filled in with the state of [next k c]. *)
Definition linked st k c : Prop :=
  ∃ q k' q', DFA.state_map st !! k = Some q ∧ next k c = Some k'
    ∧ DFA.state_map st !! k' = Some q'
    ∧ DFA.lookup (DFA.dfa st) q c = Some q'.

Definition tag_of st k (T : option (gset Z)) : Prop :=
  ∃ q, DFA.state_map st !! k = Some q ∧ DFA.outputs (DFA.dfa st) !! q = T.

Definition expected_tags k : option (gset Z) :=
  if decide (tags k = ∅) then None else Some (tags k).

(** The loop invariant; [cur] is the key being processed and the symbol the
    inner loop has reached. *)
Record build_inv (cur : option (K * Z)) st : Prop := {
  bi_init : DFA.state_map st !! k0 = Some (DFA.initial_state (DFA.dfa st));
  bi_inj : ∀ k1 k2 q,
    DFA.state_map st !! k1 = Some q → DFA.state_map st !! k2 = Some q → k1 = k2;
  bi_range : ∀ q,
    DFA.is_state (DFA.dfa st) q ↔ ∃ k, DFA.state_map st !! k = Some q;
  bi_rows :
    Forall (λ row, length row = Z.to_nat NUM_CHARS) (DFA.transitions (DFA.dfa st));
  bi_nodup : NoDup (DFA.frontier st);
  bi_front : ∀ k, k ∈ DFA.frontier st → is_Some (DFA.state_map st !! k);
  bi_univ : ∀ k, is_Some (DFA.state_map st !! k) → k ∈ P;
  bi_out_dom : ∀ q,
    is_Some (DFA.outputs (DFA.dfa st) !! q) → DFA.is_state (DFA.dfa st) q;
  bi_pending : ∀ k, k ∈ DFA.frontier st → tag_of st k None;
  bi_done : ∀ k,
    is_Some (DFA.state_map st !! k) → k ∉ DFA.frontier st → Some k ≠ (fst <$> cur) →
    tag_of st k (expected_tags k) ∧ ∀ c, is_byte c → linked st k c;
  bi_cur : ∀ k c, cur = Some (k, c) →
    (k ∉ DFA.frontier st) ∧ tag_of st k None ∧ ∀ c', 0 ≤ c' < c → linked st k c'
}.

Definition potential st : nat :=
  (size (P ∖ dom (DFA.state_map st)) + length (DFA.frontier st))%nat.

Lemma intern_old st k : 
  is_Some (DFA.state_map st !! k) → DFA.intern st k = st.
Proof. intros [q Hq]. unfold DFA.intern. by rewrite Hq. Qed.

Lemma intern_new st k :
  DFA.state_map st !! k = None →
  DFA.intern st k =
    DFA.mk_builder (DFA.add_state (DFA.dfa st)).1
      (<[k:=DFA.num_states (DFA.dfa st)]> (DFA.state_map st)) (k :: DFA.frontier st).
Proof. intros Hk. unfold DFA.intern. by rewrite Hk. Qed.

Lemma intern_inv cur st k :
  build_inv cur st → k ∈ P →
  build_inv cur (DFA.intern st k)
  ∧ potential (DFA.intern st k) = potential st
  ∧ is_Some (DFA.state_map (DFA.intern st k) !! k)
  ∧ DFA.state_map st ⊆ DFA.state_map (DFA.intern st k).
Proof.
  intros Hinv HkP.
  destruct (DFA.state_map st !! k) as [q|] eqn:Hk.
  { rewrite intern_old by eauto. rewrite Hk. eauto. }
  rewrite intern_new by done.
  set (d := DFA.dfa st) in *. set (m := DFA.state_map st) in *.
  set (n := DFA.num_states d).
  assert (0 ≤ n) as Hn0 by (unfold n, DFA.num_states; lia).
  assert (∀ k1 q1, m !! k1 = Some q1 → 0 ≤ q1 < n) as Hold.
  { intros k1 q1 Hk1. apply (bi_range _ _ Hinv). eauto. }
  assert (∀ k1 q1, m !! k1 = Some q1 → <[k:=n]> m !! k1 = Some q1) as Hext.
  { intros k1 q1 Hk1. rewrite lookup_insert_ne; [done|]. intros ->. congruence. }
  assert (k ∉ DFA.frontier st) as Hfresh.
  { intros [q Hq]%(bi_front _ _ Hinv). fold m in Hq. congruence. }
  assert (DFA.outputs d !! n = None) as Hnout.
  { destruct (DFA.outputs d !! n) eqn:Ho; [|done].
    assert (DFA.is_state d n) as Hn by (apply (bi_out_dom _ _ Hinv); eauto).
    unfold DFA.is_state in Hn. fold n in Hn. lia. }
  assert (∀ k1 T, tag_of st k1 T →
            tag_of (DFA.mk_builder (DFA.add_state d).1 (<[k:=n]> m) (k :: DFA.frontier st)) k1 T)
    as Htag.
  { intros k1 T (q1 & Hq1 & Ho). exists q1. split; [by apply Hext|done]. }
  assert (∀ k1 c, 0 ≤ c → linked st k1 c →
            linked (DFA.mk_builder (DFA.add_state d).1 (<[k:=n]> m) (k :: DFA.frontier st)) k1 c)
    as Hlink.
  { intros k1 c Hc (q1 & k2 & q2 & Hq1 & Hn & Hq2 & Hl).
    exists q1, k2, q2. split_and!; [by apply Hext|done|by apply Hext|].
    change (DFA.lookup (DFA.add_state d).1 q1 c = Some q2).
    rewrite lookup_add_state; [done| |done]. by eapply Hold. }
  split_and!.
  - split; cbn [DFA.dfa DFA.state_map DFA.frontier].
    + apply Hext, (bi_init _ _ Hinv).
    + intros k1 k2 q Hq1 Hq2. rewrite lookup_insert in Hq1, Hq2.
      repeat case_decide; simplify_eq; try done;
        try (match goal with Hm : m !! _ = Some _ |- _ => apply Hold in Hm; lia end).
      by eapply (bi_inj _ _ Hinv).
    + intros q. unfold DFA.is_state. rewrite num_states_add_state. fold n. split.
      * intros Hq. destruct (decide (q = n)) as [->|Hne].
        -- exists k. by rewrite lookup_insert_eq.
        -- destruct (proj1 (bi_range _ _ Hinv q)) as [k1 Hk1]; [unfold DFA.is_state; fold d n; lia|].
           exists k1. by apply Hext.
      * intros [k1 Hk1]. rewrite lookup_insert in Hk1. case_decide; simplify_eq; [lia|].
        apply Hold in Hk1. lia.
    + apply Forall_app. split; [apply (bi_rows _ _ Hinv)|].
      apply Forall_singleton. by rewrite length_replicate.
    + apply NoDup_cons. split; [done|apply (bi_nodup _ _ Hinv)].
    + intros k1 [->|Hk1]%elem_of_cons; [by rewrite lookup_insert_eq|].
      destruct (bi_front _ _ Hinv k1 Hk1) as [q1 Hq1]. exists q1. by apply Hext.
    + intros k1 [q1 Hq1]. rewrite lookup_insert in Hq1. case_decide; simplify_eq; [done|].
      apply (bi_univ _ _ Hinv). eauto.
    + intros q Hq. unfold DFA.is_state. rewrite num_states_add_state.
      apply (bi_out_dom _ _ Hinv) in Hq. unfold DFA.is_state in Hq. fold d n in Hq |- *. lia.
    + intros k1 [->|Hk1]%elem_of_cons.
      * exists n. split; [apply lookup_insert_eq|exact Hnout].
      * by apply Htag, (bi_pending _ _ Hinv).
    + intros k1 [q1 Hq1] Hnf Hcur. rewrite not_elem_of_cons in Hnf. destruct Hnf as [Hne Hnf].
      rewrite lookup_insert_ne in Hq1 by done.
      destruct (bi_done _ _ Hinv k1) as [Ht Hl]; [eauto|done|done|].
      split; [by apply Htag|]. intros c Hc. apply Hlink; [apply Hc|by apply Hl].
    + intros k1 c ->. destruct (bi_cur _ _ Hinv k1 c eq_refl) as (Hnf & Ht & Hl).
      split_and!.
      * rewrite not_elem_of_cons. split; [|done]. intros ->.
        destruct Ht as (q1 & Hq1 & _). fold m in Hq1. congruence.
      * by apply Htag.
      * intros c' Hc'. apply Hlink; [lia|by apply Hl].
  - unfold potential. cbn [DFA.dfa DFA.state_map DFA.frontier]. fold m. rewrite dom_insert_L.
    assert (k ∈ P ∖ dom m) as Hin by (apply elem_of_difference; split; [done|by apply not_elem_of_dom]).
    assert (P ∖ dom m = {[k]} ∪ P ∖ ({[k]} ∪ dom m)) as ->.
    { apply leibniz_equiv. intros x. rewrite elem_of_union, !elem_of_difference, elem_of_union, elem_of_singleton.
      destruct (decide (x = k)) as [->|]; [|tauto]. apply elem_of_difference in Hin. tauto. }
    rewrite (size_union {[k]} (P ∖ ({[k]} ∪ dom m))) by set_solver.  rewrite size_singleton. cbn [length]. lia.
  - simpl. by rewrite lookup_insert_eq.
  - simpl. by apply insert_subseteq.
Qed.

Lemma connect_inv st k c k' q :
  build_inv (Some (k, c)) st → is_byte c → next k c = Some k' →
  DFA.state_map st !! k = Some q → is_Some (DFA.state_map st !! k') →
  ∃ st', DFA.connect st q c k' = Some st'
    ∧ build_inv (Some (k, c + 1)) st' ∧ potential st' = potential st
    ∧ DFA.state_map st' = DFA.state_map st.
Proof.
  intros Hinv Hc Hnext Hq [q' Hq'].
  assert (DFA.is_state (DFA.dfa st) q) as Hqs by (apply (bi_range _ _ Hinv); eauto).
  assert (DFA.is_state (DFA.dfa st) q') as Hqs' by (apply (bi_range _ _ Hinv); eauto).
  unfold DFA.is_state, DFA.num_states in Hqs, Hqs'. unfold is_byte, NUM_CHARS in Hc.
  destruct (lookup_lt_is_Some_2 (DFA.transitions (DFA.dfa st)) (Z.to_nat q)) as [row Hrow]; [lia|].
  assert (length row = Z.to_nat NUM_CHARS) as Hlen.
  { eapply (proj1 (Forall_forall _ _) (bi_rows _ _ Hinv)). by eapply list_elem_of_lookup_2. }
  unfold NUM_CHARS in Hlen.
  unfold DFA.connect. rewrite Hq'. simpl.
  pose proof (set_transition_Some (DFA.dfa st) q c q' row) as Hset.
  rewrite Hset; [|lia|done|lia]. simpl. eexists. split; [done|].
  set (d' := DFA.mk _ _ _) in *.
  specialize (Hset ltac:(lia) Hrow ltac:(lia)).
  assert (DFA.num_states d' = DFA.num_states (DFA.dfa st)) as Hnum.
  { unfold DFA.num_states, d'. simpl. by rewrite length_insert. }
  assert (∀ k1 T, tag_of st k1 T →
            tag_of (DFA.mk_builder d' (DFA.state_map st) (DFA.frontier st)) k1 T) as Htag.
  { intros k1 T (q1 & Hq1 & Ho). by exists q1. }
  assert (∀ k1 c1, 0 ≤ c1 → (k1, c1) ≠ (k, c) → linked st k1 c1 →
            linked (DFA.mk_builder d' (DFA.state_map st) (DFA.frontier st)) k1 c1) as Hlink.
  { intros k1 c1 Hc1 Hne (q1 & k2 & q2 & Hq1 & Hn & Hq2 & Hl).
    exists q1, k2, q2. split_and!; [done..|]. cbn [DFA.dfa].
    assert (0 ≤ q1) by (apply (bi_range _ _ Hinv); eauto).
    rewrite (lookup_set_transition _ _ _ _ _ _ _ Hset) by lia.
    rewrite decide_False; [done|]. intros [-> ->]. apply Hne. f_equal.
    by eapply (bi_inj _ _ Hinv). }
  destruct (bi_cur _ _ Hinv k c eq_refl) as (Hnf & Ht & Hl).
  split; [|done]. split; cbn [DFA.dfa DFA.state_map DFA.frontier].
  - apply (bi_init _ _ Hinv).
  - apply (bi_inj _ _ Hinv).
  - intros q1. unfold DFA.is_state. rewrite Hnum. apply (bi_range _ _ Hinv).
  - apply Forall_insert; [apply (bi_rows _ _ Hinv)|]. by rewrite length_insert.
  - apply (bi_nodup _ _ Hinv).
  - apply (bi_front _ _ Hinv).
  - apply (bi_univ _ _ Hinv).
  - intros q1. unfold DFA.is_state. rewrite Hnum. apply (bi_out_dom _ _ Hinv).
  - intros k1 Hk1. by apply Htag, (bi_pending _ _ Hinv).
  - intros k1 Hk1 Hnf1 Hcur. destruct (bi_done _ _ Hinv k1) as [Ht1 Hl1]; [done..|].
    split; [by apply Htag|]. intros c1 Hc1. apply Hlink; [apply Hc1| |by apply Hl1].
    intros [= -> ->]. by apply Hcur.
  - intros k1 c1 [= <- <-]. split_and!; [done|by apply Htag|].
    intros c' Hc'. destruct (decide (c' = c)) as [->|Hne].
    + exists q, k', q'. split_and!; [done..|]. cbn [DFA.dfa].
      rewrite (lookup_set_transition _ _ _ _ _ _ _ Hset) by lia.
      by rewrite decide_True.
    + apply Hlink; [lia|congruence|]. apply Hl. lia.
Qed.

Lemma pop_inv st k st1 :
  build_inv None st → DFA.pop st = Some (k, st1) →
  build_inv (Some (k, 0)) st1 ∧ S (potential st1) = potential st.
Proof.
  intros Hinv. unfold DFA.pop.
  destruct (DFA.frontier st) as [|k1 rest] eqn:Hfr; [done|]. intros [= -> <-].
  pose proof (bi_nodup _ _ Hinv) as Hnd. rewrite Hfr in Hnd.
  apply NoDup_cons in Hnd as [Hk Hnd].
  assert (∀ k1 T, tag_of st k1 T →
            tag_of (DFA.mk_builder (DFA.dfa st) (DFA.state_map st) rest) k1 T) as Htag
    by (intros k1 T (q1 & Hq1 & Ho); by exists q1).
  assert (∀ k1 c, linked st k1 c →
            linked (DFA.mk_builder (DFA.dfa st) (DFA.state_map st) rest) k1 c) as Hlink
    by (intros k1 c (q1 & k2 & q2 & ?); by exists q1, k2, q2).
  split.
  - split; cbn [DFA.dfa DFA.state_map DFA.frontier];
      try (by destruct Hinv).
    + intros k1 Hk1. apply (bi_front _ _ Hinv). rewrite Hfr. by right.
    + intros k1 Hk1. apply Htag, (bi_pending _ _ Hinv). rewrite Hfr. by right.
    + intros k1 Hk1 Hnf Hcur. destruct (bi_done _ _ Hinv k1) as [Ht1 Hl1]; [done| |done|].
      * rewrite Hfr, not_elem_of_cons. split; [|done]. intros ->. by apply Hcur.
      * split; [by apply Htag|]. intros c Hc. by apply Hlink, Hl1.
    + intros k1 c [= <- <-]. split_and!; [done| |intros; lia].
      apply Htag, (bi_pending _ _ Hinv). rewrite Hfr. by left.
  - unfold potential. cbn [DFA.dfa DFA.state_map DFA.frontier]. rewrite Hfr. simpl. lia.
Qed.

(** Recording the tags of the processed key ends its pass. *)
Lemma finish_inv st k q outs :
  build_inv (Some (k, NUM_CHARS)) st → DFA.state_map st !! k = Some q →
  outs = match expected_tags k with
         | Some T => <[q:=T]> (DFA.outputs (DFA.dfa st))
         | None => DFA.outputs (DFA.dfa st)
         end →
  let st' := DFA.mk_builder
               (DFA.mk (DFA.transitions (DFA.dfa st)) outs (DFA.initial_state (DFA.dfa st)))
               (DFA.state_map st) (DFA.frontier st) in
  build_inv None st' ∧ potential st' = potential st.
Proof.
  intros Hinv Hq -> st'.
  destruct (bi_cur _ _ Hinv k _ eq_refl) as (Hnf & (q0 & Hq0 & Hnone) & Hl).
  assert (q0 = q) as -> by congruence.
  assert (∀ k1 c, linked st k1 c → linked st' k1 c) as Hlink
    by (intros k1 c (q1 & k2 & q2 & ?); by exists q1, k2, q2).
  assert (∀ k1 T, k1 ≠ k → tag_of st k1 T → tag_of st' k1 T) as Htag.
  { intros k1 T Hne (q1 & Hq1 & Ho). exists q1. split; [done|].
    unfold st'. cbn [DFA.dfa DFA.outputs]. destruct (expected_tags k); [|done].
    rewrite lookup_insert_ne; [done|]. intros ->. apply Hne. by eapply (bi_inj _ _ Hinv). }
  split; [|done]. split; unfold st'; cbn [DFA.dfa DFA.state_map DFA.frontier];
    try (by destruct Hinv).
  - intros q1 Hq1. cbn [DFA.outputs] in Hq1. unfold DFA.is_state, DFA.num_states. simpl.
    destruct (expected_tags k); [|by apply (bi_out_dom _ _ Hinv)].
    rewrite lookup_insert in Hq1. case_decide; [subst|by apply (bi_out_dom _ _ Hinv)].
    apply (bi_range _ _ Hinv). eauto.
  - intros k1 Hk1. apply Htag; [by intros ->|]. by apply (bi_pending _ _ Hinv).
  - intros k1 Hk1 Hnf1 _. destruct (decide (k1 = k)) as [->|Hne].
    + split.
      * exists q. split; [done|]. cbn [DFA.outputs DFA.dfa].
        destruct (expected_tags k); [by rewrite lookup_insert_eq|done].
      * intros c Hc. apply Hlink, Hl. apply Hc.
    + destruct (bi_done _ _ Hinv k1) as [Ht1 Hl1]; [done|done|simpl; congruence|].
      split; [by apply Htag|]. intros c Hc. by apply Hlink, Hl1.
Qed.

End explore.

Lemma range_split a b pre x post :
  Py.range a b = pre ++ x :: post →
  x = a + Z.of_nat (length pre) ∧ a ≤ x < b.
Proof.
  unfold Py.range. intros Heq.
  assert (seqZ a (b - a) !! length pre = Some x) as Hx
    by (rewrite Heq; apply list_lookup_middle; done).
  apply lookup_seqZ in Hx. lia.
Qed.

Lemma run_bytes d w : ∀ s s', DFA.run d s w = Some s' → Forall is_byte w.
Proof.
  induction w as [|c w IH]; intros s s'; simpl; [done|].
  intros (s1 & Hstep & Hrun)%bind_Some. unfold DFA.step in Hstep.
  case_decide; [|done]. apply Forall_cons. split; [tauto|by eapply IH].
Qed.

Section explored.
Context {K : Type} `{Countable K}.
Variable next : K → Z → option K.
Variable tags : K → gset Z.
Variable k0 : K.
Variable P : gset K.

Implicit Types (st : DFA.builder K) (k : K) (q c : Z).

Local Abbreviation inv := (build_inv next tags k0 P).

(** The inner loop over the symbols. *)
Lemma symbols_total (sym_body : DFA.builder K → Z → option (DFA.builder K))
    (J : DFA.builder K → Prop) k st :
  (∀ c st, inv (Some (k, c)) st → J st → is_byte c →
     ∃ st', sym_body st c = Some st' ∧ inv (Some (k, c + 1)) st' ∧ J st'
       ∧ potential P st' = potential P st) →
  inv (Some (k, 0)) st → J st →
  ∃ st', Py.for_each sym_body st (Py.range 0 NUM_CHARS) = Some st'
    ∧ inv (Some (k, NUM_CHARS)) st' ∧ J st' ∧ potential P st' = potential P st.
Proof.
  intros Hstep Hinv HJ.
  destruct (for_each_total sym_body
    (λ pre s, inv (Some (k, Z.of_nat (length pre))) s ∧ J s
              ∧ potential P s = potential P st)
    (Py.range 0 NUM_CHARS) st) as (st' & Hrun & Hinv' & HJ' & Hpot).
  - done.
  - intros pre x post s Hsplit (Hs & HJs & Hp).
    apply range_split in Hsplit as [-> Hx].
    destruct (Hstep _ s Hs HJs) as (s' & Hb & Hs' & HJs' & Hp'); [by unfold is_byte|].
    exists s'. split; [done|]. rewrite length_app. simpl.
    replace (Z.of_nat (length pre + 1)) with (0 + Z.of_nat (length pre) + 1) by lia.
    split_and!; [done|done|congruence].
  - exists st'. split_and!; [done| |done|done].
    unfold Py.range in Hinv'. rewrite length_seqZ in Hinv'. by rewrite Z2Nat.id in Hinv'.
Qed.

Lemma symbols_partial (sym_body : DFA.builder K → Z → option (DFA.builder K))
    (J : DFA.builder K → Prop) k st st' :
  (∀ c st st', inv (Some (k, c)) st → J st → is_byte c → sym_body st c = Some st' →
     inv (Some (k, c + 1)) st' ∧ J st') →
  inv (Some (k, 0)) st → J st →
  Py.for_each sym_body st (Py.range 0 NUM_CHARS) = Some st' →
  inv (Some (k, NUM_CHARS)) st' ∧ J st'.
Proof.
  intros Hstep Hinv HJ Hrun.
  assert (Z.of_nat (length (Py.range 0 NUM_CHARS)) = NUM_CHARS) as Hlen
    by (unfold Py.range; by rewrite length_seqZ).
  rewrite <- Hlen.
  apply (for_each_partial sym_body
    (λ pre s, inv (Some (k, Z.of_nat (length pre))) s ∧ J s)
    (Py.range 0 NUM_CHARS) st st'); [done| |done].
  intros pre x post s s' Hsplit [Hs HJs] Hb.
  apply range_split in Hsplit as [-> Hx].
  rewrite length_app. simpl.
  replace (Z.of_nat (length pre + 1)) with (0 + Z.of_nat (length pre) + 1) by lia.
  by eapply Hstep.
Qed.

(** The state the construction ends in. *)
Definition explored st : Prop := inv None st ∧ DFA.frontier st = [].

Lemma explore_total (body : K → DFA.builder K → option (DFA.builder K)) fuel st :
  (∀ k st1, inv (Some (k, 0)) st1 →
     ∃ st2, body k st1 = Some st2 ∧ inv None st2 ∧ potential P st2 = potential P st1) →
  inv None st → (potential P st < fuel)%nat →
  ∃ r, Py.while_pop DFA.pop body fuel st = Some r ∧ explored r.
Proof.
  intros Hbody Hinv Hfuel.
  destruct (while_pop_total DFA.pop body (inv None) (potential P)) with (fuel := fuel) (s := st)
    as (r & Hrun & Hr & Hpop); [|done|done|].
  - intros s k s1 Hs Hpop. destruct (pop_inv _ _ _ _ _ _ _ Hs Hpop) as [Hs1 Hp1].
    destruct (Hbody k s1 Hs1) as (s2 & Hb & Hs2 & Hp2). exists s2. split_and!; [done..|lia].
  - exists r. split; [done|]. split; [done|].
    unfold DFA.pop in Hpop. by destruct (DFA.frontier r).
Qed.

Lemma explore_partial (body : K → DFA.builder K → option (DFA.builder K)) fuel st r :
  (∀ k st1 st2, inv (Some (k, 0)) st1 → body k st1 = Some st2 → inv None st2) →
  inv None st → Py.while_pop DFA.pop body fuel st = Some r → explored r.
Proof.
  intros Hbody Hinv Hrun.
  destruct (while_pop_partial DFA.pop body (inv None)) with (fuel := fuel) (s := st) (r := r)
    as [Hr Hpop]; [|done|done|].
  - intros s k s1 s2 Hs Hpop Hb. destruct (pop_inv _ _ _ _ _ _ _ Hs Hpop) as [Hs1 _].
    by eapply Hbody.
  - split; [done|]. unfold DFA.pop in Hpop. by destruct (DFA.frontier r).
Qed.

(** What an explored builder says about its DFA. *)
Lemma explored_key st k q :
  explored st → DFA.state_map st !! k = Some q →
  DFA.is_state (DFA.dfa st) q
  ∧ DFA.outputs (DFA.dfa st) !! q = expected_tags tags k
  ∧ ∀ c, is_byte c → ∃ k' q', next k c = Some k'
      ∧ DFA.state_map st !! k' = Some q'
      ∧ DFA.lookup (DFA.dfa st) q c = Some q'.
Proof.
  intros [Hinv Hfr] Hq.
  destruct (bi_done _ _ _ _ _ _ Hinv k) as [(q1 & Hq1 & Ho) Hl];
    [eauto|rewrite Hfr; apply not_elem_of_nil|done|].
  assert (q1 = q) as -> by congruence.
  split_and!; [apply (bi_range _ _ _ _ _ _ Hinv); eauto|done|].
  intros c Hc. destruct (Hl c Hc) as (q2 & k' & q' & Hq2 & Hn & Hq' & Hlk).
  assert (q2 = q) as -> by congruence. eauto.
Qed.

Lemma explored_well_formed st : explored st → DFA.well_formed (DFA.dfa st).
Proof.
  intros Hex. pose proof Hex as [Hinv Hfr]. split; [split|].
  - apply (bi_range _ _ _ _ _ _ Hinv). exists k0. apply (bi_init _ _ _ _ _ _ Hinv).
  - apply Forall_lookup. intros i row Hrow.
    assert (length row = Z.to_nat NUM_CHARS) as Hlen.
    { eapply (proj1 (Forall_forall _ _) (bi_rows _ _ _ _ _ _ Hinv)).
      by eapply list_elem_of_lookup_2. }
    split; [done|]. apply Forall_lookup. intros j x Hx.
    assert (DFA.is_state (DFA.dfa st) (Z.of_nat i)) as Hi.
    { unfold DFA.is_state, DFA.num_states. apply lookup_lt_Some in Hrow. lia. }
    apply (bi_range _ _ _ _ _ _ Hinv) in Hi as [k Hk].
    destruct (explored_key st k _ Hex Hk) as (_ & _ & Hl).
    destruct (Hl (Z.of_nat j)) as (k' & q' & _ & Hq' & Hlk).
    { unfold is_byte. apply lookup_lt_Some in Hx. lia. }
    rewrite lookup_nonneg, !Nat2Z.id, Hrow in Hlk by lia. simpl in Hlk.
    assert (x = q') as -> by congruence.
    apply (bi_range _ _ _ _ _ _ Hinv). eauto.
  - intros s T Hs.
    assert (DFA.is_state (DFA.dfa st) s) as Hst by (apply (bi_out_dom _ _ _ _ _ _ Hinv); eauto).
    split; [done|].
    apply (bi_range _ _ _ _ _ _ Hinv) in Hst as [k Hk].
    destruct (explored_key st k _ Hex Hk) as (_ & Ho & _).
    rewrite Hs in Ho. unfold expected_tags in Ho. case_decide; congruence.
Qed.

(** The run of the keys along a word. *)
Fixpoint key_run (k : K) (w : list Z) : option K :=
  match w with
  | [] => Some k
  | c :: w => k' ← next k c; key_run k' w
  end.

Lemma explored_outputs st k q :
  explored st → DFA.state_map st !! k = Some q →
  DFA.get_outputs (DFA.dfa st) q = tags k.
Proof.
  intros Hex Hq. destruct (explored_key st k q Hex Hq) as (_ & Ho & _).
  unfold DFA.get_outputs. rewrite Ho. unfold expected_tags. by case_decide.
Qed.

Lemma explored_run st w : ∀ k q,
  explored st → DFA.state_map st !! k = Some q → Forall is_byte w →
  ∃ k' q', key_run k w = Some k' ∧ DFA.state_map st !! k' = Some q'
    ∧ DFA.run (DFA.dfa st) q w = Some q'.
Proof.
  induction w as [|c w IH]; intros k q Hex Hq Hw; simpl; [by eauto|].
  apply Forall_cons in Hw as [Hc Hw].
  destruct (explored_key st k q Hex Hq) as (Hqs & _ & Hl).
  destruct (Hl c Hc) as (k1 & q1 & Hn & Hq1 & Hlk).
  destruct (explored_key st k1 q1 Hex Hq1) as (Hq1s & _ & _).
  rewrite Hn. simpl. unfold DFA.step. rewrite decide_True by done. rewrite Hlk. simpl.
  rewrite decide_False by (unfold DFA.is_state in Hq1s; lia). simpl.
  by apply IH.
Qed.

Lemma explored_accepts st w :
  explored st →
  DFA.accepts (DFA.dfa st) w ↔
    Forall is_byte w ∧ ∃ k, key_run k0 w = Some k ∧ tags k ≠ ∅.
Proof.
  intros Hex. pose proof Hex as [Hinv _].
  pose proof (bi_init _ _ _ _ _ _ Hinv) as H0. split.
  - intros (s & Hrun & Hacc).
    assert (Forall is_byte w) as Hw by (by eapply run_bytes).
    split; [done|].
    destruct (explored_run st w k0 _ Hex H0 Hw) as (k & q & Hk & Hq & Hrun').
    exists k. split; [done|]. assert (q = s) as -> by congruence.
    unfold DFA.accepting in Hacc. by rewrite (explored_outputs st k s) in Hacc.
  - intros (Hw & k & Hk & Ht).
    destruct (explored_run st w k0 _ Hex H0 Hw) as (k' & q & Hk' & Hq & Hrun').
    assert (k' = k) as -> by congruence.
    exists q. split; [done|]. unfold DFA.accepting. by rewrite (explored_outputs st k q).
Qed.

End explored.

(** The builder both constructions start from. *)
Definition start_builder {K} `{Countable K} (k0 : K) : DFA.builder K :=
  DFA.mk_builder (DFA.mk [replicate (Z.to_nat NUM_CHARS) (-1)] ∅ 0) (<[k0:=0]> ∅) [k0].

Lemma start_inv {K} `{Countable K} (next : K → Z → option K) (tags : K → gset Z)
    (k0 : K) (P : gset K) :
  k0 ∈ P →
  build_inv next tags k0 P None (start_builder k0)
  ∧ potential P (start_builder k0) = size P.
Proof.
  intros Hk0. unfold start_builder. split.
  - split; cbn [DFA.dfa DFA.state_map DFA.frontier DFA.initial_state DFA.transitions
                  DFA.outputs]; rewrite ?insert_empty.
    + apply lookup_singleton_eq.
    + intros k1 k2 q [<- _]%lookup_singleton_Some [<- _]%lookup_singleton_Some. done.
    + intros q. unfold DFA.is_state, DFA.num_states. simpl. split.
      * intros Hq. exists k0. replace q with 0 by lia. apply lookup_singleton_eq.
      * intros [k [_ <-]%lookup_singleton_Some]. lia.
    + apply Forall_singleton. by rewrite length_replicate.
    + apply NoDup_singleton.
    + intros k ->%list_elem_of_singleton. rewrite lookup_singleton_eq. eauto.
    + intros k [q [<- _]%lookup_singleton_Some]. done.
    + intros q [T HT]. by rewrite lookup_empty in HT.
    + intros k ->%list_elem_of_singleton. exists 0. split; [apply lookup_singleton_eq|done].
    + intros k [q [<- _]%lookup_singleton_Some] Hnf. exfalso. apply Hnf. by left.
    + done.
  - unfold potential. cbn [DFA.dfa DFA.state_map DFA.frontier]. rewrite dom_insert_L, dom_empty_L.
    assert (P = {[k0]} ∪ P ∖ ({[k0]} ∪ ∅)) as Heq.
    { apply leibniz_equiv. intros x. rewrite elem_of_union, elem_of_difference, elem_of_union,
        elem_of_singleton, elem_of_empty.
      destruct (decide (x = k0)) as [->|]; tauto. }
    rewrite Heq at 2. rewrite (size_union {[k0]} (P ∖ ({[k0]} ∪ ∅))) by set_solver.
    rewrite size_singleton. simpl. lia.
Qed.

(** ** Subset construction: [NFA.get_dfa] *)

Lemma elem_of_foldl_union `{Countable A} {B} (f : B → gset A) (l : list B) (X : gset A) y :
  y ∈ foldl (λ acc x, acc ∪ f x) X l ↔ y ∈ X ∨ ∃ x, x ∈ l ∧ y ∈ f x.
Proof.
  revert X. induction l as [|x l IH]; intros X; simpl.
  - split; [by left|]. intros [?|(x & Hx & _)]; [done|]. by apply elem_of_nil in Hx.
  - rewrite IH, elem_of_union. split.
    + intros [[?|?]|(x' & Hx' & Hy)]; [by left|right; exists x; split; [by left|done]|].
      right. exists x'. split; [by right|done].
    + intros [?|(x' & [->|Hx']%elem_of_cons & Hy)]; [by left; left|by left; right|].
      right. eauto.
Qed.

Lemma delta_targets n s c : NFA.delta n s c ⊆ NFA.targets n.
Proof.
  unfold NFA.delta, NFA.targets. destruct (NFA.transitions n !! (s, c)) as [T|] eqn:HT; simpl.
  - intros x Hx. apply elem_of_union_list. exists T. split; [|done].
    apply list_elem_of_fmap. exists ((s, c), T). split; [done|]. by apply elem_of_map_to_list.
  - set_solver.
Qed.

Section get_dfa.
Context `{IterOrder}.
Variable n : NFA.t.

Lemma elem_of_next_states states c s :
  s ∈ NFA.next_states n states c ↔ ∃ r, r ∈ states ∧ s ∈ NFA.delta n r c.
Proof.
  unfold NFA.next_states. rewrite elem_of_foldl_union. setoid_rewrite elem_of_iter.
  unfold NFA.delta. set_solver.
Qed.

Lemma elem_of_collect_outputs states x :
  x ∈ NFA.collect_outputs n states ↔
  ∃ s, s ∈ states ∧ x ∈ default ∅ (NFA.outputs n !! s).
Proof.
  unfold NFA.collect_outputs. rewrite elem_of_foldl_union. setoid_rewrite elem_of_iter.
  set_solver.
Qed.

Definition subset_next (states : gset Z) (c : Z) : option (gset Z) :=
  Some (NFA.next_states n states c).

Local Abbreviation inv :=
  (build_inv subset_next (NFA.collect_outputs n) {[NFA.initial_state n]}
     (powerset (NFA.mentioned n))).
Local Abbreviation pot := (potential (powerset (NFA.mentioned n))).

Lemma next_states_universe states c :
  NFA.next_states n states c ∈ powerset (NFA.mentioned n).
Proof.
  apply elem_of_powerset. intros s (r & _ & Hs)%elem_of_next_states.
  apply elem_of_union_r. by eapply delta_targets.
Qed.

Lemma get_dfa_start_inv :
  inv None (NFA.get_dfa_start n)
  ∧ pot (NFA.get_dfa_start n) = size (powerset (NFA.mentioned n)).
Proof.
  apply (start_inv subset_next (NFA.collect_outputs n) {[NFA.initial_state n]}).
  apply elem_of_powerset. unfold NFA.mentioned. set_solver.
Qed.

Lemma get_dfa_symbol_inv states c st :
  inv (Some (states, c)) st → is_byte c →
  ∃ st', NFA.get_dfa_symbol n states st c = Some st'
    ∧ inv (Some (states, c + 1)) st' ∧ pot st' = pot st.
Proof.
  intros Hinv Hc. unfold NFA.get_dfa_symbol.
  destruct (intern_inv _ _ _ _ _ st (NFA.next_states n states c) Hinv)
    as (Hinv1 & Hpot1 & Hin1 & Hsub); [apply next_states_universe|].
  destruct (bi_cur _ _ _ _ _ _ Hinv1 states c eq_refl) as (_ & (q & Hq & _) & _).
  rewrite Hq. simpl.
  destruct (connect_inv _ _ _ _ _ states c (NFA.next_states n states c) q Hinv1)
    as (st' & Hc' & Hinv' & Hpot' & _); [done..|].
  exists st'. split_and!; [done|done|congruence].
Qed.

Lemma get_dfa_outputs_inv states st :
  inv (Some (states, NUM_CHARS)) st →
  ∃ st', NFA.get_dfa_outputs n states st = Some st' ∧ inv None st' ∧ pot st' = pot st.
Proof.
  intros Hinv. unfold NFA.get_dfa_outputs.
  destruct (bi_cur _ _ _ _ _ _ Hinv states _ eq_refl) as (_ & (q & Hq & _) & _).
  set (T := NFA.collect_outputs n states).
  pose proof (finish_inv subset_next (NFA.collect_outputs n) _ _ st states q
                _ Hinv Hq eq_refl) as Hfin.
  unfold expected_tags in Hfin. fold T in Hfin.
  destruct (decide (T = ∅)) as [HT|HT].
  - rewrite HT, size_empty, decide_False by lia.
    exists st. split; [done|]. by destruct st as [[] ? ?].
  - assert (size T ≠ 0%nat) as Hsz.
    { intros Hs%size_empty_iff. by apply HT, leibniz_equiv. }
    rewrite decide_True by lia. rewrite Hq. simpl. eauto.
Qed.

Lemma get_dfa_body_inv states st :
  inv (Some (states, 0)) st →
  ∃ st', NFA.get_dfa_body n states st = Some st' ∧ inv None st' ∧ pot st' = pot st.
Proof.
  intros Hinv. unfold NFA.get_dfa_body.
  destruct (symbols_total subset_next (NFA.collect_outputs n) {[NFA.initial_state n]}
              (powerset (NFA.mentioned n))
              (NFA.get_dfa_symbol n states) (λ _, True) states st)
    as (st1 & -> & Hinv1 & _ & Hpot1).
  { intros c st0 Hinv0 _ Hc.
    destruct (get_dfa_symbol_inv states c st0 Hinv0 Hc) as (st' & ? & ? & ?). eauto. }
  { done. }
  { done. }
  simpl.
  destruct (get_dfa_outputs_inv states st1 Hinv1) as (st2 & -> & Hinv2 & Hpot2).
  exists st2. split_and!; [done|done|congruence].
Qed.

(** [get_dfa] returns for every NFA, and ends in an explored builder. *)
Lemma get_dfa_run_explored :
  ∃ st, NFA.get_dfa_run n = Some st
    ∧ explored subset_next (NFA.collect_outputs n) {[NFA.initial_state n]}
        (powerset (NFA.mentioned n)) st.
Proof.
  destruct get_dfa_start_inv as [Hinv Hpot].
  apply explore_total; [apply get_dfa_body_inv|done|].
  rewrite Hpot. unfold NFA.get_dfa_fuel. lia.
Qed.

(** The run of the subsets along a word collects the ends of the paths of an
    ε-free NFA. *)
Lemma subset_run_total w : ∀ states, is_Some (key_run subset_next states w).
Proof. induction w as [|c w IH]; intros states; simpl; [eauto|apply IH]. Qed.

Lemma path_epsilon_free_inv s w u :
  NFA.epsilon_free n → NFA.path n s w u →
  match w with
  | [] => u = s
  | c :: w' => is_byte c ∧ ∃ s', s' ∈ NFA.delta n s c ∧ NFA.path n s' w' u
  end.
Proof.
  intros Hfree Hpath. destruct Hpath as [s|s s' u w Hs' _|s c s' u w Hc Hs' Hp].
  - done.
  - unfold NFA.delta in Hs'. rewrite Hfree in Hs'. set_solver.
  - eauto.
Qed.

Lemma subset_run_path w : ∀ states states' u,
  NFA.epsilon_free n → Forall is_byte w →
  key_run subset_next states w = Some states' →
  u ∈ states' ↔ ∃ s, s ∈ states ∧ NFA.path n s w u.
Proof.
  induction w as [|c w IH]; intros states states' u Hfree Hw; simpl.
  - intros [= <-]. split.
    + intros Hu. exists u. split; [done|constructor].
    + intros (s & Hs & Hp). by apply path_epsilon_free_inv in Hp as ->.
  - apply Forall_cons in Hw as [Hc Hw]. intros Hrun.
    rewrite (IH _ _ u Hfree Hw Hrun). split.
    + intros (s' & (s & Hs & Hs')%elem_of_next_states & Hp).
      exists s. split; [done|]. by eapply NFA.path_sym.
    + intros (s & Hs & Hp). apply path_epsilon_free_inv in Hp as (_ & s' & Hs' & Hp); [|done].
      exists s'. split; [|done]. apply elem_of_next_states. eauto.
Qed.

Lemma path_bytes s w u : NFA.path n s w u → Forall is_byte w.
Proof. induction 1; [done|done|by constructor]. Qed.

Lemma collect_outputs_nonempty states :
  map_Forall (λ _ T, T ≠ ∅) (NFA.outputs n) →
  NFA.collect_outputs n states ≠ ∅ ↔ ∃ s, s ∈ states ∧ NFA.accepting n s.
Proof.
  intros Hne. unfold NFA.accepting. split.
  - intros [x Hx]%set_choose_L. apply elem_of_collect_outputs in Hx as (s & Hs & Hx).
    exists s. split; [done|]. destruct (NFA.outputs n !! s); [eauto|set_solver].
  - intros (s & Hs & [T HT]).
    destruct (set_choose_L T) as [x Hx]; [by eapply Hne|].
    intros Hempty. apply (not_elem_of_empty (C:=gset Z) x). rewrite <- Hempty.
    apply elem_of_collect_outputs. exists s. by rewrite HT.
Qed.

End get_dfa.

(** What [get_dfa] builds, for an NFA without ε-transitions whose tag sets are
    not empty: the DFA accepts the words the NFA accepts; [state_map] is a
    bijection between the sets of NFA states the construction met and the DFA
    states; the initial state stands for the set of the initial state alone; a
    state is accepting iff its set holds an accepting NFA state; its tags are
    the union of the tags of its set; and its transition on a byte leads to the
    state of the set of the successors. *)
Definition subset_construction (n : NFA.t) (st : DFA.builder (gset Z)) : Prop :=
  let d := DFA.dfa st in
  (∀ w, DFA.accepts d w ↔ NFA.accepts n w)
  ∧ DFA.state_map st !! {[NFA.initial_state n]} = Some (DFA.initial_state d)
  ∧ (∀ q, DFA.is_state d q ↔ ∃ states, DFA.state_map st !! states = Some q)
  ∧ (∀ states1 states2 q,
       DFA.state_map st !! states1 = Some q → DFA.state_map st !! states2 = Some q →
       states1 = states2)
  ∧ (∀ states q, DFA.state_map st !! states = Some q →
       (DFA.accepting d q ↔ ∃ s, s ∈ states ∧ NFA.accepting n s)
       ∧ (∀ x, x ∈ DFA.get_outputs d q ↔
               ∃ s, s ∈ states ∧ x ∈ default ∅ (NFA.outputs n !! s))
       ∧ (∀ c, is_byte c → ∃ states' q',
               DFA.state_map st !! states' = Some q'
               ∧ DFA.step d q c = Some q'
               ∧ ∀ s', s' ∈ states' ↔ ∃ s, s ∈ states ∧ s' ∈ NFA.delta n s c)).

(** C1, with the condition on the tag sets it needs: for every NFA [n] with no
    ε-transition whose [outputs] holds no empty tag set, [get_dfa] returns a
    DFA that accepts exactly the byte strings [n] accepts; each of its states
    is accepting iff some NFA state of the subset it stands for is accepting,
    and its tag set is the union of the tag sets of the states of that subset.
    No condition on the initial state is needed. *)
Theorem get_dfa_subset_construction `{IterOrder} (n : NFA.t) :
  NFA.epsilon_free n →
  map_Forall (λ _ T, T ≠ ∅) (NFA.outputs n) →
  ∃ st, NFA.get_dfa_run n = Some st ∧ subset_construction n st.
Proof.
  intros Hfree Hne. destruct (get_dfa_run_explored n) as (st & Hrun & Hex).
  exists st. split; [done|]. pose proof Hex as [Hinv _].
  split_and!.
  - intros w. rewrite (explored_accepts _ _ _ _ st w Hex). split.
    + intros (Hw & states & Hk & Ht).
      apply collect_outputs_nonempty in Ht as (u & Hu & Hacc); [|done].
      apply (subset_run_path n w _ _ u Hfree Hw Hk) in Hu as (s & ->%elem_of_singleton & Hp).
      by exists u.
    + intros (u & Hp & Hacc). pose proof (path_bytes n _ _ _ Hp) as Hw.
      split; [done|]. destruct (subset_run_total n w {[NFA.initial_state n]}) as [states Hk].
      exists states. split; [done|]. apply collect_outputs_nonempty; [done|].
      exists u. split; [|done]. apply (subset_run_path n w _ _ u Hfree Hw Hk).
      exists (NFA.initial_state n). split; [set_solver|done].
  - apply (bi_init _ _ _ _ _ _ Hinv).
  - apply (bi_range _ _ _ _ _ _ Hinv).
  - apply (bi_inj _ _ _ _ _ _ Hinv).
  - intros states q Hq. split_and!.
    + unfold DFA.accepting. rewrite (explored_outputs _ _ _ _ st states q Hex Hq).
      by apply collect_outputs_nonempty.
    + intros x. rewrite (explored_outputs _ _ _ _ st states q Hex Hq).
      apply elem_of_collect_outputs.
    + intros c Hc. destruct (explored_key _ _ _ _ st states q Hex Hq) as (Hqs & _ & Hl).
      destruct (Hl c Hc) as (states' & q' & [= <-] & Hq' & Hlk).
      destruct (explored_key _ _ _ _ st _ q' Hex Hq') as (Hqs' & _ & _).
      exists (NFA.next_states n states c), q'. split_and!; [done| |apply elem_of_next_states].
      unfold DFA.step. rewrite decide_True by done. rewrite Hlk. simpl.
      rewrite decide_False; [done|]. unfold DFA.is_state in Hqs'. lia.
Qed.

(** ** Product construction: [DFA.union] *)

Lemma complete_lookup d s c :
  DFA.complete d → DFA.is_state d s → is_byte c →
  ∃ s', DFA.lookup d s c = Some s' ∧ DFA.is_state d s' ∧ DFA.step d s c = Some s'.
Proof.
  intros [_ Hrows] Hs Hc. unfold DFA.is_state, DFA.num_states in Hs.
  destruct (lookup_lt_is_Some_2 (DFA.transitions d) (Z.to_nat s)) as [row Hrow]; [lia|].
  pose proof (proj1 (Forall_lookup _ _) Hrows _ _ Hrow) as [Hlen Hall].
  unfold is_byte, NUM_CHARS in Hc. unfold NUM_CHARS in Hlen.
  destruct (lookup_lt_is_Some_2 row (Z.to_nat c)) as [s' Hs']; [lia|].
  pose proof (proj1 (Forall_lookup _ _) Hall _ _ Hs') as Hst.
  assert (DFA.lookup d s c = Some s') as Hlk.
  { rewrite lookup_nonneg by lia. rewrite Hrow. done. }
  exists s'. split_and!; [done..|].
  unfold DFA.step. rewrite decide_True by (split; [done|by unfold is_byte, NUM_CHARS]).
  rewrite Hlk. simpl. rewrite decide_False; [done|]. unfold DFA.is_state in Hst. lia.
Qed.

Lemma complete_mentioned d s : DFA.complete d → s ∈ DFA.mentioned d → DFA.is_state d s.
Proof.
  intros [Hinit Hrows]. unfold DFA.mentioned.
  rewrite elem_of_union, elem_of_singleton, elem_of_list_to_set, elem_of_concat.
  intros [->|(row & Hrow & Hs)]; [done|].
  apply (proj1 (Forall_forall _ _) Hrows) in Hrow as [_ Hall].
  by apply (proj1 (Forall_forall _ _) Hall).
Qed.

Lemma complete_run d w : ∀ s,
  DFA.complete d → DFA.is_state d s → Forall is_byte w →
  ∃ s', DFA.run d s w = Some s' ∧ DFA.is_state d s'.
Proof.
  induction w as [|c w IH]; intros s Hd Hs Hw; simpl; [by eauto|].
  apply Forall_cons in Hw as [Hc Hw].
  destruct (complete_lookup d s c Hd Hs Hc) as (s' & _ & Hs' & ->). simpl. by apply IH.
Qed.

Section union.
Variables lhs rhs : DFA.t.

Definition pair_next (p : Z * Z) (c : Z) : option (Z * Z) :=
  l ← DFA.lookup lhs p.1 c; r ← DFA.lookup rhs p.2 c; Some (l, r).

Definition pair_tags (p : Z * Z) : gset Z :=
  DFA.get_outputs lhs p.1 ∪ DFA.get_outputs rhs p.2.

Definition pair_universe : gset (Z * Z) :=
  cprod (DFA.mentioned lhs) (DFA.mentioned rhs).

Local Abbreviation k0 := (DFA.initial_state lhs, DFA.initial_state rhs).
Local Abbreviation inv := (build_inv pair_next pair_tags k0 pair_universe).
Local Abbreviation pot := (potential pair_universe).

Lemma union_start_inv :
  inv None (DFA.union_start lhs rhs) ∧ pot (DFA.union_start lhs rhs) = size pair_universe.
Proof.
  apply (start_inv pair_next pair_tags k0). unfold pair_universe, DFA.mentioned.
  apply elem_of_gset_cprod. simpl. set_solver.
Qed.

Lemma pair_next_universe p c p' : pair_next p c = Some p' → p' ∈ pair_universe.
Proof.
  unfold pair_next. intros (l & Hl & (r & Hr & [= <-])%bind_Some)%bind_Some.
  apply elem_of_gset_cprod. simpl. split; by eapply lookup_mentioned.
Qed.

Lemma union_symbol_spec pr state st c p' :
  inv (Some (pr, c)) st → is_byte c → DFA.state_map st !! pr = Some state →
  pair_next pr c = Some p' →
  ∃ st', DFA.union_symbol lhs rhs pr state st c = Some st'
    ∧ inv (Some (pr, c + 1)) st' ∧ DFA.state_map st' !! pr = Some state
    ∧ pot st' = pot st.
Proof.
  intros Hinv Hc Hstate Hnext. unfold DFA.union_symbol.
  pose proof Hnext as Hn. unfold pair_next in Hn.
  apply bind_Some in Hn as (l & -> & (r & -> & [= <-])%bind_Some). simpl.
  destruct (intern_inv _ _ _ _ _ st (l, r) Hinv)
    as (Hinv1 & Hpot1 & Hin1 & Hsub); [by eapply pair_next_universe|].
  assert (DFA.state_map (DFA.intern st (l, r)) !! pr = Some state) as Hstate1
    by (by eapply lookup_weaken).
  destruct (connect_inv _ _ _ _ _ pr c (l, r) state Hinv1)
    as (st' & Hc' & Hinv' & Hpot' & Hmap); [done..|].
  exists st'. split_and!; [done|done|by rewrite Hmap|congruence].
Qed.

Lemma union_outputs_spec pr state d :
  DFA.outputs d !! state = None →
  DFA.union_outputs lhs rhs pr state d =
    DFA.mk (DFA.transitions d)
      (match expected_tags pair_tags pr with
       | Some T => <[state:=T]> (DFA.outputs d)
       | None => DFA.outputs d
       end) (DFA.initial_state d).
Proof.
  intros Hnone. unfold DFA.union_outputs, expected_tags, pair_tags. rewrite Hnone.
  set (l := DFA.get_outputs lhs pr.1). set (r := DFA.get_outputs rhs pr.2).
  destruct (decide (l ∪ r = ∅)) as [Hemp|Hne].
  - assert (l = ∅ ∧ r = ∅) as [-> ->].
    { split; apply leibniz_equiv; set_solver. }
    rewrite size_empty, decide_False by lia. by destruct d.
  - rewrite decide_True.
    + f_equal. rewrite !alter_insert_eq. f_equal. set_solver.
    + destruct (decide (size l = 0%nat)) as [Hl|Hl]; [|left; lia].
      destruct (decide (size r = 0%nat)) as [Hr|Hr]; [|right; lia].
      apply size_empty_iff, leibniz_equiv in Hl, Hr. subst l r. exfalso. apply Hne.
      rewrite Hl, Hr. set_solver.
Qed.
Lemma union_finish pr state st :
  inv (Some (pr, NUM_CHARS)) st → DFA.state_map st !! pr = Some state →
  let st' := DFA.mk_builder (DFA.union_outputs lhs rhs pr state (DFA.dfa st))
               (DFA.state_map st) (DFA.frontier st) in
  inv None st' ∧ pot st' = pot st.
Proof.
  intros Hinv Hstate.
  destruct (bi_cur _ _ _ _ _ _ Hinv pr _ eq_refl) as (_ & (q & Hq & Hnone) & _).
  assert (q = state) as -> by congruence.
  rewrite union_outputs_spec by done.
  by apply (finish_inv pair_next pair_tags k0 pair_universe st pr state).
Qed.

(** A pass of [union] that raises no exception keeps the invariant. *)
Lemma union_body_partial pr st st' :
  inv (Some (pr, 0)) st → DFA.union_body lhs rhs pr st = Some st' → inv None st'.
Proof.
  intros Hinv. unfold DFA.union_body.
  intros (state & Hstate & (st1 & Hloop & [= <-])%bind_Some)%bind_Some.
  destruct (symbols_partial pair_next pair_tags k0 pair_universe
              (DFA.union_symbol lhs rhs pr state)
              (λ st, DFA.state_map st !! pr = Some state) pr st st1) as [Hinv1 Hstate1];
    [|done|done|done|by apply union_finish].
  intros c st0 st0' Hinv0 Hstate0 Hc Hsym.
  assert (is_Some (pair_next pr c)) as [p' Hp'].
  { unfold DFA.union_symbol in Hsym. unfold pair_next.
    destruct (DFA.lookup lhs pr.1 c); [|done]. simpl in *.
    destruct (DFA.lookup rhs pr.2 c); [|done]. simpl. eauto. }
  destruct (union_symbol_spec pr state st0 c p' Hinv0 Hc Hstate0 Hp')
    as (st2 & Hsym2 & Hinv2 & Hstate2 & _).
  assert (st2 = st0') as -> by congruence. done.
Qed.

Lemma union_run_partial st :
  DFA.union_run lhs rhs = Some st →
  explored pair_next pair_tags k0 pair_universe st.
Proof.
  destruct union_start_inv as [Hinv _].
  apply explore_partial; [|done]. intros k st1 st2. apply union_body_partial.
Qed.

(** On complete automata no pass raises an exception. *)
Lemma union_body_total pr st :
  DFA.complete lhs → DFA.complete rhs → inv (Some (pr, 0)) st →
  ∃ st', DFA.union_body lhs rhs pr st = Some st' ∧ inv None st' ∧ pot st' = pot st.
Proof.
  intros Hl Hr Hinv. unfold DFA.union_body.
  destruct (bi_cur _ _ _ _ _ _ Hinv pr _ eq_refl) as (_ & (state & Hstate & _) & _).
  rewrite Hstate. cbn [mbind option_bind].
  assert (pr ∈ pair_universe) as [Hp1 Hp2]%elem_of_gset_cprod
    by (apply (bi_univ _ _ _ _ _ _ Hinv); eauto).
  apply (complete_mentioned _ _ Hl) in Hp1. apply (complete_mentioned _ _ Hr) in Hp2.
  destruct (symbols_total pair_next pair_tags k0 pair_universe
              (DFA.union_symbol lhs rhs pr state)
              (λ st, DFA.state_map st !! pr = Some state) pr st)
    as (st1 & -> & Hinv1 & Hstate1 & Hpot1); [|done|done|].
  - intros c st0 Hinv0 Hstate0 Hc.
    destruct (complete_lookup lhs pr.1 c Hl Hp1 Hc) as (l & Hlk & _).
    destruct (complete_lookup rhs pr.2 c Hr Hp2 Hc) as (r & Hrk & _).
    apply (union_symbol_spec pr state st0 c (l, r)); [done..|].
    unfold pair_next. by rewrite Hlk, Hrk.
  - simpl. eexists. split; [done|].
    destruct (union_finish pr state st1 Hinv1 Hstate1) as [Hinv2 Hpot2].
    split; [done|congruence].
Qed.

Lemma union_run_total :
  DFA.complete lhs → DFA.complete rhs →
  ∃ st, DFA.union_run lhs rhs = Some st
    ∧ explored pair_next pair_tags k0 pair_universe st.
Proof.
  intros Hl Hr. destruct union_start_inv as [Hinv Hpot].
  apply explore_total; [intros; by apply union_body_total|done|].
  rewrite Hpot. unfold DFA.union_fuel, pair_universe. lia.
Qed.

(** The run of the pairs is the pair of the runs. *)
Lemma pair_run w : ∀ p p',
  DFA.complete lhs → DFA.complete rhs →
  DFA.is_state lhs p.1 → DFA.is_state rhs p.2 → Forall is_byte w →
  key_run pair_next p w = Some p' ↔
  DFA.run lhs p.1 w = Some p'.1 ∧ DFA.run rhs p.2 w = Some p'.2.
Proof.
  induction w as [|c w IH]; intros [p1 p2] [p1' p2'] Hl Hr Hp1 Hp2 Hw; simpl in *.
  - naive_solver.
  - apply Forall_cons in Hw as [Hc Hw].
    destruct (complete_lookup lhs p1 c Hl Hp1 Hc) as (l & Hlk & Hls & ->).
    destruct (complete_lookup rhs p2 c Hr Hp2 Hc) as (r & Hrk & Hrs & ->).
    unfold pair_next. simpl. rewrite Hlk, Hrk. simpl.
    by apply (IH (l, r) (p1', p2')).
Qed.

End union.

(** What [union] builds from two complete DFAs: the DFA accepts the words
    either automaton accepts; [state_map] is a bijection between the pairs
    of states the construction met and the states of the result; the initial
    state stands for the pair of the initial states; a state is accepting iff
    a component of its pair is; its tags are the union of the tags of the two
    components; and its transitions follow those of the components. *)
Definition product_construction (lhs rhs : DFA.t) (st : DFA.builder (Z * Z)) : Prop :=
  let d := DFA.dfa st in
  (∀ w, DFA.accepts d w ↔ DFA.accepts lhs w ∨ DFA.accepts rhs w)
  ∧ DFA.state_map st !! (DFA.initial_state lhs, DFA.initial_state rhs)
      = Some (DFA.initial_state d)
  ∧ (∀ q, DFA.is_state d q ↔ ∃ p, DFA.state_map st !! p = Some q)
  ∧ (∀ p1 p2 q,
       DFA.state_map st !! p1 = Some q → DFA.state_map st !! p2 = Some q → p1 = p2)
  ∧ (∀ p q, DFA.state_map st !! p = Some q →
       DFA.is_state lhs p.1 ∧ DFA.is_state rhs p.2
       ∧ (DFA.accepting d q ↔ DFA.accepting lhs p.1 ∨ DFA.accepting rhs p.2)
       ∧ DFA.get_outputs d q = DFA.get_outputs lhs p.1 ∪ DFA.get_outputs rhs p.2
       ∧ (∀ c, is_byte c → ∃ p' q',
               DFA.state_map st !! p' = Some q'
               ∧ DFA.step d q c = Some q'
               ∧ DFA.step lhs p.1 c = Some p'.1
               ∧ DFA.step rhs p.2 c = Some p'.2)).

Lemma pair_tags_nonempty lhs rhs p :
  pair_tags lhs rhs p ≠ ∅ ↔ DFA.accepting lhs p.1 ∨ DFA.accepting rhs p.2.
Proof.
  unfold pair_tags, DFA.accepting.
  destruct (decide (DFA.get_outputs lhs p.1 = ∅)) as [Hl|Hl],
           (decide (DFA.get_outputs rhs p.2 = ∅)) as [Hr|Hr].
  - rewrite Hl, Hr. split; [intros Hne; exfalso; apply Hne; set_solver|tauto].
  - split; [tauto|]. intros _ Hemp. apply Hr. apply leibniz_equiv. set_solver.
  - split; [tauto|]. intros _ Hemp. apply Hl. apply leibniz_equiv. set_solver.
  - split; [tauto|]. intros _ Hemp. apply Hl. apply leibniz_equiv. set_solver.
Qed.

(** C4, for complete automata: for every pair of DFAs whose tables hold
    only state indices (rows of [NUM_CHARS] entries, no [-1], valid initial
    states), [union] returns a DFA whose language is the union of the two
    languages, and the tag set of every product state is the union of the tag
    sets of its two components. *)
Theorem union_product_construction (lhs rhs : DFA.t) :
  DFA.complete lhs → DFA.complete rhs →
  ∃ st, DFA.union_run lhs rhs = Some st ∧ product_construction lhs rhs st.
Proof.
  intros Hl Hr. destruct (union_run_total lhs rhs Hl Hr) as (st & Hrun & Hex).
  exists st. split; [done|]. pose proof Hex as [Hinv _].
  assert (∀ p q, DFA.state_map st !! p = Some q →
            DFA.is_state lhs p.1 ∧ DFA.is_state rhs p.2) as Hvalid.
  { intros p q Hq.
    assert (p ∈ pair_universe lhs rhs) as [Hp1 Hp2]%elem_of_gset_cprod
      by (apply (bi_univ _ _ _ _ _ _ Hinv); eauto).
    split; by apply complete_mentioned. }
  pose proof (bi_init _ _ _ _ _ _ Hinv) as Hinit.
  destruct (Hvalid _ _ Hinit) as [Hi1 Hi2]. simpl in Hi1, Hi2.
  split_and!.
  - intros w. rewrite (explored_accepts _ _ _ _ st w Hex). split.
    + intros (Hw & [p1 p2] & Hk & Ht).
      apply pair_run in Hk as [Hrun1 Hrun2]; [|done..].
      apply pair_tags_nonempty in Ht as [Ha|Ha]; [left|right]; eexists; eauto.
    + intros [(s & Hs & Ha)|(s & Hs & Ha)].
      * pose proof (run_bytes _ _ _ _ Hs) as Hw. split; [done|].
        destruct (complete_run rhs w _ Hr Hi2 Hw) as (s2 & Hs2 & _).
        exists (s, s2). split; [by apply pair_run|].
        apply pair_tags_nonempty. by left.
      * pose proof (run_bytes _ _ _ _ Hs) as Hw. split; [done|].
        destruct (complete_run lhs w _ Hl Hi1 Hw) as (s1 & Hs1 & _).
        exists (s1, s). split; [by apply pair_run|].
        apply pair_tags_nonempty. by right.
  - done.
  - apply (bi_range _ _ _ _ _ _ Hinv).
  - apply (bi_inj _ _ _ _ _ _ Hinv).
  - intros p q Hq. destruct (Hvalid p q Hq) as [Hp1 Hp2]. split_and!; [done|done| | |].
    + unfold DFA.accepting at 1. rewrite (explored_outputs _ _ _ _ st p q Hex Hq).
      apply pair_tags_nonempty.
    + apply (explored_outputs _ _ _ _ st p q Hex Hq).
    + intros c Hc. destruct (explored_key _ _ _ _ st p q Hex Hq) as (Hqs & _ & Hlk).
      destruct (Hlk c Hc) as (p' & q' & Hn & Hq' & Hlk').
      destruct (explored_key _ _ _ _ st p' q' Hex Hq') as (Hqs' & _ & _).
      exists p', q'. split; [done|].
      destruct (complete_lookup lhs p.1 c Hl Hp1 Hc) as (l & Hlk1 & _ & Hs1).
      destruct (complete_lookup rhs p.2 c Hr Hp2 Hc) as (r & Hlk2 & _ & Hs2).
      unfold pair_next in Hn. rewrite Hlk1, Hlk2 in Hn. simpl in Hn. injection Hn as <-.
      split_and!; [|done|done].
      unfold DFA.step. rewrite decide_True by done. rewrite Hlk'. simpl.
      rewrite decide_False; [done|]. unfold DFA.is_state in Hqs'. lia.
Qed.

(** ** Sink states: [DFA.is_sink_state] *)

(** [t] is reachable from [s] by defined transitions. *)
Definition reachable (d : DFA.t) (s t : Z) : Prop := ∃ w, DFA.run d s w = Some t.

Lemma run_app d w1 w2 : ∀ s,
  DFA.run d s (w1 ++ w2) = DFA.run d s w1 ≫= λ s', DFA.run d s' w2.
Proof.
  induction w1 as [|c w1 IH]; intros s; simpl; [done|].
  destruct (DFA.step d s c); simpl; [apply IH|done].
Qed.

Lemma reachable_refl d s : reachable d s s.
Proof. by exists []. Qed.

Lemma reachable_step d s t c u :
  reachable d s t → DFA.step d t c = Some u → reachable d s u.
Proof.
  intros [w Hw] Hstep. exists (w ++ [c]). rewrite run_app, Hw. simpl. by rewrite Hstep.
Qed.

(** A set that holds [s] and is closed under the transitions holds all that
    is reachable from [s]. *)
Lemma reachable_closed d (X : gset Z) s t :
  s ∈ X → (∀ x c y, x ∈ X → DFA.step d x c = Some y → y ∈ X) →
  reachable d s t → t ∈ X.
Proof.
  intros Hs Hclosed [w Hw]. revert s Hs Hw.
  induction w as [|c w IH]; intros s Hs; simpl.
  - by intros [= <-].
  - intros (s' & Hstep & Hrun)%bind_Some. eapply IH; [|done]. by eapply Hclosed.
Qed.

Definition state_set (d : DFA.t) : gset Z :=
  list_to_set (seqZ 0 (DFA.num_states d)).

Lemma elem_of_state_set d s : s ∈ state_set d ↔ DFA.is_state d s.
Proof.
  unfold state_set, DFA.is_state. rewrite elem_of_list_to_set, elem_of_seqZ. lia.
Qed.

Lemma size_state_set d : size (state_set d) = length (DFA.transitions d).
Proof.
  unfold state_set. rewrite size_list_to_set by apply NoDup_seqZ.
  rewrite length_seqZ. unfold DFA.num_states. lia.
Qed.

Section is_sink_state.
Context `{IterOrder}.
Variable d : DFA.t.
Hypothesis Hd : DFA.complete d.

Lemma sink_scan_spec state explored frontier :
  DFA.is_state d state →
  ∃ frontier', DFA.sink_scan d state explored frontier = Some frontier'
    ∧ ∀ t, t ∈ frontier' ↔
        t ∈ frontier ∨ (t ∉ explored ∧ ∃ c, DFA.step d state c = Some t).
Proof.
  intros Hstate. unfold DFA.sink_scan.
  destruct (for_each_total
    (λ frontier c, next_state ← DFA.lookup d state c;
       Some (if decide (next_state ∈ explored) then frontier
             else frontier ∪ {[next_state]}))
    (λ pre fr, ∀ t, t ∈ fr ↔
       t ∈ frontier ∨ (t ∉ explored ∧ ∃ c, c ∈ pre ∧ DFA.step d state c = Some t))
    (Py.range 0 NUM_CHARS) frontier) as (fr & Hrun & Hfr).
  - intros t. split; [by left|]. intros [?|(_ & c & Hc & _)]; [done|].
    by apply elem_of_nil in Hc.
  - intros pre c post fr Hsplit Hfr. apply range_split in Hsplit as [_ Hc].
    destruct (complete_lookup d state c Hd Hstate Hc) as (t & Hlk & Ht & Hstep).
    rewrite Hlk. simpl. eexists. split; [done|]. intros u.
    setoid_rewrite elem_of_app. setoid_rewrite list_elem_of_singleton.
    case_decide as Hin.
    + rewrite Hfr. split; [naive_solver|].
      intros [?|(Hu & c' & [Hc'| ->] & Hs')]; [by left|naive_solver|].
      assert (u = t) as -> by congruence. done.
    + rewrite elem_of_union, elem_of_singleton, Hfr. split.
      * intros [[?|(Hu & c' & Hc' & Hs')]| ->]; [by left|naive_solver|].
        right. split; [done|]. exists c. eauto.
      * intros [?|(Hu & c' & [Hc'| ->] & Hs')]; [by left; left|left; naive_solver|].
        right. congruence.
  - exists fr. split; [done|]. intros t. rewrite Hfr. split.
    + intros [?|(Hu & c & _ & Hs)]; [by left|right; eauto].
    + intros [?|(Hu & c & Hs)]; [by left|]. right. split; [done|]. exists c. split; [|done].
      unfold DFA.step in Hs. case_decide as Hsc; [|done]. destruct Hsc as [_ Hc].
      unfold Py.range. apply elem_of_seqZ. unfold is_byte in Hc. lia.
Qed.

Lemma is_sink_loop_spec (s0 : Z) : ∀ fuel explored frontier,
  (∀ t, t ∈ explored ∪ frontier → DFA.is_state d t ∧ reachable d s0 t) →
  (∀ t, t ∈ explored → ¬ DFA.accepting d t) →
  (∀ t c u, t ∈ explored → DFA.step d t c = Some u → u ∈ explored ∪ frontier) →
  s0 ∈ explored ∪ frontier →
  explored ## frontier →
  (size (state_set d ∖ explored) < fuel)%nat →
  ∃ b, DFA.is_sink_loop fuel d explored frontier = Some b
    ∧ (b = true ↔ ∀ t, reachable d s0 t → ¬ DFA.accepting d t).
Proof.
  induction fuel as [|fuel IH]; intros explored frontier Hreach Hnacc Hclosed Hs0 Hdisj Hfuel;
    [lia|]. simpl.
  destruct (iter frontier) as [|state rest] eqn:Hiter.
  - apply iter_nil in Hiter as ->. exists true. split; [done|]. split; [|done].
    intros _ t Ht. apply Hnacc.
    apply (reachable_closed d explored s0 t); [set_solver| |done].
    intros x c y Hx Hstep. specialize (Hclosed x c y Hx Hstep). set_solver.
  - assert (state ∈ frontier) as Hstate by (apply elem_of_iter; rewrite Hiter; by left).
    destruct (Hreach state) as [Hst Hrs]; [set_solver|].
    case_decide as Hacc.
    + exists false. split; [done|]. split; [done|]. intros Hall. exfalso.
      apply (Hall state Hrs). unfold DFA.accepting. intros Hemp.
      rewrite Hemp, size_empty in Hacc. lia.
    + destruct (sink_scan_spec state (explored ∪ {[state]}) (frontier ∖ {[state]}) Hst)
        as (frontier' & -> & Hfr'). simpl.
      apply IH.
      * intros t [Ht|Ht%Hfr']%elem_of_union.
        -- apply Hreach. set_solver.
        -- destruct Ht as [Ht|(_ & c & Hstep)]; [apply Hreach; set_solver|].
           split; [|by eapply reachable_step].
           destruct (complete_lookup d state c Hd Hst) as (t' & _ & Ht' & Hstep').
           { unfold DFA.step in Hstep. case_decide; [tauto|done]. }
           congruence.
      * intros t [Ht| ->%elem_of_singleton]%elem_of_union; [by apply Hnacc|].
        unfold DFA.accepting. intros Hne. apply Hne, leibniz_equiv, size_empty_iff. lia.
      * intros t c u [Ht| ->%elem_of_singleton]%elem_of_union Hstep.
        -- specialize (Hclosed t c u Ht Hstep).
           destruct (decide (u = state)) as [->|Hne]; [set_solver|].
           apply elem_of_union in Hclosed as [Hu|Hu]; [set_solver|].
           apply elem_of_union_r, Hfr'. left. set_solver.
        -- destruct (decide (u ∈ explored ∪ {[state]})) as [Hu|Hu]; [set_solver|].
           apply elem_of_union_r, Hfr'. right. eauto.
      * destruct (decide (s0 = state)) as [->|Hne]; [set_solver|].
        apply elem_of_union in Hs0 as [Hu|Hu]; [set_solver|].
        apply elem_of_union_r, Hfr'. left. set_solver.
      * intros t Ht [Ht'|(Ht' & _)]%Hfr'; [|done].
        apply elem_of_difference in Ht' as [Ht' Hne].
        apply elem_of_union in Ht as [Ht|Ht]; [|done]. by apply (Hdisj t).
      * assert (state_set d ∖ (explored ∪ {[state]}) ⊂ state_set d ∖ explored) as Hsub.
        { apply strict_spec_alt. split; [set_solver|]. intros Heq.
          assert (state ∈ state_set d ∖ explored) as Hin.
          { apply elem_of_difference. split; [by apply elem_of_state_set|].
            intros Hin. by apply (Hdisj state). }
          rewrite <- Heq in Hin. set_solver. }
        apply subset_size in Hsub. lia.
Qed.

(** C6, for complete automata: for every DFA whose table holds only state
    indices and every state [s], [is_sink_state s] returns [True] iff no
    accepting state (one with a non-empty entry in [outputs]) is reachable
    from [s] by transitions, [s] itself included. *)
Theorem is_sink_state_spec s :
  DFA.is_state d s →
  ∃ b, DFA.is_sink_state d s = Some b
    ∧ (b = true ↔ ∀ t, reachable d s t → ¬ DFA.accepting d t).
Proof.
  intros Hs. unfold DFA.is_sink_state. apply is_sink_loop_spec.
  - intros t Ht. assert (t = s) as -> by set_solver. split; [done|apply reachable_refl].
  - set_solver.
  - set_solver.
  - set_solver.
  - set_solver.
  - assert (size (state_set d ∖ ∅) ≤ size (state_set d))%nat as Hle
      by (apply subseteq_size; set_solver).
    rewrite size_state_set in Hle. unfold DFA.is_sink_fuel. lia.
Qed.
End is_sink_state.

(** ** Examples *)

Global Instance accepting_dec d s : Decision (DFA.accepting d s).
Proof. unfold DFA.accepting. apply _. Defined.

(** An NFA whose only state is a key of [outputs] with no tag. *)
Definition untagged_nfa : NFA.t := NFA.mk 0 ∅ {[0 := ∅]} 0.

(** [0 --a--> 1], with [1] accepting. *)
Definition letter_nfa : NFA.t := NFA.mk 1 {[(0, 97) := {[1]}]} {[1 := {[7]}]} 0.

(** A row of the table of a DFA. *)
Definition blank_row : list Z := replicate (Z.to_nat NUM_CHARS) (-1).
Definition loop_row (s : Z) : list Z := replicate (Z.to_nat NUM_CHARS) s.

(** Three states and one transition, from state 2 on byte 0 to the accepting
    state 1; the initial state 0 has no transition. *)
Definition sparse_dfa : DFA.t :=
  DFA.mk [blank_row; blank_row; <[0%nat:=1]> blank_row] {[1 := {[7]}]} 0.

(** One state and no transition. *)
Definition dead_dfa : DFA.t := DFA.mk [blank_row] ∅ 0.

(** One accepting state with a loop on every byte. *)
Definition universal_dfa (tag : Z) : DFA.t := DFA.mk [loop_row 0] {[0 := {[tag]}]} 0.

Lemma sparse_dfa_invariant : DFA.invariant sparse_dfa.
Proof.
  unfold DFA.invariant, DFA.is_state. split; [|split]; compute_done.
Qed.

Lemma dead_dfa_invariant : DFA.invariant dead_dfa.
Proof.
  unfold DFA.invariant, DFA.is_state. split; [|split]; compute_done.
Qed.

Lemma universal_dfa_complete tag : DFA.complete (universal_dfa tag).
Proof.
  unfold DFA.complete, DFA.is_state. split; compute_done.
Qed.

Lemma sparse_dfa_stuck t : reachable sparse_dfa 0 t → t = 0.
Proof.
  intros [[|c w] Hw]; simpl in Hw; [congruence|].
  apply bind_Some in Hw as (s' & Hstep & _). unfold DFA.step in Hstep.
  case_decide as Hc; [|done]. destruct Hc as [_ Hc]. unfold is_byte, NUM_CHARS in Hc.
  rewrite lookup_nonneg in Hstep by lia. simpl in Hstep.
  unfold blank_row in Hstep. rewrite lookup_replicate_2 in Hstep by (unfold NUM_CHARS; lia).
  done.
Qed.

(** *** Subset construction *)

Lemma letter_nfa_epsilon_free : NFA.epsilon_free letter_nfa.
Proof. intros s. unfold letter_nfa. simpl. by rewrite lookup_singleton_ne. Qed.

Lemma get_dfa_subset_construction_witness :
  NFA.epsilon_free letter_nfa
  ∧ map_Forall (λ _ T, T ≠ ∅) (NFA.outputs letter_nfa)
  ∧ ∃ st, @NFA.get_dfa_run forward_order letter_nfa = Some st
      ∧ subset_construction letter_nfa st.
Proof.
  assert (map_Forall (λ (_ : Z) (T : gset Z), T ≠ ∅) (NFA.outputs letter_nfa)) as Hne
    by compute_done.
  split; [apply letter_nfa_epsilon_free|]. split; [done|].
  apply (@get_dfa_subset_construction forward_order letter_nfa);
    [apply letter_nfa_epsilon_free|done].
Defined.

(** C1 as stated fails on an NFA whose accepting state has an empty tag set:
    the NFA accepts the empty string, the DFA of [get_dfa] accepts nothing. *)
Lemma get_dfa_untagged_counterexample :
  NFA.epsilon_free untagged_nfa ∧ NFA.valid_initial untagged_nfa
  ∧ ∃ d, @NFA.get_dfa forward_order untagged_nfa = Some d
      ∧ NFA.accepts untagged_nfa [] ∧ ¬ DFA.accepts d [].
Proof.
  split; [done|]. split; [done|].
  eexists. split; [vm_compute; reflexivity|]. split.
  - exists 0. split; [constructor|]. unfold NFA.accepting. simpl.
    rewrite lookup_singleton_eq. eauto.
  - intros (s & [= <-] & Hacc). apply Hacc. by vm_compute.
Qed.

(** *** Product construction *)

Lemma union_product_construction_witness :
  DFA.complete (universal_dfa 1) ∧ DFA.complete (universal_dfa 2)
  ∧ ∃ st, DFA.union_run (universal_dfa 1) (universal_dfa 2) = Some st
      ∧ product_construction (universal_dfa 1) (universal_dfa 2) st.
Proof.
  split; [apply universal_dfa_complete|]. split; [apply universal_dfa_complete|].
  apply (union_product_construction (universal_dfa 1) (universal_dfa 2));
    apply universal_dfa_complete.
Defined.

(** C4 as stated fails on a DFA with a [-1] entry: [union] reads the table at
    index [-1], which in Python is its last row, so the product follows the
    transitions of the last state where the claim has a dead state.  Here
    neither automaton accepts any string, and their union accepts [0; 0]. *)
Lemma union_sentinel_counterexample :
  DFA.invariant sparse_dfa ∧ DFA.invariant dead_dfa
  ∧ ∃ d, DFA.union sparse_dfa dead_dfa = Some d
      ∧ DFA.accepts d [0; 0]
      ∧ ¬ DFA.accepts sparse_dfa [0; 0] ∧ ¬ DFA.accepts dead_dfa [0; 0].
Proof.
  split; [apply sparse_dfa_invariant|]. split; [apply dead_dfa_invariant|].
  eexists. split; [vm_compute; reflexivity|]. split_and!.
  - exists 2. split; [by vm_compute|]. compute_done.
  - intros (s & Hrun & _). by vm_compute in Hrun.
  - intros (s & Hrun & _). by vm_compute in Hrun.
Qed.

(** *** Sink states *)

Lemma is_sink_state_spec_witness :
  DFA.complete (universal_dfa 1) ∧ DFA.is_state (universal_dfa 1) 0
  ∧ ∃ b, @DFA.is_sink_state forward_order (universal_dfa 1) 0 = Some b
      ∧ (b = true ↔
         ∀ t, reachable (universal_dfa 1) 0 t → ¬ DFA.accepting (universal_dfa 1) t).
Proof.
  assert (DFA.is_state (universal_dfa 1) 0) as Hs by compute_done.
  split; [apply universal_dfa_complete|]. split; [done|].
  apply (@is_sink_state_spec forward_order (universal_dfa 1)
           (universal_dfa_complete 1) 0 Hs).
Defined.

(** C6 as stated fails on a DFA with a [-1] entry: [is_sink_state] follows the
    entry [-1] into the last row of the table.  No accepting state is
    reachable from state 0 of [sparse_dfa], and [is_sink_state] answers
    [False], in whatever order the frontier is enumerated. *)
Lemma is_sink_state_sentinel_counterexample :
  DFA.invariant sparse_dfa ∧ DFA.is_state sparse_dfa 0
  ∧ (∀ t, reachable sparse_dfa 0 t → ¬ DFA.accepting sparse_dfa t)
  ∧ @DFA.is_sink_state forward_order sparse_dfa 0 = Some false
  ∧ @DFA.is_sink_state backward_order sparse_dfa 0 = Some false.
Proof.
  split; [apply sparse_dfa_invariant|]. split; [compute_done|]. split_and!.
  - intros t ->%sparse_dfa_stuck Hacc. apply Hacc. by vm_compute.
  - by vm_compute.
  - by vm_compute.
Qed.

(** *** Well-formed results *)

(** C10: every DFA that [get_dfa] or [union] returns is complete and well
    formed: each entry of its table is a state index (never [-1]), its
    initial state is a state, every key of [outputs] is a state and every
    value of [outputs] is a non-empty set.  [get_dfa] returns for every
    NFA. *)
Theorem constructed_dfa_well_formed `{IterOrder} :
  (∀ n, ∃ d, NFA.get_dfa n = Some d ∧ DFA.well_formed d)
  ∧ (∀ lhs rhs d, DFA.union lhs rhs = Some d → DFA.well_formed d).
Proof.
  split.
  - intros n. destruct (get_dfa_run_explored n) as (st & Hrun & Hex).
    exists (DFA.dfa st). split; [unfold NFA.get_dfa; by rewrite Hrun|].
    by eapply explored_well_formed.
  - intros lhs rhs d. unfold DFA.union.
    destruct (DFA.union_run lhs rhs) as [st|] eqn:Hrun; [|done]. intros [= <-].
    eapply explored_well_formed. by apply union_run_partial.
Qed.

Lemma constructed_dfa_well_formed_witness :
  (∃ d, @NFA.get_dfa forward_order letter_nfa = Some d ∧ DFA.well_formed d)
  ∧ (∃ d, DFA.union sparse_dfa dead_dfa = Some d ∧ DFA.well_formed d).
Proof.
  destruct (@constructed_dfa_well_formed forward_order) as [Hget Hunion].
  split; [apply Hget|].
  destruct (DFA.union sparse_dfa dead_dfa) as [d|] eqn:Hd; [|by vm_compute in Hd].
  exists d. split; [done|]. by apply (Hunion sparse_dfa dead_dfa).
Defined.

(** ** ε-closure: [NFA.epsilon_closure] *)

(** One ε-transition. *)
Definition eps_step (n : NFA.t) (s t : Z) : Prop := t ∈ NFA.delta n s EPSILON.

Lemma app_eq_app_cons {A} (l1 l2 pre post : list A) x :
  l1 ++ l2 = pre ++ x :: post →
  x ∈ l1 ∨ ∃ pre', pre = l1 ++ pre' ∧ l2 = pre' ++ x :: post.
Proof.
  revert pre. induction l1 as [|a l1 IH]; intros pre Heq; simpl in *.
  - right. by exists pre.
  - destruct pre as [|b pre]; simpl in *; simplify_eq; [left; by left|].
    destruct (IH pre) as [Hin|(pre' & -> & ->)]; [done|left; by right|].
    right. by exists pre'.
Qed.

Section epsilon_closure.
Context `{IterOrder}.
Variable n : NFA.t.

Lemma closure_push_spec closure frontier states :
  NFA.closure_push closure frontier states =
  reverse (filter (λ s, s ∉ closure) (iter states)) ++ frontier.
Proof.
  unfold NFA.closure_push. revert frontier.
  induction (iter states) as [|s l IH]; intros frontier; simpl; [done|].
  rewrite IH, filter_cons. destruct (decide (s ∈ closure)) as [Hin|Hnin].
  - by rewrite decide_False by (intros Hn; by apply Hn).
  - rewrite decide_True by done. by rewrite reverse_cons, <- app_assoc.
Qed.

Lemma closure_body_spec state st :
  NFA.closure_body n state st =
  Some (st.1 ∪ {[state]},
        NFA.closure_push (st.1 ∪ {[state]}) st.2 (NFA.delta n state EPSILON)).
Proof.
  unfold NFA.closure_body, NFA.delta.
  destruct (NFA.transitions n !! (state, EPSILON)); simpl; [done|].
  unfold NFA.closure_push. assert (iter (∅ : gset Z) = []) as -> by by apply iter_nil.
  done.
Qed.

Definition closure_universe (s0 : Z) : gset Z := {[s0]} ∪ NFA.targets n.

Record closure_inv (s0 : Z) (st : gset Z * list Z) : Prop := {
  ci_sound : ∀ t, t ∈ st.1 ∨ t ∈ st.2 → rtc (eps_step n) s0 t;
  ci_start : s0 ∈ st.1 ∨ s0 ∈ st.2;
  ci_stack : ∀ pre x post, st.2 = pre ++ x :: post → x ∈ st.1 →
    ∀ y, eps_step n x y → y ∈ st.1 ∨ y ∈ pre;
  ci_closed : ∀ x y, x ∈ st.1 → eps_step n x y → y ∈ st.1 ∨ y ∈ st.2;
  ci_univ : ∀ t, t ∈ st.1 ∨ t ∈ st.2 → t ∈ closure_universe s0
}.

Definition closure_potential (s0 : Z) (st : gset Z * list Z) : nat :=
  (size (closure_universe s0 ∖ st.1) * S (S (size (NFA.targets n))) + length st.2)%nat.

Lemma closure_step s0 st state st1 :
  closure_inv s0 st → NFA.closure_pop st = Some (state, st1) →
  ∃ st2, NFA.closure_body n state st1 = Some st2 ∧ closure_inv s0 st2
    ∧ (closure_potential s0 st2 < closure_potential s0 st)%nat.
Proof.
  intros Hinv. destruct st as [closure frontier]. unfold NFA.closure_pop. simpl.
  destruct frontier as [|state' rest]; [done|]. intros [= -> <-].
  rewrite closure_body_spec, closure_push_spec. simpl. eexists. split; [done|].
  set (pushed := reverse (filter (λ s, s ∉ closure ∪ {[state]})
                            (iter (NFA.delta n state EPSILON)))).
  assert (∀ y, y ∈ pushed ↔ eps_step n state y ∧ y ∉ closure ∪ {[state]}) as Hpushed.
  { intros y. unfold pushed. rewrite elem_of_reverse, list_elem_of_filter, elem_of_iter.
    unfold eps_step. tauto. }
  assert (state ∈ closure_universe s0) as Hstate
    by (apply (ci_univ _ _ Hinv); right; by left).
  split.
  - split; simpl.
    + intros t [[Ht| ->%elem_of_singleton]%elem_of_union|[Ht|Ht]%elem_of_app].
      * apply (ci_sound _ _ Hinv). by left.
      * apply (ci_sound _ _ Hinv). right. by left.
      * apply Hpushed in Ht as [Ht _]. eapply rtc_r; [|done].
        apply (ci_sound _ _ Hinv). right. by left.
      * apply (ci_sound _ _ Hinv). right. by right.
    + destruct (ci_start _ _ Hinv) as [Hs|[->|Hs]%elem_of_cons]; simpl in *.
      * left. set_solver.
      * left. set_solver.
      * right. apply elem_of_app. by right.
    + intros pre x post Hsplit Hx y Hy.
      apply app_eq_app_cons in Hsplit as [Hin|(pre' & -> & ->)].
      { apply Hpushed in Hin as [_ Hin]. done. }
      destruct (decide (y ∈ closure ∪ {[state]})) as [?|Hny]; [by left|]. right.
      apply elem_of_union in Hx as [Hx| ->%elem_of_singleton].
      * destruct (ci_stack _ _ Hinv (state :: pre') x post eq_refl Hx y Hy)
          as [?|[->|?]%elem_of_cons]; [set_solver|set_solver|].
        apply elem_of_app. by right.
      * apply elem_of_app. left. by apply Hpushed.
    + intros x y Hx Hy.
      destruct (decide (y ∈ closure ∪ {[state]})) as [?|Hny]; [by left|]. right.
      apply elem_of_app.
      apply elem_of_union in Hx as [Hx| ->%elem_of_singleton].
      * destruct (ci_closed _ _ Hinv x y Hx Hy) as [?|[->|?]%elem_of_cons];
          simpl in *; [set_solver|set_solver|by right].
      * left. by apply Hpushed.
    + intros t [[Ht| ->%elem_of_singleton]%elem_of_union|[Ht|Ht]%elem_of_app].
      * apply (ci_univ _ _ Hinv). by left.
      * done.
      * apply Hpushed in Ht as [Ht _]. apply elem_of_union_r.
        by apply (delta_targets n state EPSILON).
      * apply (ci_univ _ _ Hinv). right. by right.
  - unfold closure_potential. simpl. rewrite length_app.
    destruct (decide (state ∈ closure)) as [Hin|Hnin].
    + assert (pushed = []) as ->.
      { apply elem_of_nil_inv. intros y [Hy Hny]%Hpushed.
        destruct (ci_stack _ _ Hinv [] state rest eq_refl Hin y Hy) as [?|Hnil];
          [set_solver|by apply elem_of_nil in Hnil]. }
      assert (closure ∪ {[state]} = closure) as -> by set_solver. simpl. lia.
    + assert (length pushed ≤ size (NFA.targets n))%nat as Hlen.
      { unfold pushed. rewrite length_reverse.
        etrans; [apply length_filter|]. rewrite length_iter.
        apply subseteq_size, delta_targets. }
      assert (size (closure_universe s0 ∖ (closure ∪ {[state]}))
              < size (closure_universe s0 ∖ closure))%nat as Hsz.
      { apply subset_size, strict_spec_alt. split; [set_solver|]. intros Heq.
        assert (state ∈ closure_universe s0 ∖ closure) as Hin' by set_solver.
        rewrite <- Heq in Hin'. set_solver. }
      nia.
Qed.

(** [epsilon_closure] returns the states that ε-transitions reach. *)
Lemma epsilon_closure_spec s0 :
  ∃ closure, NFA.epsilon_closure n s0 = Some closure
    ∧ ∀ t, t ∈ closure ↔ rtc (eps_step n) s0 t.
Proof.
  unfold NFA.epsilon_closure.
  destruct (while_pop_total NFA.closure_pop (NFA.closure_body n) (closure_inv s0)
              (closure_potential s0)) with (fuel := NFA.closure_fuel n) (s := (∅ : gset Z, [s0]))
    as ([closure frontier] & -> & Hinv & Hpop).
  - intros st state st1. apply closure_step.
  - split; simpl.
    + intros t [Ht| ->%list_elem_of_singleton]; [set_solver|done].
    + right. by left.
    + set_solver.
    + set_solver.
    + intros t [Ht| ->%list_elem_of_singleton]; [set_solver|]. unfold closure_universe. set_solver.
  - unfold closure_potential, NFA.closure_fuel. simpl.
    assert (size (closure_universe s0 ∖ ∅) ≤ S (size (NFA.targets n)))%nat as Hle.
    { assert (size (closure_universe s0 ∖ ∅) ≤ size (closure_universe s0))%nat
        by (apply subseteq_size; set_solver).
      assert (size (closure_universe s0) ≤ S (size (NFA.targets n)))%nat.
      { unfold closure_universe.
        rewrite (size_union_alt {[s0]} (NFA.targets n)), size_singleton.
        assert (size (NFA.targets n ∖ {[s0]}) ≤ size (NFA.targets n))%nat
          by (apply subseteq_size; set_solver). lia. }
      lia. }
    nia.
  - simpl. exists closure. split; [done|].
    unfold NFA.closure_pop in Hpop. simpl in Hpop. destruct frontier; [|done].
    intros t. split.
    + intros Ht. apply (ci_sound _ _ Hinv). by left.
    + intros Hrtc. destruct (ci_start _ _ Hinv) as [Hs|Hs]; [|by apply elem_of_nil in Hs].
      simpl in Hs. pose proof (ci_closed _ _ Hinv) as Hclosed. simpl in Hclosed.
      clear Hinv Hpop. induction Hrtc as [|x y z Hxy Hyz IH]; [done|]. apply IH.
      destruct (Hclosed x y Hs Hxy) as [Hy|Hnil];
        [exact Hy|by apply elem_of_nil in Hnil].
Qed.

End epsilon_closure.

(** ** ε-removal: [NFA.remove_epsilons] *)

Lemma foldl_prefix_ind {A S} (f : S → A → S) (I : list A → S → Prop) l s :
  I [] s →
  (∀ pre x post s, l = pre ++ x :: post → I pre s → I (pre ++ [x]) (f s x)) →
  I l (foldl f s l).
Proof.
  intros H0 Hstep.
  cut (∀ post pre s, l = pre ++ post → I pre s → I l (foldl f s post)).
  { intros Hgen. by apply (Hgen l [] s). }
  induction post as [|x post IH]; intros pre s1 -> Hpre; simpl.
  - by rewrite app_nil_r.
  - apply (IH (pre ++ [x])); [by rewrite <- app_assoc|by eapply Hstep].
Qed.

Lemma delta_add_transition n s1 s2 c s' c' :
  NFA.delta (NFA.add_transition n s1 s2 c) s' c' =
  if decide (s' = s1 ∧ c' = c) then NFA.delta n s' c' ∪ {[s2]} else NFA.delta n s' c'.
Proof.
  unfold NFA.delta, NFA.add_transition. simpl.
  case_decide as Heq.
  - destruct Heq as [-> ->]. destruct (NFA.transitions n !! (s1, c)) as [T|] eqn:HT.
    + rewrite lookup_alter_eq, HT. done.
    + rewrite lookup_alter_eq, lookup_insert_eq. simpl. set_solver.
  - assert ((s1, c) ≠ (s', c')) as Hne by (intros [= -> ->]; by apply Heq).
    rewrite lookup_alter_ne by done.
    destruct (NFA.transitions n !! (s1, c)); [done|]. by rewrite lookup_insert_ne.
Qed.

Lemma keys_add_transition n s1 s2 c s' c' :
  is_Some (NFA.transitions (NFA.add_transition n s1 s2 c) !! (s', c')) ↔
  is_Some (NFA.transitions n !! (s', c')) ∨ (s' = s1 ∧ c' = c).
Proof.
  unfold NFA.add_transition. simpl.
  destruct (decide ((s1, c) = (s', c'))) as [[= <- <-]|Hne].
  - rewrite lookup_alter_eq. destruct (NFA.transitions n !! (s1, c)) as [T|] eqn:HT.
    + rewrite HT. simpl. split; [eauto|eauto].
    + rewrite lookup_insert_eq. simpl. split; [eauto|eauto].
  - rewrite lookup_alter_ne by done.
    assert (NFA.transitions
              match NFA.transitions n !! (s1, c) with
              | Some _ => n
              | None => NFA.mk (NFA.next_state n) (<[(s1, c):=∅]> (NFA.transitions n))
                          (NFA.outputs n) (NFA.initial_state n)
              end !! (s', c') = NFA.transitions n !! (s', c')) as Heq.
    { destruct (NFA.transitions n !! (s1, c)); [done|]. simpl. by rewrite lookup_insert_ne. }
    destruct (NFA.transitions n !! (s1, c)); simpl.
    + split; [eauto|]. intros [?|[-> ->]]; [done|]. by destruct Hne.
    + rewrite lookup_insert_ne by done. split; [eauto|].
      intros [?|[-> ->]]; [done|]. by destruct Hne.
Qed.

Section remove_epsilons.
Context `{IterOrder}.
Variable self : NFA.t.

Implicit Types (st : NFA.eps_builder).

(** [state_ids] is injective and stays below the counter of the new NFA. *)
Definition ids_ok st : Prop :=
  (∀ s1 s2 q, NFA.state_ids st !! s1 = Some q → NFA.state_ids st !! s2 = Some q → s1 = s2)
  ∧ (∀ s q, NFA.state_ids st !! s = Some q → 0 ≤ q ≤ NFA.next_state (NFA.nfa st))
  ∧ -1 ≤ NFA.next_state (NFA.nfa st).

(** What a pass has added for [new_state] since [st0]: the transitions [E]
    (symbol and old target), and an entry of [outputs] when [O] holds. *)
Record eps_ext (new_state : Z) (st0 st : NFA.eps_builder)
    (E : Z → Z → Prop) (O : Prop) : Prop := {
  ee_ids_ext : NFA.state_ids st0 ⊆ NFA.state_ids st;
  ee_ids_ok : ids_ok st;
  ee_ids_new : ∀ s, is_Some (NFA.state_ids st !! s) →
    is_Some (NFA.state_ids st0 !! s) ∨ ∃ c, E c s;
  ee_E_ids : ∀ c u, E c u → is_Some (NFA.state_ids st !! u);
  ee_frontier : ∀ s, s ∈ NFA.frontier st ↔ s ∈ NFA.frontier st0 ∨ ∃ c, E c s;
  ee_delta : ∀ s' c u', u' ∈ NFA.delta (NFA.nfa st) s' c ↔
    u' ∈ NFA.delta (NFA.nfa st0) s' c
    ∨ (s' = new_state ∧ ∃ u, E c u ∧ NFA.state_ids st !! u = Some u');
  ee_keys : ∀ s' c, is_Some (NFA.transitions (NFA.nfa st) !! (s', c)) →
    is_Some (NFA.transitions (NFA.nfa st0) !! (s', c)) ∨ (s' = new_state ∧ ∃ u, E c u);
  ee_explored : NFA.explored st = NFA.explored st0;
  ee_initial : NFA.initial_state (NFA.nfa st) = NFA.initial_state (NFA.nfa st0);
  ee_outputs : ∀ q, is_Some (NFA.outputs (NFA.nfa st) !! q) ↔
    is_Some (NFA.outputs (NFA.nfa st0) !! q) ∨ (q = new_state ∧ O)
}.

Lemma eps_ext_refl new_state st :
  ids_ok st → eps_ext new_state st st (λ _ _, False) False.
Proof. intros Hok. split; try done; naive_solver. Qed.

Lemma eps_ext_proper new_state st0 st (E E' : Z → Z → Prop) (O O' : Prop) :
  (∀ c u, E c u ↔ E' c u) → (O ↔ O') →
  eps_ext new_state st0 st E O → eps_ext new_state st0 st E' O'.
Proof.
  intros HE HO [].
  split; try done.
  - intros s Hs. destruct (ee_ids_new0 s Hs) as [?|[c Hc]]; [by left|]. right. exists c. by apply HE.
  - intros c u Hu%HE. eauto.
  - intros s. rewrite ee_frontier0. by setoid_rewrite HE.
  - intros s' c u'. rewrite ee_delta0. by setoid_rewrite HE.
  - intros s' c Hs. destruct (ee_keys0 s' c Hs) as [?|[? [u Hu]]]; [by left|].
    right. split; [done|]. exists u. by apply HE.
  - intros q. rewrite ee_outputs0. by rewrite HO.
Qed.

Lemma get_new_state_spec st s :
  ids_ok st →
  let st' := (NFA.get_new_state st s).1 in
  let q := (NFA.get_new_state st s).2 in
  NFA.state_ids st' !! s = Some q
  ∧ NFA.state_ids st ⊆ NFA.state_ids st'
  ∧ (∀ s1, is_Some (NFA.state_ids st' !! s1) → is_Some (NFA.state_ids st !! s1) ∨ s1 = s)
  ∧ ids_ok st'
  ∧ NFA.transitions (NFA.nfa st') = NFA.transitions (NFA.nfa st)
  ∧ NFA.outputs (NFA.nfa st') = NFA.outputs (NFA.nfa st)
  ∧ NFA.initial_state (NFA.nfa st') = NFA.initial_state (NFA.nfa st)
  ∧ NFA.frontier st' = NFA.frontier st
  ∧ NFA.explored st' = NFA.explored st.
Proof.
  intros (Hinj & Hbound & Hcount). unfold NFA.get_new_state.
  destruct (NFA.state_ids st !! s) as [q|] eqn:Hs; simpl.
  { split_and!; try done. eauto. }
  split_and!; try done.
  - apply lookup_insert_eq.
  - by apply insert_subseteq.
  - intros s1. rewrite lookup_insert. case_decide; eauto.
  - split_and!; simpl.
    + intros s1 s2 q Hq1 Hq2. rewrite lookup_insert in Hq1, Hq2.
      repeat case_decide; simplify_eq; try done;
        try (match goal with Hm : NFA.state_ids st !! _ = Some _ |- _ =>
                               apply Hbound in Hm; lia end).
      by eapply Hinj.
    + intros s1 q Hq. rewrite lookup_insert in Hq. case_decide; simplify_eq; [lia|].
      apply Hbound in Hq. lia.
    + lia.
Qed.

Lemma eps_target_ext new_state st0 st E O c u :
  eps_ext new_state st0 st E O →
  eps_ext new_state st0 (NFA.eps_target new_state c st u)
    (λ c' u', E c' u' ∨ (c' = c ∧ u' = u)) O.
Proof.
  intros Hext. unfold NFA.eps_target.
  destruct (get_new_state_spec st u (ee_ids_ok _ _ _ _ _ Hext))
    as (Hq & Hsub & Hnew & Hok & Htr & Hout & Hini & Hfr & Hexp).
  destruct (NFA.get_new_state st u) as [st1 q]. simpl in *.
  assert (∀ c1 u1, E c1 u1 → NFA.state_ids st1 !! u1 = NFA.state_ids st !! u1) as Hsame.
  { intros c1 u1 [q1 Hq1]%(ee_E_ids _ _ _ _ _ Hext). rewrite Hq1.
    by eapply lookup_weaken. }
  assert (∀ s' c', NFA.delta (NFA.nfa st1) s' c' = NFA.delta (NFA.nfa st) s' c') as Hdelta
    by (intros; unfold NFA.delta; by rewrite Htr).
  split; cbn [NFA.nfa NFA.state_ids NFA.frontier NFA.explored].
  - etrans; [apply (ee_ids_ext _ _ _ _ _ Hext)|done].
  - destruct Hok as (? & ? & ?). split_and!; simpl; done.
  - intros s Hs. destruct (Hnew s Hs) as [Hs'| ->]; [|right; exists c; by right].
    destruct (ee_ids_new _ _ _ _ _ Hext s Hs') as [?|[c1 ?]]; [by left|].
    right. exists c1. by left.
  - intros c1 u1 [HE|[-> ->]]; [|eauto].
    rewrite (Hsame c1 u1 HE). by eapply (ee_E_ids _ _ _ _ _ Hext).
  - intros s. rewrite elem_of_cons, Hfr, (ee_frontier _ _ _ _ _ Hext). split.
    + intros [->|[?|[c1 ?]]]; [right; exists c; by right|by left|].
      right. exists c1. by left.
    + intros [?|[c1 [?|[-> ->]]]]; [right; by left| |by left].
      right. right. by exists c1.
  - intros s' c' u'. rewrite delta_add_transition.
    case_decide as Heq.
    + destruct Heq as [-> ->]. rewrite elem_of_union, elem_of_singleton, Hdelta,
        (ee_delta _ _ _ _ _ Hext). split.
      * intros [[?|(_ & u1 & HE & Hu1)]| ->]; [by left| |].
        -- right. split; [done|]. exists u1. split; [by left|].
           by rewrite (Hsame _ _ HE).
        -- right. split; [done|]. exists u. split; [by right|done].
      * intros [?|(_ & u1 & [HE|[_ ->]] & Hu1)]; [by left; left| |].
        -- left. right. split; [done|]. exists u1. split; [done|].
           by rewrite <- (Hsame _ _ HE).
        -- right. congruence.
    + rewrite Hdelta, (ee_delta _ _ _ _ _ Hext). split.
      * intros [?|(-> & u1 & HE & Hu1)]; [by left|]. right. split; [done|].
        exists u1. split; [by left|]. by rewrite (Hsame _ _ HE).
      * intros [?|(-> & u1 & [HE|[-> ->]] & Hu1)]; [by left| |by destruct Heq].
        right. split; [done|]. exists u1. split; [done|]. by rewrite <- (Hsame _ _ HE).
  - intros s' c'. rewrite keys_add_transition, Htr.
    intros [Hs|[-> ->]].
    + destruct (ee_keys _ _ _ _ _ Hext s' c' Hs) as [?|[-> [u1 ?]]]; [by left|].
      right. split; [done|]. exists u1. by left.
    + right. split; [done|]. exists u. by right.
  - rewrite Hexp. apply (ee_explored _ _ _ _ _ Hext).
  - simpl. rewrite Hini. apply (ee_initial _ _ _ _ _ Hext).
  - intros q'. simpl. rewrite Hout. apply (ee_outputs _ _ _ _ _ Hext).
Qed.

Lemma eps_targets_ext new_state st0 st E O c (T : gset Z) :
  eps_ext new_state st0 st E O →
  eps_ext new_state st0 (foldl (NFA.eps_target new_state c) st (iter T))
    (λ c' u, E c' u ∨ (c' = c ∧ u ∈ T)) O.
Proof.
  intros Hext.
  apply (eps_ext_proper _ _ _ (λ c' u, E c' u ∨ (c' = c ∧ u ∈ iter T)) _ O O);
    [intros; by rewrite elem_of_iter|done|].
  apply (foldl_prefix_ind (NFA.eps_target new_state c)
    (λ pre st', eps_ext new_state st0 st' (λ c' u, E c' u ∨ (c' = c ∧ u ∈ pre)) O)).
  - eapply eps_ext_proper; [| |exact Hext]; [|done].
    intros c' u. split; [by left|]. intros [?|[_ Hu]]; [done|by apply elem_of_nil in Hu].
  - intros pre x post st' _ Hpre.
    eapply eps_ext_proper; [| |apply eps_target_ext, Hpre]; [|done].
    intros c' u. simpl. rewrite elem_of_app, list_elem_of_singleton. tauto.
Qed.

Lemma eps_item_ext new_state t st0 st E O (item : Z * Z * gset Z) :
  eps_ext new_state st0 st E O →
  eps_ext new_state st0 (NFA.eps_item t new_state st item)
    (λ c u, E c u ∨ (item.1.1 = t ∧ item.1.2 = c ∧ c ≠ EPSILON ∧ u ∈ item.2)) O.
Proof.
  intros Hext. destruct item as [[s c0] T]. unfold NFA.eps_item. simpl.
  case_decide as Hskip.
  - eapply eps_ext_proper; [| |exact Hext]; [|done].
    intros c u. split; [by left|]. intros [?|(-> & -> & Hne & _)]; [done|].
    destruct Hskip; done.
  - eapply eps_ext_proper; [| |apply eps_targets_ext, Hext]; [|done].
    intros c u. simpl. split.
    + intros [?|[-> Hu]]; [by left|]. right. split_and!; try done.
      * destruct (decide (s = t)); [done|]. destruct Hskip. by left.
      * intros ->. destruct Hskip. by right.
    + intros [?|(_ & -> & _ & Hu)]; [by left|by right].
Qed.

Lemma eps_items_ext new_state t st0 st E O :
  eps_ext new_state st0 st E O →
  eps_ext new_state st0
    (foldl (NFA.eps_item t new_state) st (items (NFA.transitions self)))
    (λ c u, E c u ∨ (c ≠ EPSILON ∧ u ∈ NFA.delta self t c)) O.
Proof.
  intros Hext.
  apply (eps_ext_proper _ _ _
    (λ c u, E c u ∨ ∃ T, ((t, c), T) ∈ items (NFA.transitions self)
                          ∧ c ≠ EPSILON ∧ u ∈ T) _ O O); [|done|].
  { intros c u. unfold NFA.delta. setoid_rewrite elem_of_items. split.
    - intros [?|(T & HT & Hne & Hu)]; [by left|]. right. by rewrite HT.
    - intros [?|(Hne & Hu)]; [by left|]. right.
      destruct (NFA.transitions self !! (t, c)) as [T|]; [eauto|set_solver]. }
  apply (foldl_prefix_ind (NFA.eps_item t new_state)
    (λ pre st', eps_ext new_state st0 st'
       (λ c u, E c u ∨ ∃ T, ((t, c), T) ∈ pre ∧ c ≠ EPSILON ∧ u ∈ T) O)).
  - eapply eps_ext_proper; [| |exact Hext]; [|done].
    intros c u. split; [by left|]. intros [?|(T & HT & _)]; [done|by apply elem_of_nil in HT].
  - intros pre [[s c0] T0] post st' _ Hpre.
    eapply eps_ext_proper; [| |apply eps_item_ext, Hpre]; [|done].
    intros c u. simpl. setoid_rewrite elem_of_app. setoid_rewrite list_elem_of_singleton.
    split.
    + intros [[?|(T & HT & Hne & Hu)]|(-> & -> & Hne & Hu)]; [by left| |].
      * right. exists T. eauto.
      * right. exists T0. eauto.
    + intros [?|(T & [HT|[= -> -> ->]] & Hne & Hu)]; [by left; left| |by right].
      left. right. eauto.
Qed.

Lemma eps_intermediate_ext new_state st0 st E O t :
  eps_ext new_state st0 st E O →
  eps_ext new_state st0 (NFA.eps_intermediate self new_state st t)
    (λ c u, E c u ∨ (c ≠ EPSILON ∧ u ∈ NFA.delta self t c))
    (O ∨ is_Some (NFA.outputs self !! t)).
Proof.
  intros Hext. unfold NFA.eps_intermediate. apply eps_items_ext.
  destruct (NFA.outputs self !! t) as [tags|] eqn:Ht.
  - destruct Hext. split; try done. intros q. simpl. rewrite lookup_insert.
    case_decide as Hq.
    + subst. split; [intros _; right; eauto|eauto].
    + rewrite ee_outputs0. split; [intros [?|[? ?]]; [by left|done]|].
      intros [?|[? _]]; [by left|done].
  - eapply eps_ext_proper; [| |exact Hext]; [done|].
    split; [by left|]. intros [?|[? ?]]; done.
Qed.

Lemma eps_closure_ext new_state st (C : gset Z) :
  ids_ok st →
  eps_ext new_state st (foldl (NFA.eps_intermediate self new_state) st (iter C))
    (λ c u, ∃ t, t ∈ C ∧ c ≠ EPSILON ∧ u ∈ NFA.delta self t c)
    (∃ t, t ∈ C ∧ is_Some (NFA.outputs self !! t)).
Proof.
  intros Hok.
  apply (eps_ext_proper _ _ _
    (λ c u, ∃ t, t ∈ iter C ∧ c ≠ EPSILON ∧ u ∈ NFA.delta self t c) _
    (∃ t, t ∈ iter C ∧ is_Some (NFA.outputs self !! t)));
    [intros; by setoid_rewrite elem_of_iter|by setoid_rewrite elem_of_iter|].
  apply (foldl_prefix_ind (NFA.eps_intermediate self new_state)
    (λ pre st', eps_ext new_state st st'
       (λ c u, ∃ t, t ∈ pre ∧ c ≠ EPSILON ∧ u ∈ NFA.delta self t c)
       (∃ t, t ∈ pre ∧ is_Some (NFA.outputs self !! t)))).
  - eapply eps_ext_proper; [| |apply eps_ext_refl, Hok].
    + intros c u. split; [done|]. intros (t & Ht & _). by apply elem_of_nil in Ht.
    + split; [done|]. intros (t & Ht & _). by apply elem_of_nil in Ht.
  - intros pre x post st' _ Hpre.
    eapply eps_ext_proper; [| |apply eps_intermediate_ext, Hpre].
    + intros c u. simpl. setoid_rewrite elem_of_app. setoid_rewrite list_elem_of_singleton.
      naive_solver.
    + setoid_rewrite elem_of_app. setoid_rewrite list_elem_of_singleton. naive_solver.
Qed.

(** The frontier grows by at most one entry per state of the closure and
    transition of the automaton. *)
Lemma eps_targets_length new_state c st l :
  length (NFA.frontier (foldl (NFA.eps_target new_state c) st l))
  = (length (NFA.frontier st) + length l)%nat.
Proof.
  revert st. induction l as [|u l IH]; intros st; simpl; [lia|].
  rewrite IH. unfold NFA.eps_target.
  destruct (NFA.get_new_state st u) as [st1 q] eqn:Hg. simpl.
  assert (NFA.frontier st1 = NFA.frontier st) as ->; [|lia].
  unfold NFA.get_new_state in Hg.
  destruct (NFA.state_ids st !! u); simpl in Hg; by simplify_eq.
Qed.

Lemma eps_items_length new_state t st (l : list (Z * Z * gset Z)) :
  (length (NFA.frontier (foldl (NFA.eps_item t new_state) st l))
   ≤ length (NFA.frontier st) + sum_list_with (λ kv, size kv.2) l)%nat.
Proof.
  revert st. induction l as [|[[s c] T] l IH]; intros st; simpl; [lia|].
  etrans; [apply IH|]. case_decide; [lia|].
  rewrite eps_targets_length, length_iter. lia.
Qed.

Lemma eps_closure_length new_state st l :
  (length (NFA.frontier (foldl (NFA.eps_intermediate self new_state) st l))
   ≤ length (NFA.frontier st) + length l * NFA.edge_count self)%nat.
Proof.
  revert st. induction l as [|t l IH]; intros st; simpl; [lia|].
  etrans; [apply IH|]. unfold NFA.eps_intermediate.
  etrans; [apply Nat.add_le_mono_r, eps_items_length|].
  assert (sum_list_with (λ kv : Z * Z * gset Z, size kv.2) (items (NFA.transitions self))
          = NFA.edge_count self) as ->.
  { unfold NFA.edge_count. by rewrite items_perm. }
  destruct (NFA.outputs self !! t); simpl; lia.
Qed.

End remove_epsilons.

Lemma eps_reach_mentioned n s t :
  rtc (eps_step n) s t → t = s ∨ t ∈ NFA.targets n.
Proof.
  intros [->|(y & _ & Hy)]%rtc_inv_r; [by left|].
  right. by apply (delta_targets n y EPSILON).
Qed.

Section remove_epsilons_loop.
Context `{IterOrder}.
Variable self : NFA.t.

Implicit Types (st : NFA.eps_builder).

Definition has_outputs (t : Z) : Prop := is_Some (NFA.outputs self !! t).

(** The loop invariant of [remove_epsilons]. *)
Record eps_inv st : Prop := {
  ei_ids : ids_ok st;
  ei_init :
    NFA.state_ids st !! NFA.initial_state self = Some (NFA.initial_state (NFA.nfa st));
  ei_dom : ∀ s, is_Some (NFA.state_ids st !! s) ↔
    s ∈ NFA.explored st ∨ s ∈ NFA.frontier st;
  ei_univ : ∀ s, s ∈ NFA.explored st ∨ s ∈ NFA.frontier st → s ∈ NFA.mentioned self;
  ei_edges_in : ∀ s s' t u c,
    s ∈ NFA.explored st → NFA.state_ids st !! s = Some s' →
    rtc (eps_step self) s t → u ∈ NFA.delta self t c → c ≠ EPSILON →
    ∃ u', NFA.state_ids st !! u = Some u' ∧ u' ∈ NFA.delta (NFA.nfa st) s' c;
  ei_edges_out : ∀ s' c u', u' ∈ NFA.delta (NFA.nfa st) s' c →
    ∃ s t u, s ∈ NFA.explored st ∧ NFA.state_ids st !! s = Some s'
      ∧ rtc (eps_step self) s t ∧ u ∈ NFA.delta self t c
      ∧ NFA.state_ids st !! u = Some u';
  ei_keys : ∀ s' c, is_Some (NFA.transitions (NFA.nfa st) !! (s', c)) → c ≠ EPSILON;
  ei_out_in : ∀ s s' t,
    s ∈ NFA.explored st → NFA.state_ids st !! s = Some s' →
    rtc (eps_step self) s t → has_outputs t →
    is_Some (NFA.outputs (NFA.nfa st) !! s');
  ei_out_out : ∀ s', is_Some (NFA.outputs (NFA.nfa st) !! s') →
    ∃ s t, s ∈ NFA.explored st ∧ NFA.state_ids st !! s = Some s'
      ∧ rtc (eps_step self) s t ∧ has_outputs t
}.

Definition eps_potential st : nat :=
  (size (NFA.mentioned self ∖ NFA.explored st)
   * S (size (NFA.mentioned self) * NFA.edge_count self)
   + length (NFA.frontier st))%nat.

Lemma remove_eps_step st state st1 :
  eps_inv st → NFA.eps_pop st = Some (state, st1) →
  ∃ st2, NFA.remove_eps_body self state st1 = Some st2 ∧ eps_inv st2
    ∧ (eps_potential st2 < eps_potential st)%nat.
Proof.
  intros Hinv. unfold NFA.eps_pop.
  destruct (NFA.frontier st) as [|state' rest] eqn:Hfr; [done|]. intros [= -> <-].
  unfold NFA.remove_eps_body. cbn [NFA.explored NFA.nfa NFA.state_ids NFA.frontier].
  case_decide as Hexp.
  - (* already explored *)
    eexists. split; [done|]. split.
    + destruct Hinv. split; cbn [NFA.explored NFA.nfa NFA.state_ids NFA.frontier]; try done.
      * intros s. rewrite ei_dom0, Hfr, elem_of_cons. split; [|tauto].
        intros [?|[->|?]]; tauto.
      * intros s Hs. apply ei_univ0. rewrite Hfr, elem_of_cons. tauto.
    + unfold eps_potential. cbn [NFA.explored NFA.frontier]. rewrite Hfr. simpl. lia.
  - (* a new state *)
    assert (is_Some (NFA.state_ids st !! state)) as [new_state Hnew].
    { apply (ei_dom _ Hinv). right. rewrite Hfr. by left. }
    set (st0 := NFA.mk_eps (NFA.nfa st) (NFA.state_ids st) rest (NFA.explored st ∪ {[state]})).
    assert (NFA.get_new_state st0 state = (st0, new_state)) as ->.
    { unfold NFA.get_new_state. simpl. by rewrite Hnew. }
    destruct (epsilon_closure_spec self state) as (C & -> & HC). simpl.
    eexists. split; [done|].
    assert (ids_ok st0) as Hok0 by apply (ei_ids _ Hinv).
    pose proof (eps_closure_ext self new_state st0 C Hok0) as Hext.
    set (st2 := foldl (NFA.eps_intermediate self new_state) st0 (iter C)) in *.
    pose proof (ee_ids_ok _ _ _ _ _ Hext) as (Hinj2 & Hbound2 & Hcount2).
    assert (∀ s q, NFA.state_ids st !! s = Some q → NFA.state_ids st2 !! s = Some q) as Hweak.
    { intros s q Hq. eapply lookup_weaken; [exact Hq|]. apply (ee_ids_ext _ _ _ _ _ Hext). }
    assert (state ∈ NFA.mentioned self) as Hstate.
    { apply (ei_univ _ Hinv). right. rewrite Hfr. by left. }
    split.
    + split.
      * apply (ee_ids_ok _ _ _ _ _ Hext).
      * rewrite (ee_initial _ _ _ _ _ Hext). apply Hweak, (ei_init _ Hinv).
      * intros s. rewrite (ee_explored _ _ _ _ _ Hext), (ee_frontier _ _ _ _ _ Hext).
        cbn [NFA.explored NFA.frontier st0]. split.
        -- intros [Hs|[c Hc]]%(ee_ids_new _ _ _ _ _ Hext); [|right; right; eauto].
           cbn [NFA.state_ids st0] in Hs. apply (ei_dom _ Hinv) in Hs.
           rewrite Hfr, elem_of_cons in Hs. set_solver.
        -- intros [[Hs| ->%elem_of_singleton]%elem_of_union|[Hs|[c Hc]]].
           ++ destruct (proj2 (ei_dom _ Hinv s)) as [q Hq]; [by left|]. eauto.
           ++ eauto.
           ++ destruct (proj2 (ei_dom _ Hinv s)) as [q Hq]; [right; rewrite Hfr; by right|]. eauto.
           ++ by eapply (ee_E_ids _ _ _ _ _ Hext).
      * intros s. rewrite (ee_explored _ _ _ _ _ Hext), (ee_frontier _ _ _ _ _ Hext).
        cbn [NFA.explored NFA.frontier st0].
        intros [[Hs| ->%elem_of_singleton]%elem_of_union|[Hs|[c (t & _ & _ & Hu)]]].
        -- apply (ei_univ _ Hinv). by left.
        -- done.
        -- apply (ei_univ _ Hinv). right. rewrite Hfr. by right.
        -- apply elem_of_union_r. by eapply delta_targets.
      * intros s s' t u c. rewrite (ee_explored _ _ _ _ _ Hext). cbn [NFA.explored st0].
        intros [Hs| ->%elem_of_singleton]%elem_of_union Hs' Hst Hu Hc.
        -- destruct (proj2 (ei_dom _ Hinv s)) as [q Hq]; [by left|].
           assert (q = s') as -> by (apply Hweak in Hq; congruence).
           destruct (ei_edges_in _ Hinv s s' t u c Hs Hq Hst Hu Hc) as (u' & Hu' & Hd).
           exists u'. split; [by apply Hweak|]. apply (ee_delta _ _ _ _ _ Hext). by left.
        -- assert (s' = new_state) as -> by (apply Hweak in Hnew; congruence).
           assert (∃ t0, t0 ∈ C ∧ c ≠ EPSILON ∧ u ∈ NFA.delta self t0 c) as HE
             by (exists t; split; [by apply HC|done]).
           destruct (ee_E_ids _ _ _ _ _ Hext c u HE) as [u' Hu'].
           exists u'. split; [done|]. apply (ee_delta _ _ _ _ _ Hext). right. eauto.
      * intros s' c u' [Hd|(-> & u & (t & Ht & Hc & Hu) & Hu')]%(ee_delta _ _ _ _ _ Hext).
        -- destruct (ei_edges_out _ Hinv s' c u' Hd) as (s & t & u & Hs & Hs' & Hst & Hu & Hu').
           exists s, t, u. rewrite (ee_explored _ _ _ _ _ Hext). cbn [NFA.explored st0].
           split_and!; [set_solver|by apply Hweak|done|done|by apply Hweak].
        -- exists state, t, u. rewrite (ee_explored _ _ _ _ _ Hext). cbn [NFA.explored st0].
           split_and!; [set_solver|by apply Hweak|by apply HC|done|done].
      * intros s' c [Hk|(_ & u & t & _ & Hc & _)]%(ee_keys _ _ _ _ _ Hext); [|done].
        by eapply (ei_keys _ Hinv).
      * intros s s' t. rewrite (ee_explored _ _ _ _ _ Hext). cbn [NFA.explored st0].
        intros [Hs| ->%elem_of_singleton]%elem_of_union Hs' Hst Ht;
          apply (ee_outputs _ _ _ _ _ Hext).
        -- left. destruct (proj2 (ei_dom _ Hinv s)) as [q Hq]; [by left|].
           assert (q = s') as -> by (apply Hweak in Hq; congruence).
           by eapply (ei_out_in _ Hinv).
        -- right. split; [apply Hweak in Hnew; congruence|]. exists t. split; [by apply HC|done].
      * intros s' [Ho|(-> & t & Ht & Hto)]%(ee_outputs _ _ _ _ _ Hext).
        -- destruct (ei_out_out _ Hinv s' Ho) as (s & t & Hs & Hs' & Hst & Ht).
           exists s, t. rewrite (ee_explored _ _ _ _ _ Hext). cbn [NFA.explored st0].
           split_and!; [set_solver|by apply Hweak|done|done].
        -- exists state, t. rewrite (ee_explored _ _ _ _ _ Hext). cbn [NFA.explored st0].
           split_and!; [set_solver|by apply Hweak|by apply HC|done].
    + unfold eps_potential. rewrite (ee_explored _ _ _ _ _ Hext).
      cbn [NFA.explored NFA.frontier st0]. rewrite Hfr. cbn [length].
      pose proof (eps_closure_length self new_state st0 (iter C)) as Hlen.
      fold st2 in Hlen. cbn [NFA.frontier st0] in Hlen. rewrite length_iter in Hlen.
      assert (size C ≤ size (NFA.mentioned self))%nat as HCsz.
      { apply subseteq_size. intros t Ht%HC.
        apply eps_reach_mentioned in Ht as [->|Ht]; [done|by apply elem_of_union_r]. }
      assert (size (NFA.mentioned self ∖ (NFA.explored st ∪ {[state]}))
              < size (NFA.mentioned self ∖ NFA.explored st))%nat as Hsz.
      { apply subset_size, strict_spec_alt. split; [set_solver|]. intros Heq.
        assert (state ∈ NFA.mentioned self ∖ NFA.explored st) as Hin by set_solver.
        rewrite <- Heq in Hin. set_solver. }
      assert (size C * NFA.edge_count self
              ≤ size (NFA.mentioned self) * NFA.edge_count self)%nat as Hmul
        by (by apply Nat.mul_le_mono_r).
      set (k := S (size (NFA.mentioned self) * NFA.edge_count self)) in *.
      assert (S (size (NFA.mentioned self ∖ (NFA.explored st ∪ {[state]}))) * k
              ≤ size (NFA.mentioned self ∖ NFA.explored st) * k)%nat as Hmul2
        by (apply Nat.mul_le_mono_r; lia).
      simpl in Hmul2. lia.
Qed.

Lemma remove_eps_start_eq :
  NFA.remove_eps_start self =
  NFA.mk_eps (NFA.mk 0 ∅ ∅ 0) {[NFA.initial_state self := 0]} [NFA.initial_state self] ∅.
Proof.
  unfold NFA.remove_eps_start, NFA.get_new_state. cbn [NFA.state_ids].
  rewrite lookup_empty. simpl. by rewrite insert_empty.
Qed.

Lemma remove_eps_start_inv :
  eps_inv (NFA.remove_eps_start self)
  ∧ eps_potential (NFA.remove_eps_start self)
    = S (size (NFA.mentioned self) * S (size (NFA.mentioned self) * NFA.edge_count self)).
Proof.
  rewrite remove_eps_start_eq. split.
  - split; simpl.
    + split_and!; simpl; [|intros s q [_ <-]%lookup_singleton_Some; lia|lia].
      intros s1 s2 q [<- _]%lookup_singleton_Some [<- _]%lookup_singleton_Some. done.
    + apply lookup_singleton_eq.
    + intros s. rewrite list_elem_of_singleton. split.
      * intros [q [<- _]%lookup_singleton_Some]. by right.
      * intros [Hs| ->]; [set_solver|]. rewrite lookup_singleton_eq. eauto.
    + intros s [Hs| ->%list_elem_of_singleton]; [set_solver|]. unfold NFA.mentioned. set_solver.
    + set_solver.
    + intros s' c u'. unfold NFA.delta. simpl. rewrite lookup_empty. set_solver.
    + intros s' c [T HT]. by rewrite lookup_empty in HT.
    + set_solver.
    + intros s' [T HT]. by rewrite lookup_empty in HT.
  - unfold eps_potential. simpl.
    assert (NFA.mentioned self ∖ ∅ = NFA.mentioned self) as -> by set_solver. lia.
Qed.

(** [remove_epsilons] returns for every NFA, with every state it numbered
    explored. *)
Lemma remove_epsilons_run_spec :
  ∃ st, NFA.remove_epsilons_run self = Some st ∧ eps_inv st ∧ NFA.frontier st = [].
Proof.
  destruct remove_eps_start_inv as [Hinv Hpot]. unfold NFA.remove_epsilons_run.
  destruct (while_pop_total NFA.eps_pop (NFA.remove_eps_body self) eps_inv eps_potential)
    with (fuel := NFA.remove_eps_fuel self) (s := NFA.remove_eps_start self)
    as (st & Hrun & Hst & Hpop).
  - intros st state st1. apply remove_eps_step.
  - done.
  - rewrite Hpot. unfold NFA.remove_eps_fuel. lia.
  - exists st. split_and!; [done..|]. unfold NFA.eps_pop in Hpop.
    by destruct (NFA.frontier st).
Qed.

End remove_epsilons_loop.

(** *** The language of the new NFA *)

Lemma eps_path n s t w u :
  rtc (eps_step n) s t → NFA.path n t w u → NFA.path n s w u.
Proof. induction 1 as [|x y z Hxy _ IH]; [done|]. intros Hp. eapply NFA.path_eps; eauto. Qed.

Lemma byte_not_epsilon c : is_byte c → c ≠ EPSILON.
Proof. unfold is_byte, EPSILON. lia. Qed.

Section remove_epsilons_language.
Variable self : NFA.t.
Variable st : NFA.eps_builder.
Hypothesis Hinv : eps_inv self st.
Hypothesis Hdone : NFA.frontier st = [].

Lemma eps_done_explored s s' : NFA.state_ids st !! s = Some s' → s ∈ NFA.explored st.
Proof.
  intros Hs. destruct (proj1 (ei_dom _ _ Hinv s)) as [?|Hf]; [eauto|done|].
  rewrite Hdone in Hf. by apply elem_of_nil in Hf.
Qed.

Lemma eps_new_epsilon_free : NFA.epsilon_free (NFA.nfa st).
Proof.
  intros s. destruct (NFA.transitions (NFA.nfa st) !! (s, EPSILON)) as [T|] eqn:HT; [|done].
  exfalso. by apply (ei_keys _ _ Hinv s EPSILON).
Qed.

Lemma eps_new_to_old s' w u' :
  NFA.path (NFA.nfa st) s' w u' → ∀ s,
  NFA.state_ids st !! s = Some s' → NFA.accepting (NFA.nfa st) u' →
  ∃ u, NFA.path self s w u ∧ NFA.accepting self u.
Proof.
  destruct (ei_ids _ _ Hinv) as (Hinj & _ & _).
  induction 1 as [s'|s' v' u' w Hv' _ _|s' c v' u' w Hc Hv' Hp IH]; intros s Hs Hacc.
  - destruct (ei_out_out _ _ Hinv s' Hacc) as (s2 & t & _ & Hs2 & Hst & Ht).
    assert (s2 = s) as -> by (by eapply Hinj).
    exists t. split; [|done]. eapply eps_path; [done|constructor].
  - exfalso. unfold NFA.delta in Hv'. rewrite eps_new_epsilon_free in Hv'. set_solver.
  - destruct (ei_edges_out _ _ Hinv s' c v' Hv') as (s2 & t & v & _ & Hs2 & Hst & Hv & Hvid).
    assert (s2 = s) as -> by (by eapply Hinj).
    destruct (IH v Hvid Hacc) as (u & Hu & Hau).
    exists u. split; [|done]. eapply eps_path; [done|]. by eapply NFA.path_sym.
Qed.

Lemma eps_old_to_new s w u :
  NFA.path self s w u → NFA.accepting self u → ∀ s0 s0',
  rtc (eps_step self) s0 s → NFA.state_ids st !! s0 = Some s0' →
  ∃ u', NFA.path (NFA.nfa st) s0' w u' ∧ NFA.accepting (NFA.nfa st) u'.
Proof.
  induction 1 as [s|s t u w Ht _ IH|s c t u w Hc Ht _ IH]; intros Hacc s0 s0' Hreach Hs0.
  - exists s0'. split; [constructor|].
    eapply (ei_out_in _ _ Hinv s0 s0' s); [by eapply eps_done_explored|done..].
  - apply (IH Hacc s0 s0'); [|done]. by eapply rtc_r.
  - destruct (ei_edges_in _ _ Hinv s0 s0' s t c) as (t' & Ht' & Hd);
      [by eapply eps_done_explored|done|done|done|by apply byte_not_epsilon|].
    destruct (IH Hacc t t') as (u' & Hu' & Hau'); [done|done|].
    exists u'. split; [|done]. by eapply NFA.path_sym.
Qed.

Lemma eps_same_language w : NFA.accepts (NFA.nfa st) w ↔ NFA.accepts self w.
Proof.
  unfold NFA.accepts. pose proof (ei_init _ _ Hinv) as Hinit. split.
  - intros (u' & Hp & Hacc). by eapply eps_new_to_old.
  - intros (u & Hp & Hacc). by eapply eps_old_to_new.
Qed.

End remove_epsilons_language.

(** C2: for every NFA, [remove_epsilons] returns an NFA that has no
    ε-transition and accepts exactly the byte strings the NFA accepts (a string
    is accepted when a path from the initial state that consumes it ends in an
    accepting state).  No condition on the initial state is needed. *)
Theorem remove_epsilons_language `{IterOrder} (n : NFA.t) :
  ∃ n', NFA.remove_epsilons n = Some n'
    ∧ NFA.epsilon_free n'
    ∧ ∀ w, NFA.accepts n' w ↔ NFA.accepts n w.
Proof.
  destruct (remove_epsilons_run_spec n) as (st & Hrun & Hinv & Hdone).
  exists (NFA.nfa st). unfold NFA.remove_epsilons. rewrite Hrun. split; [done|]. split.
  - by eapply eps_new_epsilon_free.
  - intros w. by eapply eps_same_language.
Qed.

(** *** ε-removal on examples *)

(** [0 --ε--> 1], both accepting, with the tags 1 and 2. *)
Definition tagged_chain : NFA.t :=
  NFA.mk 1 {[(0, EPSILON) := {[1]}]} {[0 := {[1]}; 1 := {[2]}]} 0.

Lemma remove_epsilons_language_witness :
  ∃ n', @NFA.remove_epsilons forward_order tagged_chain = Some n'
    ∧ NFA.epsilon_free n'
    ∧ ∀ w, NFA.accepts n' w ↔ NFA.accepts tagged_chain w.
Proof. apply (@remove_epsilons_language forward_order tagged_chain). Defined.

(** The state that [remove_epsilons] creates for [s] is accepting iff some
    state of the ε-closure of [s] is accepting. *)
Lemma remove_epsilons_accepting `{IterOrder} (n : NFA.t) :
  ∃ st, NFA.remove_epsilons_run n = Some st
    ∧ ∀ s s', NFA.state_ids st !! s = Some s' →
        NFA.accepting (NFA.nfa st) s' ↔
        ∃ t, rtc (eps_step n) s t ∧ NFA.accepting n t.
Proof.
  destruct (remove_epsilons_run_spec n) as (st & Hrun & Hinv & Hdone).
  exists st. split; [done|]. intros s s' Hs. split.
  - intros Hacc. destruct (ei_out_out _ _ Hinv s' Hacc) as (s2 & t & _ & Hs2 & Hst & Ht).
    destruct (ei_ids _ _ Hinv) as (Hinj & _). assert (s2 = s) as -> by (by eapply Hinj).
    eauto.
  - intros (t & Hst & Ht). eapply (ei_out_in _ _ Hinv s s' t); [|done..].
    by eapply eps_done_explored.
Qed.

(** C3 fails on the code: [remove_epsilons] assigns [nfa.outputs[new_state]]
    anew for each accepting state of the closure, so the new state keeps the
    tag set of the accepting state enumerated last, not the union.  On
    [tagged_chain] the closure of state 0 is [{0, 1}], with the tag sets [{1}]
    and [{2}]: the new state 0 gets [{2}] when the closure is enumerated as
    0, 1 and [{1}] when it is enumerated as 1, 0; the union is [{1, 2}]. *)
Lemma remove_epsilons_keeps_one_tag_set :
  @iter backward_order _ _ _ ({[0; 1]} : gset Z) = [0; 1]
  ∧ @NFA.epsilon_closure backward_order tagged_chain 0 = Some {[0; 1]}
  ∧ (st ← @NFA.remove_epsilons_run backward_order tagged_chain;
     Some (NFA.state_ids st !! 0, NFA.outputs (NFA.nfa st) !! 0))
    = Some (Some 0, Some {[2]})
  ∧ @iter forward_order _ _ _ ({[0; 1]} : gset Z) = [1; 0]
  ∧ (st ← @NFA.remove_epsilons_run forward_order tagged_chain;
     Some (NFA.state_ids st !! 0, NFA.outputs (NFA.nfa st) !! 0))
    = Some (Some 0, Some {[1]})
  ∧ ({[2]} : gset Z) ≠ {[1; 2]} ∧ ({[1]} : gset Z) ≠ {[1; 2]}.
Proof. split_and!; try by vm_compute. all: compute_done. Qed.

(** ** The runtime lexer: [Lexer.get_next_token] *)

(** The table of a DFA for [a*]: one state, accepting with tag 5, with a loop
    on the byte 97; the source is the one byte 98. *)
Definition star_lexer : Lexer.t := Lexer.mk {[(0, 97) := 0]} 0 {[0 := 5]} [98] 0.

(** C8 fails on the code when the initial state is accepting:
    [get_next_token] then sets [new_position = position + 1] before it has
    consumed a byte, so the token it falls back on is one byte long instead
    of empty.  On [star_lexer] no transition exists on the first byte, the
    last accepting position is the start, and the lexeme returned is that
    first byte. *)
Lemma get_next_token_initial_accepting END :
  Lexer.transitions star_lexer !! (Lexer.initial_state star_lexer, 98) = None
  ∧ Lexer.outputs star_lexer !! Lexer.initial_state star_lexer = Some 5
  ∧ Lexer.get_next_token END star_lexer
    = (Lexer.Return 5 (Some [98]), Lexer.mk {[(0, 97) := 0]} 0 {[0 := 5]} [98] 1).
Proof. split_and!; by vm_compute. Qed.

(** ** The lexer of regular expressions: [Regexpr.lex] *)

(** C9 fails on the code on a truncated escape: [consume] reads
    [self.source[self.position]] past the end and raises [IndexError], where
    the claim has [LexerError].  The sources are a lone backslash, [\x] and
    [\x4]. *)
Lemma lex_truncated_escape :
  Regexpr.lex (Regexpr.mk [92] 0) = Some Regexpr.IndexError
  ∧ Regexpr.lex (Regexpr.mk [92; 120] 0) = Some Regexpr.IndexError
  ∧ Regexpr.lex (Regexpr.mk [92; 120; 52] 0) = Some Regexpr.IndexError.
Proof. split_and!; by vm_compute. Qed.

(** ** The parser generator *)

Lemma foldl_invariant {A S} (f : S → A → S) (P : S → Prop) l s :
  P s → (∀ s x, x ∈ l → P s → P (f s x)) → P (foldl f s l).
Proof.
  revert s. induction l as [|x l IH]; intros s Hs Hstep; simpl; [done|].
  apply IH; [apply Hstep; [left|done]|]. intros s' y Hy. apply Hstep. by right.
Qed.

Lemma for_each_invariant {A S} (body : S → A → option S) (P : S → Prop) l s s' :
  P s → (∀ s x s', x ∈ l → P s → body s x = Some s' → P s') →
  Py.for_each body s l = Some s' → P s'.
Proof.
  revert s. induction l as [|x l IH]; intros s Hs Hstep; simpl.
  - by intros [= <-].
  - intros (s1 & Hb & Hrest)%bind_Some. apply (IH s1); [| |done].
    + eapply Hstep; [left|done..].
    + intros s2 y s3 Hy. apply Hstep. by right.
Qed.

Lemma lookup_table_add `{Countable K} `{Countable A} (table : gmap K (gset A)) key x key' acts a :
  Parsergen.table_add table key x !! key' = Some acts → a ∈ acts →
  (key' = key ∧ a = x) ∨ (∃ acts', table !! key' = Some acts' ∧ a ∈ acts').
Proof.
  unfold Parsergen.table_add. destruct (decide (key' = key)) as [->|Hne].
  - rewrite lookup_insert_eq. intros [= <-] [Ha| ->%elem_of_singleton]%elem_of_union; [|by left].
    right. destruct (table !! key) as [acts'|]; simpl in Ha; [by eauto|set_solver].
  - rewrite lookup_insert_ne by done. eauto.
Qed.

Lemma lookup_list_add `{Countable K} {A} (table : gmap K (list A)) key x key' l a :
  Parsergen.list_add table key x !! key' = Some l → a ∈ l →
  a = x ∨ (∃ l', table !! key' = Some l' ∧ a ∈ l').
Proof.
  unfold Parsergen.list_add. destruct (decide (key' = key)) as [->|Hne].
  - rewrite lookup_insert_eq. intros [= <-] [Ha| ->%list_elem_of_singleton]%elem_of_app; [|by left].
    right. destruct (table !! key) as [l'|]; simpl in Ha; [by eauto|by apply elem_of_nil in Ha].
  - rewrite lookup_insert_ne by done. eauto.
Qed.

(** Where [ACCEPT] can stand in the table. *)
Section accept.
Context `{IterOrder}.
Variables END NIL GOAL : Z.
Variable g : Parsergen.t.

Local Abbreviation closure := (Parsergen.closure NIL).
Local Abbreviation generate := (Parsergen.generate END NIL GOAL).

(** The goal rule is the first one, and nothing derives [GOAL]. *)
Hypothesis Hindex : ∀ i r, Parsergen.rules g !! i = Some r → Parsergen.index r = Z.of_nat i.
Hypothesis Hgoal : ∀ i r,
  Parsergen.rules g !! i = Some r → Parsergen.lhs r = GOAL → i = 0%nat.
Hypothesis Hrhs : ∀ r, r ∈ Parsergen.rules g → GOAL ∉ Parsergen.rhs r.

(** An item of the goal rule looks ahead to [END]. *)
Definition good_item (item : Parsergen.Item) : Prop :=
  Parsergen.rule item ∈ Parsergen.rules g ∧
  (Parsergen.lhs (Parsergen.rule item) = GOAL → Parsergen.lookahead item = END).

Definition good_state (state : gset Parsergen.Item) : Prop :=
  ∀ item, item ∈ state → good_item item.

Definition good_table
    (table : gmap (gset Parsergen.Item * Z) (gset (Parsergen.action_kind * Parsergen.action_data)))
    : Prop :=
  ∀ key actions data, table !! key = Some actions → (Parsergen.ACCEPT, data) ∈ actions →
    key.2 = END ∧ data = Parsergen.to_rule 0.

Definition good_new_table (table : gmap (Z * Z) (gset (Parsergen.action_kind * Z))) : Prop :=
  ∀ position actions data, table !! position = Some actions →
    (Parsergen.ACCEPT, data) ∈ actions → position.2 = END ∧ data = 0.

Lemma good_successor item : good_item item → good_item (Parsergen.get_successor item).
Proof. by intros [??]. Qed.

Lemma good_goal_index item :
  good_item item → Parsergen.lhs (Parsergen.rule item) = GOAL →
  Parsergen.index (Parsergen.rule item) = 0 ∧ Parsergen.lookahead item = END.
Proof.
  intros [(i & Hi)%list_elem_of_lookup_1 Hend] Hlhs. split; [|by auto].
  rewrite (Hindex _ _ Hi). by rewrite (Hgoal _ _ Hi Hlhs).
Qed.

Lemma closure_expand_good non_terminal follow kernel :
  non_terminal ≠ GOAL → Forall good_item kernel →
  Forall good_item (Parsergen.closure_expand g non_terminal follow kernel).
Proof.
  intros Hne Hk. unfold Parsergen.closure_expand.
  apply (foldl_invariant _ (Forall good_item)); [done|].
  intros k r Hr Hgood. case_decide as Hl; [done|].
  apply (foldl_invariant _ (Forall good_item)); [done|].
  intros k' symbol _ Hk'. constructor; [|done]. split; [done|]. simpl. intros ?. congruence.
Qed.

Lemma closure_good fuel kernel state :
  Forall good_item kernel → closure fuel g kernel = Some state → good_state state.
Proof.
  intros Hk. unfold Parsergen.closure. intros ([state' kernel'] & Hrun & [= <-])%fmap_Some.
  apply (while_pop_partial _ _ (λ st, good_state st.1 ∧ Forall good_item st.2)) in Hrun
    as [[Hgood _] _]; [done| |].
  - clear Hk. intros [state0 kernel0] item [state1 kernel1] st2 [Hs Hk] Hpop Hbody.
    unfold Parsergen.closure_pop in Hpop. simpl in *.
    destruct kernel0 as [|item' kernel0]; simplify_eq.
    apply Forall_cons in Hk as [Hitem Hk].
    assert (good_state (state1 ∪ {[item]})) as Hs'.
    { intros it [?| ->%elem_of_singleton]%elem_of_union; [by apply Hs|done]. }
    unfold Parsergen.closure_body in Hbody. simpl in Hbody.
    case_decide; [by simplify_eq|].
    destruct (Parsergen.has_successor item); simpl in Hbody; [|by simplify_eq].
    apply bind_Some in Hbody as (non_terminal & Hlocus & Hbody).
    case_decide; [by simplify_eq|].
    apply bind_Some in Hbody as ([follow empty] & _ & [= <-]). simpl. split; [done|].
    apply closure_expand_good; [|done].
    intros ->. apply getitem_elem_of in Hlocus. destruct Hitem as [Hr _].
    by apply (Hrhs _ Hr).
  - simpl. split; [set_solver|]. by apply Forall_reverse.
Qed.

Lemma table_add_good table state symbol kind data :
  good_table table →
  (kind = Parsergen.ACCEPT → symbol = END ∧ data = Parsergen.to_rule 0) →
  good_table (Parsergen.table_add table (state, symbol) (kind, data)).
Proof.
  intros Ht Hnew key actions d Hl Hd.
  destruct (lookup_table_add _ _ _ _ _ _ Hl Hd) as [[-> [= <- <-]]|(acts' & Hl' & Hd')].
  - by apply Hnew.
  - by eapply Ht.
Qed.

Lemma gen_item_good state acc item acc' :
  good_item item →
  (∀ symbol kernel, acc.1 !! symbol = Some kernel → Forall good_item kernel) →
  good_table acc.2 →
  Parsergen.gen_item GOAL state acc item = Some acc' →
  (∀ symbol kernel, acc'.1 !! symbol = Some kernel → Forall good_item kernel) ∧
  good_table acc'.2.
Proof.
  intros Hitem Htr Ht. unfold Parsergen.gen_item.
  destruct (Parsergen.has_successor item).
  - intros (locus & _ & [= <-])%bind_Some. simpl. split; [|done].
    intros symbol kernel Hl. apply Forall_forall. intros it Hit.
    destruct (lookup_list_add _ _ _ _ _ _ Hl Hit) as [->|(l' & Hl' & Hit')].
    + by apply good_successor.
    + by eapply (proj1 (Forall_forall _ _) (Htr _ _ Hl')).
  - intros [= <-]. simpl. split; [done|]. apply table_add_good; [done|].
    case_decide as Hlhs; [|done]. intros _.
    destruct (good_goal_index _ Hitem Hlhs) as [-> ->]. done.
Qed.

Definition good_gen (st : Parsergen.gen_state) : Prop :=
  good_table (Parsergen.table st) ∧ Forall good_state (Parsergen.frontier st).

Lemma gen_transition_good fuel state st entry st' :
  Forall good_item entry.2 → good_gen st →
  Parsergen.gen_transition NIL fuel g state st entry = Some st' → good_gen st'.
Proof.
  intros Hk [Ht Hf]. unfold Parsergen.gen_transition.
  intros (next_state & Hc & [= <-])%bind_Some. split; simpl.
  - apply table_add_good; [done|]. by case_decide.
  - constructor; [|done]. by eapply closure_good.
Qed.

Lemma gen_body_good fuel state st st' :
  good_state state → good_gen st →
  Parsergen.gen_body NIL GOAL fuel g state st = Some st' → good_gen st'.
Proof.
  intros Hs [Ht Hf]. unfold Parsergen.gen_body. case_decide; [by intros [= <-]|]. simpl.
  intros ([transitions table] & Hitems & Htrans)%bind_Some.
  apply (for_each_invariant _
    (λ acc, (∀ symbol kernel, acc.1 !! symbol = Some kernel → Forall good_item kernel) ∧
            good_table acc.2)) in Hitems as [Htr Ht'].
  - revert Htrans. apply for_each_invariant; [done|].
    intros s [symbol kernel] s' Hin%elem_of_items Hgood. apply gen_transition_good; [|done].
    by apply (Htr symbol).
  - split; [|done]. simpl. intros symbol kernel. by rewrite lookup_empty.
  - intros acc item acc' Hitem%elem_of_iter [Htr Hacc]. apply gen_item_good; [|done..].
    by apply Hs.
Qed.

Lemma get_id_new_table st state :
  Parsergen.new_table (Parsergen.get_id st state).1 = Parsergen.new_table st.
Proof. unfold Parsergen.get_id. by destruct (_ !! _). Qed.

Lemma simplify_action_good position st entry :
  (entry.1 = Parsergen.ACCEPT → position.2 = END ∧ entry.2 = Parsergen.to_rule 0) →
  good_new_table (Parsergen.new_table st) →
  good_new_table (Parsergen.new_table (Parsergen.simplify_action position st entry)).
Proof.
  intros Hentry Hst. destruct entry as [kind data]. simpl in Hentry.
  assert (∀ st' kind' data',
    Parsergen.new_table st' = Parsergen.new_table st →
    (kind' = Parsergen.ACCEPT → position.2 = END ∧ data' = 0) →
    good_new_table (Parsergen.table_add (Parsergen.new_table st') position (kind', data')))
    as Hadd.
  { intros st' kind' data' -> Hnew pos actions d Hl Hd.
    destruct (lookup_table_add _ _ _ _ _ _ Hl Hd) as [[-> [= <- <-]]|(acts' & Hl' & Hd')].
    - by apply Hnew.
    - by eapply Hst. }
  destruct kind, data as [next|i]; simpl; try done.
  - destruct (Parsergen.get_id st next) as [st' id] eqn:Hid. simpl. apply Hadd; [|done].
    by rewrite <- (get_id_new_table st next), Hid.
  - by apply Hadd.
  - apply Hadd; [done|]. intros _. destruct Hentry as [-> [= ->]]; done.
  - destruct (Parsergen.get_id st next) as [st' id] eqn:Hid. simpl. apply Hadd; [|done].
    by rewrite <- (get_id_new_table st next), Hid.
Qed.

Lemma simplify_table_good table initial_state :
  good_table table → good_new_table (Parsergen.simplify_table table initial_state).
Proof.
  intros Ht. unfold Parsergen.simplify_table.
  apply (foldl_invariant _ (λ st, good_new_table (Parsergen.new_table st))).
  { simpl. intros ???. by rewrite lookup_empty. }
  intros st [[state symbol] actions] Hcell%elem_of_items Hst.
  unfold Parsergen.simplify_cell. simpl.
  destruct (Parsergen.get_id st state) as [st' id] eqn:Hid.
  apply (foldl_invariant _ (λ st, good_new_table (Parsergen.new_table st))).
  { by rewrite <- (get_id_new_table st state), Hid in Hst. }
  intros st1 [kind data] Hin%elem_of_iter Hst1. apply simplify_action_good; [|done].
  simpl. intros ->. by apply (Ht (state, symbol) actions data).
Qed.

Lemma generate_good fuel table :
  generate fuel g = Some table → good_new_table table.
Proof.
  unfold Parsergen.generate.
  intros (rule0 & Hrule0 & (initial_state & Hinit & (st & Hrun & [= <-])%bind_Some)%bind_Some)%bind_Some.
  apply simplify_table_good.
  apply (while_pop_partial _ _ good_gen) in Hrun as [[Ht _] _]; [done| |].
  - clear Hrun. intros st0 state st1 st2 [Ht Hf] Hpop Hbody.
    unfold Parsergen.gen_pop in Hpop. destruct (Parsergen.frontier st0) as [|s rest] eqn:Hfr; [done|].
    simplify_eq. apply Forall_cons in Hf as [Hs Hrest].
    eapply gen_body_good; [done| |done]. by split.
  - split; simpl.
    + intros ???. by rewrite lookup_empty.
    + constructor; [|done]. eapply closure_good; [|done].
      constructor; [|done]. split; simpl; [|done]. by eapply getitem_elem_of.
Qed.

End accept.

Lemma make_rules_index input i r :
  Parsergen.make_rules input !! i = Some r → Parsergen.index r = Z.of_nat i.
Proof.
  unfold Parsergen.make_rules. rewrite list_lookup_imap.
  by intros (x & _ & ->)%fmap_Some.
Qed.

(** The grammar of the class documentation: S' -> S, S -> C C, C -> c C,
    C -> d, with [END = -1], [NIL = -2] and [GOAL = 0] as in the table of
    [regexpr]. *)
Definition cc_input : list (Z * list Z) :=
  [(0, [1]); (1, [2; 2]); (2, [-3; 2]); (2, [-4])].

Definition cc_grammar : Parsergen.t :=
  Parsergen.mk {[-3; -4]} {[0; 1; 2]} (Parsergen.make_rules cc_input) [].

Definition cc_generator : Parsergen.t :=
  Parsergen.mk {[-3; -4]} {[0; 1; 2]} (Parsergen.make_rules cc_input)
    (default [] (Parsergen.compute_first_map (H:=forward_order) (-2) cc_grammar)).

(** C7: in a grammar whose rules after the first do not have [GOAL] on the
    left and whose right-hand sides do not hold [GOAL], every cell of the
    table of [generate] that holds an [ACCEPT] action is keyed by [END], and
    the action carries the production index 0. *)
Theorem generate_accept_cells `{IterOrder} (END NIL GOAL : Z) (g : Parsergen.t)
    input fuel table position actions data :
  Parsergen.rules g = Parsergen.make_rules input →
  Forall (λ r, Parsergen.lhs r ≠ GOAL) (tail (Parsergen.rules g)) →
  Forall (λ r, GOAL ∉ Parsergen.rhs r) (Parsergen.rules g) →
  Parsergen.generate END NIL GOAL fuel g = Some table →
  table !! position = Some actions →
  (Parsergen.ACCEPT, data) ∈ actions →
  position.2 = END ∧ data = 0.
Proof.
  intros Hrules Hgoal Hrhs Hgen.
  cut (good_new_table END table); [intros Hgood; apply Hgood|].
  apply (generate_good END NIL GOAL g) with fuel; [| | |done].
  - intros i r. rewrite Hrules. apply make_rules_index.
  - intros [|i] r Hi Hlhs; [done|]. exfalso.
    destruct (Parsergen.rules g) as [|r0 rest]; [done|]. simpl in *.
    by apply (proj1 (Forall_forall _ _) Hgoal r); [eapply list_elem_of_lookup_2|].
  - by apply Forall_forall.
Qed.

Lemma generate_accept_cells_witness :
  ∃ table actions,
    Parsergen.generate (H:=forward_order) (-1) (-2) 0 100 cc_generator = Some table ∧
    table !! (8, -1) = Some actions ∧
    (Parsergen.ACCEPT, 0) ∈ actions ∧
    (8, -1).2 = -1 ∧ 0 = 0.
Proof.
  exists (default ∅ (Parsergen.generate (H:=forward_order) (-1) (-2) 0 100 cc_generator)),
    {[(Parsergen.ACCEPT, 0)]}.
  assert (Parsergen.generate (H:=forward_order) (-1) (-2) 0 100 cc_generator =
          Some (default ∅ (Parsergen.generate (H:=forward_order) (-1) (-2) 0 100 cc_generator)))
    as Hgen by (vm_compute; reflexivity).
  assert (default ∅ (Parsergen.generate (H:=forward_order) (-1) (-2) 0 100 cc_generator)
            !! (8, -1) = Some {[(Parsergen.ACCEPT, 0)]}) as Hcell by (vm_compute; reflexivity).
  split; [done|]. split; [done|]. split; [by apply elem_of_singleton|].
  apply (generate_accept_cells (H:=forward_order) (-1) (-2) 0 cc_generator cc_input 100
           (default ∅ (Parsergen.generate (H:=forward_order) (-1) (-2) 0 100 cc_generator))
           (8, -1) {[(Parsergen.ACCEPT, 0)]} 0);
    [reflexivity| | |done|done|by apply elem_of_singleton].
  - compute_done.
  - compute_done.
Defined.

(** ** FIRST sets *)

(** Derivations in a context. *)
Lemma derives_context g u v a b :
  Parsergen.derives g a b → Parsergen.derives g (u ++ a ++ v) (u ++ b ++ v).
Proof.
  induction 1 as [|a b c Hstep _ IH]; [apply rtc_refl|].
  eapply rtc_l; [|exact IH]. destruct Hstep as [u' v' r Hr].
  replace (u ++ (u' ++ Parsergen.lhs r :: v') ++ v)
    with ((u ++ u') ++ Parsergen.lhs r :: (v' ++ v)) by by simplify_list_eq.
  replace (u ++ (u' ++ Parsergen.rhs r ++ v') ++ v)
    with ((u ++ u') ++ Parsergen.rhs r ++ (v' ++ v)) by by simplify_list_eq.
  by constructor.
Qed.

Lemma derives_rule_rhs g r :
  r ∈ Parsergen.rules g → Parsergen.derives g [Parsergen.lhs r] (Parsergen.rhs r).
Proof.
  intros Hr. apply rtc_once.
  pose proof (Parsergen.derives_rule g [] [] r Hr) as Hstep.
  by rewrite app_nil_r in Hstep.
Qed.

Lemma derives_head g N Y rest β :
  Parsergen.derives g [N] (Y :: rest) → Parsergen.derives g [Y] β →
  Parsergen.derives g [N] (β ++ rest).
Proof.
  intros HN HY. eapply rtc_trans; [exact HN|].
  apply (derives_context g [] rest [Y] β HY).
Qed.

(** The number of elements of all the sets of [first]. *)
Definition total (first : list (gset Z)) : nat := sum_list_with size first.

Lemma total_insert_new first k entry (t : Z) :
  first !! k = Some entry → t ∉ entry →
  total (<[k:=entry ∪ {[t]}]> first) = S (total first).
Proof.
  unfold total. revert k. induction first as [|e first IH]; intros [|k] Hk Ht; simplify_eq/=.
  - rewrite size_union by set_solver. rewrite size_singleton. lia.
  - by rewrite (IH k).
Qed.

Lemma total_bound first (V : gset Z) :
  (∀ k entry, first !! k = Some entry → entry ⊆ V) →
  (total first ≤ length first * size V)%nat.
Proof.
  unfold total. induction first as [|e first IH]; intros Hsub; simpl; [lia|].
  pose proof (subseteq_size e V (Hsub 0%nat e eq_refl)).
  assert (sum_list_with size first ≤ length first * size V)%nat; [|lia].
  apply IH. intros k entry Hk. by apply (Hsub (S k)).
Qed.

(** [first[N]] for a valid index [N]. *)
Definition first_of (first : list (gset Z)) (N : Z) : gset Z :=
  default ∅ (first !! Z.to_nat N).

Lemma getitem_first_of first N :
  0 ≤ N < Z.of_nat (length first) → Py.getitem first N = Some (first_of first N).
Proof.
  intros HN. rewrite getitem_nonneg by lia. unfold first_of.
  destruct (first !! Z.to_nat N) eqn:Hl; [done|]. apply lookup_ge_None in Hl. lia.
Qed.

Section first_map.
Context `{IterOrder}.
Variable NIL : Z.
Variable g : Parsergen.t.

Local Abbreviation n := (size (Parsergen.non_terminals g)).
Local Abbreviation V := (Parsergen.first_universe NIL g).
Local Abbreviation derives := (Parsergen.derives g).

(** The non-terminals are the indices of [first]; no symbol is both a
    terminal and a non-terminal; the rules are made of the symbols of the
    grammar, with a non-terminal on the left. *)
Hypothesis Hdense : ∀ s, s ∈ Parsergen.non_terminals g ↔ 0 ≤ s < Z.of_nat n.
Hypothesis Hdisjoint : Parsergen.terminals g ## Parsergen.non_terminals g.
Hypothesis Hlhs : ∀ r, r ∈ Parsergen.rules g → Parsergen.lhs r ∈ Parsergen.non_terminals g.
Hypothesis Hrhs : ∀ r s, r ∈ Parsergen.rules g → s ∈ Parsergen.rhs r →
  (s ∈ Parsergen.terminals g ∧ s ≠ NIL) ∨ s ∈ Parsergen.non_terminals g.

(** What an element [t] of [first[N]] stands for. *)
Definition first_fact (N t : Z) : Prop :=
  (t = NIL → derives [N] []) ∧
  (t ≠ NIL → t ∈ Parsergen.terminals g ∧ ∃ α, derives [N] (t :: α)).

Definition first_sound (first : list (gset Z)) : Prop :=
  ∀ N t, 0 ≤ N < Z.of_nat n → t ∈ first_of first N → first_fact N t ∧ t ∈ V.

Definition first_inv (first : list (gset Z)) : Prop :=
  length first = n ∧ first_sound first.

(** How [first] and [changed] evolve. *)
Definition first_ext (st st' : Parsergen.first_state) : Prop :=
  length st'.1 = length st.1 ∧
  (total st.1 ≤ total st'.1)%nat ∧
  (st'.2 = false → st.2 = false ∧ st'.1 = st.1) ∧
  (st.2 = false → st'.2 = true → (total st.1 < total st'.1)%nat).

Lemma first_ext_refl st : first_ext st st.
Proof. unfold first_ext. split_and!; try done. intros ->. done. Qed.

Lemma first_ext_trans st1 st2 st3 : first_ext st1 st2 → first_ext st2 st3 → first_ext st1 st3.
Proof.
  intros (Hl1 & Ht1 & Hf1 & Hs1) (Hl2 & Ht2 & Hf2 & Hs2). split_and!.
  - congruence.
  - lia.
  - intros H3. destruct (Hf2 H3) as [H2 ->]. by destruct (Hf1 H2) as [? ->].
  - intros H1 H3. destruct (decide (st2.2 = true)) as [E2|E2%not_true_is_false].
    + specialize (Hs1 H1 E2). lia.
    + destruct (Hf1 E2) as [_ Heq]. specialize (Hs2 E2 H3). rewrite Heq in Hs2. lia.
Qed.

Lemma insert_spec first changed N t :
  first_inv first → 0 ≤ N < Z.of_nat n → first_fact N t → t ∈ V →
  ∃ st, Parsergen.insert (first, changed) N t = Some st ∧
    first_inv st.1 ∧ first_ext (first, changed) st ∧
    (st.2 = false → t ∈ first_of first N).
Proof.
  intros Hinv HN Hfact HV. pose proof Hinv as [Hlen Hsound]. unfold Parsergen.insert. simpl.
  rewrite getitem_first_of by lia. simpl. case_decide as Hin.
  { eexists. split; [done|]. split_and!; [done|apply first_ext_refl|done]. }
  rewrite setitem_nonneg by lia. simpl. eexists. split; [done|]. simpl.
  assert (first !! Z.to_nat N = Some (first_of first N)) as Hl.
  { rewrite <- getitem_nonneg by lia. apply getitem_first_of. lia. }
  split; [split|split]; simpl.
  - by rewrite length_insert.
  - intros M x HM. unfold first_of at 1.
    destruct (decide (Z.to_nat M = Z.to_nat N)) as [Heq|Hne].
    + rewrite Heq, list_lookup_insert_eq by lia. simpl.
      assert (M = N) as -> by lia.
      intros [Hx| ->%elem_of_singleton]%elem_of_union; [by apply Hsound|done].
    + rewrite list_lookup_insert_ne by done. by apply Hsound.
  - unfold first_ext. simpl. rewrite length_insert, (total_insert_new _ _ _ _ Hl Hin).
    split_and!; [done|lia|done|lia].
  - done.
Qed.

Lemma first_copy_spec first changed N Y entry rest :
  first_inv first → 0 ≤ N < Z.of_nat n →
  derives [N] (Y :: rest) →
  (∀ t, t ∈ entry → first_fact Y t ∧ t ∈ V) →
  ∃ st nil_not_found,
    Parsergen.first_copy NIL N (first, changed) entry = Some (st, nil_not_found) ∧
    first_inv st.1 ∧ first_ext (first, changed) st ∧
    nil_not_found = bool_decide (NIL ∉ entry) ∧
    (st.2 = false → ∀ t, t ∈ entry → t ≠ NIL → t ∈ first_of first N).
Proof.
  intros Hinv HN HNY Hentry. unfold Parsergen.first_copy.
  destruct (for_each_total
    (λ (acc : Parsergen.first_state * bool) terminal,
       if decide (terminal = NIL) then Some (acc.1, false)
       else st ← Parsergen.insert acc.1 N terminal; Some (st, acc.2))
    (λ pre acc, first_inv acc.1.1 ∧ first_ext (first, changed) acc.1 ∧
       acc.2 = bool_decide (NIL ∉ pre) ∧
       (acc.1.2 = false → ∀ t, t ∈ pre → t ≠ NIL → t ∈ first_of first N))
    (iter entry) ((first, changed), true)) as ([st nnf] & Hrun & Hst & Hext & Hnnf & Hclosed).
  - simpl. split_and!; [done|apply first_ext_refl| |].
    + done.
    + intros _ t Ht. by apply elem_of_nil in Ht.
  - intros pre t post [[f c] nnf] Heq (Hf & Hext & Hnnf & Hclosed). simpl in *.
    assert (t ∈ entry) as Ht.
    { apply elem_of_iter. rewrite Heq. set_solver. }
    destruct (decide (t = NIL)) as [Hnil|Hnil].
    + eexists. split; [done|]. simpl. split_and!; [done|done| |].
      * subst t. symmetry. apply bool_decide_eq_false. set_solver.
      * intros Hc x [Hx| ->%list_elem_of_singleton]%elem_of_app Hne; [by apply Hclosed|done].
    + destruct (Hentry t Ht) as [[_ Hfact] HV]. destruct (Hfact Hnil) as (Hterm & α & Hα).
      destruct (insert_spec f c N t Hf HN) as ([f' c'] & -> & Hf' & Hext' & Hin); [|done|].
      { split; [done|]. intros _. split; [done|]. exists (α ++ rest).
        by apply (derives_head g N Y rest (t :: α)). }
      simpl in *. eexists. split; [done|]. simpl.
      split_and!; [done|by eapply first_ext_trans| |].
      * rewrite Hnnf. apply bool_decide_ext. set_solver.
      * intros Hc x [Hx| ->%list_elem_of_singleton]%elem_of_app Hne.
        -- apply Hclosed; [|done..]. by destruct Hext' as (_ & _ & [? _] & _).
        -- destruct Hext' as (_ & _ & Hback & _). destruct (Hback Hc) as [Hc' Hff].
           simpl in *. subst f'. destruct Hext as (_ & _ & Hback' & _).
           destruct (Hback' Hc') as [_ Hff']. simpl in Hff'. subst f. by apply Hin.
  - exists st, nnf. simpl in *. split; [done|]. split_and!; [done|done| |].
    + rewrite Hnnf. apply bool_decide_ext. by rewrite elem_of_iter.
    + intros Hc t Ht. apply Hclosed; [done|]. by apply elem_of_iter.
Qed.

(** What a pass without change establishes for a rule: [first] is closed
    under it. *)
Fixpoint seq_closed (first : list (gset Z)) (N : Z) (symbols : list Z) : Prop :=
  match symbols with
  | [] => NIL ∈ first_of first N
  | Y :: symbols =>
      if decide (Y ∈ Parsergen.terminals g) then Y ∈ first_of first N
      else (∀ t, t ∈ first_of first Y → t ≠ NIL → t ∈ first_of first N) ∧
           (NIL ∈ first_of first Y → seq_closed first N symbols)
  end.

Definition symbol_ok (s : Z) : Prop :=
  ((s ∈ Parsergen.terminals g ∧ s ≠ NIL) ∨ s ∈ Parsergen.non_terminals g) ∧ s ∈ V.

Lemma first_symbols_spec symbols : ∀ first changed N,
  first_inv first → 0 ≤ N < Z.of_nat n →
  derives [N] symbols → Forall symbol_ok symbols →
  ∃ st empty,
    Parsergen.first_symbols NIL g N (first, changed) symbols = Some (st, empty) ∧
    first_inv st.1 ∧ first_ext (first, changed) st ∧
    (empty = true → derives [N] []) ∧
    (st.2 = false →
       if empty then NIL ∈ first_of first N → seq_closed first N symbols
       else seq_closed first N symbols).
Proof.
  induction symbols as [|Y symbols IH]; intros first changed N Hinv HN HD Hok; simpl.
  { exists (first, changed), true. split_and!; [done|done|apply first_ext_refl|done|done]. }
  apply Forall_cons in Hok as [[HY HYV] Hok].
  case_decide as Hterm.
  - destruct (insert_spec first changed N Y Hinv HN) as (st & -> & Hinv' & Hext & Hin); [|done|].
    { split; [|by eauto]. intros ->. destruct HY as [[_ ?]|HY]; [done|].
      exfalso. by apply (Hdisjoint NIL). }
    simpl. exists st, false. split_and!; [done|done|done|done|done].
  - destruct HY as [[? _]|HY]; [done|]. apply Hdense in HY.
    pose proof Hinv as [Hlen Hsound].
    rewrite getitem_first_of by (simpl; lia). simpl.
    destruct (first_copy_spec first changed N Y (first_of first Y) symbols)
      as (st & nnf & -> & Hinv' & Hext & -> & Hclosed); [done|done|done| |].
    { intros t Ht. by apply Hsound. }
    simpl. case_bool_decide as Hnil; simpl.
    + exists st, false. split_and!; [done|done|done|done|].
      intros Hc. split; [by apply Hclosed|]. done.
    + destruct (Hsound Y NIL HY Hnil) as [[HYnil _] _]. specialize (HYnil eq_refl).
      destruct st as [f c].
      destruct (IH f c N Hinv' HN) as (st' & empty & -> & Hinv'' & Hext' & Hempty & Hrest);
        [|done|].
      { by apply (derives_head g N Y symbols []). }
      exists st', empty. split_and!; [done|done|by eapply first_ext_trans|done|].
      intros Hc. destruct Hext' as (_ & _ & Hback & _). destruct (Hback Hc) as [Hc' Hff].
      destruct Hext as (_ & _ & Hback' & _). destruct (Hback' Hc') as [_ Hff'].
      simpl in Hff'. subst first. specialize (Hclosed Hc'). specialize (Hrest Hc).
      destruct empty; [intros HNnil|]; split; auto.
Qed.

Lemma symbol_ok_rhs r : r ∈ Parsergen.rules g → Forall symbol_ok (Parsergen.rhs r).
Proof.
  intros Hr. apply Forall_forall. intros s Hs. split; [by eapply Hrhs|].
  unfold Parsergen.first_universe. apply elem_of_union_r, elem_of_list_to_set.
  apply elem_of_concat. exists (Parsergen.rhs r). split; [|done].
  apply list_elem_of_fmap. by exists r.
Qed.

Lemma first_rule_spec first changed r :
  first_inv first → r ∈ Parsergen.rules g →
  ∃ st, Parsergen.first_rule NIL g (first, changed) r = Some st ∧
    first_inv st.1 ∧ first_ext (first, changed) st ∧
    (st.2 = false → seq_closed first (Parsergen.lhs r) (Parsergen.rhs r)).
Proof.
  intros Hinv Hr. unfold Parsergen.first_rule.
  assert (0 ≤ Parsergen.lhs r < Z.of_nat n) as HN by by apply Hdense, Hlhs.
  destruct (first_symbols_spec (Parsergen.rhs r) first changed (Parsergen.lhs r))
    as ([f c] & empty & -> & Hinv' & Hext & Hempty & Hclosed);
    [done|done|by apply derives_rule_rhs|by apply symbol_ok_rhs|].
  simpl in *. destruct empty.
  - destruct (insert_spec f c (Parsergen.lhs r) NIL Hinv' HN) as (st & -> & Hinv'' & Hext' & Hin).
    { split; [by auto|done]. }
    { unfold Parsergen.first_universe. set_solver. }
    exists st. split_and!; [done|done|by eapply first_ext_trans|].
    intros Hc. destruct Hext' as (_ & _ & Hback & _). destruct (Hback Hc) as [Hc' Hff].
    destruct Hext as (_ & _ & Hback' & _). destruct (Hback' Hc') as [_ Hff'].
    simpl in Hff'. subst first. apply (Hclosed Hc'). by apply Hin.
  - exists (f, c). by split_and!.
Qed.

Definition first_closed (first : list (gset Z)) : Prop :=
  ∀ r, r ∈ Parsergen.rules g → seq_closed first (Parsergen.lhs r) (Parsergen.rhs r).

Lemma first_pass_spec first :
  first_inv first →
  ∃ st, Py.for_each (Parsergen.first_rule NIL g) (first, false) (Parsergen.rules g) = Some st ∧
    first_inv st.1 ∧ first_ext (first, false) st ∧
    (st.2 = false → first_closed first).
Proof.
  intros Hinv.
  destruct (for_each_total (Parsergen.first_rule NIL g)
    (λ pre st, first_inv st.1 ∧ first_ext (first, false) st ∧
       (st.2 = false → ∀ r, r ∈ pre → seq_closed first (Parsergen.lhs r) (Parsergen.rhs r)))
    (Parsergen.rules g) (first, false)) as (st & Hrun & Hst & Hext & Hclosed).
  - split_and!; [done|apply first_ext_refl|]. intros _ r Hr. by apply elem_of_nil in Hr.
  - intros pre r post [f c] Heq (Hf & Hext & Hclosed).
    destruct (first_rule_spec f c r Hf) as (st & Hst & Hinv' & Hext' & Hr).
    { rewrite Heq. set_solver. }
    exists st. split; [done|]. split_and!; [done|by eapply first_ext_trans|].
    intros Hc. destruct Hext' as (_ & _ & Hback & _). destruct (Hback Hc) as [Hc' Hff].
    destruct Hext as (_ & _ & Hback' & _). destruct (Hback' Hc') as [_ Hff'].
    simpl in Hff', Hc'. subst first.
    intros r' [Hr'| ->%list_elem_of_singleton]%elem_of_app; [by apply Hclosed|].
    by apply Hr.
  - exists st. split_and!; [done|done|done|]. intros Hc r Hr. by apply Hclosed.
Qed.

Lemma first_inv_total first : first_inv first → (total first ≤ n * size V)%nat.
Proof.
  intros [Hlen Hsound]. rewrite <- Hlen. apply total_bound.
  intros k entry Hk t Ht. apply (Hsound (Z.of_nat k)).
  - apply lookup_lt_Some in Hk. lia.
  - unfold first_of. by rewrite Nat2Z.id, Hk.
Qed.

Lemma first_loop_spec fuel : ∀ first,
  first_inv first → (n * size V - total first < fuel)%nat →
  ∃ first', Parsergen.first_loop NIL fuel g first = Some first' ∧
    first_inv first' ∧ first_closed first'.
Proof.
  induction fuel as [|fuel IH]; intros first Hinv Hfuel; [lia|]. simpl.
  destruct (first_pass_spec first Hinv) as ([f c] & -> & Hinv' & Hext & Hclosed).
  simpl in *. destruct c.
  - apply IH; [done|]. destruct Hext as (_ & _ & _ & Hlt). specialize (Hlt eq_refl eq_refl).
    pose proof (first_inv_total f Hinv'). simpl in *. lia.
  - destruct Hext as (_ & _ & Hback & _). destruct (Hback eq_refl) as [_ Heq].
    simpl in Heq. subst f. eauto.
Qed.

(** A closed [first] holds all that the derivations give. *)
Fixpoint seq_first (first : list (gset Z)) (symbols : list Z) (t : Z) : Prop :=
  match symbols with
  | [] => False
  | Y :: symbols =>
      if decide (Y ∈ Parsergen.terminals g) then t = Y
      else t ∈ first_of first Y ∨ (NIL ∈ first_of first Y ∧ seq_first first symbols t)
  end.

Definition seq_null (first : list (gset Z)) (symbols : list Z) : Prop :=
  Forall (λ Y, (Y ∉ Parsergen.terminals g) ∧ NIL ∈ first_of first Y) symbols.

Lemma seq_first_app first a b t :
  seq_first first (a ++ b) t ↔
  seq_first first a t ∨ (seq_null first a ∧ seq_first first b t).
Proof.
  unfold seq_null. induction a as [|Y a IH]; simpl.
  - split; [intros; right; by split|]. by intros [[]|[_ ?]].
  - rewrite Forall_cons. case_decide; [naive_solver|]. rewrite IH. naive_solver.
Qed.

Lemma seq_closed_first first N symbols t :
  seq_closed first N symbols → t ≠ NIL →
  seq_first first symbols t → t ∈ first_of first N.
Proof.
  intros Hclosed Ht. induction symbols as [|Y symbols IH]; simpl in *; [done|].
  case_decide; [by intros ->|]. destruct Hclosed as [Hsub Hnil].
  intros [?|[HY Hrest]]; [by apply Hsub|]. by apply (IH (Hnil HY)).
Qed.

Lemma seq_closed_null first N symbols :
  seq_closed first N symbols → seq_null first symbols → NIL ∈ first_of first N.
Proof.
  intros Hclosed. unfold seq_null. induction symbols as [|Y symbols IH]; simpl in *; [done|].
  rewrite Forall_cons. case_decide; [by intros [[? _] _]|].
  destruct Hclosed as [Hsub Hnil]. intros [[_ HY] Hrest]. by apply (IH (Hnil HY)).
Qed.

Lemma lhs_not_terminal r : r ∈ Parsergen.rules g → Parsergen.lhs r ∉ Parsergen.terminals g.
Proof. intros Hr Hin. by apply (Hdisjoint _ Hin), Hlhs. Qed.

Lemma derives_first first a b t :
  first_closed first → derives a b → t ≠ NIL →
  seq_first first b t → seq_first first a t.
Proof.
  intros Hclosed Hd Ht. induction Hd as [|a b c Hstep _ IH]; [done|].
  intros Hc. specialize (IH Hc). clear Hc. destruct Hstep as [u v r Hr].
  pose proof (lhs_not_terminal r Hr) as Hnt.
  pose proof (seq_closed_first first _ _ t (Hclosed r Hr) Ht) as Hfirst.
  pose proof (seq_closed_null first _ _ (Hclosed r Hr)) as Hnull.
  revert IH. rewrite !seq_first_app. simpl. rewrite decide_False by done.
  intros [?|[Hu [?|[Hrhs' Hv]]]]; [by left|right..]; (split; [done|]); auto.
Qed.

Lemma derives_null first a b :
  first_closed first → derives a b → seq_null first b → seq_null first a.
Proof.
  intros Hclosed Hd. induction Hd as [|a b c Hstep _ IH]; [done|].
  intros Hc. specialize (IH Hc). clear Hc. destruct Hstep as [u v r Hr].
  pose proof (lhs_not_terminal r Hr) as Hnt.
  pose proof (seq_closed_null first _ _ (Hclosed r Hr)) as Hnull.
  revert IH. unfold seq_null. rewrite !Forall_app, Forall_cons. naive_solver.
Qed.

Lemma compute_first_map_spec :
  ∃ first, Parsergen.compute_first_map NIL g = Some first ∧
    length first = n ∧
    ∀ N, N ∈ Parsergen.non_terminals g →
      (NIL ∈ first_of first N ↔ derives [N] []) ∧
      (∀ t, t ≠ NIL →
         (t ∈ first_of first N ↔ t ∈ Parsergen.terminals g ∧ ∃ α, derives [N] (t :: α))).
Proof.
  unfold Parsergen.compute_first_map.
  destruct (first_loop_spec (Parsergen.first_fuel NIL g) (replicate n ∅))
    as (first & Hrun & [Hlen Hsound] & Hclosed).
  { split; [by rewrite length_replicate|]. intros N t HN. unfold first_of.
    rewrite lookup_replicate_2 by lia. set_solver. }
  { unfold Parsergen.first_fuel. lia. }
  exists first. split; [done|]. split; [done|]. intros N HN.
  assert (N ∉ Parsergen.terminals g) as Hnt.
  { intros Hin. by apply (Hdisjoint _ Hin). }
  apply Hdense in HN. split.
  - split.
    + intros Hin. by apply (Hsound N NIL HN Hin).
    + intros Hd. pose proof (derives_null first [N] [] Hclosed Hd (Forall_nil_2 _)) as Hnull.
      by apply Forall_cons in Hnull as [[_ ?] _].
  - intros t Ht. split.
    + intros Hin. by apply (Hsound N t HN Hin).
    + intros (Hterm & α & Hd).
      assert (seq_first first (t :: α) t) as Hfirst by (simpl; by rewrite decide_True).
      apply (derives_first first [N] (t :: α) t Hclosed Hd Ht) in Hfirst.
      simpl in Hfirst. rewrite decide_False in Hfirst by done. by destruct Hfirst as [?|[_ []]].
Qed.

End first_map.

(** C5: in a grammar whose non-terminals are the indices of the list of
    FIRST sets, whose terminals are no non-terminals, and whose rules have a
    non-terminal on the left and terminals other than [NIL] and non-terminals
    on the right, the loop of [compute_first_map] ends, and the set it
    returns for a non-terminal [N] holds [NIL] exactly when [N] derives the
    empty string and, besides, exactly the terminals [t] with a derivation
    of [t α] from [N]. *)
Theorem compute_first_map_first_sets `{IterOrder} (NIL : Z) (g : Parsergen.t) :
  (∀ s, s ∈ Parsergen.non_terminals g ↔
        0 ≤ s < Z.of_nat (size (Parsergen.non_terminals g))) →
  Parsergen.terminals g ## Parsergen.non_terminals g →
  Forall (λ r, Parsergen.lhs r ∈ Parsergen.non_terminals g) (Parsergen.rules g) →
  Forall (λ r, Forall (λ s, (s ∈ Parsergen.terminals g ∧ s ≠ NIL) ∨
                            s ∈ Parsergen.non_terminals g) (Parsergen.rhs r))
    (Parsergen.rules g) →
  ∃ first, Parsergen.compute_first_map NIL g = Some first ∧
    ∀ N, N ∈ Parsergen.non_terminals g →
      ∃ entry, Py.getitem first N = Some entry ∧
        (NIL ∈ entry ↔ Parsergen.derives g [N] []) ∧
        (∀ t, t ≠ NIL →
           (t ∈ entry ↔
            t ∈ Parsergen.terminals g ∧ ∃ α, Parsergen.derives g [N] (t :: α))).
Proof.
  intros Hdense Hdisjoint Hlhs Hrhs.
  destruct (compute_first_map_spec NIL g Hdense Hdisjoint) as (first & Hrun & Hlen & Hfirst).
  - by apply Forall_forall.
  - intros r s Hr Hs.
    by apply (proj1 (Forall_forall _ _) (proj1 (Forall_forall _ _) Hrhs r Hr) s Hs).
  - exists first. split; [done|]. intros N HN. exists (first_of first N). split.
    + apply getitem_first_of. rewrite Hlen. by apply Hdense.
    + by apply Hfirst.
Qed.

Lemma compute_first_map_first_sets_witness :
  ∃ first, Parsergen.compute_first_map (H:=forward_order) (-2) cc_grammar = Some first ∧
    ∀ N, N ∈ Parsergen.non_terminals cc_grammar →
      ∃ entry, Py.getitem first N = Some entry ∧
        (-2 ∈ entry ↔ Parsergen.derives cc_grammar [N] []) ∧
        (∀ t, t ≠ -2 →
           (t ∈ entry ↔
            t ∈ Parsergen.terminals cc_grammar ∧
            ∃ α, Parsergen.derives cc_grammar [N] (t :: α))).
Proof.
  apply (compute_first_map_first_sets (H:=forward_order) (-2) cc_grammar).
  - intros s. change (size (Parsergen.non_terminals cc_grammar)) with 3%nat.
    change (Parsergen.non_terminals cc_grammar) with ({[0; 1; 2]} : gset Z).
    rewrite !elem_of_union, !elem_of_singleton. lia.
  - compute_done.
  - compute_done.
  - compute_done.
Defined.

(** ** The loops of [closure] and [generate] end *)

Lemma size_difference_insert `{Countable A} (P X : gset A) x :
  x ∈ P → x ∉ X → S (size (P ∖ (X ∪ {[x]}))) = size (P ∖ X).
Proof.
  intros HP HX.
  assert (P ∖ X = {[x]} ∪ P ∖ (X ∪ {[x]})) as ->.
  { apply set_eq. intros y. rewrite elem_of_union, !elem_of_difference, elem_of_union,
      elem_of_singleton. destruct (decide (y = x)); naive_solver. }
  rewrite (size_union {[x]} (P ∖ (X ∪ {[x]}))) by set_solver. by rewrite size_singleton.
Qed.

Lemma get_locus_Some item :
  Parsergen.has_successor item = true → ∃ locus,
    Parsergen.get_locus item = Some locus ∧
    Parsergen.rhs (Parsergen.rule item) !! Parsergen.cursor item = Some locus.
Proof.
  unfold Parsergen.has_successor, Parsergen.get_locus. intros Hlt%bool_decide_eq_true.
  rewrite getitem_nonneg, Nat2Z.id by lia.
  destruct (lookup_lt_is_Some_2 _ _ Hlt) as [locus Hl]. by exists locus.
Qed.

Section generate_total.
Context `{IterOrder}.
Variables END NIL GOAL : Z.
Variable g : Parsergen.t.

(** [first] has a set for every symbol of a right-hand side that is no
    terminal. *)
Hypothesis Hfirst : ∀ r s, r ∈ Parsergen.rules g → s ∈ Parsergen.rhs r →
  s ∉ Parsergen.terminals g → is_Some (Py.getitem (Parsergen.first g) s).

(** All the lookaheads, and all the items, of the states of [generate]. *)
Definition lookaheads : gset Z :=
  {[END]} ∪ list_to_set (concat (Parsergen.rhs <$> Parsergen.rules g)) ∪ ⋃ (Parsergen.first g).

Definition item_ok (item : Parsergen.Item) : Prop :=
  Parsergen.rule item ∈ Parsergen.rules g ∧
  (Parsergen.cursor item ≤ length (Parsergen.rhs (Parsergen.rule item)))%nat ∧
  Parsergen.lookahead item ∈ lookaheads.

Definition item_universe : gset Parsergen.Item :=
  list_to_set
    (r ← Parsergen.rules g;
     c ← seq 0 (S (length (Parsergen.rhs r)));
     a ← elements lookaheads;
     [Parsergen.mk_item r c a]).

Lemma elem_of_item_universe item : item ∈ item_universe ↔ item_ok item.
Proof.
  unfold item_universe, item_ok. rewrite elem_of_list_to_set, list_elem_of_bind. split.
  - intros (r & (c & (a & ->%list_elem_of_singleton & Ha%elem_of_elements)%list_elem_of_bind
                  & Hc%elem_of_seq)%list_elem_of_bind & Hr).
    simpl. split_and!; [done|lia|done].
  - intros (Hr & Hc & Ha). exists (Parsergen.rule item). split; [|done].
    apply list_elem_of_bind. exists (Parsergen.cursor item). split; [|apply elem_of_seq; lia].
    apply list_elem_of_bind. exists (Parsergen.lookahead item).
    split; [|by apply elem_of_elements]. destruct item. simpl. by apply list_elem_of_singleton.
Qed.

Lemma rhs_lookaheads r s : r ∈ Parsergen.rules g → s ∈ Parsergen.rhs r → s ∈ lookaheads.
Proof.
  intros Hr Hs. unfold lookaheads. apply elem_of_union_l, elem_of_union_r, elem_of_list_to_set.
  apply elem_of_concat. exists (Parsergen.rhs r). split; [|done].
  apply list_elem_of_fmap. by exists r.
Qed.

Lemma first_lookaheads s entry :
  Py.getitem (Parsergen.first g) s = Some entry → entry ⊆ lookaheads.
Proof.
  intros Hin%getitem_elem_of t Ht. unfold lookaheads.
  apply elem_of_union_r, elem_of_union_list. by exists entry.
Qed.

Lemma follow_copy_subseteq follow entry :
  (Parsergen.follow_copy NIL follow entry).1 ⊆ follow ∪ entry.
Proof.
  unfold Parsergen.follow_copy.
  apply (foldl_invariant _ (λ acc : gset Z * bool, acc.1 ⊆ follow ∪ entry)); [set_solver|].
  intros [f b] t Ht%elem_of_iter Hf. simpl in *. case_decide; simpl; set_solver.
Qed.

Lemma follow_scan_total r symbols : ∀ follow,
  r ∈ Parsergen.rules g → symbols ⊆ Parsergen.rhs r → follow ⊆ lookaheads →
  ∃ res, Parsergen.follow_scan NIL g follow symbols = Some res ∧ res.1 ⊆ lookaheads.
Proof.
  intros follow Hr. revert follow.
  induction symbols as [|s symbols IH]; intros follow Hsub Hfollow; simpl; [by eauto|].
  assert (s ∈ Parsergen.rhs r) as Hs by set_solver.
  case_decide as Hterm.
  { eexists. split; [done|]. simpl. pose proof (rhs_lookaheads r s Hr Hs). set_solver. }
  destruct (Hfirst r s Hr Hs Hterm) as [entry Hentry]. rewrite Hentry. simpl.
  pose proof (follow_copy_subseteq follow entry) as Hcopy.
  pose proof (first_lookaheads s entry Hentry) as Hent.
  destruct (Parsergen.follow_copy NIL follow entry) as [follow' nnf]. simpl in *.
  destruct nnf.
  - eexists. split; [done|]. set_solver.
  - apply IH; set_solver.
Qed.

Lemma lr_closure_expand_length non_terminal follow kernel :
  (length (Parsergen.closure_expand g non_terminal follow kernel) ≤
   length kernel + length (Parsergen.rules g) * size follow)%nat.
Proof.
  clear Hfirst. unfold Parsergen.closure_expand. revert kernel.
  induction (Parsergen.rules g) as [|r rules IH]; intros kernel; cbn [foldl length]; [lia|].
  etrans; [apply IH|]. destruct (decide (Parsergen.lhs r ≠ non_terminal)); [lia|].
  assert (∀ (l : list Z) k,
    length (foldl (λ kernel symbol, Parsergen.mk_item r 0 symbol :: kernel) k l) =
    (length k + length l)%nat) as Hlen.
  { induction l as [|x l IHl]; intros k; simpl; [lia|]. rewrite IHl. simpl. lia. }
  rewrite Hlen, length_iter. lia.
Qed.

Lemma lr_closure_expand_ok non_terminal follow kernel :
  follow ⊆ lookaheads → Forall item_ok kernel →
  Forall item_ok (Parsergen.closure_expand g non_terminal follow kernel).
Proof.
  intros Hfollow Hk. unfold Parsergen.closure_expand.
  apply (foldl_invariant _ (Forall item_ok)); [done|].
  intros k r Hr Hgood. case_decide; [done|].
  apply (foldl_invariant _ (Forall item_ok)); [done|].
  intros k' symbol Hs%elem_of_iter Hk'. constructor; [|done].
  split_and!; simpl; [done|lia|by apply Hfollow].
Qed.

(** The pushes of one pass of the loop of [closure]. *)
Definition lr_closure_width : nat := (length (Parsergen.rules g) * size lookaheads)%nat.

Definition lr_closure_potential (st : gset Parsergen.Item * list Parsergen.Item) : nat :=
  (size (item_universe ∖ st.1) * S lr_closure_width + length st.2)%nat.

Lemma lr_closure_total fuel kernel :
  Forall item_ok kernel →
  (size item_universe * S lr_closure_width + length kernel < fuel)%nat →
  ∃ state, Parsergen.closure NIL fuel g kernel = Some state ∧ state ⊆ item_universe.
Proof.
  intros Hk Hfuel. unfold Parsergen.closure.
  destruct (while_pop_total Parsergen.closure_pop (Parsergen.closure_body NIL g)
    (λ st, st.1 ⊆ item_universe ∧ Forall item_ok st.2) lr_closure_potential)
    with (fuel := fuel) (s := ((∅, reverse kernel) : gset Parsergen.Item * list Parsergen.Item))
    as ([state kernel'] & -> & [Hstate _] & _).
  - clear kernel Hk Hfuel. intros [state0 kernel0] item [state1 kernel1] [Hs Hk] Hpop.
    unfold Parsergen.closure_pop in Hpop. simpl in *.
    destruct kernel0 as [|item' kernel0]; simplify_eq.
    apply Forall_cons in Hk as [Hitem Hk].
    unfold Parsergen.closure_body, lr_closure_potential. simpl.
    case_decide as Hin.
    { eexists. split; [done|]. simpl. split; [done|lia]. }
    assert (state1 ∪ {[item]} ⊆ item_universe) as Hs'.
    { apply union_subseteq. split; [done|]. by apply singleton_subseteq_l, elem_of_item_universe. }
    pose proof (size_difference_insert item_universe state1 item
                  (proj2 (elem_of_item_universe item) Hitem) Hin) as Hsize.
    destruct (Parsergen.has_successor item) eqn:Hsucc; simpl.
    2:{ eexists. split; [done|]. simpl. split; [done|lia]. }
    destruct (get_locus_Some item Hsucc) as (locus & -> & Hlocus). simpl.
    case_decide as Hnt.
    { eexists. split; [done|]. simpl. split; [done|lia]. }
    destruct Hitem as (Hr & Hc & Ha).
    destruct (follow_scan_total (Parsergen.rule item)
                (drop (Parsergen.cursor item + 1) (Parsergen.rhs (Parsergen.rule item))) ∅ Hr)
      as ([follow empty] & -> & Hfollow); [apply subseteq_drop|set_solver|].
    simpl in *.
    set (follow' := if empty then follow ∪ {[Parsergen.lookahead item]} else follow).
    assert (follow' ⊆ lookaheads) as Hfollow'.
    { unfold follow'. destruct empty; set_solver. }
    eexists. split; [done|]. simpl. split; [split; [done|by apply lr_closure_expand_ok]|].
    pose proof (lr_closure_expand_length locus follow' kernel1) as Hlen.
    pose proof (subseteq_size _ _ Hfollow') as Hle.
    assert (length (Parsergen.rules g) * size follow' ≤ lr_closure_width)%nat.
    { unfold lr_closure_width. by apply Nat.mul_le_mono_l. }
    lia.
  - simpl. split; [set_solver|]. by apply Forall_reverse.
  - unfold lr_closure_potential. simpl. rewrite difference_empty_L, length_reverse. lia.
  - simpl. by exists state.
Qed.

(** Enough fuel for every run of [closure] that [generate] starts: its
    kernel has at most one item for each item of a state, or one item. *)
Definition lr_closure_fuel : nat :=
  S (S (size item_universe * S lr_closure_width + size item_universe)).

Definition kernels_ok (pre : list Parsergen.Item) (transitions : gmap Z (list Parsergen.Item))
    : Prop :=
  (size transitions ≤ length pre)%nat ∧
  ∀ symbol kernel, transitions !! symbol = Some kernel →
    Forall item_ok kernel ∧ (length kernel ≤ length pre)%nat.

Lemma gen_item_total state acc item pre :
  item_ok item → kernels_ok pre acc.1 →
  ∃ acc', Parsergen.gen_item GOAL state acc item = Some acc' ∧ kernels_ok (pre ++ [item]) acc'.1.
Proof.
  intros (Hr & Hc & Ha) [Hsize Hk]. unfold Parsergen.gen_item.
  destruct (Parsergen.has_successor item) eqn:Hsucc.
  - destruct (get_locus_Some item Hsucc) as (locus & -> & Hlocus). simpl.
    eexists. split; [done|]. simpl. unfold Parsergen.list_add. split.
    + rewrite map_size_insert, length_app. simpl. destruct (acc.1 !! locus); simpl; lia.
    + intros symbol kernel. rewrite length_app. simpl.
      destruct (decide (symbol = locus)) as [->|Hne].
      * rewrite lookup_insert_eq. intros [= <-]. rewrite Forall_app, length_app. simpl.
        apply bool_decide_eq_true in Hsucc.
        assert (item_ok (Parsergen.get_successor item)) as Hsucc_ok.
        { split_and!; simpl; [done|lia|done]. }
        destruct (acc.1 !! locus) as [old|] eqn:Hold; simpl.
        -- destruct (Hk _ _ Hold). split; [split; [done|by constructor]|lia].
        -- split; [split; [done|by constructor]|lia].
      * rewrite lookup_insert_ne by done. intros Hl. destruct (Hk _ _ Hl). split; [done|lia].
  - eexists. split; [done|]. simpl. split.
    + rewrite length_app. lia.
    + intros symbol kernel Hl. destruct (Hk _ _ Hl). rewrite length_app. split; [done|lia].
Qed.

Lemma gen_body_total fuel state st :
  (lr_closure_fuel ≤ fuel)%nat → state ⊆ item_universe →
  state ∉ Parsergen.explored st →
  Forall (λ s, s ⊆ item_universe) (Parsergen.frontier st) →
  ∃ st', Parsergen.gen_body NIL GOAL fuel g state st = Some st' ∧
    Parsergen.explored st' = Parsergen.explored st ∪ {[state]} ∧
    Forall (λ s, s ⊆ item_universe) (Parsergen.frontier st') ∧
    (length (Parsergen.frontier st') ≤ length (Parsergen.frontier st) + size item_universe)%nat.
Proof.
  intros Hfuel Hstate Hnew Hfrontier. unfold Parsergen.gen_body.
  rewrite decide_False by done. simpl.
  destruct (for_each_total (Parsergen.gen_item GOAL state) (λ pre acc, kernels_ok pre acc.1)
    (iter state) (∅, Parsergen.table st)) as ([transitions table] & -> & Hsize & Hk).
  { split; [done|]. simpl. intros ??. by rewrite lookup_empty. }
  { intros pre item post acc Heq Hacc. apply gen_item_total; [|done].
    apply elem_of_item_universe, Hstate, elem_of_iter. rewrite Heq. set_solver. }
  simpl in *. rewrite length_iter in Hsize, Hk.
  pose proof (subseteq_size _ _ Hstate) as Hle.
  destruct (for_each_total (Parsergen.gen_transition NIL fuel g state)
    (λ pre st', Parsergen.explored st' = Parsergen.explored st ∪ {[state]} ∧
       Forall (λ s, s ⊆ item_universe) (Parsergen.frontier st') ∧
       length (Parsergen.frontier st') = (length (Parsergen.frontier st) + length pre)%nat)
    (items transitions)
    (Parsergen.mk_gen table (Parsergen.explored st ∪ {[state]}) (Parsergen.frontier st)))
    as (st' & -> & Hexp & Hfr & Hlen).
  { simpl. split_and!; [done|done|lia]. }
  { intros pre [symbol kernel] post st1 Heq (Hexp & Hfr & Hlen).
    assert (transitions !! symbol = Some kernel) as Hl.
    { apply elem_of_items. rewrite Heq. set_solver. }
    destruct (Hk _ _ Hl) as [Hkernel Hklen].
    unfold Parsergen.gen_transition. simpl.
    destruct (lr_closure_total fuel kernel Hkernel) as (next_state & -> & Hnext).
    { unfold lr_closure_fuel in Hfuel. lia. }
    simpl. eexists. split; [done|]. simpl. split_and!; [done|by constructor|].
    rewrite Hlen, length_app. simpl. lia. }
  exists st'. split_and!; [done..|].
  rewrite Hlen. assert (length (items transitions) = size transitions) as ->; [|lia].
  by rewrite items_perm, length_map_to_list.
Qed.

Definition generate_potential (st : Parsergen.gen_state) : nat :=
  (size (powerset item_universe ∖ Parsergen.explored st) * S (size item_universe) +
   length (Parsergen.frontier st))%nat.

(** Enough fuel for [generate]. *)
Definition generate_fuel : nat :=
  (lr_closure_fuel + S (S (size (powerset item_universe) * S (size item_universe))))%nat.

Lemma generate_total fuel :
  Parsergen.rules g ≠ [] → (generate_fuel ≤ fuel)%nat →
  is_Some (Parsergen.generate END NIL GOAL fuel g).
Proof.
  intros Hrules Hfuel. unfold Parsergen.generate, generate_fuel in *.
  assert (∃ rule0, Parsergen.rules g !! 0%nat = Some rule0) as [rule0 Hrule0].
  { clear Hfirst Hfuel. destruct (Parsergen.rules g); [done|by eauto]. }
  rewrite getitem_nonneg by done. change (Z.to_nat 0) with 0%nat. rewrite Hrule0. simpl.
  assert (item_ok (Parsergen.mk_item rule0 0 END)) as Hitem.
  { split_and!; simpl; [by eapply list_elem_of_lookup_2|lia|]. unfold lookaheads. set_solver. }
  destruct (lr_closure_total fuel [Parsergen.mk_item rule0 0 END]) as (initial_state & -> & Hinit).
  { by constructor. }
  { unfold lr_closure_fuel in Hfuel. simpl. lia. }
  simpl.
  destruct (while_pop_total Parsergen.gen_pop (Parsergen.gen_body NIL GOAL fuel g)
    (λ st, Forall (λ s, s ⊆ item_universe) (Parsergen.frontier st)) generate_potential)
    with (fuel := fuel) (s := Parsergen.mk_gen ∅ ∅ [initial_state]) as (st & -> & _).
  - intros st0 state st1 Hfr Hpop. unfold Parsergen.gen_pop in Hpop.
    destruct (Parsergen.frontier st0) as [|s rest] eqn:Hfr0; [done|]. simplify_eq.
    apply Forall_cons in Hfr as [Hstate Hrest]. unfold generate_potential. rewrite Hfr0. simpl.
    destruct (decide (state ∈ Parsergen.explored st0)) as [Hin|Hnew].
    { exists (Parsergen.mk_gen (Parsergen.table st0) (Parsergen.explored st0) rest).
      unfold Parsergen.gen_body. simpl. rewrite decide_True by done.
      split; [done|]. simpl. split; [done|lia]. }
    destruct (gen_body_total fuel state
                (Parsergen.mk_gen (Parsergen.table st0) (Parsergen.explored st0) rest))
      as (st2 & -> & Hexp & Hfr & Hlen); [lia|done|done|done|].
    exists st2. split; [done|]. split; [done|]. simpl in *. rewrite Hexp.
    pose proof (size_difference_insert (powerset item_universe) (Parsergen.explored st0) state
                  (elem_of_powerset _ _ Hstate) Hnew) as Hsize.
    rewrite <- Hsize. lia.
  - simpl. by constructor.
  - unfold generate_potential. simpl. rewrite difference_empty_L. lia.
  - done.
Qed.

End generate_total.

(** [__init__] returns: in a grammar as for [compute_first_map], with at
    least one rule, [first] has a set for every non-terminal, and the loops
    of [generate] and [closure] end. *)
Lemma init_total `{IterOrder} (END NIL GOAL : Z) (terminals non_terminals : gset Z) input :
  let rules := Parsergen.make_rules input in
  (∀ s, s ∈ non_terminals ↔ 0 ≤ s < Z.of_nat (size non_terminals)) →
  terminals ## non_terminals →
  Forall (λ r, Parsergen.lhs r ∈ non_terminals) rules →
  Forall (λ r, Forall (λ s, (s ∈ terminals ∧ s ≠ NIL) ∨ s ∈ non_terminals) (Parsergen.rhs r))
    rules →
  input ≠ [] →
  ∃ fuel0, ∀ fuel, (fuel0 ≤ fuel)%nat →
    is_Some (Parsergen.init END NIL GOAL fuel terminals non_terminals input).
Proof.
  intros rules Hdense Hdisjoint Hlhs Hrhs Hinput. unfold Parsergen.init. fold rules.
  destruct (compute_first_map_spec NIL (Parsergen.mk terminals non_terminals rules []))
    as (first & -> & Hlen & _); simpl; [done|done|by apply Forall_forall| |].
  { intros r s Hr Hs.
    by apply (proj1 (Forall_forall _ _) (proj1 (Forall_forall _ _) Hrhs r Hr) s Hs). }
  set (self := Parsergen.mk terminals non_terminals rules first).
  exists (generate_fuel END self). intros fuel Hfuel.
  destruct (generate_total END NIL GOAL self) with (fuel := fuel) as [table ->]; [| |done|by eauto].
  - simpl. intros r s Hr Hs Hterm. rewrite getitem_first_of; [by eauto|].
    rewrite Hlen. apply Hdense.
    destruct (proj1 (Forall_forall _ _) (proj1 (Forall_forall _ _) Hrhs r Hr) s Hs) as [[? _]|?];
      done.
  - simpl. unfold rules, Parsergen.make_rules. destruct input; [done|]. done.
Qed.

(** * Further properties *)

(** ** [NFA.epsilon_closure] and paths *)

Lemma path_nil_rtc n s t : NFA.path n s [] t ↔ rtc (eps_step n) s t.
Proof.
  split.
  - intros Hp. remember [] as w eqn:Hw.
    induction Hp as [s|s s' u w Hs' _ IH|]; [done| |done].
    eapply rtc_l; [exact Hs'|by apply IH].
  - intros Hr. eapply eps_path; [done|constructor].
Qed.

Lemma path_app n s u w1 w2 t :
  NFA.path n s w1 u → NFA.path n u w2 t → NFA.path n s (w1 ++ w2) t.
Proof.
  induction 1 as [s|s s' u w Hs' _ IH|s c s' u w Hc Hs' _ IH]; intros Hp; simpl.
  - done.
  - eapply NFA.path_eps; [done|by apply IH].
  - eapply NFA.path_sym; [done..|by apply IH].
Qed.

(** X1: [epsilon_closure] returns, for every NFA and every state [s], and
    what it returns is the set of the states that a path from [s] reaches
    without consuming a byte; [s] is one of them. *)
Theorem epsilon_closure_empty_word `{IterOrder} (n : NFA.t) (s : Z) :
  ∃ closure, NFA.epsilon_closure n s = Some closure
    ∧ s ∈ closure
    ∧ ∀ t, t ∈ closure ↔ NFA.path n s [] t.
Proof.
  destruct (epsilon_closure_spec n s) as (closure & Hrun & Hclosure).
  exists closure. split; [done|]. split.
  - apply Hclosure. apply rtc_refl.
  - intros t. by rewrite Hclosure, path_nil_rtc.
Qed.

(** ** [NFA.get_dfa] on any NFA *)

(** The tags a DFA gives to a word: the entry in [outputs] of the state its
    run ends in. *)
Definition word_tags (d : DFA.t) (w : list Z) : gset Z :=
  match DFA.run d (DFA.initial_state d) w with
  | Some q => DFA.get_outputs d q
  | None => ∅
  end.

Lemma accepts_word_tags d w : DFA.accepts d w ↔ word_tags d w ≠ ∅.
Proof.
  unfold DFA.accepts, word_tags, DFA.accepting.
  destruct (DFA.run d (DFA.initial_state d) w) as [q|]; [|naive_solver].
  split; [by intros (s & [= <-] & ?)|eauto].
Qed.

Lemma word_tags_bytes d w : ¬ Forall is_byte w → word_tags d w = ∅.
Proof.
  intros Hw. unfold word_tags.
  destruct (DFA.run d (DFA.initial_state d) w) as [q|] eqn:Hrun; [|done].
  destruct Hw. by eapply run_bytes.
Qed.

Lemma explored_word_tags {K} `{Countable K} (next : K → Z → option K) (tags : K → gset Z)
    (k0 : K) (P : gset K) (st : DFA.builder K) w :
  explored next tags k0 P st → Forall is_byte w →
  ∃ k, key_run next k0 w = Some k ∧ word_tags (DFA.dfa st) w = tags k.
Proof.
  intros Hex Hw. pose proof Hex as [Hinv _].
  pose proof (bi_init _ _ _ _ _ _ Hinv) as H0.
  destruct (explored_run _ _ _ _ st w k0 _ Hex H0 Hw) as (k & q & Hk & Hq & Hrun).
  exists k. split; [done|]. unfold word_tags. rewrite Hrun.
  by eapply explored_outputs.
Qed.

(** A path that follows transitions on bytes only. *)
Inductive byte_path (n : NFA.t) : Z → list Z → Z → Prop :=
  | byte_path_nil s : byte_path n s [] s
  | byte_path_cons s c s' u w :
      is_byte c → s' ∈ NFA.delta n s c → byte_path n s' w u → byte_path n s (c :: w) u.

Lemma byte_path_bytes n s w u : byte_path n s w u → Forall is_byte w.
Proof. induction 1; [done|by constructor]. Qed.

Lemma byte_path_path n s w u : byte_path n s w u → NFA.path n s w u.
Proof. induction 1; [constructor|by eapply NFA.path_sym]. Qed.

Lemma path_byte_path n s w u : NFA.epsilon_free n → NFA.path n s w u → byte_path n s w u.
Proof.
  intros Hfree. induction 1 as [s|s s' u w Hs' _ _|s c s' u w Hc Hs' _ IH].
  - constructor.
  - unfold NFA.delta in Hs'. rewrite Hfree in Hs'. set_solver.
  - by econstructor.
Qed.

Lemma subset_run_byte_path `{IterOrder} n w : ∀ states states' u,
  Forall is_byte w → key_run (subset_next n) states w = Some states' →
  u ∈ states' ↔ ∃ s, s ∈ states ∧ byte_path n s w u.
Proof.
  induction w as [|c w IH]; intros states states' u Hw; simpl.
  - intros [= <-]. split.
    + intros Hu. exists u. split; [done|constructor].
    + intros (s & Hs & Hp). by inversion Hp; subst.
  - apply Forall_cons in Hw as [Hc Hw]. intros Hrun.
    rewrite (IH _ _ u Hw Hrun). split.
    + intros (s' & (s & Hs & Hs')%elem_of_next_states & Hp).
      exists s. split; [done|]. by econstructor.
    + intros (s & Hs & Hp). inversion Hp as [|? ? s' ? ? _ Hs' Hp']; subst.
      exists s'. split; [|done]. apply elem_of_next_states. eauto.
Qed.

Lemma get_dfa_word_tags `{IterOrder} (n : NFA.t) :
  ∃ d, NFA.get_dfa n = Some d ∧ DFA.well_formed d
    ∧ ∀ w x, x ∈ word_tags d w ↔
        ∃ u, byte_path n (NFA.initial_state n) w u ∧ x ∈ default ∅ (NFA.outputs n !! u).
Proof.
  destruct (get_dfa_run_explored n) as (st & Hrun & Hex).
  exists (DFA.dfa st). split; [unfold NFA.get_dfa; by rewrite Hrun|].
  split; [by eapply explored_well_formed|]. intros w x.
  destruct (decide (Forall is_byte w)) as [Hw|Hw].
  - destruct (explored_word_tags _ _ _ _ st w Hex Hw) as (states & Hk & ->).
    rewrite elem_of_collect_outputs. split.
    + intros (u & Hu & Hx). exists u. split; [|done].
      apply (subset_run_byte_path n w _ _ u Hw Hk) in Hu as (s & ->%elem_of_singleton & Hp).
      done.
    + intros (u & Hp & Hx). exists u. split; [|done].
      apply (subset_run_byte_path n w _ _ u Hw Hk). exists (NFA.initial_state n).
      split; [set_solver|done].
  - rewrite word_tags_bytes by done. split; [set_solver|].
    intros (u & Hp%byte_path_bytes & _). done.
Qed.

(** X2: for every NFA, [get_dfa] returns a DFA that gives a word the tags of
    the states that the NFA reaches from its initial state by transitions on
    the bytes of the word: an ε-transition is never followed, and a word is
    accepted iff one of these states has a tag. *)
Theorem get_dfa_follows_bytes `{IterOrder} (n : NFA.t) :
  ∃ d, NFA.get_dfa n = Some d
    ∧ (∀ w x, x ∈ word_tags d w ↔
         ∃ u, byte_path n (NFA.initial_state n) w u ∧ x ∈ default ∅ (NFA.outputs n !! u))
    ∧ (∀ w, DFA.accepts d w ↔
         ∃ u, byte_path n (NFA.initial_state n) w u ∧ default ∅ (NFA.outputs n !! u) ≠ ∅).
Proof.
  destruct (get_dfa_word_tags n) as (d & Hd & _ & Htags).
  exists d. split; [done|]. split; [done|]. intros w. rewrite accepts_word_tags. split.
  - intros [x Hx]%set_choose_L. apply Htags in Hx as (u & Hp & Hx).
    exists u. split; [done|]. set_solver.
  - intros (u & Hp & [x Hx]%set_choose_L).
    assert (x ∈ word_tags d w) as Hin by (apply Htags; eauto). set_solver.
Qed.

(** ** [NFA.get_dfa] and the order of sets *)

Lemma for_each_ext {A S} (body1 body2 : S → A → option S) l : ∀ s,
  (∀ s x, body1 s x = body2 s x) → Py.for_each body1 s l = Py.for_each body2 s l.
Proof.
  induction l as [|x l IH]; intros s Hext; simpl; [done|].
  rewrite Hext. destruct (body2 s x); simpl; [by apply IH|done].
Qed.

Lemma while_pop_ext {S A} (pop : S → option (A * S)) (body1 body2 : A → S → option S) fuel :
  ∀ s, (∀ x s, body1 x s = body2 x s) →
  Py.while_pop pop body1 fuel s = Py.while_pop pop body2 fuel s.
Proof.
  induction fuel as [|fuel IH]; intros s Hext; simpl; [done|].
  destruct (pop s) as [[x s1]|]; [|done]. rewrite Hext.
  destruct (body2 x s1); simpl; [by apply IH|done].
Qed.

(** X3: the DFA of [get_dfa] does not depend on the order in which Python
    enumerates a set: the two loops over a set of states only collect
    unions. *)
Theorem get_dfa_order_independent (order1 order2 : IterOrder) (n : NFA.t) :
  @NFA.get_dfa order1 n = @NFA.get_dfa order2 n.
Proof.
  assert (∀ states c, @NFA.next_states order1 n states c = @NFA.next_states order2 n states c)
    as Hnext.
  { intros states c. apply set_eq. intros s.
    by rewrite (@elem_of_next_states order1), (@elem_of_next_states order2). }
  assert (∀ states, @NFA.collect_outputs order1 n states = @NFA.collect_outputs order2 n states)
    as Hout.
  { intros states. apply set_eq. intros x.
    by rewrite (@elem_of_collect_outputs order1), (@elem_of_collect_outputs order2). }
  unfold NFA.get_dfa, NFA.get_dfa_run. f_equal. apply while_pop_ext.
  intros states st. unfold NFA.get_dfa_body.
  rewrite (for_each_ext (@NFA.get_dfa_symbol order1 n states) (@NFA.get_dfa_symbol order2 n states)).
  - destruct (Py.for_each _ _ _); simpl; [|done].
    unfold NFA.get_dfa_outputs. by rewrite Hout.
  - intros s c. unfold NFA.get_dfa_symbol. by rewrite Hnext.
Qed.

(** ** The NFA that [remove_epsilons] builds *)

Section remove_epsilons_shape.
Context `{IterOrder}.
Variable self : NFA.t.

(** The new NFA starts in state 0 and takes its tag sets from [self]. *)
Definition eps_shape (st : NFA.eps_builder) : Prop :=
  NFA.initial_state (NFA.nfa st) = 0
  ∧ map_Forall (λ _ T, ∃ t, NFA.outputs self !! t = Some T) (NFA.outputs (NFA.nfa st)).

Lemma get_new_state_shape st s : eps_shape st → eps_shape (NFA.get_new_state st s).1.
Proof. unfold NFA.get_new_state. by destruct (NFA.state_ids st !! s). Qed.

Lemma eps_target_shape new_state symbol st u :
  eps_shape st → eps_shape (NFA.eps_target new_state symbol st u).
Proof.
  intros Hst. unfold NFA.eps_target.
  pose proof (get_new_state_shape st u Hst) as Hst'.
  by destruct (NFA.get_new_state st u) as [st' q].
Qed.

Lemma eps_intermediate_shape new_state st t :
  eps_shape st → eps_shape (NFA.eps_intermediate self new_state st t).
Proof.
  intros Hst. unfold NFA.eps_intermediate.
  apply (foldl_invariant _ eps_shape).
  - destruct (NFA.outputs self !! t) as [tags|] eqn:Ht; [|done].
    destruct Hst as [Hinit Hout]. split; simpl; [done|].
    apply map_Forall_insert_2; [by eauto|done].
  - intros st1 [[s symbol] states] _ Hst1. unfold NFA.eps_item.
    case_decide; [done|]. apply (foldl_invariant _ eps_shape); [done|].
    intros st2 u _ Hst2. by apply eps_target_shape.
Qed.

Lemma remove_epsilons_run_shape st :
  NFA.remove_epsilons_run self = Some st → eps_shape st.
Proof.
  unfold NFA.remove_epsilons_run. intros Hrun.
  apply (while_pop_partial _ _ eps_shape) in Hrun as [Hst _]; [done| |].
  - intros st0 state st1 st2 Hst0 Hpop Hbody. unfold NFA.eps_pop in Hpop.
    destruct (NFA.frontier st0) as [|s rest]; [done|]. simplify_eq.
    unfold NFA.remove_eps_body in Hbody. simpl in Hbody.
    case_decide; [by simplify_eq|].
    pose proof (get_new_state_shape
      (NFA.mk_eps (NFA.nfa st0) (NFA.state_ids st0) rest (NFA.explored st0 ∪ {[state]}))
      state Hst0) as Hnew.
    destruct (NFA.get_new_state _ state) as [st' new_state].
    apply bind_Some in Hbody as (closure & _ & [= <-]).
    apply (foldl_invariant _ eps_shape); [done|].
    intros st3 t _ Hst3. by apply eps_intermediate_shape.
  - rewrite remove_eps_start_eq. split; simpl; [done|]. apply map_Forall_empty.
Qed.

End remove_epsilons_shape.

Lemma remove_epsilons_shape `{IterOrder} (n : NFA.t) :
  ∃ n', NFA.remove_epsilons n = Some n'
    ∧ (∀ w, NFA.accepts n' w ↔ NFA.accepts n w)
    ∧ NFA.epsilon_free n'
    ∧ NFA.initial_state n' = 0
    ∧ 0 ≤ NFA.next_state n'
    ∧ (∀ s c t, t ∈ NFA.delta n' s c →
         0 ≤ s ≤ NFA.next_state n' ∧ 0 ≤ t ≤ NFA.next_state n' ∧ c ≠ EPSILON)
    ∧ (∀ q T, NFA.outputs n' !! q = Some T →
         0 ≤ q ≤ NFA.next_state n' ∧ ∃ t, NFA.outputs n !! t = Some T).
Proof.
  destruct (remove_epsilons_run_spec n) as (st & Hrun & Hinv & Hdone).
  destruct (remove_epsilons_run_shape n st Hrun) as [Hinit Hout].
  destruct (ei_ids _ _ Hinv) as (_ & Hrange & _).
  exists (NFA.nfa st). unfold NFA.remove_epsilons. rewrite Hrun.
  split; [done|]. split; [intros w; by eapply eps_same_language|].
  split; [by eapply eps_new_epsilon_free|]. split; [done|]. split.
  - pose proof (ei_init _ _ Hinv) as H0. apply Hrange in H0. lia.
  - split.
    + intros s c t Ht.
      destruct (ei_edges_out _ _ Hinv s c t Ht) as (s0 & t0 & u & _ & Hs0 & _ & _ & Hu).
      split; [by eapply Hrange|]. split; [by eapply Hrange|].
      apply (ei_keys _ _ Hinv s c). unfold NFA.delta in Ht.
      destruct (NFA.transitions (NFA.nfa st) !! (s, c)); [eauto|set_solver].
    + intros q T HT. split; [|by apply (Hout q T)].
      destruct (ei_out_out _ _ Hinv q) as (s0 & t0 & _ & Hs0 & _); [eauto|].
      by eapply Hrange.
Qed.

(** X4: the NFA that [remove_epsilons] returns starts in state 0, uses only
    states that its [add_state] handed out ([0 .. next_state]), has no
    transition on [EPSILON], and every tag set of its [outputs] is a tag set
    of the [outputs] of the NFA it was made from. *)
Theorem remove_epsilons_allocates `{IterOrder} (n : NFA.t) :
  ∃ n', NFA.remove_epsilons n = Some n'
    ∧ NFA.initial_state n' = 0
    ∧ 0 ≤ NFA.next_state n'
    ∧ (∀ s c t, t ∈ NFA.delta n' s c →
         0 ≤ s ≤ NFA.next_state n' ∧ 0 ≤ t ≤ NFA.next_state n' ∧ c ≠ EPSILON)
    ∧ (∀ q T, NFA.outputs n' !! q = Some T →
         0 ≤ q ≤ NFA.next_state n' ∧ ∃ t, NFA.outputs n !! t = Some T).
Proof.
  destruct (remove_epsilons_shape n) as (n' & Hn' & _ & _ & Hinit & Hnext & Hdelta & Hout).
  exists n'. by split_and!.
Qed.

(** ** [DFA.union] and the tags of a word *)

Lemma well_formed_complete d : DFA.well_formed d → DFA.complete d.
Proof. by intros [? _]. Qed.

Lemma union_word_tags lhs rhs :
  DFA.complete lhs → DFA.complete rhs →
  ∃ d, DFA.union lhs rhs = Some d ∧ DFA.well_formed d
    ∧ ∀ w, word_tags d w = word_tags lhs w ∪ word_tags rhs w.
Proof.
  intros Hl Hr. destruct (union_run_total lhs rhs Hl Hr) as (st & Hrun & Hex).
  exists (DFA.dfa st). split; [unfold DFA.union; by rewrite Hrun|].
  split; [by eapply explored_well_formed|]. intros w.
  destruct (decide (Forall is_byte w)) as [Hw|Hw].
  - destruct (explored_word_tags _ _ _ _ st w Hex Hw) as ([p1 p2] & Hk & ->).
    apply pair_run in Hk as [Hrun1 Hrun2]; [|done|done|apply Hl|apply Hr|done].
    unfold word_tags, pair_tags. simpl in *. by rewrite Hrun1, Hrun2.
  - rewrite !word_tags_bytes by done. set_solver.
Qed.

(** X5: on DFAs whose tables are complete, [union] is commutative and
    associative in what it recognizes: whichever way three automata are
    combined, the result gives every word the same tags, the union of the
    tags that the three give it. *)
Theorem union_commutative_associative (a b c : DFA.t) :
  DFA.complete a → DFA.complete b → DFA.complete c →
  ∃ ab ba bc ab_c a_bc,
    DFA.union a b = Some ab ∧ DFA.union b a = Some ba ∧ DFA.union b c = Some bc
    ∧ DFA.union ab c = Some ab_c ∧ DFA.union a bc = Some a_bc
    ∧ (∀ w, word_tags ab w = word_tags ba w)
    ∧ (∀ w, word_tags ab_c w = word_tags a_bc w)
    ∧ (∀ w, word_tags ab_c w = word_tags a w ∪ word_tags b w ∪ word_tags c w).
Proof.
  intros Ha Hb Hc.
  destruct (union_word_tags a b Ha Hb) as (ab & Hab & Hwf_ab & Htab).
  destruct (union_word_tags b a Hb Ha) as (ba & Hba & _ & Htba).
  destruct (union_word_tags b c Hb Hc) as (bc & Hbc & Hwf_bc & Htbc).
  destruct (union_word_tags ab c (well_formed_complete _ Hwf_ab) Hc) as (ab_c & Hab_c & _ & Ht1).
  destruct (union_word_tags a bc Ha (well_formed_complete _ Hwf_bc)) as (a_bc & Ha_bc & _ & Ht2).
  exists ab, ba, bc, ab_c, a_bc. split_and!; [done..| | |].
  - intros w. rewrite Htab, Htba. apply (comm_L (∪)).
  - intros w. rewrite Ht1, Ht2, Htab, Htbc. symmetry. apply (assoc_L (∪)).
  - intros w. by rewrite Ht1, Htab.
Qed.

Lemma union_commutative_associative_witness :
  ∃ ab ba bc ab_c a_bc,
    DFA.union (universal_dfa 1) (universal_dfa 2) = Some ab
    ∧ DFA.union (universal_dfa 2) (universal_dfa 1) = Some ba
    ∧ DFA.union (universal_dfa 2) (universal_dfa 3) = Some bc
    ∧ DFA.union ab (universal_dfa 3) = Some ab_c
    ∧ DFA.union (universal_dfa 1) bc = Some a_bc
    ∧ (∀ w, word_tags ab w = word_tags ba w)
    ∧ (∀ w, word_tags ab_c w = word_tags a_bc w)
    ∧ (∀ w, word_tags ab_c w =
            word_tags (universal_dfa 1) w ∪ word_tags (universal_dfa 2) w
            ∪ word_tags (universal_dfa 3) w).
Proof.
  apply (union_commutative_associative (universal_dfa 1) (universal_dfa 2) (universal_dfa 3));
    apply universal_dfa_complete.
Defined.

(** ** [LexerGenerator.compute_dfa] *)

Section compute_dfa.
Context `{IterOrder}.
Variable parse : list Z → Z → option DFA.t.

(** [accept] ends in [get_dfa], whose tables are complete. *)
Hypothesis Hparse : ∀ expr terminal d, parse expr terminal = Some d → DFA.complete d.

Lemma compute_dfa_fold tokens : ∀ dfa ds,
  DFA.complete dfa →
  Forall2 (λ token d, parse token.2 token.1 = Some d) tokens ds →
  ∃ d, Py.for_each (λ dfa token, other ← parse token.2 token.1; DFA.union dfa other)
         dfa tokens = Some d
    ∧ DFA.complete d
    ∧ ∀ w, word_tags d w = word_tags dfa w ∪ ⋃ ((λ d, word_tags d w) <$> ds).
Proof.
  induction tokens as [|token tokens IH]; intros dfa ds Hdfa Hds.
  - apply Forall2_nil_inv_l in Hds as ->. exists dfa. split; [done|]. split; [done|].
    intros w. simpl. set_solver.
  - apply Forall2_cons_inv_l in Hds as (other & ds' & Hother & Hds & ->).
    simpl. rewrite Hother. simpl.
    destruct (union_word_tags dfa other Hdfa (Hparse _ _ _ Hother)) as (d1 & -> & Hwf & Ht1).
    simpl. destruct (IH d1 ds' (well_formed_complete _ Hwf) Hds) as (d & Hd & Hc & Ht).
    exists d. split; [done|]. split; [done|]. intros w. rewrite Ht, Ht1. simpl. set_solver.
Qed.

End compute_dfa.

(** X6: when [parse] gives DFAs with complete tables (as [get_dfa] builds
    them) for the whitespace expression and for every token, [compute_dfa]
    returns a DFA with a complete table that gives a word the tags of all
    these DFAs together: a word is recognized iff it is whitespace or matches
    some token, and it gets the terminal of every token it matches. *)
Theorem compute_dfa_tags (parse : list Z → Z → option DFA.t) tokens whitespace ds :
  (∀ expr terminal d, parse expr terminal = Some d → DFA.complete d) →
  parse Lexergen.whitespace_expr Lexer.WHITESPACE = Some whitespace →
  Forall2 (λ token d, parse token.2 token.1 = Some d) tokens ds →
  ∃ d, Lexergen.compute_dfa parse tokens = Some d
    ∧ DFA.complete d
    ∧ ∀ w, word_tags d w = word_tags whitespace w ∪ ⋃ ((λ d, word_tags d w) <$> ds).
Proof.
  intros Hparse Hws Hds. unfold Lexergen.compute_dfa, Lexergen.get_whitespace_dfa.
  rewrite Hws. simpl.
  destruct (compute_dfa_fold parse Hparse tokens whitespace ds) as (d & -> & Hd & Ht);
    [by eapply Hparse|done|].
  exists d. by split_and!.
Qed.

Lemma compute_dfa_tags_witness :
  ∃ d, Lexergen.compute_dfa (λ _ terminal, Some (universal_dfa terminal)) [(1, [97]); (2, [98])]
       = Some d
    ∧ DFA.complete d
    ∧ ∀ w, word_tags d w =
           word_tags (universal_dfa 0) w
           ∪ ⋃ ((λ d, word_tags d w) <$> [universal_dfa 1; universal_dfa 2]).
Proof.
  apply (compute_dfa_tags (λ _ terminal, Some (universal_dfa terminal))
           [(1, [97]); (2, [98])] (universal_dfa 0) [universal_dfa 1; universal_dfa 2]).
  - intros expr terminal d [= <-]. apply universal_dfa_complete.
  - reflexivity.
  - repeat constructor.
Defined.

(** ** The callback [accept]: from the NFA to the DFA *)

Lemma path_transitions n1 n2 s w u :
  NFA.transitions n1 = NFA.transitions n2 → NFA.path n1 s w u → NFA.path n2 s w u.
Proof.
  intros Heq. induction 1 as [s|s s' u w Hs' _ IH|s c s' u w Hc Hs' _ IH].
  - constructor.
  - eapply NFA.path_eps; [|done]. unfold NFA.delta in *. by rewrite <- Heq.
  - eapply NFA.path_sym; [done| |done]. unfold NFA.delta in *. by rewrite <- Heq.
Qed.

(** [remove_epsilons] and then [get_dfa]: the words of the NFA, with the
    tags of its [outputs]. *)
Lemma determinize_word_tags `{IterOrder} (n : NFA.t) :
  ∃ n' d, NFA.remove_epsilons n = Some n' ∧ NFA.get_dfa n' = Some d
    ∧ DFA.well_formed d
    ∧ (∀ w x, x ∈ word_tags d w →
         ∃ t T, NFA.outputs n !! t = Some T ∧ x ∈ T)
    ∧ (∀ w, NFA.accepts n w → map_Forall (λ _ T, T ≠ ∅) (NFA.outputs n) →
         word_tags d w ≠ ∅)
    ∧ (∀ w, word_tags d w ≠ ∅ → NFA.accepts n w).
Proof.
  destruct (remove_epsilons_shape n) as (n' & Hn' & Hlang & Hfree & _ & _ & _ & Hout).
  destruct (get_dfa_word_tags n') as (d & Hd & Hwf & Htags).
  exists n', d. split_and!; [done..| | |].
  - intros w x (u & _ & Hx)%Htags.
    destruct (NFA.outputs n' !! u) as [T|] eqn:HT; [|set_solver].
    destruct (Hout u T HT) as (_ & t & Ht). eauto.
  - intros w Hacc Hne. apply Hlang in Hacc as (u & Hp & [T HT]).
    destruct (Hout u T HT) as (_ & t & Ht).
    destruct (set_choose_L T) as [x Hx]; [by eapply Hne|].
    assert (x ∈ word_tags d w) as Hin; [|set_solver].
    apply Htags. exists u. split; [by apply path_byte_path|]. by rewrite HT.
  - intros w [x Hx]%set_choose_L. apply Htags in Hx as (u & Hp & Hx).
    apply Hlang. exists u. split; [by apply byte_path_path|].
    unfold NFA.accepting. destruct (NFA.outputs n' !! u); [eauto|set_solver].
Qed.

(** X7: on the NFA that the callbacks have built, whose [outputs] is still
    empty, [accept] returns a DFA with a complete table that gives the
    terminal [output], and nothing else, to the words on which the NFA has a
    path from the entry state to the exit state of the fragment, and no tag
    to any other word. *)
Theorem accept_fragment_language `{IterOrder} (nfa : NFA.t) (output q0 q1 : Z) :
  NFA.outputs nfa = ∅ →
  ∃ dfa nfa', Reductions.accept [Reductions.Fragment q0 q1] (nfa, output)
              = Some (Reductions.Automaton dfa, nfa')
    ∧ DFA.well_formed dfa
    ∧ ∀ w x, x ∈ word_tags dfa w ↔ x = output ∧ NFA.path nfa q0 w q1.
Proof.
  intros Hempty. unfold Reductions.accept, Reductions.fragment.
  rewrite getitem_nonneg by done. simpl. rewrite Hempty, insert_empty.
  set (n1 := NFA.mk (NFA.next_state nfa) (NFA.transitions nfa) {[q1 := {[output]}]} q0).
  destruct (determinize_word_tags n1) as (n' & d & -> & Hd & Hwf & Hsound & Hin & Hout).
  simpl. rewrite Hd. simpl. exists d, n1. split; [done|]. split; [done|].
  assert (∀ w, NFA.accepts n1 w ↔ NFA.path nfa q0 w q1) as Hacc.
  { intros w. unfold NFA.accepts, NFA.accepting, n1. simpl. split.
    - intros (u & Hp & [T [<- _]%lookup_singleton_Some]).
      by apply (path_transitions _ nfa) in Hp.
    - intros Hp. exists q1. split; [by apply (path_transitions nfa)|].
      rewrite lookup_singleton_eq. eauto. }
  unfold n1 in Hsound, Hin. simpl in Hsound, Hin. intros w x. split.
  - intros Hx. destruct (Hsound w x Hx) as (t & T & [_ <-]%lookup_singleton_Some & ->%elem_of_singleton).
    split; [done|]. apply Hacc, Hout. set_solver.
  - intros [-> Hp].
    assert (word_tags d w ≠ ∅) as [x Hx]%set_choose_L.
    { apply Hin; [by apply Hacc|]. intros t T [_ <-]%lookup_singleton_Some. set_solver. }
    destruct (Hsound w x Hx) as (t & T & [_ <-]%lookup_singleton_Some & ->%elem_of_singleton).
    done.
Qed.

Lemma accept_fragment_language_witness :
  ∃ dfa nfa', @Reductions.accept forward_order [Reductions.Fragment 0 1]
                (NFA.mk 1 {[(0, 97) := {[1]}]} ∅ (-1), 7)
              = Some (Reductions.Automaton dfa, nfa')
    ∧ DFA.well_formed dfa
    ∧ ∀ w x, x ∈ word_tags dfa w ↔
             x = 7 ∧ NFA.path (NFA.mk 1 {[(0, 97) := {[1]}]} ∅ (-1)) 0 w 1.
Proof.
  apply (@accept_fragment_language forward_order (NFA.mk 1 {[(0, 97) := {[1]}]} ∅ (-1)) 7 0 1).
  reflexivity.
Defined.

(** ** The runtime lexer: longest match *)

(** The state that the table reaches from [state] on the word [w], when it
    has a transition on each character. *)
Fixpoint table_run (self : Lexer.t) (state : Z) (w : list Z) : option Z :=
  match w with
  | [] => Some state
  | c :: w =>
      match Lexer.transitions self !! (state, c) with
      | Some next_state => table_run self next_state w
      | None => None
      end
  end.

(** The first [k] characters of [rest] lead from [state] to a state with the
    output [out]. *)
Definition matches (self : Lexer.t) (state : Z) (rest : list Z) (k : nat) (out : Z) : Prop :=
  (0 < k ≤ length rest)%nat
  ∧ ∃ s, table_run self state (take k rest) = Some s ∧ Lexer.outputs self !! s = Some out.

(** The longest match, computed along the word. *)
Fixpoint best (self : Lexer.t) (state : Z) (rest : list Z) : option (nat * Z) :=
  match rest with
  | [] => None
  | c :: rest =>
      match Lexer.transitions self !! (state, c) with
      | None => None
      | Some next_state =>
          match best self next_state rest with
          | Some (k, out) => Some (S k, out)
          | None =>
              match Lexer.outputs self !! next_state with
              | Some out => Some (1%nat, out)
              | None => None
              end
          end
      end
  end.

Lemma matches_cons self state c rest k out :
  matches self state (c :: rest) k out ↔
  ∃ next_state, Lexer.transitions self !! (state, c) = Some next_state
    ∧ ((k = 1%nat ∧ Lexer.outputs self !! next_state = Some out)
       ∨ ∃ k', k = S k' ∧ matches self next_state rest k' out).
Proof.
  unfold matches. split.
  - intros [[Hk Hlen] (s & Hrun & Hout)]. destruct k as [|k]; [lia|]. simpl in *.
    destruct (Lexer.transitions self !! (state, c)) as [next_state|]; [|done].
    exists next_state. split; [done|]. destruct k as [|k].
    + left. rewrite take_0 in Hrun. simpl in Hrun. by simplify_eq.
    + right. exists (S k). split; [done|]. split; [lia|]. eauto.
  - intros (next_state & Hnext & [[-> Hout]|(k' & -> & [Hk (s & Hrun & Hout)])]).
    + split; [simpl; lia|]. exists next_state. simpl. by rewrite Hnext.
    + split; [simpl; lia|]. exists s. simpl. by rewrite Hnext.
Qed.

Lemma matches_nil self state k out : ¬ matches self state [] k out.
Proof. intros [[Hk Hlen] _]. simpl in Hlen. lia. Qed.

Lemma best_None self rest : ∀ state,
  best self state rest = None → ∀ k out, ¬ matches self state rest k out.
Proof.
  induction rest as [|c rest IH]; intros state Hbest k out; simpl in *.
  { apply matches_nil. }
  intros (ns & Hns & Hcase)%matches_cons. rewrite Hns in Hbest.
  destruct (best self ns rest) as [[k1 out1]|] eqn:Hbest'; [done|].
  destruct (Lexer.outputs self !! ns) eqn:Hout; [done|].
  destruct Hcase as [[_ Hout2]|(k' & _ & Hm)]; [congruence|]. by eapply IH.
Qed.

Lemma best_Some self rest : ∀ state k out,
  best self state rest = Some (k, out) →
  matches self state rest k out
  ∧ ∀ k' out', matches self state rest k' out' → (k' ≤ k)%nat.
Proof.
  induction rest as [|c rest IH]; intros state k out; simpl; [done|].
  destruct (Lexer.transitions self !! (state, c)) as [next_state|] eqn:Hnext; [|done].
  destruct (best self next_state rest) as [[k1 out1]|] eqn:Hbest.
  - intros [= <- <-]. destruct (IH _ _ _ Hbest) as [Hm Hmax]. split.
    + apply matches_cons. exists next_state. split; [done|]. right. eauto.
    + intros k' out' (ns & Hns & [[-> _]|(k2 & -> & Hm2)])%matches_cons; [lia|].
      assert (ns = next_state) as -> by congruence.
      apply Hmax in Hm2. lia.
  - destruct (Lexer.outputs self !! next_state) as [out1|] eqn:Hout; [|done].
    intros [= <- <-]. split.
    + apply matches_cons. exists next_state. split; [done|]. by left.
    + intros k' out' (ns & Hns & [[-> _]|(k2 & -> & Hm2)])%matches_cons; [lia|].
      assert (ns = next_state) as -> by congruence. exfalso.
      by eapply best_None.
Qed.

Lemma scan_best self rest : ∀ state position new_position lexeme,
  Lexer.scan self state position new_position lexeme rest =
  match best self state rest with
  | Some (k, out) => (Some out, position + Z.of_nat k)
  | None => (lexeme, new_position)
  end.
Proof.
  induction rest as [|c rest IH]; intros state position new_position lexeme; simpl; [done|].
  destruct (Lexer.transitions self !! (state, c)) as [next_state|]; [|done].
  destruct (Lexer.outputs self !! next_state) as [out|] eqn:Hout.
  - rewrite IH. destruct (best self next_state rest) as [[k1 out1]|]; f_equal; lia.
  - rewrite IH. destruct (best self next_state rest) as [[k1 out1]|]; f_equal; lia.
Qed.

Lemma slice_take_drop source (a : Z) (k : nat) :
  0 ≤ a → Lexer.slice source a (a + Z.of_nat k) = take k (drop (Z.to_nat a) source).
Proof. intros Ha. unfold Lexer.slice. f_equal. lia. Qed.

(** X8: when the initial state has no output, [get_next_token] returns the
    longest match: the lexeme is the longest prefix of the rest of the source,
    of one character at least, on which the table leads from the initial
    state to a state with an output; the terminal is that output, and the
    position moves to the end of the lexeme.  It raises [LexerError], and
    leaves the position, exactly when no prefix leads to a state with an
    output. *)
Theorem get_next_token_longest_match (END : Z) (self : Lexer.t) :
  0 ≤ Lexer.position self < Z.of_nat (length (Lexer.source self)) →
  Lexer.outputs self !! Lexer.initial_state self = None →
  let rest := drop (Z.to_nat (Lexer.position self)) (Lexer.source self) in
  match Lexer.get_next_token END self with
  | (Lexer.Return terminal (Some lexeme), self') =>
      ∃ k, matches self (Lexer.initial_state self) rest k terminal
        ∧ (∀ k' out, matches self (Lexer.initial_state self) rest k' out → (k' ≤ k)%nat)
        ∧ lexeme = take k rest
        ∧ self' = Lexer.mk (Lexer.transitions self) (Lexer.initial_state self)
                    (Lexer.outputs self) (Lexer.source self)
                    (Lexer.position self + Z.of_nat k)
  | (Lexer.Return terminal None, self') => False
  | (Lexer.LexerError, self') =>
      self' = self ∧ ∀ k out, ¬ matches self (Lexer.initial_state self) rest k out
  end.
Proof.
  intros Hpos Hinit rest. unfold Lexer.get_next_token.
  rewrite decide_False by lia. rewrite Hinit, scan_best. fold rest.
  destruct (best self (Lexer.initial_state self) rest) as [[k out]|] eqn:Hbest.
  - destruct (best_Some _ _ _ _ _ Hbest) as [Hm Hmax].
    exists k. split_and!; [done|done| |done].
    rewrite slice_take_drop by lia. done.
  - split; [done|]. by apply best_None.
Qed.

(** The table of a DFA for [ab*], with the output 5 in its second state, on
    the source [abbc]. *)
Definition ab_lexer : Lexer.t :=
  Lexer.mk {[(0, 97) := 1; (1, 98) := 1]} 0 {[1 := 5]} [97; 98; 98; 99] 0.

Lemma get_next_token_longest_match_witness :
  let rest := drop (Z.to_nat (Lexer.position ab_lexer)) (Lexer.source ab_lexer) in
  match Lexer.get_next_token (-1) ab_lexer with
  | (Lexer.Return terminal (Some lexeme), self') =>
      ∃ k, matches ab_lexer (Lexer.initial_state ab_lexer) rest k terminal
        ∧ (∀ k' out, matches ab_lexer (Lexer.initial_state ab_lexer) rest k' out → (k' ≤ k)%nat)
        ∧ lexeme = take k rest
        ∧ self' = Lexer.mk (Lexer.transitions ab_lexer) (Lexer.initial_state ab_lexer)
                    (Lexer.outputs ab_lexer) (Lexer.source ab_lexer)
                    (Lexer.position ab_lexer + Z.of_nat k)
  | (Lexer.Return terminal None, self') => False
  | (Lexer.LexerError, self') =>
      self' = ab_lexer
      ∧ ∀ k out, ¬ matches ab_lexer (Lexer.initial_state ab_lexer) rest k out
  end.
Proof.
  apply (get_next_token_longest_match (-1) ab_lexer); [by vm_compute|reflexivity].
Defined.

(** ** The runtime lexer: progress *)

Lemma best_length self rest : ∀ state k out,
  best self state rest = Some (k, out) → (0 < k ≤ length rest)%nat.
Proof. intros state k out Hbest. by destruct (best_Some _ _ _ _ _ Hbest) as [[? _] _]. Qed.

Lemma get_next_token_cases (END : Z) (self : Lexer.t) :
  0 ≤ Lexer.position self →
  match Lexer.get_next_token END self with
  | (Lexer.Return terminal None, self') =>
      terminal = END ∧ self' = self
      ∧ Z.of_nat (length (Lexer.source self)) ≤ Lexer.position self
  | (Lexer.Return terminal (Some lexeme), self') =>
      Lexer.position self < Lexer.position self' ≤ Z.of_nat (length (Lexer.source self))
      ∧ lexeme = Lexer.slice (Lexer.source self) (Lexer.position self) (Lexer.position self')
      ∧ Z.of_nat (length lexeme) = Lexer.position self' - Lexer.position self
      ∧ self' = Lexer.mk (Lexer.transitions self) (Lexer.initial_state self)
                  (Lexer.outputs self) (Lexer.source self) (Lexer.position self')
  | (Lexer.LexerError, self') =>
      self' = self ∧ Lexer.position self < Z.of_nat (length (Lexer.source self))
  end.
Proof.
  intros Hpos. unfold Lexer.get_next_token. case_decide as Hend; [done|].
  set (rest := drop (Z.to_nat (Lexer.position self)) (Lexer.source self)).
  assert (Z.of_nat (length rest) = Z.of_nat (length (Lexer.source self)) - Lexer.position self)
    as Hlen by (unfold rest; rewrite length_drop; lia).
  assert (∀ p, Lexer.position self < p ≤ Z.of_nat (length (Lexer.source self)) →
    Z.of_nat (length (Lexer.slice (Lexer.source self) (Lexer.position self) p))
    = p - Lexer.position self) as Hslice.
  { intros p Hp. unfold Lexer.slice. fold rest. rewrite length_take. lia. }
  destruct (Lexer.outputs self !! Lexer.initial_state self) as [out0|]; rewrite scan_best;
    destruct (best self (Lexer.initial_state self) rest) as [[k out]|] eqn:Hbest;
    try apply best_length in Hbest; simpl.
  - split_and!; [lia|lia|done|apply Hslice; lia|done].
  - split_and!; [lia|lia|done|apply Hslice; lia|done].
  - split_and!; [lia|lia|done|apply Hslice; lia|done].
  - split; [done|lia].
Qed.

(** X9: a token that [get_next_token] returns before the end of the source
    is never empty: the position moves forward, by the length of the lexeme,
    and stays within the source; the lexeme is the part of the source between
    the two positions, and nothing but the position changes.  At the end of
    the source it returns [END] and changes nothing, and when it raises
    [LexerError] it changes nothing. *)
Theorem get_next_token_progress (END : Z) (self : Lexer.t) :
  0 ≤ Lexer.position self →
  match Lexer.get_next_token END self with
  | (Lexer.Return terminal None, self') =>
      terminal = END ∧ self' = self
      ∧ Z.of_nat (length (Lexer.source self)) ≤ Lexer.position self
  | (Lexer.Return terminal (Some lexeme), self') =>
      Lexer.position self < Lexer.position self' ≤ Z.of_nat (length (Lexer.source self))
      ∧ lexeme = Lexer.slice (Lexer.source self) (Lexer.position self) (Lexer.position self')
      ∧ Z.of_nat (length lexeme) = Lexer.position self' - Lexer.position self
      ∧ self' = Lexer.mk (Lexer.transitions self) (Lexer.initial_state self)
                  (Lexer.outputs self) (Lexer.source self) (Lexer.position self')
  | (Lexer.LexerError, self') =>
      self' = self ∧ Lexer.position self < Z.of_nat (length (Lexer.source self))
  end.
Proof. intros Hpos. by apply get_next_token_cases. Qed.

Lemma get_next_token_progress_witness :
  match Lexer.get_next_token (-1) ab_lexer with
  | (Lexer.Return terminal None, self') =>
      terminal = -1 ∧ self' = ab_lexer
      ∧ Z.of_nat (length (Lexer.source ab_lexer)) ≤ Lexer.position ab_lexer
  | (Lexer.Return terminal (Some lexeme), self') =>
      Lexer.position ab_lexer < Lexer.position self'
        ≤ Z.of_nat (length (Lexer.source ab_lexer))
      ∧ lexeme = Lexer.slice (Lexer.source ab_lexer) (Lexer.position ab_lexer)
                   (Lexer.position self')
      ∧ Z.of_nat (length lexeme) = Lexer.position self' - Lexer.position ab_lexer
      ∧ self' = Lexer.mk (Lexer.transitions ab_lexer) (Lexer.initial_state ab_lexer)
                  (Lexer.outputs ab_lexer) (Lexer.source ab_lexer) (Lexer.position self')
  | (Lexer.LexerError, self') =>
      self' = ab_lexer
      ∧ Lexer.position ab_lexer < Z.of_nat (length (Lexer.source ab_lexer))
  end.
Proof. apply (get_next_token_progress (-1) ab_lexer). by vm_compute. Defined.

(** ** The runtime lexer: [lex] *)

Lemma lex_loop_spec (END : Z) (fuel : nat) : ∀ self,
  END ≠ Lexer.WHITESPACE → 0 ≤ Lexer.position self →
  (Z.to_nat (Z.of_nat (length (Lexer.source self)) - Lexer.position self) < fuel)%nat →
  ∃ token self', Lexer.lex_loop END fuel self = Some (token, self')
    ∧ (∀ terminal value, token = Lexer.Return terminal value → terminal ≠ Lexer.WHITESPACE)
    ∧ Lexer.position self ≤ Lexer.position self'
    ∧ Lexer.transitions self' = Lexer.transitions self
    ∧ Lexer.initial_state self' = Lexer.initial_state self
    ∧ Lexer.outputs self' = Lexer.outputs self
    ∧ Lexer.source self' = Lexer.source self.
Proof.
  induction fuel as [|fuel IH]; intros self HEND Hpos Hfuel; [lia|]. simpl.
  pose proof (get_next_token_cases END self Hpos) as Hcases.
  destruct (Lexer.get_next_token END self) as [[terminal [lexeme|]|] self1].
  - destruct Hcases as (Hlt & _ & _ & ->). simpl in Hlt. case_decide as Hws.
    + eexists _, _. split; [done|]. split_and!; simpl; try done; [|lia].
      by intros ?? [= <- _].
    + destruct (IH (Lexer.mk (Lexer.transitions self) (Lexer.initial_state self)
                      (Lexer.outputs self) (Lexer.source self) (Lexer.position self1)))
        as (token & self' & -> & Hnw & Hle & Heqs); [done|simpl; lia|simpl; lia|].
      simpl in *. eexists _, _. split; [done|]. split_and!; try done; [lia|..]; apply Heqs.
  - destruct Hcases as (-> & -> & _). rewrite decide_True by done.
    eexists _, _. split; [done|]. split_and!; try done. by intros ?? [= <- _].
  - destruct Hcases as [-> _]. eexists _, _. split; [done|]. by split_and!.
Qed.

Lemma lex_loop_whitespace_end (fuel : nat) (self : Lexer.t) :
  Z.of_nat (length (Lexer.source self)) ≤ Lexer.position self →
  Lexer.lex_loop Lexer.WHITESPACE fuel self = None.
Proof.
  intros Hend. induction fuel as [|fuel IH]; [done|]. simpl.
  unfold Lexer.get_next_token. rewrite decide_True by done.
  by rewrite decide_False by (intros Hne; by apply Hne).
Qed.

(** X10: when [END] is not the terminal [WHITESPACE], [lex] returns for
    every lexer: it raises [LexerError] or returns a token whose terminal is
    not [WHITESPACE]; the position does not move back and nothing else
    changes.  When [END] is [WHITESPACE], the loop of [lex] does not end at
    the end of the source, whatever the bound on its passes. *)
Theorem lex_skips_whitespace (END : Z) (self : Lexer.t) :
  0 ≤ Lexer.position self →
  (END ≠ Lexer.WHITESPACE →
   ∃ token self', Lexer.lex END self = Some (token, self')
     ∧ (∀ terminal value, token = Lexer.Return terminal value → terminal ≠ Lexer.WHITESPACE)
     ∧ Lexer.position self ≤ Lexer.position self'
     ∧ self' = Lexer.mk (Lexer.transitions self) (Lexer.initial_state self)
                 (Lexer.outputs self) (Lexer.source self) (Lexer.position self'))
  ∧ (Z.of_nat (length (Lexer.source self)) ≤ Lexer.position self →
     ∀ fuel, Lexer.lex_loop Lexer.WHITESPACE fuel self = None).
Proof.
  intros Hpos. split.
  - intros HEND. destruct (lex_loop_spec END (Lexer.lex_fuel self) self HEND Hpos)
      as (token & self' & Hrun & Hnw & Hle & Ht & Hi & Ho & Hs).
    { unfold Lexer.lex_fuel. lia. }
    exists token, self'. split; [done|]. split_and!; [done..|].
    destruct self'. simpl in *. by subst.
  - intros Hend fuel. by apply lex_loop_whitespace_end.
Qed.

(** A table with the output [WHITESPACE] on blanks and the output 5 on the
    letter [a], on the source of two blanks and the letter. *)
Definition blank_lexer : Lexer.t :=
  Lexer.mk {[(0, 32) := 1; (1, 32) := 1; (0, 97) := 2]} 0 {[1 := 0; 2 := 5]} [32; 32; 97] 0.

Lemma lex_skips_whitespace_witness :
  (∃ token self', Lexer.lex (-1) blank_lexer = Some (token, self')
     ∧ (∀ terminal value, token = Lexer.Return terminal value → terminal ≠ Lexer.WHITESPACE)
     ∧ Lexer.position blank_lexer ≤ Lexer.position self'
     ∧ self' = Lexer.mk (Lexer.transitions blank_lexer) (Lexer.initial_state blank_lexer)
                 (Lexer.outputs blank_lexer) (Lexer.source blank_lexer)
                 (Lexer.position self'))
  ∧ Lexer.lex (-1) blank_lexer
    = Some (Lexer.Return 5 (Some [97]),
            Lexer.mk (Lexer.transitions blank_lexer) 0 (Lexer.outputs blank_lexer)
              [32; 32; 97] 3).
Proof.
  split; [|by vm_compute].
  apply (lex_skips_whitespace (-1) blank_lexer); [by vm_compute|].
  unfold Lexer.WHITESPACE. lia.
Defined.

(** ** The lexer of regular expressions: its tokens *)

Lemma consume_lookup src (p : nat) :
  Regexpr.consume (Regexpr.mk src (Z.of_nat p)) =
  match src !! p with
  | Some c => Regexpr.Ok (c, Regexpr.mk src (Z.of_nat (S p)))
  | None => Regexpr.IndexError
  end.
Proof.
  unfold Regexpr.consume. simpl. rewrite getitem_nonneg, Nat2Z.id by lia.
  destruct (src !! p); [|done]. do 3 f_equal. lia.
Qed.

Lemma slice_lookup_1 src (p : nat) c0 :
  src !! p = Some c0 → Lexer.slice src (Z.of_nat p) (Z.of_nat (S p)) = [c0].
Proof.
  intros H0. unfold Lexer.slice.
  replace (Z.to_nat (Z.of_nat (S p) - Z.of_nat p)) with 1%nat by lia.
  rewrite Nat2Z.id, (drop_S _ _ _ H0). simpl. by rewrite take_0.
Qed.

Lemma slice_lookup_2 src (p : nat) c0 c1 :
  src !! p = Some c0 → src !! S p = Some c1 →
  Lexer.slice src (Z.of_nat p) (Z.of_nat (S (S p))) = [c0; c1].
Proof.
  intros H0 H1. unfold Lexer.slice.
  replace (Z.to_nat (Z.of_nat (S (S p)) - Z.of_nat p)) with 2%nat by lia.
  rewrite Nat2Z.id, (drop_S _ _ _ H0), (drop_S _ _ _ H1). simpl. by rewrite take_0.
Qed.

Lemma slice_lookup_4 src (p : nat) c0 c1 c2 c3 :
  src !! p = Some c0 → src !! S p = Some c1 →
  src !! S (S p) = Some c2 → src !! S (S (S p)) = Some c3 →
  Lexer.slice src (Z.of_nat p) (Z.of_nat (S (S (S (S p))))) = [c0; c1; c2; c3].
Proof.
  intros H0 H1 H2 H3. unfold Lexer.slice.
  replace (Z.to_nat (Z.of_nat (S (S (S (S p)))) - Z.of_nat p)) with 4%nat by lia.
  rewrite Nat2Z.id, (drop_S _ _ _ H0), (drop_S _ _ _ H1), (drop_S _ _ _ H2),
    (drop_S _ _ _ H3).
  simpl. by rewrite take_0.
Qed.

Lemma is_hex_value c : Regexpr.is_hex c = bool_decide (is_Some (Regexpr.hex_value c)).
Proof. done. Qed.

(** The token at the position [p] of the source [src], read off the
    characters there. *)
Definition token_at (src : list Z) (p : nat)
    : Regexpr.result (Regexpr.terminal * option Z * Regexpr.t) :=
  match src !! p with
  | None => Regexpr.Ok (Regexpr.END, None, Regexpr.mk src (Z.of_nat p))
  | Some c0 =>
      if decide (c0 ≠ Regexpr.ord_backslash) then
        Regexpr.Ok (default Regexpr.CHAR (Regexpr.SPECIAL_CHARS c0), Some c0,
                    Regexpr.mk src (Z.of_nat p + 1))
      else
        match src !! S p with
        | None => Regexpr.IndexError
        | Some c1 =>
            if decide (c1 ≠ Regexpr.ord_x) then
              Regexpr.Ok (Regexpr.CHAR,
                          Some (if decide (c1 = Regexpr.ord_n) then 10
                                else if decide (c1 = Regexpr.ord_t) then 9 else c1),
                          Regexpr.mk src (Z.of_nat p + 2))
            else
              match src !! S (S p) with
              | None => Regexpr.IndexError
              | Some c2 =>
                  match Regexpr.hex_value c2 with
                  | None => Regexpr.LexerError
                  | Some h2 =>
                      match src !! S (S (S p)) with
                      | None => Regexpr.IndexError
                      | Some c3 =>
                          match Regexpr.hex_value c3 with
                          | None => Regexpr.LexerError
                          | Some h3 =>
                              Regexpr.Ok (Regexpr.CHAR, Some (16 * h2 + h3),
                                          Regexpr.mk src (Z.of_nat p + 4))
                          end
                      end
                  end
              end
        end
  end.

Lemma lex_token_at src (p : nat) :
  Regexpr.lex (Regexpr.mk src (Z.of_nat p)) = Some (token_at src p).
Proof.
  unfold Regexpr.lex, token_at. simpl.
  destruct (src !! p) as [c0|] eqn:H0.
  2:{ apply lookup_ge_None in H0. by rewrite decide_True by lia. }
  pose proof (lookup_lt_Some _ _ _ H0) as Hlt. rewrite decide_False by lia.
  cbn [Regexpr.lex_loop]. rewrite consume_lookup, H0. cbn [Regexpr.step].
  destruct (decide (c0 = Regexpr.ord_backslash)) as [->|Hc0].
  2:{ rewrite (decide_True (P := c0 ≠ Regexpr.ord_backslash)) by done. simpl.
      rewrite slice_lookup_1 with (c0 := c0) by done.
      unfold Regexpr.get_codepoint, Regexpr.classify.
      rewrite !(decide_False (P := [c0] = _)) by (by intros [= ? ?]).
      rewrite (decide_False (P := c0 = Regexpr.ord_backslash)) by done.
      do 4 f_equal. lia. }
  rewrite (decide_False (P := Regexpr.ord_backslash ≠ Regexpr.ord_backslash))
    by (intros Hne; by apply Hne).
  rewrite consume_lookup. destruct (src !! S p) as [c1|] eqn:H1; [|done]. cbn [Regexpr.step].
  destruct (decide (c1 = Regexpr.ord_x)) as [->|Hc1].
  2:{ rewrite (decide_True (P := c1 ≠ Regexpr.ord_x)) by done. simpl.
      rewrite slice_lookup_2 with (c0 := Regexpr.ord_backslash) (c1 := c1) by done.
      unfold Regexpr.get_codepoint, Regexpr.classify.
      destruct (decide (c1 = Regexpr.ord_n)) as [->|Hn].
      { rewrite decide_True by done. do 4 f_equal. lia. }
      rewrite (decide_False (P := [_; c1] = [_; Regexpr.ord_n])) by (by intros [= ?]).
      destruct (decide (c1 = Regexpr.ord_t)) as [->|Ht].
      { rewrite decide_True by done. do 4 f_equal. lia. }
      rewrite (decide_False (P := [_; c1] = [_; Regexpr.ord_t])) by (by intros [= ?]).
      rewrite (decide_False (P := _ ∧ c1 = Regexpr.ord_x)) by (by intros [_ ?]).
      rewrite decide_True by done.
      do 4 f_equal. lia. }
  rewrite (decide_False (P := Regexpr.ord_x ≠ Regexpr.ord_x)) by (intros Hne; by apply Hne).
  rewrite consume_lookup. destruct (src !! S (S p)) as [c2|] eqn:H2; [|done].
  cbn [Regexpr.step]. rewrite is_hex_value.
  destruct (Regexpr.hex_value c2) as [h2|] eqn:Hh2.
  2:{ rewrite bool_decide_false by (by intros [??]). done. }
  rewrite bool_decide_true by eauto.
  rewrite consume_lookup. destruct (src !! S (S (S p))) as [c3|] eqn:H3; [|done].
  cbn [Regexpr.step]. rewrite is_hex_value.
  destruct (Regexpr.hex_value c3) as [h3|] eqn:Hh3.
  2:{ rewrite bool_decide_false by (by intros [??]). done. }
  rewrite bool_decide_true by eauto. simpl.
  rewrite slice_lookup_4 with (c0 := Regexpr.ord_backslash) (c1 := Regexpr.ord_x)
    (c2 := c2) (c3 := c3) by done.
  unfold Regexpr.get_codepoint, Regexpr.classify.
  rewrite !(decide_False (P := [_; _; _; _] = _)) by (by intros [= ? ?]).
  rewrite decide_True by done. unfold Regexpr.int_hex. simpl. rewrite Hh2, Hh3. simpl.
  do 4 f_equal; lia.
Qed.

(** X11: what [lex] returns, read off the characters at the position: at the
    end of the source, [END]; for a character other than the backslash, its
    structural terminal if it is a metacharacter and [CHAR] otherwise, with
    its code point; for a backslash and a character other than [x], [CHAR]
    with the code point of that character (10 for [n], 9 for [t]), also when
    it is a metacharacter or a backslash; for [\x] and two hexadecimal
    digits, [CHAR] with their value.  It raises [LexerError] on a character
    after [\x] that is no hexadecimal digit, and [IndexError] when the
    source ends within an escape.  The position moves past the token. *)
Theorem lex_reads_token (src : list Z) (p : nat) :
  Regexpr.lex (Regexpr.mk src (Z.of_nat p)) =
  Some
    match src !! p with
    | None => Regexpr.Ok (Regexpr.END, None, Regexpr.mk src (Z.of_nat p))
    | Some c0 =>
        if decide (c0 ≠ Regexpr.ord_backslash) then
          Regexpr.Ok (default Regexpr.CHAR (Regexpr.SPECIAL_CHARS c0), Some c0,
                      Regexpr.mk src (Z.of_nat p + 1))
        else
          match src !! S p with
          | None => Regexpr.IndexError
          | Some c1 =>
              if decide (c1 ≠ Regexpr.ord_x) then
                Regexpr.Ok (Regexpr.CHAR,
                            Some (if decide (c1 = Regexpr.ord_n) then 10
                                  else if decide (c1 = Regexpr.ord_t) then 9 else c1),
                            Regexpr.mk src (Z.of_nat p + 2))
              else
                match src !! S (S p) with
                | None => Regexpr.IndexError
                | Some c2 =>
                    match Regexpr.hex_value c2 with
                    | None => Regexpr.LexerError
                    | Some h2 =>
                        match src !! S (S (S p)) with
                        | None => Regexpr.IndexError
                        | Some c3 =>
                            match Regexpr.hex_value c3 with
                            | None => Regexpr.LexerError
                            | Some h3 =>
                                Regexpr.Ok (Regexpr.CHAR, Some (16 * h2 + h3),
                                            Regexpr.mk src (Z.of_nat p + 4))
                            end
                        end
                    end
                end
          end
    end.
Proof. rewrite lex_token_at. reflexivity. Qed.

Lemma hex_value_bound c h : Regexpr.hex_value c = Some h → 0 ≤ h < 16.
Proof. unfold Regexpr.hex_value. repeat case_decide; intros [= <-]; lia. Qed.

(** X12: on a source of bytes, the code point of every token that [lex]
    returns is a byte, never [EPSILON]; the position moves forward by one,
    two or four characters and stays within the source, and the source is
    kept. *)
Theorem lex_token_byte (src : list Z) (p : nat) terminal codepoint self' :
  Forall is_byte src →
  Regexpr.lex (Regexpr.mk src (Z.of_nat p)) = Some (Regexpr.Ok (terminal, Some codepoint, self')) →
  is_byte codepoint ∧ codepoint ≠ EPSILON
  ∧ Regexpr.source self' = src
  ∧ (Regexpr.position self' = Z.of_nat p + 1 ∨ Regexpr.position self' = Z.of_nat p + 2
     ∨ Regexpr.position self' = Z.of_nat p + 4)
  ∧ Regexpr.position self' ≤ Z.of_nat (length src).
Proof.
  intros Hsrc. rewrite lex_token_at. unfold token_at. intros [= Heq].
  assert (∀ i c, src !! i = Some c → is_byte c) as Hbyte.
  { intros i c Hc. by apply (proj1 (Forall_lookup _ _) Hsrc i c). }
  assert (∀ c, is_byte c → is_byte c ∧ c ≠ EPSILON) as Hne.
  { intros c Hc. split; [done|]. by apply byte_not_epsilon. }
  destruct (src !! p) as [c0|] eqn:E0; [|done].
  pose proof (lookup_lt_Some _ _ _ E0) as Hl0.
  case_decide.
  { simplify_eq. simpl. destruct (Hne codepoint (Hbyte _ _ E0)).
    split_and!; [done|done|done|by left|lia]. }
  destruct (src !! S p) as [c1|] eqn:E1; [|done].
  pose proof (lookup_lt_Some _ _ _ E1) as Hl1.
  case_decide.
  { simplify_eq. simpl.
    assert (is_byte (if decide (c1 = Regexpr.ord_n) then 10
                     else if decide (c1 = Regexpr.ord_t) then 9 else c1)) as Hcp.
    { repeat case_decide; [done|done|by eapply Hbyte]. }
    destruct (Hne _ Hcp). split_and!; [done|done|done|right; by left|lia]. }
  destruct (src !! S (S p)) as [c2|] eqn:E2; [|done].
  destruct (Regexpr.hex_value c2) as [h2|] eqn:Hh2; [|done].
  destruct (src !! S (S (S p))) as [c3|] eqn:E3; [|done].
  pose proof (lookup_lt_Some _ _ _ E3) as Hl3.
  destruct (Regexpr.hex_value c3) as [h3|] eqn:Hh3; [|done].
  simplify_eq. simpl. apply hex_value_bound in Hh2, Hh3.
  assert (is_byte (16 * h2 + h3)) as Hcp by (unfold is_byte, NUM_CHARS; lia).
  destruct (Hne _ Hcp). split_and!; [done|done|done|right; by right|lia].
Qed.

Lemma lex_token_byte_witness :
  Regexpr.lex (Regexpr.mk [92; 120; 52; 49] (Z.of_nat 0))
    = Some (Regexpr.Ok (Regexpr.CHAR, Some 65, Regexpr.mk [92; 120; 52; 49] 4))
  ∧ is_byte 65 ∧ 65 ≠ EPSILON
  ∧ Regexpr.source (Regexpr.mk [92; 120; 52; 49] 4) = [92; 120; 52; 49]
  ∧ (Regexpr.position (Regexpr.mk [92; 120; 52; 49] 4) = Z.of_nat 0 + 1
     ∨ Regexpr.position (Regexpr.mk [92; 120; 52; 49] 4) = Z.of_nat 0 + 2
     ∨ Regexpr.position (Regexpr.mk [92; 120; 52; 49] 4) = Z.of_nat 0 + 4)
  ∧ Regexpr.position (Regexpr.mk [92; 120; 52; 49] 4) ≤ Z.of_nat (length [92; 120; 52; 49]).
Proof.
  split; [reflexivity|].
  apply (lex_token_byte [92; 120; 52; 49] 0 Regexpr.CHAR 65 (Regexpr.mk [92; 120; 52; 49] 4)).
  - repeat constructor; by vm_compute.
  - reflexivity.
Defined.

(** ** [LexerGenerator.print_dfa] *)

Lemma elem_of_range a b x : x ∈ Py.range a b ↔ a ≤ x < b.
Proof. unfold Py.range. rewrite elem_of_seqZ. lia. Qed.

Lemma elem_of_range_split {A} (l pre post : list A) x :
  l = pre ++ x :: post → x ∈ l.
Proof. intros ->. set_solver. Qed.

Lemma for_each_fails {A S} (body : S → A → option S) l x : ∀ s,
  x ∈ l → (∀ s, body s x = None) → Py.for_each body s l = None.
Proof.
  induction l as [|y l IH]; intros s Hx Hfail; [by apply elem_of_nil in Hx|]. simpl.
  apply elem_of_cons in Hx as [<-|Hx]; [by rewrite Hfail|].
  destruct (body s y); simpl; [by apply IH|done].
Qed.

(** No accepting state is reachable from [s]. *)
Definition sink (d : DFA.t) (s : Z) : Prop := ∀ t, reachable d s t → ¬ DFA.accepting d t.

Lemma is_sink_loop_false `{IterOrder} d (s0 : Z) :
  DFA.complete d →
  ∀ fuel explored frontier,
  (∀ t, t ∈ frontier → DFA.is_state d t ∧ reachable d s0 t) →
  DFA.is_sink_loop fuel d explored frontier = Some false →
  ∃ t, reachable d s0 t ∧ DFA.accepting d t.
Proof.
  intros Hd. induction fuel as [|fuel IH]; intros explored frontier Hreach; [done|]. simpl.
  destruct (iter frontier) as [|state rest] eqn:Hiter; [done|].
  assert (state ∈ frontier) as Hstate by (apply elem_of_iter; rewrite Hiter; by left).
  destruct (Hreach state Hstate) as [Hst Hrs].
  case_decide as Hacc.
  - intros _. exists state. split; [done|]. unfold DFA.accepting. intros Hemp.
    rewrite Hemp, size_empty in Hacc. lia.
  - destruct (sink_scan_spec d Hd state (explored ∪ {[state]}) (frontier ∖ {[state]}) Hst)
      as (frontier' & -> & Hfr'). simpl.
    apply IH. intros t [Ht|(_ & c & Hstep)]%Hfr'; [apply Hreach; set_solver|].
    split; [|by eapply reachable_step].
    destruct (complete_lookup d state c Hd Hst) as (t' & _ & Ht' & Hstep').
    { unfold DFA.step in Hstep. case_decide; [tauto|done]. }
    congruence.
Qed.

Lemma is_sink_state_total `{IterOrder} d s :
  DFA.complete d → DFA.is_state d s →
  ∃ b, DFA.is_sink_state d s = Some b
    ∧ (b = true ↔ sink d s)
    ∧ (b = false → ∃ t, reachable d s t ∧ DFA.accepting d t).
Proof.
  intros Hd Hs.
  assert (∃ b, DFA.is_sink_state d s = Some b ∧ (b = true ↔ sink d s)) as (b & Hrun & Hb).
  { unfold DFA.is_sink_state. apply is_sink_loop_spec; [done|..].
    - intros t Ht. assert (t = s) as -> by set_solver. split; [done|apply reachable_refl].
    - set_solver.
    - set_solver.
    - set_solver.
    - set_solver.
    - assert (size (state_set d ∖ ∅) ≤ size (state_set d))%nat as Hle
        by (apply subseteq_size; set_solver).
      rewrite size_state_set in Hle. unfold DFA.is_sink_fuel. lia. }
  exists b. split_and!; [done|done|]. intros ->.
  apply (is_sink_loop_false d s Hd (DFA.is_sink_fuel d) ∅ {[s]}); [|done].
  intros t ->%elem_of_singleton. split; [done|apply reachable_refl].
Qed.

Lemma not_sink d s `{IterOrder} :
  DFA.complete d → DFA.is_state d s →
  ¬ sink d s ↔ ∃ t, reachable d s t ∧ DFA.accepting d t.
Proof.
  intros Hd Hs. split.
  - intros Hns. destruct (is_sink_state_total d s Hd Hs) as (b & _ & Hb & Hfalse).
    destruct b; [|by apply Hfalse]. exfalso. by apply Hns, Hb.
  - intros (t & Ht & Hacc) Hall. by apply (Hall t).
Qed.

(** The dict that printed lines [key: value] are read as: a later line for a
    key replaces an earlier one. *)
Definition dict_of `{Countable K} {V} (lines : list (K * V)) : gmap K V :=
  foldl (λ m line, <[line.1:=line.2]> m) ∅ lines.

Lemma dict_of_lookup `{Countable K} {V} (lines : list (K * V)) k v :
  (∀ k v1 v2, (k, v1) ∈ lines → (k, v2) ∈ lines → v1 = v2) →
  dict_of lines !! k = Some v ↔ (k, v) ∈ lines.
Proof.
  unfold dict_of. intros Hfun.
  cut (∀ m : gmap K V,
         (∀ k v1 v2, m !! k = Some v1 → (k, v2) ∈ lines → v1 = v2) →
         foldl (λ m line, <[line.1:=line.2]> m) m lines !! k = Some v
         ↔ (k, v) ∈ lines ∨ m !! k = Some v).
  { intros Hcut. rewrite (Hcut ∅); [|by intros ???; rewrite lookup_empty].
    rewrite lookup_empty. naive_solver. }
  induction lines as [|[k1 v1] lines IH]; intros m Hm; simpl.
  { split; [by right|]. intros [Hin|?]; [by apply elem_of_nil in Hin|done]. }
  rewrite IH.
  - rewrite elem_of_cons. destruct (decide (k = k1)) as [->|Hne].
    + rewrite lookup_insert_eq. split.
      * intros [?|[= ->]]; [by left; right|by left; left].
      * intros [[[= ->]|?]|Hmk]; [by right|by left|].
        right. f_equal. symmetry. apply (Hm k1 v v1 Hmk). by left.
    + rewrite lookup_insert_ne by done. naive_solver.
  - intros k2 v2 v3 Hin Hin'. apply (Hfun k2 v2 v3); by right.
  - intros k2 v2 v3. destruct (decide (k2 = k1)) as [->|Hne].
    + rewrite lookup_insert_eq. intros [= <-] Hin. apply (Hfun k1); [by left|by right].
    + rewrite lookup_insert_ne by done. intros Hm2 Hin. apply (Hm k2 v2 v3 Hm2). by right.
Qed.

Section print_dfa.
Context `{IterOrder}.
Variable d : DFA.t.
Hypothesis Hd : DFA.complete d.

Lemma sink_states_spec :
  ∃ sinks, Lexergen.sink_states d = Some sinks
    ∧ ∀ s, s ∈ sinks ↔ DFA.is_state d s ∧ sink d s.
Proof.
  unfold Lexergen.sink_states.
  destruct (for_each_total
    (λ sink_states state,
       b ← DFA.is_sink_state d state;
       Some (if b : bool then sink_states ∪ {[state]} else sink_states))
    (λ pre (sinks : gset Z), ∀ s, s ∈ sinks ↔ s ∈ pre ∧ sink d s)
    (Py.range 0 (DFA.num_states d)) ∅) as (sinks & Hrun & Hsinks).
  - set_solver.
  - intros pre x post sinks Heq Hpre.
    assert (DFA.is_state d x) as Hx.
    { apply elem_of_range_split, elem_of_range in Heq. done. }
    destruct (is_sink_state_total d x Hd Hx) as (b & -> & Hb & _). simpl.
    eexists. split; [done|]. intros s. rewrite elem_of_app, list_elem_of_singleton.
    destruct b.
    + rewrite elem_of_union, elem_of_singleton, Hpre.
      assert (sink d x) by by apply Hb. naive_solver.
    + rewrite Hpre. assert (¬ sink d x) by (intros Hs; by apply Hb in Hs). naive_solver.
  - exists sinks. split; [done|]. intros s. rewrite Hsinks, elem_of_range. done.
Qed.

Lemma print_row_spec sinks lines state :
  DFA.is_state d state →
  ∃ lines', Lexergen.print_row d sinks lines state = Some lines'
    ∧ ∀ x, x ∈ lines' ↔
        x ∈ lines
        ∨ ∃ c t, x = (state, c, t) ∧ (state ∉ sinks) ∧ is_byte c
            ∧ DFA.step d state c = Some t ∧ (t ∉ sinks).
Proof.
  intros Hs. unfold Lexergen.print_row. case_decide as Hsink.
  { exists lines. split; [done|]. naive_solver. }
  destruct (for_each_total
    (λ lines c,
       next_state ← DFA.lookup d state c;
       Some (if decide (next_state ∈ sinks) then lines
             else lines ++ [(state, c, next_state)]))
    (λ pre lines', ∀ x, x ∈ lines' ↔
        x ∈ lines
        ∨ ∃ c t, x = (state, c, t) ∧ c ∈ pre ∧ DFA.step d state c = Some t ∧ (t ∉ sinks))
    (Py.range 0 NUM_CHARS) lines) as (lines' & Hrun & Hlines).
  - intros x. split; [by left|]. intros [?|(c & t & _ & Hc & _)]; [done|].
    by apply elem_of_nil in Hc.
  - intros pre c post acc Heq Hacc.
    assert (is_byte c) as Hc by (by apply elem_of_range_split, elem_of_range in Heq).
    destruct (complete_lookup d state c Hd Hs Hc) as (t & -> & _ & Hstep). simpl.
    eexists. split; [done|]. intros x. case_decide as Ht.
    + rewrite Hacc. split.
      * intros [?|(c' & t' & -> & Hc' & Hstep' & Ht')]; [by left|]. right.
        exists c', t'. split_and!; [done|set_solver|done|done].
      * intros [?|(c' & t' & -> & [Hc'| ->%list_elem_of_singleton]%elem_of_app & Hstep' & Ht')];
          [by left|right; by eauto 10|]. congruence.
    + rewrite elem_of_app, list_elem_of_singleton, Hacc. split.
      * intros [[?|(c' & t' & -> & Hc' & Hstep' & Ht')]| ->]; [by left| |].
        -- right. exists c', t'. split_and!; [done|set_solver|done|done].
        -- right. exists c, t. split_and!; [done|set_solver|done|done].
      * intros [?|(c' & t' & -> & [Hc'| ->%list_elem_of_singleton]%elem_of_app & Hstep' & Ht')].
        -- by left; left.
        -- left; right. eauto 10.
        -- right. congruence.
  - exists lines'. split; [done|]. intros x. rewrite Hlines.
    split; (intros [?|(c & t & -> & Hrest)]; [by left|right; exists c, t]).
    + destruct Hrest as (Hc%elem_of_range & Hstep & Ht). done.
    + destruct Hrest as (_ & Hc & Hstep & Ht). split_and!; [done|by apply elem_of_range|done|done].
Qed.

Lemma print_rows_spec sinks :
  ∃ lines, Py.for_each (Lexergen.print_row d sinks) [] (Py.range 0 (DFA.num_states d))
           = Some lines
    ∧ ∀ s c t, (s, c, t) ∈ lines ↔
        DFA.is_state d s ∧ (s ∉ sinks) ∧ is_byte c ∧ DFA.step d s c = Some t ∧ (t ∉ sinks).
Proof.
  destruct (for_each_total (Lexergen.print_row d sinks)
    (λ pre lines, ∀ s c t, (s, c, t) ∈ lines ↔
        s ∈ pre ∧ (s ∉ sinks) ∧ is_byte c ∧ DFA.step d s c = Some t ∧ (t ∉ sinks))
    (Py.range 0 (DFA.num_states d)) []) as (lines & Hrun & Hlines).
  - intros s c t. split; [by intros ?%elem_of_nil|]. by intros [?%elem_of_nil _].
  - intros pre state post acc Heq Hacc.
    assert (DFA.is_state d state) as Hs by (by apply elem_of_range_split, elem_of_range in Heq).
    destruct (print_row_spec sinks acc state Hs) as (lines' & -> & Hlines').
    eexists. split; [done|]. intros s c t. rewrite Hlines', Hacc, elem_of_app,
      list_elem_of_singleton. split.
    + intros [(?&?&?&?&?)|(c' & t' & [= -> -> ->] & ? & ? & ? & ?)]; by eauto 10.
    + intros ([?| ->] & ? & ? & ? & ?); [by left|]. right. by eauto 10.
  - exists lines. split; [done|]. intros s c t. rewrite Hlines, elem_of_range. done.
Qed.

End print_dfa.

(** The second loop, on [outputs]. *)
Definition popped (T : gset Z) : gset Z :=
  if decide (1 < size T)%nat then T else ∅.

Lemma iter_size_1 `{IterOrder} (T : gset Z) t l :
  ¬ (1 < size T)%nat → iter T = t :: l → T = {[t]} ∧ l = [].
Proof.
  intros Hsize Hiter. pose proof (length_iter T) as Hlen. rewrite Hiter in Hlen. simpl in Hlen.
  destruct l; [|simpl in Hlen; lia]. split; [|done].
  apply set_eq. intros x. rewrite <- elem_of_iter, Hiter. set_solver.
Qed.

Lemma print_outputs_spec `{IterOrder} (d : DFA.t) :
  map_Forall (λ _ T, T ≠ ∅) (DFA.outputs d) →
  ∃ lines num_conflicts outputs,
    Py.for_each Lexergen.print_output ([], 0, DFA.outputs d) (items (DFA.outputs d))
    = Some (lines, num_conflicts, outputs)
    ∧ (∀ s t, (s, t) ∈ lines ↔ ∃ T, DFA.outputs d !! s = Some T ∧ t ∈ T)
    ∧ (num_conflicts = 0 ↔ map_Forall (λ _ T, ¬ (1 < size T)%nat) (DFA.outputs d))
    ∧ outputs = popped <$> DFA.outputs d.
Proof.
  intros Hne.
  destruct (for_each_total Lexergen.print_output
    (λ pre (acc : list (Z * Z) * Z * gmap Z (gset Z)),
       (∀ s t, (s, t) ∈ acc.1.1 ↔ ∃ T, (s, T) ∈ pre ∧ t ∈ T)
       ∧ 0 ≤ acc.1.2
       ∧ (acc.1.2 = 0 ↔ Forall (λ item, ¬ (1 < size item.2)%nat) pre)
       ∧ ∀ s, acc.2 !! s =
           (λ T, if decide ((s, T) ∈ pre) then popped T else T) <$> DFA.outputs d !! s)
    (items (DFA.outputs d)) ([], 0, DFA.outputs d))
    as ([[lines num] outputs] & Hrun & Hlines & Hnum0 & Hnum & Houts).
  - simpl. split_and!.
    + intros s t. split; [by intros ?%elem_of_nil|]. by intros (T & ?%elem_of_nil & _).
    + done.
    + done.
    + intros s. destruct (DFA.outputs d !! s) as [T|]; simpl; [|done].
      first [done|by rewrite decide_False by apply not_elem_of_nil].
  - intros pre [state T] post [[lines num] outputs] Heq (Hlines & Hnum0 & Hnum & Houts).
    simpl in *.
    assert (DFA.outputs d !! state = Some T) as HT.
    { apply elem_of_items. rewrite Heq. set_solver. }
    assert (∀ s T', DFA.outputs d !! s = Some T' →
              (s, T') ∈ pre ++ [(state, T)] ↔ (s, T') ∈ pre ∨ s = state) as Hpre.
    { intros s T' HT'. rewrite elem_of_app, list_elem_of_singleton. split.
      - intros [?|[= -> ->]]; eauto.
      - intros [?| ->]; [by left|]. right. congruence. }
    case_decide as Hsize.
    + eexists. split; [done|]. simpl. split_and!.
      * intros s t. rewrite elem_of_app, Hlines, list_elem_of_fmap. split.
        -- intros [(T' & Hin & Ht)|(t' & [= -> ->] & Ht'%elem_of_iter)].
           ++ exists T'. split; [set_solver|done].
           ++ exists T. split; [set_solver|done].
        -- intros (T' & [Hin|[= -> ->]%list_elem_of_singleton]%elem_of_app & Ht).
           ++ left. eauto.
           ++ right. exists t. split; [done|]. by apply elem_of_iter.
      * lia.
      * rewrite Forall_app, Forall_singleton. simpl. split; [lia|]. intros [_ ?]. done.
      * intros s. rewrite Houts. destruct (DFA.outputs d !! s) as [T'|] eqn:HT'; simpl; [|done].
        f_equal. destruct (decide (s = state)) as [->|Hs].
        -- assert (T' = T) as -> by congruence.
           rewrite (decide_True (P := _ ∈ pre ++ _)) by set_solver.
           unfold popped. rewrite !(decide_True (P := (1 < size T)%nat)) by done.
           by case_decide.
        -- repeat case_decide; try done; exfalso; set_solver.
    + destruct (iter T) as [|t l] eqn:Hiter.
      { exfalso. apply (Hne state T HT). by apply iter_nil. }
      destruct (iter_size_1 T t l Hsize Hiter) as [-> ->].
      eexists. split; [done|]. simpl. split_and!.
      * intros s t'. rewrite elem_of_app, Hlines, list_elem_of_singleton. split.
        -- intros [(T' & Hin & Ht)|[= -> ->]].
           ++ exists T'. split; [set_solver|done].
           ++ exists {[t]}. split; [set_solver|set_solver].
        -- intros (T' & [Hin|[= -> ->]%list_elem_of_singleton]%elem_of_app & Ht).
           ++ left. eauto.
           ++ right. f_equal. set_solver.
      * done.
      * rewrite Forall_app, Forall_singleton. simpl. rewrite Hnum. naive_solver.
      * intros s. destruct (decide (s = state)) as [->|Hs].
        -- rewrite lookup_insert_eq, HT. simpl.
           rewrite decide_True by set_solver. unfold popped. rewrite decide_False by done.
           f_equal. set_solver.
        -- rewrite lookup_insert_ne by done. rewrite Houts.
           destruct (DFA.outputs d !! s) as [T'|] eqn:HT'; simpl; [|done]. f_equal.
           repeat case_decide; try done; exfalso; set_solver.
  - exists lines, num, outputs. split; [done|]. simpl in *. split_and!.
    + intros s t. rewrite Hlines. by setoid_rewrite elem_of_items.
    + rewrite Hnum, Forall_forall. split.
      * intros Hall s T HT. by apply (Hall (s, T)), elem_of_items.
      * intros Hall [s T] HT%elem_of_items. by apply (Hall s T).
    + apply map_eq. intros s. rewrite Houts, lookup_fmap.
      destruct (DFA.outputs d !! s) as [T|] eqn:HT; simpl; [|done].
      by rewrite decide_True by (by apply elem_of_items).
Qed.


Lemma complete_step d s c t :
  DFA.complete d → DFA.is_state d s → DFA.step d s c = Some t → DFA.is_state d t.
Proof.
  intros Hd Hs Hstep. assert (is_byte c) as Hc.
  { unfold DFA.step in Hstep. case_decide; [tauto|done]. }
  destruct (complete_lookup d s c Hd Hs Hc) as (t' & _ & Ht' & Hstep'). congruence.
Qed.

Lemma print_dfa_spec `{IterOrder} (d : DFA.t) :
  DFA.well_formed d →
  ∃ out, Lexergen.print_dfa d
         = Lexergen.Ok (out, DFA.mk (DFA.transitions d) (popped <$> DFA.outputs d)
                               (DFA.initial_state d))
    ∧ Lexergen.printed_initial_state out = DFA.initial_state d
    ∧ (∀ s c t, (s, c, t) ∈ Lexergen.printed_transitions out ↔
         DFA.is_state d s ∧ is_byte c ∧ DFA.step d s c = Some t ∧ ¬ sink d s ∧ ¬ sink d t)
    ∧ (∀ s t, (s, t) ∈ Lexergen.printed_outputs out ↔ t ∈ DFA.get_outputs d s)
    ∧ (Lexergen.printed_conflicts out = 0 ↔
       map_Forall (λ _ T, ¬ (1 < size T)%nat) (DFA.outputs d)).
Proof.
  intros [Hd Hout]. unfold Lexergen.print_dfa.
  destruct (sink_states_spec d Hd) as (sinks & -> & Hsinks).
  destruct (print_rows_spec d Hd sinks) as (rows & -> & Hrows).
  assert (map_Forall (λ _ T, T ≠ ∅) (DFA.outputs d)) as Hne.
  { intros s T HT. by destruct (Hout s T HT). }
  destruct (print_outputs_spec d Hne) as (lines & num & outputs & -> & Hlines & Hnum & ->).
  eexists. split; [done|]. simpl. split_and!; [done| | |done].
  - intros s c t. rewrite Hrows, !Hsinks. split.
    + intros (Hs & Hns & Hc & Hstep & Hnt). split_and!; [done|done|done|tauto|].
      pose proof (complete_step d s c t Hd Hs Hstep). tauto.
    + intros (Hs & Hc & Hstep & Hns & Hnt). split_and!; [done|tauto|done|done|tauto].
  - intros s t. rewrite Hlines. unfold DFA.get_outputs.
    destruct (DFA.outputs d !! s) as [T|]; simpl; [naive_solver|].
    split; [by intros (T & ? & _)|set_solver].
Qed.

Lemma universal_dfa_well_formed tag : DFA.well_formed (universal_dfa tag).
Proof.
  split; [apply universal_dfa_complete|].
  intros s T HT. unfold universal_dfa in HT. simpl in HT.
  apply lookup_singleton_Some in HT as [<- <-].
  split; [unfold DFA.is_state; compute_done|set_solver].
Qed.

(** X13: on a DFA with a complete table and non-empty tag sets (as [get_dfa]
    and [union] build them), [print_dfa] raises no exception.  It prints the
    transition [(s, c): t] of the table exactly when an accepting state can
    be reached from [s] and from [t]: the sink states and the transitions
    into them are left out.  It prints a line [s: t] for every tag [t] of
    every state [s], and it counts no conflict exactly when no state has two
    tags. *)
Theorem print_dfa_prunes_sinks `{IterOrder} (d : DFA.t) :
  DFA.well_formed d →
  ∃ out d', Lexergen.print_dfa d = Lexergen.Ok (out, d')
    ∧ Lexergen.printed_initial_state out = DFA.initial_state d
    ∧ (∀ s c t, (s, c, t) ∈ Lexergen.printed_transitions out ↔
         DFA.is_state d s ∧ is_byte c ∧ DFA.step d s c = Some t
         ∧ (∃ u, reachable d s u ∧ DFA.accepting d u)
         ∧ (∃ u, reachable d t u ∧ DFA.accepting d u))
    ∧ (∀ s t, (s, t) ∈ Lexergen.printed_outputs out ↔ t ∈ DFA.get_outputs d s)
    ∧ (Lexergen.printed_conflicts out = 0 ↔
       map_Forall (λ _ T, (size T ≤ 1)%nat) (DFA.outputs d)).
Proof.
  intros Hd. destruct (print_dfa_spec d Hd) as (out & Hrun & Hinit & Htrans & Hout & Hnum).
  eexists _, _. split; [done|]. split_and!; [done| |done|].
  - intros s c t. rewrite Htrans.
    split; intros (Hs & Hc & Hstep & Hns & Hnt);
      pose proof (complete_step d s c t (proj1 Hd) Hs Hstep) as Ht;
      (split_and!; [done|done|done| |]).
    + by apply (not_sink d s (proj1 Hd) Hs).
    + by apply (not_sink d t (proj1 Hd) Ht).
    + by apply (not_sink d s (proj1 Hd) Hs).
    + by apply (not_sink d t (proj1 Hd) Ht).
  - rewrite Hnum. split; intros Hall s T HT; specialize (Hall s T HT); simpl in *; lia.
Qed.

Lemma print_dfa_prunes_sinks_witness :
  ∃ out d', @Lexergen.print_dfa forward_order (universal_dfa 7) = Lexergen.Ok (out, d')
    ∧ Lexergen.printed_initial_state out = DFA.initial_state (universal_dfa 7)
    ∧ (∀ s c t, (s, c, t) ∈ Lexergen.printed_transitions out ↔
         DFA.is_state (universal_dfa 7) s ∧ is_byte c
         ∧ DFA.step (universal_dfa 7) s c = Some t
         ∧ (∃ u, reachable (universal_dfa 7) s u ∧ DFA.accepting (universal_dfa 7) u)
         ∧ (∃ u, reachable (universal_dfa 7) t u ∧ DFA.accepting (universal_dfa 7) u))
    ∧ (∀ s t, (s, t) ∈ Lexergen.printed_outputs out ↔
              t ∈ DFA.get_outputs (universal_dfa 7) s)
    ∧ (Lexergen.printed_conflicts out = 0 ↔
       map_Forall (λ _ T, (size T ≤ 1)%nat) (DFA.outputs (universal_dfa 7))).
Proof.
  apply (@print_dfa_prunes_sinks forward_order (universal_dfa 7)).
  apply universal_dfa_well_formed.
Defined.

(** X14: [print_dfa] takes the terminal it prints out of the tag set of the
    state: after it has returned, every state that had one tag has an empty
    tag set in [dfa.outputs], and a second call raises [KeyError]. *)
Theorem print_dfa_consumes_outputs `{IterOrder} (d : DFA.t) :
  DFA.well_formed d →
  (∃ s T, DFA.outputs d !! s = Some T ∧ size T = 1%nat) →
  ∃ out d', Lexergen.print_dfa d = Lexergen.Ok (out, d')
    ∧ DFA.transitions d' = DFA.transitions d
    ∧ (∀ s T, DFA.outputs d !! s = Some T →
         DFA.outputs d' !! s = Some (if decide (size T ≤ 1)%nat then ∅ else T))
    ∧ Lexergen.print_dfa d' = Lexergen.KeyError.
Proof.
  intros Hd (s & T & HT & Hsize).
  destruct (print_dfa_spec d Hd) as (out & Hrun & _).
  eexists _, _. split; [done|]. simpl. split_and!; [done| |].
  - intros s' T' HT'. rewrite lookup_fmap, HT'. simpl. unfold popped. f_equal.
    repeat case_decide; try done; lia.
  - set (d' := DFA.mk (DFA.transitions d) (popped <$> DFA.outputs d) (DFA.initial_state d)).
    assert (DFA.complete d') as Hd' by apply Hd.
    unfold Lexergen.print_dfa.
    destruct (sink_states_spec d' Hd') as (sinks & -> & _).
    destruct (print_rows_spec d' Hd' sinks) as (rows & -> & _).
    rewrite (for_each_fails Lexergen.print_output _ (s, ∅)); [done| |].
    + apply elem_of_items. unfold d'. simpl. rewrite lookup_fmap, HT. simpl.
      unfold popped. by rewrite decide_False by lia.
    + intros [[lines num] outputs]. unfold Lexergen.print_output.
      rewrite size_empty. rewrite decide_False by lia.
      by rewrite (proj2 (iter_nil (∅ : gset Z))).
Qed.

Lemma print_dfa_consumes_outputs_witness :
  ∃ out d', @Lexergen.print_dfa forward_order (universal_dfa 7) = Lexergen.Ok (out, d')
    ∧ DFA.transitions d' = DFA.transitions (universal_dfa 7)
    ∧ (∀ s T, DFA.outputs (universal_dfa 7) !! s = Some T →
         DFA.outputs d' !! s = Some (if decide (size T ≤ 1)%nat then ∅ else T))
    ∧ @Lexergen.print_dfa forward_order d' = Lexergen.KeyError.
Proof.
  apply (@print_dfa_consumes_outputs forward_order (universal_dfa 7)).
  - apply universal_dfa_well_formed.
  - exists 0, {[7]}. split; [reflexivity|]. apply size_singleton.
Defined.

(** ** The printed tables, read by [Lexer] *)

(** The lexer that reads the tables printed for a DFA. *)
Definition printed_lexer (out : Lexergen.printed) (source : list Z) (position : Z) : Lexer.t :=
  Lexer.mk (dict_of (Lexergen.printed_transitions out)) (Lexergen.printed_initial_state out)
    (dict_of (Lexergen.printed_outputs out)) source position.

Section printed_lexer.
Context `{IterOrder}.
Variable d : DFA.t.
Variable out : Lexergen.printed.
Hypothesis Hd : DFA.complete d.
Hypothesis Hsingle : map_Forall (λ _ T, size T = 1%nat) (DFA.outputs d).
Hypothesis Htrans : ∀ s c t, (s, c, t) ∈ Lexergen.printed_transitions out ↔
  DFA.is_state d s ∧ is_byte c ∧ DFA.step d s c = Some t ∧ ¬ sink d s ∧ ¬ sink d t.
Hypothesis Hout : ∀ s t, (s, t) ∈ Lexergen.printed_outputs out ↔ t ∈ DFA.get_outputs d s.

Lemma printed_transitions_lookup source position s c t :
  Lexer.transitions (printed_lexer out source position) !! (s, c) = Some t ↔
  DFA.is_state d s ∧ is_byte c ∧ DFA.step d s c = Some t ∧ ¬ sink d s ∧ ¬ sink d t.
Proof.
  clear Hd Hsingle Hout. simpl. rewrite <- Htrans. apply (dict_of_lookup _ (s, c) t).
  intros [s' c'] t1 t2 Ht1%Htrans Ht2%Htrans.
  destruct Ht1 as (_ & _ & Ht1 & _), Ht2 as (_ & _ & Ht2 & _). congruence.
Qed.

Lemma printed_outputs_lookup source position s t :
  Lexer.outputs (printed_lexer out source position) !! s = Some t ↔
  DFA.get_outputs d s = {[t]}.
Proof.
  clear Hd Htrans.
  assert (∀ s t1 t2, t1 ∈ DFA.get_outputs d s → t2 ∈ DFA.get_outputs d s → t1 = t2) as Hfun.
  { clear s t. intros s t1 t2. unfold DFA.get_outputs.
    destruct (DFA.outputs d !! s) as [T|] eqn:HT; simpl; [|set_solver].
    apply Hsingle in HT. apply size_1_elem_of in HT as [x ->%leibniz_equiv]. set_solver. }
  simpl. rewrite dict_of_lookup.
  - rewrite Hout. split; [|set_solver]. intros Ht. apply set_eq. intros x.
    rewrite elem_of_singleton. split; [intros Hx; by apply (Hfun s)|by intros ->].
  - intros s' t1 t2 Ht1%Hout Ht2%Hout. by apply (Hfun s').
Qed.

Lemma table_run_run source position w : ∀ s u,
  table_run (printed_lexer out source position) s w = Some u → DFA.run d s w = Some u.
Proof.
  induction w as [|c w IH]; intros s u; [done|]. cbn [table_run DFA.run].
  destruct (Lexer.transitions _ !! (s, c)) as [t|] eqn:Ht; [|done].
  apply printed_transitions_lookup in Ht as (_ & _ & -> & _). simpl. apply IH.
Qed.

Lemma run_table_run source position w : ∀ s u,
  DFA.is_state d s → DFA.run d s w = Some u → DFA.accepting d u →
  table_run (printed_lexer out source position) s w = Some u.
Proof.
  induction w as [|c w IH]; intros s u Hs Hrun Hacc; [done|]. cbn [table_run DFA.run] in *.
  apply bind_Some in Hrun as (t & Hstep & Hrun).
  assert (is_byte c) as Hc by (unfold DFA.step in Hstep; case_decide; [tauto|done]).
  assert (DFA.is_state d t) as Ht.
  { destruct (complete_lookup d s c Hd Hs Hc) as (t' & _ & Ht' & Hstep'). congruence. }
  assert (Lexer.transitions (printed_lexer out source position) !! (s, c) = Some t) as ->.
  { apply printed_transitions_lookup. split_and!; [done|done|done| |].
    - intros Hsink. apply (Hsink u); [|done]. exists (c :: w). simpl. by rewrite Hstep.
    - intros Hsink. apply (Hsink u); [|done]. by exists w. }
  by apply IH.
Qed.

Lemma printed_matches source position rest k terminal :
  DFA.is_state d (DFA.initial_state d) →
  Lexergen.printed_initial_state out = DFA.initial_state d →
  matches (printed_lexer out source position) (Lexergen.printed_initial_state out) rest k terminal
  ↔ (0 < k ≤ length rest)%nat ∧ word_tags d (take k rest) = {[terminal]}.
Proof.
  intros Hinit ->. unfold matches, word_tags. split.
  - intros [Hk (s & Hrun%table_run_run & Hs%printed_outputs_lookup)]. split; [done|].
    by rewrite Hrun.
  - intros [Hk Htags]. split; [done|].
    destruct (DFA.run d (DFA.initial_state d) (take k rest)) as [s|] eqn:Hrun; [|set_solver].
    exists s. split; [|by apply printed_outputs_lookup].
    apply run_table_run; [done|done|]. unfold DFA.accepting. rewrite Htags. set_solver.
Qed.

End printed_lexer.

(** X15: the tables that [print_dfa] prints for a DFA with a complete table,
    one tag at most on a state and none on the initial state, given to
    [Lexer], make [get_next_token] return the longest prefix of the rest of
    the source, of one character at least, that the DFA tags, with that tag
    as the terminal: leaving the sink states out of the printed table changes
    no token.  [LexerError] is raised exactly when the DFA tags no such
    prefix. *)
Theorem printed_lexer_longest_match `{IterOrder} (END : Z) (d : DFA.t) source position :
  DFA.well_formed d →
  map_Forall (λ _ T, size T = 1%nat) (DFA.outputs d) →
  DFA.get_outputs d (DFA.initial_state d) = ∅ →
  0 ≤ position < Z.of_nat (length source) →
  ∃ out d', Lexergen.print_dfa d = Lexergen.Ok (out, d')
    ∧ Lexergen.printed_conflicts out = 0
    ∧ let rest := drop (Z.to_nat position) source in
      match Lexer.get_next_token END (printed_lexer out source position) with
      | (Lexer.Return terminal (Some lexeme), self') =>
          ∃ k, (0 < k ≤ length rest)%nat
            ∧ lexeme = take k rest
            ∧ word_tags d lexeme = {[terminal]}
            ∧ (∀ k', (k < k' ≤ length rest)%nat → word_tags d (take k' rest) = ∅)
            ∧ self' = printed_lexer out source (position + Z.of_nat k)
      | (Lexer.Return terminal None, self') => False
      | (Lexer.LexerError, self') =>
          self' = printed_lexer out source position
          ∧ ∀ k, (0 < k ≤ length rest)%nat → word_tags d (take k rest) = ∅
      end.
Proof.
  intros Hwf Hsingle Hinit Hpos.
  destruct (print_dfa_spec d Hwf) as (out & Hrun & Hi & Htrans & Hout & Hnum).
  exists out. eexists. split; [done|]. split.
  { apply Hnum. intros s T HT. apply Hsingle in HT. simpl in *. lia. }
  intros rest.
  assert (∀ k, (0 < k ≤ length rest)%nat → word_tags d (take k rest) ≠ ∅ →
            ∃ t, word_tags d (take k rest) = {[t]}) as Hone.
  { intros k Hk. unfold word_tags.
    destruct (DFA.run d (DFA.initial_state d) (take k rest)) as [s|]; [|done].
    unfold DFA.get_outputs. destruct (DFA.outputs d !! s) as [T|] eqn:HT; simpl; [|done].
    intros _. apply Hsingle in HT. apply size_1_elem_of in HT as [x ->%leibniz_equiv]. eauto. }
  pose proof (printed_matches d out (proj1 Hwf) Hsingle Htrans Hout source position rest) as Hm.
  assert (DFA.is_state d (DFA.initial_state d)) as Hq0 by apply Hwf.
  unfold Lexer.get_next_token. cbn [printed_lexer Lexer.source Lexer.position].
  rewrite decide_False by lia.
  assert (Lexer.outputs (printed_lexer out source position)
            !! Lexer.initial_state (printed_lexer out source position) = None) as Hnone.
  { apply eq_None_not_Some. intros [t Ht].
    apply (printed_outputs_lookup d out Hsingle Hout) in Ht. simpl in Ht.
    rewrite Hi, Hinit in Ht. set_solver. }
  fold (printed_lexer out source position).
  cbn [printed_lexer Lexer.outputs Lexer.initial_state] in Hnone |- *. rewrite Hnone.
  fold (printed_lexer out source position). rewrite scan_best.
  cbn [printed_lexer Lexer.source Lexer.position]. fold rest.
  fold (printed_lexer out source position).
  destruct (best (printed_lexer out source position) (Lexergen.printed_initial_state out) rest)
    as [[k terminal]|] eqn:Hbest.
  - destruct (best_Some _ _ _ _ _ Hbest) as [Hmatch Hmax].
    apply Hm in Hmatch as [Hk Htags]; [|done|done].
    exists k. rewrite !slice_take_drop by lia.
    split; [done|]. split; [done|]. split; [done|]. split; [|done].
    intros k' Hk'. destruct (decide (word_tags d (take k' rest) = ∅)) as [|Hne]; [done|].
    destruct (Hone k') as [t Ht]; [lia|done|].
    assert ((k' ≤ k)%nat); [|lia]. apply (Hmax k' t). apply Hm; [done|done|]. split; [lia|done].
  - split; [done|]. intros k Hk.
    destruct (decide (word_tags d (take k rest) = ∅)) as [|Hne]; [done|].
    destruct (Hone k Hk Hne) as [t Ht]. exfalso.
    apply (best_None _ _ _ Hbest k t). apply Hm; [done|done|]. done.
Qed.

(** Any non-empty word: the initial state 0 leads on every byte to the
    state 1, which is tagged and loops on every byte. *)
Definition nonempty_dfa (tag : Z) : DFA.t :=
  DFA.mk [loop_row 1; loop_row 1] {[1 := {[tag]}]} 0.

Lemma nonempty_dfa_well_formed tag : DFA.well_formed (nonempty_dfa tag).
Proof.
  split; [unfold DFA.complete, DFA.is_state; split; compute_done|].
  intros s T HT. unfold nonempty_dfa in HT. simpl in HT.
  apply lookup_singleton_Some in HT as [<- <-].
  split; [unfold DFA.is_state; compute_done|set_solver].
Qed.

Lemma printed_lexer_longest_match_witness :
  ∃ out d', @Lexergen.print_dfa forward_order (nonempty_dfa 7) = Lexergen.Ok (out, d')
    ∧ Lexergen.printed_conflicts out = 0
    ∧ let rest := drop (Z.to_nat 0) [97; 98] in
      match Lexer.get_next_token (-1) (printed_lexer out [97; 98] 0) with
      | (Lexer.Return terminal (Some lexeme), self') =>
          ∃ k, (0 < k ≤ length rest)%nat
            ∧ lexeme = take k rest
            ∧ word_tags (nonempty_dfa 7) lexeme = {[terminal]}
            ∧ (∀ k', (k < k' ≤ length rest)%nat →
                 word_tags (nonempty_dfa 7) (take k' rest) = ∅)
            ∧ self' = printed_lexer out [97; 98] (0 + Z.of_nat k)
      | (Lexer.Return terminal None, self') => False
      | (Lexer.LexerError, self') =>
          self' = printed_lexer out [97; 98] 0
          ∧ ∀ k, (0 < k ≤ length rest)%nat →
              word_tags (nonempty_dfa 7) (take k rest) = ∅
      end.
Proof.
  apply (@printed_lexer_longest_match forward_order (-1) (nonempty_dfa 7) [97; 98] 0).
  - apply nonempty_dfa_well_formed.
  - intros s T HT. unfold nonempty_dfa in HT. simpl in HT.
    apply lookup_singleton_Some in HT as [<- <-]. apply size_singleton.
  - reflexivity.
  - simpl. lia.
Defined.

(** ** [ParserGenerator.print_table] *)

Lemma NoDup_items_keys `{IterOrder} `{Countable K} {V} (m : gmap K V) : NoDup (items m).*1.
Proof. rewrite items_perm. apply NoDup_fst_map_to_list. Qed.

Lemma iter_size_le_1 `{IterOrder} `{Countable A} (X : gset A) x l :
  ¬ (1 < size X)%nat → iter X = x :: l → X = {[x]} ∧ l = [].
Proof.
  intros Hsize Hiter. pose proof (length_iter X) as Hlen. rewrite Hiter in Hlen. simpl in Hlen.
  destruct l; [|simpl in Hlen; lia]. split; [|done].
  apply set_eq. intros y. rewrite <- elem_of_iter, Hiter. set_solver.
Qed.

(** What [print_table] leaves of a cell of [self.table]. *)
Definition printed_cell (actions : gset (Parsergen.action_kind * Z))
    : gset (Parsergen.action_kind * Z) :=
  if decide (1 < size actions)%nat then actions else ∅.

Lemma print_table_spec `{IterOrder} (g : Parsergen.t)
    (table : gmap (Z * Z) (gset (Parsergen.action_kind * Z))) :
  map_Forall (λ _ actions, actions ≠ ∅) table →
  ∃ out, Parsergen.print_table g table = Some (out, printed_cell <$> table)
    ∧ (∀ position action, (position, action) ∈ Parsergen.printed_table out ↔
         ∃ actions, table !! position = Some actions ∧ action ∈ actions)
    ∧ NoDup (Parsergen.printed_table out)
    ∧ Parsergen.printed_entries out = Z.of_nat (length (Parsergen.printed_table out))
    ∧ (Parsergen.printed_conflicts out = true ↔
         ∃ position actions, table !! position = Some actions ∧ (1 < size actions)%nat)
    ∧ Parsergen.printed_reductions out = Parsergen.callbacks g.
Proof.
  intros Hne. unfold Parsergen.print_table.
  pose proof (NoDup_items_keys table) as Hkeys.
  destruct (for_each_total Parsergen.print_cell
    (λ pre (acc : list (Z * Z * (Parsergen.action_kind * Z)) * Z * bool
                  * gmap (Z * Z) (gset (Parsergen.action_kind * Z))),
       (∀ position action, (position, action) ∈ acc.1.1.1 ↔
          ∃ actions, (position, actions) ∈ pre ∧ action ∈ actions)
       ∧ NoDup acc.1.1.1
       ∧ acc.1.1.2 = Z.of_nat (length acc.1.1.1)
       ∧ (acc.1.2 = true ↔ Exists (λ item, (1 < size item.2)%nat) pre)
       ∧ ∀ position, acc.2 !! position =
           (λ actions, if decide ((position, actions) ∈ pre) then printed_cell actions
                       else actions) <$> table !! position)
    (items table) ([], 0, false, table))
    as ([[[lines num] conflicts] table'] & Hrun & Hlines & Hnodup & Hnum & Hconf & Htable).
  - simpl. split_and!.
    + intros position action. split; [by intros ?%elem_of_nil|].
      by intros (actions & ?%elem_of_nil & _).
    + apply NoDup_nil_2.
    + done.
    + split; [done|]. by intros ?%Exists_nil.
    + intros position. destruct (table !! position) as [actions|]; simpl; [|done].
      first [done|f_equal; by rewrite decide_False by apply not_elem_of_nil].
  - intros pre [position actions] post [[[lines num] conflicts] table0] Heq
      (Hlines & Hnodup & Hnum & Hconf & Htable).
    cbn [fst snd] in Hlines, Hnodup, Hnum, Hconf, Htable.
    assert (table !! position = Some actions) as Hcell.
    { apply elem_of_items. rewrite Heq. set_solver. }
    assert (∀ actions', (position, actions') ∉ pre) as Hfresh.
    { intros actions' Hin. rewrite Heq, fmap_app, fmap_cons in Hkeys.
      apply NoDup_app in Hkeys as (_ & Hdisj & _).
      apply (Hdisj position); [|by left].
      apply list_elem_of_fmap. by exists (position, actions'). }
    assert (∀ p A, table !! p = Some A →
              (p, A) ∈ pre ++ [(position, actions)] ↔ (p, A) ∈ pre ∨ p = position) as Hpre.
    { intros p A HA. rewrite elem_of_app, list_elem_of_singleton. split.
      - intros [?|[= -> ->]]; eauto.
      - intros [?| ->]; [by left|]. right. congruence. }
    assert (∀ new : list (Parsergen.action_kind * Z),
              NoDup new → NoDup (lines ++ ((λ action, (position, action)) <$> new))) as Hnd.
    { intros new Hnew. apply NoDup_app. split_and!; [done| |].
      - intros [p a] Hin (a' & [= -> ->] & _)%list_elem_of_fmap.
        apply Hlines in Hin as (A & Hin & _). by apply (Hfresh A).
      - apply NoDup_fmap_2; [|done]. by intros ?? [= ->]. }
    unfold Parsergen.print_cell. case_decide as Hsize.
    + eexists. split; [done|]. cbn [fst snd]. split_and!.
      * intros p a. rewrite elem_of_app, Hlines, list_elem_of_fmap. split.
        -- intros [(A & Hin & Ha)|(a' & [= -> ->] & Ha'%elem_of_iter)].
           ++ exists A. split; [set_solver|done].
           ++ exists actions. split; [set_solver|done].
        -- intros (A & [Hin|[= -> ->]%list_elem_of_singleton]%elem_of_app & Ha).
           ++ left. eauto.
           ++ right. exists a. split; [done|]. by apply elem_of_iter.
      * apply Hnd, NoDup_iter.
      * rewrite length_app, length_fmap, length_iter. lia.
      * split; [|done]. intros _. apply Exists_app. right. by apply Exists_cons_hd.
      * intros p. rewrite Htable. destruct (table !! p) as [A|] eqn:HA; simpl; [|done].
        f_equal. destruct (decide (p = position)) as [->|Hp].
        -- assert (A = actions) as -> by congruence.
           rewrite (decide_False (P := _ ∈ pre)) by apply Hfresh.
           rewrite decide_True by set_solver. unfold printed_cell. by rewrite decide_True.
        -- repeat case_decide; try done; exfalso; set_solver.
    + destruct (iter actions) as [|action l] eqn:Hiter.
      { exfalso. apply (Hne position actions Hcell). by apply iter_nil. }
      destruct (iter_size_le_1 actions action l Hsize Hiter) as [-> ->].
      eexists. split; [done|]. cbn [fst snd]. split_and!.
      * intros p a. rewrite elem_of_app, Hlines, list_elem_of_singleton. split.
        -- intros [(A & Hin & Ha)|[= -> ->]].
           ++ exists A. split; [set_solver|done].
           ++ exists {[action]}. split; [set_solver|set_solver].
        -- intros (A & [Hin|[= -> ->]%list_elem_of_singleton]%elem_of_app & Ha).
           ++ left. eauto.
           ++ right. f_equal. set_solver.
      * apply (Hnd [action]). apply NoDup_singleton.
      * rewrite length_app, size_singleton. simpl. lia.
      * rewrite Hconf, Exists_app, Exists_cons, Exists_nil. simpl. tauto.
      * intros p. destruct (decide (p = position)) as [->|Hp].
        -- rewrite lookup_insert_eq, Hcell. simpl.
           rewrite decide_True by set_solver. unfold printed_cell.
           rewrite decide_False by done. f_equal. set_solver.
        -- rewrite lookup_insert_ne by done. rewrite Htable.
           destruct (table !! p) as [A|] eqn:HA; simpl; [|done]. f_equal.
           repeat case_decide; try done; exfalso; set_solver.
  - cbn [fst snd] in *. rewrite Hrun. simpl.
    assert (table' = printed_cell <$> table) as ->.
    { apply map_eq. intros p. rewrite Htable, lookup_fmap.
      destruct (table !! p) as [A|] eqn:HA; simpl; [|done].
      by rewrite decide_True by (by apply elem_of_items). }
    eexists. split; [done|]. simpl. split_and!; [|done|done| |done].
    + intros p a. rewrite Hlines. by setoid_rewrite elem_of_items.
    + rewrite Hconf, Exists_exists. split.
      * intros ([p A] & HA%elem_of_items & Hsize). eauto.
      * intros (p & A & HA & Hsize). exists (p, A). split; [by apply elem_of_items|done].
Qed.

Lemma table_add_nonempty `{Countable K} `{Countable A} (table : gmap K (gset A)) key x :
  map_Forall (λ _ actions, actions ≠ ∅) table →
  map_Forall (λ _ actions, actions ≠ ∅) (Parsergen.table_add table key x).
Proof.
  intros Ht key' actions. unfold Parsergen.table_add.
  destruct (decide (key' = key)) as [->|Hne].
  - rewrite lookup_insert_eq. intros [= <-]. set_solver.
  - rewrite lookup_insert_ne by done. apply Ht.
Qed.

Lemma simplify_table_nonempty `{IterOrder} table initial_state :
  map_Forall (λ _ actions, actions ≠ ∅) (Parsergen.simplify_table table initial_state).
Proof.
  unfold Parsergen.simplify_table.
  apply (foldl_invariant _
           (λ st, map_Forall (λ _ actions, actions ≠ ∅) (Parsergen.new_table st))).
  { simpl. apply map_Forall_empty. }
  intros st [[state symbol] actions] _ Hst.
  unfold Parsergen.simplify_cell. simpl.
  destruct (Parsergen.get_id st state) as [st' id] eqn:Hid.
  apply (foldl_invariant _
           (λ st, map_Forall (λ _ actions, actions ≠ ∅) (Parsergen.new_table st))).
  { by rewrite <- (get_id_new_table st state), Hid in Hst. }
  intros st1 [kind data] _ Hst1.
  destruct kind, data as [next|i]; simpl; try done.
  - destruct (Parsergen.get_id st1 next) as [st2 id2] eqn:Hid2. simpl.
    apply table_add_nonempty. by rewrite <- (get_id_new_table st1 next), Hid2 in Hst1.
  - by apply table_add_nonempty.
  - by apply table_add_nonempty.
  - destruct (Parsergen.get_id st1 next) as [st2 id2] eqn:Hid2. simpl.
    apply table_add_nonempty. by rewrite <- (get_id_new_table st1 next), Hid2 in Hst1.
Qed.

Lemma generate_nonempty `{IterOrder} (END NIL GOAL : Z) fuel g table :
  Parsergen.generate END NIL GOAL fuel g = Some table →
  map_Forall (λ _ actions, actions ≠ ∅) table.
Proof.
  unfold Parsergen.generate.
  intros (rule0 & _ & (initial_state & _ & (st & _ & [= <-])%bind_Some)%bind_Some)%bind_Some.
  apply simplify_table_nonempty.
Qed.

(** X16: [print_table] raises no exception on the table that [generate] has
    built.  It prints every action of every cell once, and the reduction
    lookup buffer holds, in the order of the rules, the left-hand side and
    the length of the right-hand side of each rule.  The number of entries it
    reports is the number of lines of the table, and it warns of a conflict
    exactly when a cell holds more than one action. *)
Theorem print_table_reports_conflicts `{IterOrder} (END NIL GOAL : Z) fuel
    (g : Parsergen.t) table :
  Parsergen.generate END NIL GOAL fuel g = Some table →
  ∃ out table', Parsergen.print_table g table = Some (out, table')
    ∧ (∀ position action, (position, action) ∈ Parsergen.printed_table out ↔
         ∃ actions, table !! position = Some actions ∧ action ∈ actions)
    ∧ NoDup (Parsergen.printed_table out)
    ∧ Parsergen.printed_entries out = Z.of_nat (length (Parsergen.printed_table out))
    ∧ (Parsergen.printed_conflicts out = true ↔
         ∃ position actions, table !! position = Some actions ∧ (1 < size actions)%nat)
    ∧ Parsergen.printed_reductions out
      = (λ r, (Parsergen.lhs r, Z.of_nat (length (Parsergen.rhs r)))) <$> Parsergen.rules g.
Proof.
  intros Hgen%generate_nonempty.
  destruct (print_table_spec g table Hgen) as (out & Hrun & Hlines & Hnodup & Hnum & Hconf & Hred).
  by exists out, (printed_cell <$> table).
Qed.

Lemma print_table_reports_conflicts_witness :
  ∃ table out table',
    Parsergen.generate (H:=forward_order) (-1) (-2) 0 100 cc_generator = Some table
    ∧ Parsergen.print_table (H:=forward_order) cc_generator table = Some (out, table')
    ∧ (∀ position action, (position, action) ∈ Parsergen.printed_table out ↔
         ∃ actions, table !! position = Some actions ∧ action ∈ actions)
    ∧ NoDup (Parsergen.printed_table out)
    ∧ Parsergen.printed_entries out = Z.of_nat (length (Parsergen.printed_table out))
    ∧ (Parsergen.printed_conflicts out = true ↔
         ∃ position actions, table !! position = Some actions ∧ (1 < size actions)%nat)
    ∧ Parsergen.printed_reductions out
      = (λ r, (Parsergen.lhs r, Z.of_nat (length (Parsergen.rhs r))))
          <$> Parsergen.rules cc_generator.
Proof.
  exists (default ∅ (Parsergen.generate (H:=forward_order) (-1) (-2) 0 100 cc_generator)).
  assert (Parsergen.generate (H:=forward_order) (-1) (-2) 0 100 cc_generator =
          Some (default ∅ (Parsergen.generate (H:=forward_order) (-1) (-2) 0 100 cc_generator)))
    as Hgen by (vm_compute; reflexivity).
  destruct (print_table_reports_conflicts (H:=forward_order) (-1) (-2) 0 100 cc_generator _ Hgen)
    as (out & table' & Hprint).
  exists out, table'. split; [exact Hgen|exact Hprint].
Defined.

(** X17: [print_table] takes the action it prints out of its cell of
    [self.table]: after the call the cells that held one action are empty,
    the others are as they were, and a second call raises [KeyError] if the
    table had a cell with one action. *)
Theorem print_table_consumes_actions `{IterOrder} (g : Parsergen.t)
    (table : gmap (Z * Z) (gset (Parsergen.action_kind * Z))) :
  map_Forall (λ _ actions, actions ≠ ∅) table →
  (∃ position actions, table !! position = Some actions ∧ size actions = 1%nat) →
  ∃ out table', Parsergen.print_table g table = Some (out, table')
    ∧ (∀ position, table' !! position =
         (λ actions, if decide (size actions = 1)%nat then ∅ else actions) <$> table !! position)
    ∧ Parsergen.print_table g table' = None.
Proof.
  intros Hne (position & actions & Hcell & Hsize).
  destruct (print_table_spec g table Hne) as (out & Hrun & _).
  exists out, (printed_cell <$> table). split; [done|]. split.
  - intros p. rewrite lookup_fmap. destruct (table !! p) as [A|] eqn:HA; simpl; [|done].
    f_equal. unfold printed_cell. assert (size A ≠ 0%nat).
    { intros ?%size_empty_iff%leibniz_equiv. by apply (Hne p A). }
    repeat case_decide; try done; lia.
  - unfold Parsergen.print_table.
    rewrite (for_each_fails Parsergen.print_cell _ (position, ∅)); [done| |].
    + apply elem_of_items. rewrite lookup_fmap, Hcell. simpl. unfold printed_cell.
      by rewrite decide_False by lia.
    + intros [[[lines num] conflicts] table0]. unfold Parsergen.print_cell.
      rewrite size_empty. rewrite decide_False by lia.
      by rewrite (proj2 (iter_nil (∅ : gset (Parsergen.action_kind * Z)))).
Qed.

Lemma print_table_consumes_actions_witness :
  ∃ out table',
    Parsergen.print_table (H:=forward_order) cc_generator {[(0, -1) := {[(Parsergen.ACCEPT, 0)]}]}
    = Some (out, table')
    ∧ (∀ position, table' !! position =
         (λ actions, if decide (size actions = 1)%nat then ∅ else actions)
           <$> ({[(0, -1) := {[(Parsergen.ACCEPT, 0)]}]}
                  : gmap (Z * Z) (gset (Parsergen.action_kind * Z))) !! position)
    ∧ Parsergen.print_table (H:=forward_order) cc_generator table' = None.
Proof.
  apply (print_table_consumes_actions (H:=forward_order) cc_generator).
  - intros p A [<- <-]%lookup_singleton_Some. set_solver.
  - exists (0, -1), {[(Parsergen.ACCEPT, 0)]}. split; [reflexivity|]. apply size_singleton.
Defined.

(** ** [ParserGenerator.closure]: the LR(1) closure *)

Section lr_closure.
Context `{IterOrder}.
Variable NIL : Z.
Variable g : Parsergen.t.

(** [t] can begin a string derived from [symbols], as the FIRST sets in
    [first] tell. *)
Fixpoint lr_first (symbols : list Z) (t : Z) : Prop :=
  match symbols with
  | [] => False
  | Y :: symbols =>
      if decide (Y ∈ Parsergen.terminals g) then t = Y
      else ∃ entry, Py.getitem (Parsergen.first g) Y = Some entry
             ∧ ((t ∈ entry ∧ t ≠ NIL) ∨ (NIL ∈ entry ∧ lr_first symbols t))
  end.

(** Every symbol of [symbols] is a non-terminal with [NIL] in its FIRST
    set. *)
Definition lr_null (symbols : list Z) : Prop :=
  Forall (λ Y, (Y ∉ Parsergen.terminals g)
               ∧ ∃ entry, Py.getitem (Parsergen.first g) Y = Some entry ∧ NIL ∈ entry) symbols.

(** The closure of a kernel: with an item [A -> X . B Y, a] it holds, for
    every rule [B -> Z], the items [B -> . Z, b] with [b] in FIRST of
    [Y a]. *)
Inductive lr_closure (kernel : list Parsergen.Item) : Parsergen.Item → Prop :=
  | lr_closure_kernel item : item ∈ kernel → lr_closure kernel item
  | lr_closure_step item B rule b :
      lr_closure kernel item →
      Parsergen.rhs (Parsergen.rule item) !! Parsergen.cursor item = Some B →
      B ∈ Parsergen.non_terminals g →
      lr_first (drop (S (Parsergen.cursor item)) (Parsergen.rhs (Parsergen.rule item))) b
      ∨ (lr_null (drop (S (Parsergen.cursor item)) (Parsergen.rhs (Parsergen.rule item)))
         ∧ b = Parsergen.lookahead item) →
      rule ∈ Parsergen.rules g → Parsergen.lhs rule = B →
      lr_closure kernel (Parsergen.mk_item rule 0 b).

Lemma follow_copy_spec follow entry :
  (∀ t, t ∈ (Parsergen.follow_copy NIL follow entry).1 ↔ t ∈ follow ∨ (t ∈ entry ∧ t ≠ NIL))
  ∧ ((Parsergen.follow_copy NIL follow entry).2 = true ↔ NIL ∉ entry).
Proof.
  unfold Parsergen.follow_copy.
  cut ((λ pre (acc : gset Z * bool),
          (∀ t, t ∈ acc.1 ↔ t ∈ follow ∨ (t ∈ pre ∧ t ≠ NIL)) ∧ (acc.2 = true ↔ NIL ∉ pre))
         (iter entry)
         (foldl (λ (acc : gset Z * bool) terminal,
                   if decide (terminal = NIL) then (acc.1, false)
                   else (acc.1 ∪ {[terminal]}, acc.2)) (follow, true) (iter entry))).
  { simpl. intros [Hf He]. split.
    - intros t. rewrite Hf. by rewrite elem_of_iter.
    - by rewrite He, elem_of_iter. }
  apply foldl_prefix_ind.
  - simpl. split; [|by split; [intros _ ?%elem_of_nil|]].
    intros t. split; [by left|]. by intros [?|[?%elem_of_nil _]].
  - intros pre x post [follow' nnf] _ [Hf He]. simpl in *. case_decide as Hx; simpl.
    + subst x. split.
      * intros t. rewrite Hf, elem_of_app, list_elem_of_singleton. naive_solver.
      * split; [done|]. intros Hn. exfalso. apply Hn. set_solver.
    + split.
      * intros t. rewrite elem_of_union, elem_of_singleton, Hf, elem_of_app,
          list_elem_of_singleton. naive_solver.
      * rewrite He, elem_of_app, list_elem_of_singleton. naive_solver.
Qed.

Lemma follow_scan_spec symbols : ∀ follow follow' empty,
  Parsergen.follow_scan NIL g follow symbols = Some (follow', empty) →
  (∀ t, t ∈ follow' ↔ t ∈ follow ∨ lr_first symbols t) ∧ (empty = true ↔ lr_null symbols).
Proof.
  unfold lr_null.
  induction symbols as [|Y symbols IH]; intros follow follow' empty; simpl.
  { intros [= <- <-]. split; [naive_solver|done]. }
  case_decide as HY.
  { intros [= <- <-]. split; [set_solver|]. split; [done|]. intros [? _]%Forall_cons. tauto. }
  intros (entry & Hentry & Hrest)%bind_Some.
  destruct (follow_copy_spec follow entry) as [Hf He].
  destruct (Parsergen.follow_copy NIL follow entry) as [follow1 nnf]. simpl in *.
  destruct nnf.
  - simplify_eq. assert (NIL ∉ entry) as Hnil by by apply He. split.
    + intros t. rewrite Hf. split; [|naive_solver].
      intros [?|?]; [by left|right]. exists entry. split; [done|]. by left.
    + split; [done|]. intros [[_ (entry' & He' & Hn)] _]%Forall_cons. congruence.
  - assert (NIL ∈ entry) as Hnil.
    { destruct (decide (NIL ∈ entry)); [done|]. by assert (false = true) by by apply He. }
    apply IH in Hrest as [Hf' He']. split.
    + intros t. rewrite Hf', Hf. split.
      * intros [[?|?]|?]; [by left|right; exists entry; by eauto|right; exists entry; by eauto].
      * intros [?|(entry' & Hentry' & Hcase)]; [by left; left|].
        assert (entry' = entry) as -> by congruence. naive_solver.
    + rewrite He', Forall_cons. split; [|by intros [_ ?]].
      intros Hall. split; [|done]. split; [done|]. by exists entry.
Qed.

Lemma closure_expand_spec non_terminal (follow : gset Z) kernel item :
  item ∈ Parsergen.closure_expand g non_terminal follow kernel ↔
  item ∈ kernel
  ∨ ∃ rule b, rule ∈ Parsergen.rules g ∧ Parsergen.lhs rule = non_terminal ∧ b ∈ follow
      ∧ item = Parsergen.mk_item rule 0 b.
Proof.
  unfold Parsergen.closure_expand.
  assert (∀ rule (l : list Z) k,
    item ∈ foldl (λ kernel symbol, Parsergen.mk_item rule 0 symbol :: kernel) k l ↔
    item ∈ k ∨ ∃ b, b ∈ l ∧ item = Parsergen.mk_item rule 0 b) as Hinner.
  { intros rule l. induction l as [|x l IH]; intros k; simpl.
    - split; [by left|]. by intros [?|(b & ?%elem_of_nil & _)].
    - rewrite IH, elem_of_cons. setoid_rewrite elem_of_cons. naive_solver. }
  cut (∀ rules k,
    item ∈ foldl (λ kernel rule,
                    if decide (Parsergen.lhs rule ≠ non_terminal) then kernel
                    else foldl (λ kernel symbol, Parsergen.mk_item rule 0 symbol :: kernel)
                           kernel (iter follow)) k rules ↔
    item ∈ k ∨ ∃ rule b, rule ∈ rules ∧ Parsergen.lhs rule = non_terminal ∧ b ∈ follow
                 ∧ item = Parsergen.mk_item rule 0 b).
  { intros Hcut. apply Hcut. }
  induction rules as [|r rules IH]; intros k; simpl.
  - split; [by left|]. by intros [?|(r & b & ?%elem_of_nil & _)].
  - rewrite IH. setoid_rewrite elem_of_cons. case_decide as Hr.
    + naive_solver.
    + try apply dec_stable in Hr. rewrite Hinner. setoid_rewrite elem_of_iter. naive_solver.
Qed.

(** The invariant of the loop of [closure]. *)
Definition lr_closure_inv (kernel : list Parsergen.Item)
    (st : gset Parsergen.Item * list Parsergen.Item) : Prop :=
  (∀ item, item ∈ st.1 ∨ item ∈ st.2 → lr_closure kernel item)
  ∧ (∀ item, item ∈ kernel → item ∈ st.1 ∨ item ∈ st.2)
  ∧ (∀ item B rule b,
       item ∈ st.1 →
       Parsergen.rhs (Parsergen.rule item) !! Parsergen.cursor item = Some B →
       B ∈ Parsergen.non_terminals g →
       lr_first (drop (S (Parsergen.cursor item)) (Parsergen.rhs (Parsergen.rule item))) b
       ∨ (lr_null (drop (S (Parsergen.cursor item)) (Parsergen.rhs (Parsergen.rule item)))
          ∧ b = Parsergen.lookahead item) →
       rule ∈ Parsergen.rules g → Parsergen.lhs rule = B →
       Parsergen.mk_item rule 0 b ∈ st.1 ∨ Parsergen.mk_item rule 0 b ∈ st.2).

Lemma get_locus_lookup item B :
  Parsergen.has_successor item = true →
  Parsergen.get_locus item = Some B ↔
  Parsergen.rhs (Parsergen.rule item) !! Parsergen.cursor item = Some B.
Proof.
  unfold Parsergen.has_successor, Parsergen.get_locus. intros Hs%bool_decide_eq_true.
  rewrite getitem_nonneg by lia. by rewrite Nat2Z.id.
Qed.

Lemma closure_body_inv kernel item st st' :
  lr_closure_inv kernel (st.1, item :: st.2) →
  Parsergen.closure_body NIL g item st = Some st' →
  lr_closure_inv kernel st'.
Proof.
  destruct st as [state stack]. intros (Hsound & Hkernel & Hclosed). simpl in *.
  unfold Parsergen.closure_body. simpl. case_decide as Hin.
  { intros [= <-]. split_and!; simpl.
    - intros it [?|?]; apply Hsound; [by left|right; by right].
    - intros it [?|[->|?]%elem_of_cons]%Hkernel; eauto.
    - intros it B rule b Hit HB HN Hb Hr Hl.
      destruct (Hclosed it B rule b Hit HB HN Hb Hr Hl) as [?|[->|?]%elem_of_cons]; eauto. }
  assert (∀ it, it ∈ state ∪ {[item]} ∨ it ∈ stack → lr_closure kernel it) as Hsound'.
  { intros it [[?| ->%elem_of_singleton]%elem_of_union|?]; apply Hsound;
      [by left|right; by left|right; by right]. }
  assert (∀ it, it ∈ kernel → it ∈ state ∪ {[item]} ∨ it ∈ stack) as Hkernel'.
  { intros it [?|[->|?]%elem_of_cons]%Hkernel; [left|left|by right]; set_solver. }
  assert (∀ it B rule b, it ∈ state →
       Parsergen.rhs (Parsergen.rule it) !! Parsergen.cursor it = Some B →
       B ∈ Parsergen.non_terminals g →
       lr_first (drop (S (Parsergen.cursor it)) (Parsergen.rhs (Parsergen.rule it))) b
       ∨ (lr_null (drop (S (Parsergen.cursor it)) (Parsergen.rhs (Parsergen.rule it)))
          ∧ b = Parsergen.lookahead it) →
       rule ∈ Parsergen.rules g → Parsergen.lhs rule = B →
       Parsergen.mk_item rule 0 b ∈ state ∪ {[item]} ∨ Parsergen.mk_item rule 0 b ∈ stack)
    as Hold.
  { intros it B rule b Hit HB HN Hb Hr Hl.
    destruct (Hclosed it B rule b Hit HB HN Hb Hr Hl) as [?|[->|?]%elem_of_cons];
      [left|left|by right]; set_solver. }
  destruct (Parsergen.has_successor item) eqn:Hsucc; simpl.
  2:{ intros [= <-]. split_and!; simpl; [done|done|].
      intros it B rule b [Hit| ->%elem_of_singleton]%elem_of_union HB HN Hb Hr Hl;
        [by eapply Hold|].
      exfalso. unfold Parsergen.has_successor in Hsucc.
      apply bool_decide_eq_false in Hsucc. apply lookup_lt_Some in HB. lia. }
  intros (non_terminal & Hlocus & Hbody)%bind_Some.
  apply get_locus_lookup in Hlocus; [|done].
  case_decide as Hnt.
  { simplify_eq. split_and!; simpl; [done|done|].
    intros it B rule b [Hit| ->%elem_of_singleton]%elem_of_union HB HN Hb Hr Hl;
      [by eapply Hold|].
    exfalso. apply Hnt. congruence. }
  try apply dec_stable in Hnt.
  apply bind_Some in Hbody as ([follow empty] & Hscan & [= <-]).
  apply follow_scan_spec in Hscan as [Hfollow Hempty].
  cbn [Parsergen.get_successor Parsergen.cursor Parsergen.rule Parsergen.lookahead] in *.
  replace (Parsergen.cursor item + 1)%nat with (S (Parsergen.cursor item)) in * by lia.
  set (rest := drop (S (Parsergen.cursor item)) (Parsergen.rhs (Parsergen.rule item))) in *.
  assert (∀ b, b ∈ (if empty then follow ∪ {[Parsergen.lookahead item]} else follow) ↔
            lr_first rest b ∨ (lr_null rest ∧ b = Parsergen.lookahead item)) as Hb.
  { intros b. destruct empty.
    - rewrite elem_of_union, elem_of_singleton, Hfollow.
      assert (lr_null rest) by by apply Hempty. set_solver.
    - rewrite Hfollow. assert (¬ lr_null rest) by (intros ?%Hempty; done). set_solver. }
  split_and!; simpl.
  - intros it [Hit|[Hit|(rule & b & Hr & Hl & Hbf & ->)]%closure_expand_spec];
      [apply Hsound'; by left|apply Hsound'; by right|].
    apply (lr_closure_step kernel item non_terminal rule b); [|done|done| |done|done].
    + apply Hsound. right. by left.
    + by apply Hb.
  - intros it [?|?]%Hkernel'; [by left|right]. apply closure_expand_spec. by left.
  - intros it B rule b [Hit| ->%elem_of_singleton]%elem_of_union HB HN Hbb Hr Hl.
    + destruct (Hold it B rule b Hit HB HN Hbb Hr Hl) as [?|?]; [by left|right].
      apply closure_expand_spec. by left.
    + right. apply closure_expand_spec. right. exists rule, b.
      assert (B = non_terminal) as -> by congruence.
      split_and!; [done|done| |done]. by apply Hb.
Qed.

Lemma closure_lr_closure fuel kernel state :
  Parsergen.closure NIL fuel g kernel = Some state →
  ∀ item, item ∈ state ↔ lr_closure kernel item.
Proof.
  unfold Parsergen.closure. intros ([state' stack] & Hrun & [= <-])%fmap_Some.
  apply (while_pop_partial _ _ (lr_closure_inv kernel)) in Hrun
    as [(Hsound & Hkernel & Hclosed) Hpop].
  - simpl in *. unfold Parsergen.closure_pop in Hpop. simpl in Hpop.
    destruct stack as [|? ?]; [|done].
    assert (∀ it, it ∉ ([] : list Parsergen.Item)) as Hnil by (intros it; apply not_elem_of_nil).
    intros item. split; [intros ?; apply Hsound; by left|].
    induction 1 as [item Hitem|item B rule b _ IH HB HN Hb Hr Hl].
    + destruct (Hkernel item Hitem) as [?|?%Hnil]; done.
    + destruct (Hclosed item B rule b IH HB HN Hb Hr Hl) as [?|?%Hnil]; done.
  - clear Hrun. intros [state0 stack0] item [state1 stack1] st2 Hinv Hpop Hbody.
    unfold Parsergen.closure_pop in Hpop. simpl in Hpop.
    destruct stack0 as [|item' stack0]; simplify_eq.
    by apply (closure_body_inv kernel item (state1, stack1)).
  - split_and!; simpl.
    + intros item [Hin|Hin]; [by apply elem_of_empty in Hin|].
      rewrite elem_of_reverse in Hin. by apply lr_closure_kernel.
    + intros item Hin. right. by rewrite elem_of_reverse.
    + intros item B rule b Hin. by apply elem_of_empty in Hin.
Qed.

End lr_closure.

(** X18: [closure] computes the LR(1) closure.  On a generator whose [first]
    has a set for every non-terminal of a right-hand side, and a kernel of
    items of the grammar, [closure] returns, and the state it returns is the
    least set of items that holds the kernel and, with an item
    [A -> X . B Y, a] and a rule [B -> Z], every item [B -> . Z, b] with [b]
    in FIRST of [Y a].  The state is the same whatever the order of the
    kernel, and of the enumeration of the sets, is. *)
Theorem closure_least_fixed_point `{IterOrder} (END NIL : Z) (g : Parsergen.t)
    (kernel : list Parsergen.Item) :
  (∀ r s, r ∈ Parsergen.rules g → s ∈ Parsergen.rhs r → s ∉ Parsergen.terminals g →
          is_Some (Py.getitem (Parsergen.first g) s)) →
  Forall (item_ok END g) kernel →
  ∃ state fuel0,
    (∀ fuel, (fuel0 ≤ fuel)%nat → Parsergen.closure NIL fuel g kernel = Some state)
    ∧ (∀ fuel state', Parsergen.closure NIL fuel g kernel = Some state' → state' = state)
    ∧ (∀ item, item ∈ state ↔ lr_closure NIL g kernel item).
Proof.
  intros Hfirst Hkernel.
  set (fuel0 := S (size (item_universe END g) * S (lr_closure_width END g) + length kernel)).
  destruct (lr_closure_total END NIL g Hfirst fuel0 kernel Hkernel) as (state & Hrun & _);
    [unfold fuel0; lia|].
  pose proof (closure_lr_closure NIL g fuel0 kernel state Hrun) as Hstate.
  assert (∀ fuel state', Parsergen.closure NIL fuel g kernel = Some state' → state' = state)
    as Hsame.
  { intros fuel state' Hrun'. apply set_eq. intros item.
    by rewrite Hstate, (closure_lr_closure NIL g fuel kernel state' Hrun'). }
  exists state, fuel0. split_and!; [|done|done].
  intros fuel Hfuel.
  destruct (lr_closure_total END NIL g Hfirst fuel kernel Hkernel) as (state' & Hrun' & _);
    [unfold fuel0 in Hfuel; lia|].
  by rewrite Hrun', (Hsame fuel state' Hrun').
Qed.

Lemma closure_least_fixed_point_witness :
  ∃ state fuel0,
    (∀ fuel, (fuel0 ≤ fuel)%nat →
       Parsergen.closure (H:=forward_order) (-2) fuel cc_generator
         [Parsergen.mk_item (Parsergen.mk_production 0 0 [1]) 0 (-1)] = Some state)
    ∧ (∀ fuel state',
         Parsergen.closure (H:=forward_order) (-2) fuel cc_generator
           [Parsergen.mk_item (Parsergen.mk_production 0 0 [1]) 0 (-1)] = Some state' →
         state' = state)
    ∧ (∀ item, item ∈ state ↔
         lr_closure (-2) cc_generator
           [Parsergen.mk_item (Parsergen.mk_production 0 0 [1]) 0 (-1)] item).
Proof.
  apply (closure_least_fixed_point (H:=forward_order) (-1) (-2) cc_generator).
  - assert (forallb (λ r, forallb (λ s, bool_decide (s ∈ Parsergen.terminals cc_generator)
                                        || bool_decide
                                             (is_Some (Py.getitem (Parsergen.first cc_generator) s)))
                            (Parsergen.rhs r)) (Parsergen.rules cc_generator) = true) as Hall
      by (vm_compute; reflexivity).
    intros r s Hr Hs Hterm.
    apply list_elem_of_In in Hr, Hs.
    pose proof (proj1 (forallb_forall _ _) (proj1 (forallb_forall _ _) Hall r Hr) s Hs) as Hrs.
    apply orb_true_iff in Hrs as [Ht%bool_decide_eq_true|Hf%bool_decide_eq_true]; done.
  - constructor; [|constructor]. split_and!; simpl.
    + unfold cc_generator, cc_input, Parsergen.make_rules. simpl. by left.
    + lia.
    + unfold lookaheads. set_solver.
Defined.

(** ** The callbacks of [regexpr]: Thompson's construction *)

(** Every transition joins states that [add_state] has handed out. *)
Definition allocated (n : NFA.t) : Prop :=
  ∀ s c t, t ∈ NFA.delta n s c → s ≤ NFA.next_state n ∧ t ≤ NFA.next_state n.

(** A part of the NFA with the entry state [entry] and the exit state
    [exit]: its states [S] are closed under the transitions, and no
    transition leaves [exit]. *)
Definition fragment_ok (n : NFA.t) (S : gset Z) (entry exit : Z) : Prop :=
  entry ∈ S ∧ exit ∈ S
  ∧ (∀ s, s ∈ S → s ≤ NFA.next_state n)
  ∧ (∀ s c t, s ∈ S → t ∈ NFA.delta n s c → t ∈ S)
  ∧ (∀ c, NFA.delta n exit c = ∅).

(** [n'] is [n] with more states and with more transitions from the states
    [S] only. *)
Definition extends (n n' : NFA.t) (S : gset Z) : Prop :=
  NFA.next_state n ≤ NFA.next_state n'
  ∧ allocated n'
  ∧ NFA.outputs n' = NFA.outputs n
  ∧ NFA.initial_state n' = NFA.initial_state n
  ∧ (∀ s c, NFA.delta n s c ⊆ NFA.delta n' s c)
  ∧ (∀ s c, s ∉ S → NFA.delta n' s c = NFA.delta n s c).

Lemma byte_neq_epsilon c : is_byte c → c ≠ EPSILON.
Proof. unfold is_byte, EPSILON, NUM_CHARS. lia. Qed.

Lemma path_mono n n' s w t :
  (∀ s c, NFA.delta n s c ⊆ NFA.delta n' s c) → NFA.path n s w t → NFA.path n' s w t.
Proof.
  intros Hsub. induction 1 as [s|s s' u w Hs' _ IH|s c s' u w Hc Hs' _ IH].
  - constructor.
  - eapply NFA.path_eps; [|done]. by apply Hsub.
  - eapply NFA.path_sym; [done| |done]. by apply Hsub.
Qed.

(** A path that starts in a set closed under the transitions stays there,
    and is a path of every NFA with the same transitions from the set. *)
Lemma path_closed n n' (S : gset Z) s w t :
  (∀ s c t, s ∈ S → t ∈ NFA.delta n' s c → t ∈ NFA.delta n s c ∧ t ∈ S) →
  s ∈ S → NFA.path n' s w t → NFA.path n s w t ∧ t ∈ S.
Proof.
  intros Hclosed Hs Hp. induction Hp as [s|s s' u w Hs' _ IH|s c s' u w Hc Hs' _ IH].
  - split; [constructor|done].
  - destruct (Hclosed _ _ _ Hs Hs') as [Hold HS]. destruct (IH HS) as [Hp Hu].
    split; [|done]. by eapply NFA.path_eps.
  - destruct (Hclosed _ _ _ Hs Hs') as [Hold HS]. destruct (IH HS) as [Hp Hu].
    split; [|done]. by eapply NFA.path_sym.
Qed.

Lemma path_stuck n s w t : (∀ c, NFA.delta n s c = ∅) → NFA.path n s w t → w = [] ∧ t = s.
Proof.
  intros Hstuck Hp. destruct Hp as [s|s s' u w Hs'|s c s' u w Hc Hs']; [done|..];
    rewrite Hstuck in Hs'; by apply elem_of_empty in Hs'.
Qed.

(** The paths that leave a fragment whose exit state has got ε-transitions
    to the states [T]: such a path runs through the fragment from its entry
    to its exit as often as it comes back to the entry, and then goes on
    from a state of [T] outside the fragment. *)
Lemma path_leaves n n' (S T : gset Z) qa qb s w t :
  (∀ s c t, s ∈ S → t ∈ NFA.delta n' s c →
     (t ∈ NFA.delta n s c ∧ t ∈ S) ∨ (s = qb ∧ c = EPSILON ∧ t ∈ T)) →
  (∀ x, x ∈ T → x ∈ S → x = qa) →
  s ∈ S → t ∉ S → NFA.path n' s w t →
  ∃ w0 ws x w', w = w0 ++ concat ws ++ w'
    ∧ NFA.path n s w0 qb
    ∧ Forall (λ v, NFA.path n qa v qb) ws
    ∧ (ws ≠ [] → qa ∈ T)
    ∧ x ∈ T ∧ x ∉ S ∧ NFA.path n' x w' t.
Proof.
  intros Hedges Hback Hs Ht Hp.
  induction Hp as [s|s s' u w Hs' Hp IH|s c s' u w Hc Hs' Hp IH].
  - done.
  - destruct (Hedges _ _ _ Hs Hs') as [[Hold HS]|(-> & _ & HT)].
    + destruct (IH HS Ht) as (w0 & ws & x & w' & -> & Hw0 & Hws & Hne & Hx & HxS & Hw').
      exists w0, ws, x, w'. split_and!; try done. by eapply NFA.path_eps.
    + destruct (decide (s' ∈ S)) as [HS|HS].
      * assert (s' = qa) as -> by by apply Hback.
        destruct (IH HS Ht) as (w0 & ws & x & w' & -> & Hw0 & Hws & Hne & Hx & HxS & Hw').
        exists [], (w0 :: ws), x, w'. split_and!; try done.
        -- simpl. by rewrite <- app_assoc.
        -- constructor.
        -- by constructor.
      * exists [], [], s', w. split_and!; try done; constructor.
  - destruct (Hedges _ _ _ Hs Hs') as [[Hold HS]|(_ & -> & _)];
      [|by apply byte_neq_epsilon in Hc].
    destruct (IH HS Ht) as (w0 & ws & x & w' & -> & Hw0 & Hws & Hne & Hx & HxS & Hw').
    exists (c :: w0), ws, x, w'. split_and!; try done. by eapply NFA.path_sym.
Qed.

(** The NFA after two calls of [add_state]. *)
Definition grown (n : NFA.t) : NFA.t :=
  NFA.mk (NFA.next_state n + 2) (NFA.transitions n) (NFA.outputs n) (NFA.initial_state n).

Lemma delta_grown n s c : NFA.delta (grown n) s c = NFA.delta n s c.
Proof. done. Qed.

Lemma add_state_twice n :
  NFA.add_state (NFA.add_state n).1 = (grown n, NFA.next_state n + 2).
Proof.
  unfold NFA.add_state, grown. simpl.
  by replace (NFA.next_state n + 1 + 1) with (NFA.next_state n + 2) by lia.
Qed.

Lemma allocated_fresh n s c : allocated n → NFA.next_state n < s → NFA.delta n s c = ∅.
Proof.
  intros Hn Hs. apply set_eq. intros t. split; [|by intros ?%elem_of_empty].
  intros [? _]%Hn. lia.
Qed.

Lemma allocated_no_edge_to n s c t : allocated n → NFA.next_state n < t → t ∉ NFA.delta n s c.
Proof. intros Hn Ht [_ ?]%Hn. lia. Qed.

(** X19: [r9] adds two states and a transition on the code point of the
    token: the new part of the NFA has a path from its entry to its exit on
    the one-byte word of the code point, and on no other word.  The
    transitions of the states that were there are kept.  (A code point 256
    would give an ε-transition, and the empty word.) *)
Theorem r9_character (n : NFA.t) (output c : Z) rest :
  allocated n →
  let q0 := NFA.next_state n + 1 in
  let q1 := NFA.next_state n + 2 in
  ∃ n', Reductions.r9 (Reductions.Codepoint c :: rest) (n, output)
        = Some (Reductions.Fragment q0 q1, n')
    ∧ fragment_ok n' {[q0; q1]} q0 q1
    ∧ extends n n' {[q0; q1]}
    ∧ ∀ w, NFA.path n' q0 w q1 ↔ (is_byte c ∧ w = [c]) ∨ (c = EPSILON ∧ w = []).
Proof.
  intros Hn q0 q1. unfold Reductions.r9, Reductions.codepoint.
  rewrite getitem_nonneg by (simpl; lia).
  destruct (NFA.add_state n) as [n1 q] eqn:Hadd1.
  pose proof (add_state_twice n) as Hadd2. rewrite Hadd1 in Hadd2. simpl in Hadd2.
  rewrite Hadd2. injection Hadd1 as <- <-. simpl. eexists. split; [reflexivity|].
  clear Hadd2. set (n' := NFA.add_transition (grown n) _ _ c). fold q0 q1 in n'.
  assert (∀ s c' t, t ∈ NFA.delta n' s c' ↔
            t ∈ NFA.delta n s c' ∨ (s = q0 ∧ c' = c ∧ t = q1)) as Hdelta.
  { intros s c' t. unfold n'. rewrite delta_add_transition, delta_grown.
    case_decide; set_solver. }
  assert (∀ c', NFA.delta n' q1 c' = ∅) as Hq1.
  { intros c'. apply set_eq. intros t. rewrite Hdelta.
    rewrite (allocated_fresh n q1 c' Hn) by (unfold q1; lia). unfold q0, q1. set_solver by lia. }
  assert (∀ c' t, t ∈ NFA.delta n' q0 c' ↔ c' = c ∧ t = q1) as Hq0.
  { intros c' t. rewrite Hdelta. rewrite (allocated_fresh n q0 c' Hn) by (unfold q0; lia).
    set_solver. }
  split_and!.
  - split_and!; [set_solver|set_solver| | |done].
    + intros s Hs. unfold n'. simpl. unfold q0, q1 in Hs. set_solver by lia.
    + intros s c' t [->%elem_of_singleton| ->%elem_of_singleton]%elem_of_union Ht.
      * apply Hq0 in Ht as [_ ->]. set_solver.
      * rewrite Hq1 in Ht. by apply elem_of_empty in Ht.
  - split_and!.
    + unfold n'. simpl. lia.
    + intros s c' t [Ht|(-> & -> & ->)]%Hdelta; unfold n'; simpl.
      * apply Hn in Ht. lia.
      * unfold q0, q1. lia.
    + done.
    + done.
    + intros s c' t Ht. apply Hdelta. by left.
    + intros s c' Hs. apply set_eq. intros t. rewrite Hdelta. set_solver.
  - intros w. split.
    + intros Hp. inversion Hp as [s Hw Heq|s s' u w' Hs' Hp'|s c' s' u w' Hc Hs' Hp']; subst.
      * unfold q0, q1 in *. lia.
      * apply Hq0 in Hs' as [<- ->]. apply (path_stuck _ _ _ _ Hq1) in Hp' as [-> _]. by right.
      * apply Hq0 in Hs' as [-> ->]. apply (path_stuck _ _ _ _ Hq1) in Hp' as [-> _]. by left.
    + intros [[Hc ->]|[-> ->]].
      * eapply NFA.path_sym; [done| |constructor]. by apply Hq0.
      * eapply NFA.path_eps; [|constructor]. by apply Hq0.
Qed.

Lemma allocated_new : allocated NFA.new.
Proof. intros s c t Ht. by apply elem_of_empty in Ht. Qed.

Lemma r9_character_witness :
  let q0 := NFA.next_state NFA.new + 1 in
  let q1 := NFA.next_state NFA.new + 2 in
  ∃ n', Reductions.r9 [Reductions.Codepoint 97] (NFA.new, 7)
        = Some (Reductions.Fragment q0 q1, n')
    ∧ fragment_ok n' {[q0; q1]} q0 q1
    ∧ extends NFA.new n' {[q0; q1]}
    ∧ ∀ w, NFA.path n' q0 w q1 ↔ (is_byte 97 ∧ w = [97]) ∨ (97 = EPSILON ∧ w = []).
Proof. apply (r9_character NFA.new 7 97 []). apply allocated_new. Defined.

Lemma delta_add_transitions n q0 q1 (l : list Z) s c t :
  t ∈ NFA.delta (foldl (λ nfa c, NFA.add_transition nfa q0 q1 c) n l) s c ↔
  t ∈ NFA.delta n s c ∨ (s = q0 ∧ c ∈ l ∧ t = q1).
Proof.
  revert n. induction l as [|x l IH]; intros n; simpl.
  - split; [by left|]. by intros [?|(_ & ?%elem_of_nil & _)].
  - rewrite IH, delta_add_transition, elem_of_cons. case_decide; set_solver.
Qed.

Lemma next_state_add_transitions n q0 q1 (l : list Z) :
  NFA.next_state (foldl (λ nfa c, NFA.add_transition nfa q0 q1 c) n l) = NFA.next_state n
  ∧ NFA.outputs (foldl (λ nfa c, NFA.add_transition nfa q0 q1 c) n l) = NFA.outputs n
  ∧ NFA.initial_state (foldl (λ nfa c, NFA.add_transition nfa q0 q1 c) n l)
    = NFA.initial_state n.
Proof.
  revert n. induction l as [|x l IH]; intros n; simpl; [done|].
  destruct (IH (NFA.add_transition n q0 q1 x)) as (-> & -> & ->). done.
Qed.

(** X20: [r11] adds two states and a transition on every member of the
    character class: the new part of the NFA has a path from its entry to
    its exit on the one-byte words of the bytes of the class, and on no other
    word.  The transitions of the states that were there are kept.  (A
    member 256 would give an ε-transition, and the empty word.) *)
Theorem r11_character_class `{IterOrder} (n : NFA.t) (output : Z) (X : gset Z) t0 rest :
  allocated n →
  let q0 := NFA.next_state n + 1 in
  let q1 := NFA.next_state n + 2 in
  ∃ n', Reductions.r11 (t0 :: Reductions.Chars X :: rest) (n, output)
        = Some (Reductions.Fragment q0 q1, n')
    ∧ fragment_ok n' {[q0; q1]} q0 q1
    ∧ extends n n' {[q0; q1]}
    ∧ ∀ w, NFA.path n' q0 w q1 ↔
           (∃ c, c ∈ X ∧ is_byte c ∧ w = [c]) ∨ (EPSILON ∈ X ∧ w = []).
Proof.
  intros Hn q0 q1. unfold Reductions.r11, Reductions.chars.
  rewrite getitem_nonneg by (simpl; lia).
  destruct (NFA.add_state n) as [n1 q] eqn:Hadd1.
  pose proof (add_state_twice n) as Hadd2. rewrite Hadd1 in Hadd2. simpl in Hadd2.
  rewrite Hadd2. injection Hadd1 as <- <-. simpl. eexists. split; [reflexivity|].
  clear Hadd2. set (n' := foldl _ (grown n) (iter X)). fold q0 q1 in n'.
  assert (∀ s c t, t ∈ NFA.delta n' s c ↔
            t ∈ NFA.delta n s c ∨ (s = q0 ∧ c ∈ X ∧ t = q1)) as Hdelta.
  { intros s c t. unfold n'. rewrite delta_add_transitions, delta_grown.
    by rewrite elem_of_iter. }
  destruct (next_state_add_transitions (grown n) q0 q1 (iter X)) as (Hnext & Hout & Hinit).
  fold n' in Hnext, Hout, Hinit. simpl in Hnext, Hout, Hinit.
  assert (∀ c, NFA.delta n' q1 c = ∅) as Hq1.
  { intros c. apply set_eq. intros t. rewrite Hdelta.
    rewrite (allocated_fresh n q1 c Hn) by (unfold q1; lia). unfold q0, q1. set_solver by lia. }
  assert (∀ c t, t ∈ NFA.delta n' q0 c ↔ c ∈ X ∧ t = q1) as Hq0.
  { intros c t. rewrite Hdelta. rewrite (allocated_fresh n q0 c Hn) by (unfold q0; lia).
    set_solver. }
  split_and!.
  - split_and!; [set_solver|set_solver| | |done].
    + intros s Hs. rewrite Hnext. unfold q0, q1 in Hs. set_solver by lia.
    + intros s c t [->%elem_of_singleton| ->%elem_of_singleton]%elem_of_union Ht.
      * apply Hq0 in Ht as [_ ->]. set_solver.
      * rewrite Hq1 in Ht. by apply elem_of_empty in Ht.
  - split_and!.
    + rewrite Hnext. lia.
    + intros s c t [Ht|(-> & _ & ->)]%Hdelta; rewrite Hnext.
      * apply Hn in Ht. lia.
      * unfold q0, q1. lia.
    + done.
    + done.
    + intros s c t Ht. apply Hdelta. by left.
    + intros s c Hs. apply set_eq. intros t. rewrite Hdelta. set_solver.
  - intros w. split.
    + intros Hp. inversion Hp as [s Hw Heq|s s' u w' Hs' Hp'|s c s' u w' Hc Hs' Hp']; subst.
      * unfold q0, q1 in *. lia.
      * apply Hq0 in Hs' as [HX ->]. apply (path_stuck _ _ _ _ Hq1) in Hp' as [-> _]. by right.
      * apply Hq0 in Hs' as [HX ->]. apply (path_stuck _ _ _ _ Hq1) in Hp' as [-> _].
        left. by exists c.
    + intros [(c & HX & Hc & ->)|[HX ->]].
      * eapply NFA.path_sym; [done| |constructor]. by apply Hq0.
      * eapply NFA.path_eps; [|constructor]. by apply Hq0.
Qed.

Lemma r11_character_class_witness :
  let q0 := NFA.next_state NFA.new + 1 in
  let q1 := NFA.next_state NFA.new + 2 in
  ∃ n', Reductions.r11 (H:=forward_order)
          [Reductions.Codepoint 91; Reductions.Chars {[97; 98]}; Reductions.Codepoint 93]
          (NFA.new, 7)
        = Some (Reductions.Fragment q0 q1, n')
    ∧ fragment_ok n' {[q0; q1]} q0 q1
    ∧ extends NFA.new n' {[q0; q1]}
    ∧ ∀ w, NFA.path n' q0 w q1 ↔
           (∃ c, c ∈ ({[97; 98]} : gset Z) ∧ is_byte c ∧ w = [c])
           ∨ (EPSILON ∈ ({[97; 98]} : gset Z) ∧ w = []).
Proof.
  apply (r11_character_class (H:=forward_order) NFA.new 7 {[97; 98]}
           (Reductions.Codepoint 91) [Reductions.Codepoint 93]).
  apply allocated_new.
Defined.

Lemma path_from_entry n q0 (T : gset Z) w t :
  (∀ c x, x ∈ NFA.delta n q0 c ↔ c = EPSILON ∧ x ∈ T) →
  NFA.path n q0 w t → (w = [] ∧ t = q0) ∨ ∃ x, x ∈ T ∧ NFA.path n x w t.
Proof.
  intros Hq0 Hp. destruct Hp as [s|s s' u w Hs' Hp|s c s' u w Hc Hs' Hp].
  - by left.
  - apply Hq0 in Hs' as [_ Hs']. right. eauto.
  - apply Hq0 in Hs' as [-> _]. by apply byte_neq_epsilon in Hc.
Qed.

Lemma path_loop n qa qb q1 ws :
  qa ∈ NFA.delta n qb EPSILON → q1 ∈ NFA.delta n qb EPSILON →
  Forall (λ v, NFA.path n qa v qb) ws → NFA.path n qb (concat ws) q1.
Proof.
  intros Hback Hout. induction 1 as [|v ws Hv _ IH]; simpl.
  - apply (NFA.path_eps n qb q1); [done|constructor].
  - apply (NFA.path_eps n qb qa); [done|]. by eapply path_app.
Qed.

(** Two new states around a part [S] of the NFA, and ε-transitions [E] from
    and to the states of the whole. *)
Lemma wrap_ok n n' (S : gset Z) (E : list (Z * Z)) :
  allocated n →
  NFA.next_state n' = NFA.next_state n + 2 →
  NFA.outputs n' = NFA.outputs n →
  NFA.initial_state n' = NFA.initial_state n →
  (∀ s c t, t ∈ NFA.delta n' s c ↔ t ∈ NFA.delta n s c ∨ (c = EPSILON ∧ (s, t) ∈ E)) →
  (∀ s, s ∈ S → s ≤ NFA.next_state n) →
  (∀ s c t, s ∈ S → t ∈ NFA.delta n s c → t ∈ S) →
  let q0 := NFA.next_state n + 1 in
  let q1 := NFA.next_state n + 2 in
  (∀ s t, (s, t) ∈ E → s ∈ S ∪ {[q0; q1]} ∧ t ∈ S ∪ {[q0; q1]} ∧ s ≠ q1) →
  fragment_ok n' (S ∪ {[q0; q1]}) q0 q1 ∧ extends n n' (S ∪ {[q0; q1]}).
Proof.
  intros Hn Hnext Hout Hinit Hdelta Hbound Hclosed q0 q1 HE.
  assert (∀ s, s ∈ S ∪ {[q0; q1]} → s ≤ NFA.next_state n + 2) as Hbound'.
  { intros s [Hs%Hbound|Hs]%elem_of_union; [lia|]. unfold q0, q1 in Hs. set_solver by lia. }
  split.
  - split_and!; [set_solver|set_solver| | |].
    + intros s Hs%Hbound'. lia.
    + intros s c t Hs [Ht|[_ Hst]]%Hdelta; [|by apply HE in Hst as (_ & ? & _)].
      apply elem_of_union in Hs as [Hs|Hs]; [apply elem_of_union_l; by eapply Hclosed|].
      rewrite allocated_fresh in Ht; [by apply elem_of_empty in Ht|done|].
      unfold q0, q1 in Hs. set_solver by lia.
    + intros c. apply set_eq. intros t. split; [|by intros ?%elem_of_empty].
      intros [Ht|[_ Hst]]%Hdelta; [|by apply HE in Hst as (_ & _ & ?)].
      rewrite allocated_fresh in Ht; [done|done|unfold q1; lia].
  - split_and!; [lia| |done|done| |].
    + intros s c t [Ht|[_ Hst]]%Hdelta; rewrite Hnext.
      * apply Hn in Ht. lia.
      * apply HE in Hst as (Hs%Hbound' & Ht%Hbound' & _). done.
    + intros s c t Ht. apply Hdelta. by left.
    + intros s c Hs. apply set_eq. intros t. rewrite Hdelta. split; [|by left].
      intros [?|[_ Hst]]; [done|]. by apply HE in Hst as (? & _).
Qed.

(** X21: [r3] joins two parts of the NFA by an ε-transition from the exit of
    the first to the entry of the second: the whole has a path from the
    entry of the first to the exit of the second exactly on the words made
    of a word of the first and a word of the second.  The transitions of the
    other states are kept. *)
Theorem r3_concatenation (n : NFA.t) (output : Z) (SA SB : gset Z) qa qb qc qd rest :
  allocated n → fragment_ok n SA qa qb → fragment_ok n SB qc qd → SA ## SB →
  ∃ n', Reductions.r3 (Reductions.Fragment qa qb :: Reductions.Fragment qc qd :: rest)
          (n, output)
        = Some (Reductions.Fragment qa qd, n')
    ∧ fragment_ok n' (SA ∪ SB) qa qd
    ∧ extends n n' (SA ∪ SB)
    ∧ ∀ w, NFA.path n' qa w qd ↔
           ∃ w1 w2, w = w1 ++ w2 ∧ NFA.path n qa w1 qb ∧ NFA.path n qc w2 qd.
Proof.
  intros Hn (Hqa & Hqb & HbA & HcA & HfA) (Hqc & Hqd & HbB & HcB & HfB) Hdisj.
  unfold Reductions.r3, Reductions.fragment.
  rewrite !getitem_nonneg by (simpl; lia). simpl. eexists. split; [reflexivity|].
  set (n' := NFA.add_transition n qb qc EPSILON).
  assert (∀ s c t, t ∈ NFA.delta n' s c ↔
            t ∈ NFA.delta n s c ∨ (s = qb ∧ c = EPSILON ∧ t = qc)) as Hdelta.
  { intros s c t. unfold n'. rewrite delta_add_transition. case_decide; set_solver. }
  assert (∀ s c, NFA.delta n s c ⊆ NFA.delta n' s c) as Hmono.
  { intros s c t Ht. apply Hdelta. by left. }
  split_and!.
  - split_and!; [set_solver|set_solver| | |].
    + intros s [?%HbA|?%HbB]%elem_of_union; done.
    + intros s c t Hs [Ht|(-> & -> & ->)]%Hdelta; [|set_solver].
      apply elem_of_union in Hs as [Hs|Hs];
        [apply elem_of_union_l; by eapply HcA|apply elem_of_union_r; by eapply HcB].
    + intros c. apply set_eq. intros t. rewrite Hdelta, HfB. set_solver.
  - split_and!; [done| |done|done|done|].
    + intros s c t [Ht|(-> & -> & ->)]%Hdelta; [by apply Hn in Ht|].
      split; [by apply HbA|by apply HbB].
    + intros s c Hs. apply set_eq. intros t. rewrite Hdelta. set_solver.
  - intros w. split.
    + intros Hp.
      destruct (path_leaves n n' SA {[qc]} qa qb qa w qd)
        as (w0 & ws & x & w' & -> & Hw0 & Hws & Hne & ->%elem_of_singleton & _ & Hw');
        [|set_solver|done|set_solver|done|].
      { intros s c t Hs [Ht|(-> & -> & ->)]%Hdelta; [left|right; set_solver].
        split; [done|]. by eapply HcA. }
      destruct ws as [|v ws]; [|exfalso; set_solver].
      apply (path_closed n n' SB) in Hw' as [Hw' _]; [|clear Hw'|done].
      * exists w0, w'. by rewrite app_nil_l.
      * intros s c t Hs [Ht|(-> & -> & ->)]%Hdelta; [|set_solver].
        split; [done|]. by eapply HcB.
    + intros (w1 & w2 & -> & Hw1 & Hw2).
      eapply path_app; [by eapply path_mono|].
      eapply NFA.path_eps; [apply Hdelta; by right|]. by eapply path_mono.
Qed.

(** The hypotheses on an NFA that is given, checked by computation. *)
Lemma delta_lookup n s c t :
  t ∈ NFA.delta n s c ↔ ∃ T, NFA.transitions n !! (s, c) = Some T ∧ t ∈ T.
Proof.
  unfold NFA.delta. destruct (NFA.transitions n !! (s, c)) as [T|]; simpl.
  - split; [by eauto|]. by intros (T' & [= <-] & ?).
  - split; [by intros ?%elem_of_empty|]. by intros (T' & ? & _).
Qed.

Lemma allocated_check n :
  map_Forall (λ k T, k.1 ≤ NFA.next_state n ∧ set_Forall (λ t, t ≤ NFA.next_state n) T)
    (NFA.transitions n) →
  allocated n.
Proof.
  intros Hall s c t (T & HT & Ht)%delta_lookup.
  destruct (Hall _ _ HT) as [Hs HT']. split; [done|]. by apply HT'.
Qed.

Lemma fragment_ok_check n (S : gset Z) entry exit :
  entry ∈ S → exit ∈ S →
  set_Forall (λ s, s ≤ NFA.next_state n) S →
  map_Forall (λ k T, (k.1 ∈ S → T ⊆ S) ∧ (k.1 = exit → T = ∅)) (NFA.transitions n) →
  fragment_ok n S entry exit.
Proof.
  intros Hentry Hexit Hbound Hall. split_and!; [done|done|done| |].
  - intros s c t Hs (T & HT & Ht)%delta_lookup. destruct (Hall _ _ HT) as [Hsub _].
    by apply Hsub.
  - intros c. apply set_eq. intros t. split; [|by intros ?%elem_of_empty].
    intros (T & HT & Ht)%delta_lookup. destruct (Hall _ _ HT) as [_ Hemp].
    rewrite Hemp in Ht; done.
Qed.

(** The parts that [r9] builds for [a] and then for [b]. *)
Definition two_letters : NFA.t :=
  NFA.mk 3 {[(0, 97) := {[1]}; (2, 98) := {[3]}]} ∅ (-1).

Lemma two_letters_allocated : allocated two_letters.
Proof. apply allocated_check. compute_done. Qed.

Lemma two_letters_first : fragment_ok two_letters {[0; 1]} 0 1.
Proof. apply fragment_ok_check; compute_done. Qed.

Lemma two_letters_second : fragment_ok two_letters {[2; 3]} 2 3.
Proof. apply fragment_ok_check; compute_done. Qed.

Lemma r3_concatenation_witness :
  ∃ n', Reductions.r3 [Reductions.Fragment 0 1; Reductions.Fragment 2 3] (two_letters, 7)
        = Some (Reductions.Fragment 0 3, n')
    ∧ fragment_ok n' ({[0; 1]} ∪ {[2; 3]}) 0 3
    ∧ extends two_letters n' ({[0; 1]} ∪ {[2; 3]})
    ∧ ∀ w, NFA.path n' 0 w 3 ↔
           ∃ w1 w2, w = w1 ++ w2 ∧ NFA.path two_letters 0 w1 1 ∧ NFA.path two_letters 2 w2 3.
Proof.
  apply (r3_concatenation two_letters 7 {[0; 1]} {[2; 3]} 0 1 2 3 []).
  - apply two_letters_allocated.
  - apply two_letters_first.
  - apply two_letters_second.
  - compute_done.
Defined.

Lemma delta_edges n (E : list (Z * Z)) s c t :
  t ∈ NFA.delta (foldl (λ nfa e, NFA.add_transition nfa e.1 e.2 EPSILON) n E) s c ↔
  t ∈ NFA.delta n s c ∨ (c = EPSILON ∧ (s, t) ∈ E).
Proof.
  revert n. induction E as [|[x y] E IH]; intros n; simpl.
  - split; [by left|]. by intros [?|[_ ?%elem_of_nil]].
  - rewrite IH, delta_add_transition, elem_of_cons. case_decide; set_solver.
Qed.

Lemma fields_edges n (E : list (Z * Z)) :
  NFA.next_state (foldl (λ nfa e, NFA.add_transition nfa e.1 e.2 EPSILON) n E)
  = NFA.next_state n
  ∧ NFA.outputs (foldl (λ nfa e, NFA.add_transition nfa e.1 e.2 EPSILON) n E) = NFA.outputs n
  ∧ NFA.initial_state (foldl (λ nfa e, NFA.add_transition nfa e.1 e.2 EPSILON) n E)
    = NFA.initial_state n.
Proof.
  revert n. induction E as [|[x y] E IH]; intros n; simpl; [done|].
  destruct (IH (NFA.add_transition n x y EPSILON)) as (-> & -> & ->). done.
Qed.

(** Two new states and the ε-transitions [E] around the part [S]. *)
Lemma wrap_edges n (S : gset Z) (E : list (Z * Z)) :
  allocated n →
  (∀ s, s ∈ S → s ≤ NFA.next_state n) →
  (∀ s c t, s ∈ S → t ∈ NFA.delta n s c → t ∈ S) →
  let q0 := NFA.next_state n + 1 in
  let q1 := NFA.next_state n + 2 in
  let n' := foldl (λ nfa e, NFA.add_transition nfa e.1 e.2 EPSILON) (grown n) E in
  (∀ s t, (s, t) ∈ E → s ∈ S ∪ {[q0; q1]} ∧ t ∈ S ∪ {[q0; q1]} ∧ s ≠ q1) →
  fragment_ok n' (S ∪ {[q0; q1]}) q0 q1 ∧ extends n n' (S ∪ {[q0; q1]})
  ∧ (∀ s c t, t ∈ NFA.delta n' s c ↔ t ∈ NFA.delta n s c ∨ (c = EPSILON ∧ (s, t) ∈ E))
  ∧ (∀ c, NFA.delta n' q1 c = ∅)
  ∧ (∀ c x, x ∈ NFA.delta n' q0 c ↔ c = EPSILON ∧ (q0, x) ∈ E).
Proof.
  intros Hn Hbound Hclosed q0 q1 n' HE.
  assert (∀ s c t, t ∈ NFA.delta n' s c ↔ t ∈ NFA.delta n s c ∨ (c = EPSILON ∧ (s, t) ∈ E))
    as Hdelta.
  { intros s c t. unfold n'. by rewrite delta_edges, delta_grown. }
  destruct (fields_edges (grown n) E) as (Hnext & Hout & Hinit). fold n' in Hnext, Hout, Hinit.
  destruct (wrap_ok n n' S E Hn Hnext Hout Hinit Hdelta Hbound Hclosed HE) as [Hok Hext].
  split_and!; [done|done|done|apply Hok|].
  intros c x. rewrite Hdelta. rewrite (allocated_fresh n q0 c Hn) by (unfold q0; lia).
  set_solver.
Qed.

(** X22: [r1] puts two new states around two parts of the NFA, with
    ε-transitions from the new entry to the two entries and from the two
    exits to the new exit: the whole has a path from its entry to its exit
    exactly on the words of the first part and on the words of the second.
    The transitions of the other states are kept. *)
Theorem r1_alternation (n : NFA.t) (output : Z) (SA SB : gset Z) qa qb qc qd bar rest :
  allocated n → fragment_ok n SA qa qb → fragment_ok n SB qc qd → SA ## SB →
  let q0 := NFA.next_state n + 1 in
  let q1 := NFA.next_state n + 2 in
  ∃ n', Reductions.r1
          (Reductions.Fragment qa qb :: bar :: Reductions.Fragment qc qd :: rest) (n, output)
        = Some (Reductions.Fragment q0 q1, n')
    ∧ fragment_ok n' (SA ∪ SB ∪ {[q0; q1]}) q0 q1
    ∧ extends n n' (SA ∪ SB ∪ {[q0; q1]})
    ∧ ∀ w, NFA.path n' q0 w q1 ↔ NFA.path n qa w qb ∨ NFA.path n qc w qd.
Proof.
  intros Hn (Hqa & Hqb & HbA & HcA & HfA) (Hqc & Hqd & HbB & HcB & HfB) Hdisj q0 q1.
  exists (foldl (λ nfa e, NFA.add_transition nfa e.1 e.2 EPSILON) (grown n)
            [(q0, qa); (q0, qc); (qb, q1); (qd, q1)]).
  split.
  { unfold Reductions.r1, Reductions.fragment.
    rewrite !getitem_nonneg by (simpl; lia). simpl.
    by replace (NFA.next_state n + 1 + 1) with (NFA.next_state n + 2) by lia. }
  destruct (wrap_edges n (SA ∪ SB) [(q0, qa); (q0, qc); (qb, q1); (qd, q1)] Hn)
    as (Hok & Hext & Hdelta & Hq1 & Hq0).
  { intros s [?%HbA|?%HbB]%elem_of_union; done. }
  { intros s c t [Hs|Hs]%elem_of_union Ht;
      [apply elem_of_union_l; by eapply HcA|apply elem_of_union_r; by eapply HcB]. }
  { fold q0 q1. intros s t Hst. rewrite !elem_of_cons, elem_of_nil in Hst.
    assert (qb ≠ q1 ∧ qd ≠ q1) as [??].
    { apply HbA in Hqb. apply HbB in Hqd. unfold q1. lia. }
    assert (q0 ≠ q1) by (unfold q0, q1; lia).
    destruct Hst as [[= -> ->]|[[= -> ->]|[[= -> ->]|[[= -> ->]|[]]]]]; set_solver. }
  fold q0 q1 in Hok, Hext, Hdelta, Hq1, Hq0.
  set (n' := foldl _ (grown n) _) in *.
  assert (q1 ∉ SA ∧ q1 ∉ SB) as [HA1 HB1].
  { split; [intros ?%HbA|intros ?%HbB]; unfold q1 in *; lia. }
  assert (∀ s c, NFA.delta n s c ⊆ NFA.delta n' s c) as Hmono by apply Hext.
  split_and!; [done|done|]. intros w. split.
  - intros Hp.
    apply (path_from_entry n' q0 {[qa; qc]}) in Hp as [[_ Heq]|(x & Hx & Hp)].
    + unfold q0, q1 in Heq. lia.
    + assert ((x = qa ∧ NFA.path n' qa w q1) ∨ (x = qc ∧ NFA.path n' qc w q1)) as Hcase
        by set_solver.
      clear Hp Hx. destruct Hcase as [[_ Hp]|[_ Hp]].
      * left.
        destruct (path_leaves n n' SA {[q1]} qa qb qa w q1)
          as (w0 & ws & y & w' & -> & Hw0 & Hws & Hne & ->%elem_of_singleton & _ & Hw');
          [|set_solver|done|done|done|].
        { intros s c t Hs [Ht|[-> Hst]]%Hdelta; [left; split; [done|by eapply HcA]|right].
          rewrite !elem_of_cons, elem_of_nil in Hst.
          destruct Hst as [[= -> ->]|[[= -> ->]|[[= -> ->]|[[= -> ->]|[]]]]];
            [apply HbA in Hs; unfold q0 in Hs; lia..|set_solver|set_solver]. }
        destruct ws as [|v ws].
        2:{ exfalso. apply HA1.
            assert (qa ∈ ({[q1]} : gset Z)) as ->%elem_of_singleton by by apply Hne. done. }
        apply (path_stuck _ _ _ _ Hq1) in Hw' as [-> _]. by rewrite !app_nil_r.
      * right.
        destruct (path_leaves n n' SB {[q1]} qc qd qc w q1)
          as (w0 & ws & y & w' & -> & Hw0 & Hws & Hne & ->%elem_of_singleton & _ & Hw');
          [|set_solver|done|done|done|].
        { intros s c t Hs [Ht|[-> Hst]]%Hdelta; [left; split; [done|by eapply HcB]|right].
          rewrite !elem_of_cons, elem_of_nil in Hst.
          destruct Hst as [[= -> ->]|[[= -> ->]|[[= -> ->]|[[= -> ->]|[]]]]];
            [apply HbB in Hs; unfold q0 in Hs; lia..|set_solver|set_solver]. }
        destruct ws as [|v ws].
        2:{ exfalso. apply HB1.
            assert (qc ∈ ({[q1]} : gset Z)) as ->%elem_of_singleton by by apply Hne. done. }
        apply (path_stuck _ _ _ _ Hq1) in Hw' as [-> _]. by rewrite !app_nil_r.
    + intros c x. rewrite Hq0, !elem_of_cons, elem_of_nil.
      assert (q0 ≠ qb ∧ q0 ≠ qd) as [??].
      { apply HbA in Hqb. apply HbB in Hqd. unfold q0. lia. }
      set_solver.
  - assert (∀ s t, (s, t) ∈ [(q0, qa); (q0, qc); (qb, q1); (qd, q1)] →
              t ∈ NFA.delta n' s EPSILON) as Hedge.
    { intros s t Hst. apply Hdelta. by right. }
    intros [Hp|Hp].
    + apply (NFA.path_eps n' q0 qa); [apply Hedge; set_solver|].
      rewrite <- (app_nil_r w). eapply path_app; [by eapply path_mono|].
      apply (NFA.path_eps n' qb q1); [apply Hedge; set_solver|constructor].
    + apply (NFA.path_eps n' q0 qc); [apply Hedge; set_solver|].
      rewrite <- (app_nil_r w). eapply path_app; [by eapply path_mono|].
      apply (NFA.path_eps n' qd q1); [apply Hedge; set_solver|constructor].
Qed.

Lemma r1_alternation_witness :
  let q0 := NFA.next_state two_letters + 1 in
  let q1 := NFA.next_state two_letters + 2 in
  ∃ n', Reductions.r1
          [Reductions.Fragment 0 1; Reductions.Codepoint 124; Reductions.Fragment 2 3]
          (two_letters, 7)
        = Some (Reductions.Fragment q0 q1, n')
    ∧ fragment_ok n' ({[0; 1]} ∪ {[2; 3]} ∪ {[q0; q1]}) q0 q1
    ∧ extends two_letters n' ({[0; 1]} ∪ {[2; 3]} ∪ {[q0; q1]})
    ∧ ∀ w, NFA.path n' q0 w q1 ↔ NFA.path two_letters 0 w 1 ∨ NFA.path two_letters 2 w 3.
Proof.
  apply (r1_alternation two_letters 7 {[0; 1]} {[2; 3]} 0 1 2 3 (Reductions.Codepoint 124) []).
  - apply two_letters_allocated.
  - apply two_letters_first.
  - apply two_letters_second.
  - compute_done.
Defined.

(** The set-up shared by [r6], [r7] and [r8]: two new states around one
    part of the NFA. *)
Section quantifier.
Variable n : NFA.t.
Variable S : gset Z.
Variables qa qb : Z.
Hypothesis Hn : allocated n.
Hypothesis Hfrag : fragment_ok n S qa qb.
Variable E : list (Z * Z).

Local Abbreviation q0 := (NFA.next_state n + 1).
Local Abbreviation q1 := (NFA.next_state n + 2).
Local Abbreviation n' := (foldl (λ nfa e, NFA.add_transition nfa e.1 e.2 EPSILON) (grown n) E).

(** The ε-transitions are among [q0 -> qa], [q0 -> q1], [qb -> qa] and
    [qb -> q1]. *)
Hypothesis HE : ∀ s t, (s, t) ∈ E → (s = q0 ∨ s = qb) ∧ (t = qa ∨ t = q1).

Lemma quantifier_fresh : q0 ∉ S ∧ q1 ∉ S ∧ q0 ≠ q1 ∧ qb ≠ q0 ∧ qb ≠ q1 ∧ qa ≠ q0 ∧ qa ≠ q1.
Proof.
  destruct Hfrag as (Hqa & Hqb & Hb & _). apply Hb in Hqa as Ha', Hqb as Hb'.
  split_and!; try lia; intros ?%Hb; lia.
Qed.

Lemma quantifier_ok :
  fragment_ok n' (S ∪ {[q0; q1]}) q0 q1 ∧ extends n n' (S ∪ {[q0; q1]})
  ∧ (∀ s c t, t ∈ NFA.delta n' s c ↔ t ∈ NFA.delta n s c ∨ (c = EPSILON ∧ (s, t) ∈ E))
  ∧ (∀ c, NFA.delta n' q1 c = ∅)
  ∧ (∀ c x, x ∈ NFA.delta n' q0 c ↔ c = EPSILON ∧ (q0, x) ∈ E).
Proof.
  destruct Hfrag as (Hqa & Hqb & Hb & Hc & Hf).
  destruct quantifier_fresh as (H0 & H1 & H01 & Hb0 & Hb1 & Ha0 & Ha1).
  apply wrap_edges; [done|done|done|]. simpl.
  intros s t [[-> | ->] [-> | ->]]%HE; set_solver.
Qed.

(** The words of the paths from [qa] to [q1]. *)
Lemma quantifier_leaves w :
  NFA.path n' qa w q1 →
  ∃ w0 ws, w = w0 ++ concat ws
    ∧ NFA.path n qa w0 qb ∧ Forall (λ v, NFA.path n qa v qb) ws
    ∧ (ws ≠ [] → (qb, qa) ∈ E) ∧ (qb, q1) ∈ E.
Proof.
  intros Hp. destruct Hfrag as (Hqa & Hqb & Hb & Hc & Hf).
  destruct quantifier_fresh as (H0 & H1 & H01 & Hb0 & Hb1 & Ha0 & Ha1).
  destruct quantifier_ok as (_ & _ & Hdelta & Hq1 & _).
  destruct (path_leaves n n' S (list_to_set (snd <$> filter (λ e, e.1 = qb) E)) qa qb qa w q1)
    as (w0 & ws & y & w' & -> & Hw0 & Hws & Hne & Hy & HyS & Hw'); [| |done|done|done|].
  { intros s c t Hs [Ht|[-> Hst]]%Hdelta; [left; split; [done|by eapply Hc]|right].
    destruct (HE _ _ Hst) as [[-> | ->] _]; [done|].
    split_and!; [done|done|]. apply elem_of_list_to_set, list_elem_of_fmap.
    exists (qb, t). split; [done|]. by apply list_elem_of_filter. }
  { intros x (e & -> & [_ He]%list_elem_of_filter)%elem_of_list_to_set%list_elem_of_fmap Hx.
    destruct e as [s t]. simpl in *. destruct (HE _ _ He) as [_ [-> | ->]]; done. }
  assert (∀ x, x ∈ (list_to_set (snd <$> filter (λ e, e.1 = qb) E) : gset Z) → (qb, x) ∈ E)
    as HT.
  { intros x (e & -> & [Heq He]%list_elem_of_filter)%elem_of_list_to_set%list_elem_of_fmap.
    destruct e as [s t]. simpl in *. by subst. }
  assert (y = q1) as ->.
  { apply HT in Hy. destruct (HE _ _ Hy) as [_ [-> | ->]]; done. }
  apply (path_stuck _ _ _ _ Hq1) in Hw' as [-> _].
  exists w0, ws. rewrite app_nil_r. split_and!; [done|done|done| |by apply HT].
  intros Hws'. by apply HT, Hne.
Qed.

Lemma quantifier_edge s t : (s, t) ∈ E → t ∈ NFA.delta n' s EPSILON.
Proof. intros Hst. destruct quantifier_ok as (_ & _ & Hdelta & _). apply Hdelta. by right. Qed.

Lemma quantifier_mono s w t : NFA.path n s w t → NFA.path n' s w t.
Proof. destruct quantifier_ok as (_ & Hext & _). apply path_mono, Hext. Qed.

Lemma quantifier_entry w :
  NFA.path n' q0 w q1 →
  ((q0, q1) ∈ E ∧ w = []) ∨ ((q0, qa) ∈ E ∧ NFA.path n' qa w q1).
Proof.
  intros Hp. destruct quantifier_fresh as (H0 & H1 & H01 & Hb0 & Hb1 & Ha0 & Ha1).
  destruct quantifier_ok as (_ & _ & _ & Hq1 & Hq0).
  destruct Hp as [s|s s' u w Hs' Hp|s c s' u w Hc Hs' Hp].
  - done.
  - apply Hq0 in Hs' as [_ Hs']. destruct (HE _ _ Hs') as [_ [-> | ->]]; [by right|].
    left. split; [done|]. by apply (path_stuck _ _ _ _ Hq1) in Hp as [-> _].
  - apply Hq0 in Hs' as [-> _]. by apply byte_neq_epsilon in Hc.
Qed.

End quantifier.

(** X23: [r6] puts two new states around a part of the NFA, with
    ε-transitions that let a path skip the part and take it again: the whole
    has a path from its entry to its exit exactly on the words made of any
    number of words of the part, the empty word included.  The transitions
    of the other states are kept. *)
Theorem r6_star (n : NFA.t) (output : Z) (S : gset Z) qa qb rest :
  allocated n → fragment_ok n S qa qb →
  let q0 := NFA.next_state n + 1 in
  let q1 := NFA.next_state n + 2 in
  ∃ n', Reductions.r6 (Reductions.Fragment qa qb :: rest) (n, output)
        = Some (Reductions.Fragment q0 q1, n')
    ∧ fragment_ok n' (S ∪ {[q0; q1]}) q0 q1
    ∧ extends n n' (S ∪ {[q0; q1]})
    ∧ ∀ w, NFA.path n' q0 w q1 ↔
           ∃ ws, w = concat ws ∧ Forall (λ v, NFA.path n qa v qb) ws.
Proof.
  intros Hn Hfrag q0 q1.
  set (E := [(q0, q1); (qb, qa); (q0, qa); (qb, q1)]).
  assert (∀ s t, (s, t) ∈ E → (s = q0 ∨ s = qb) ∧ (t = qa ∨ t = q1)) as HE.
  { intros s t Hst. unfold E in Hst. rewrite !elem_of_cons, elem_of_nil in Hst.
    destruct Hst as [[= -> ->]|[[= -> ->]|[[= -> ->]|[[= -> ->]|[]]]]]; tauto. }
  exists (foldl (λ nfa e, NFA.add_transition nfa e.1 e.2 EPSILON) (grown n) E).
  split.
  { unfold Reductions.r6, Reductions.fragment.
    rewrite !getitem_nonneg by (simpl; lia). simpl.
    by replace (NFA.next_state n + 1 + 1) with (NFA.next_state n + 2) by lia. }
  destruct (quantifier_ok n S qa qb Hn Hfrag E HE) as (Hok & Hext & _).
  split_and!; [done|done|]. intros w. split.
  - intros [[_ ->]|[_ Hp]]%(quantifier_entry n S qa qb Hn Hfrag E HE).
    + by exists [].
    + apply (quantifier_leaves n S qa qb Hn Hfrag E HE) in Hp
        as (w0 & ws & -> & Hw0 & Hws & _).
      exists (w0 :: ws). split; [done|]. by constructor.
  - intros (ws & -> & Hws). destruct Hws as [|v ws Hv Hws]; simpl.
    + apply (NFA.path_eps _ q0 q1); [|constructor].
      apply (quantifier_edge n S qa qb Hn Hfrag E HE). unfold E. set_solver.
    + apply (NFA.path_eps _ q0 qa).
      { apply (quantifier_edge n S qa qb Hn Hfrag E HE). unfold E. set_solver. }
      eapply path_app; [by apply (quantifier_mono n S qa qb Hn Hfrag E HE)|].
      apply (path_loop _ qa qb q1).
      * apply (quantifier_edge n S qa qb Hn Hfrag E HE). unfold E. set_solver.
      * apply (quantifier_edge n S qa qb Hn Hfrag E HE). unfold E. set_solver.
      * eapply Forall_impl; [done|]. intros v' Hv'.
        by apply (quantifier_mono n S qa qb Hn Hfrag E HE).
Qed.

(** The part that [r9] builds for [a]. *)
Definition one_letter : NFA.t := NFA.mk 1 {[(0, 97) := {[1]}]} ∅ (-1).

Lemma one_letter_allocated : allocated one_letter.
Proof. apply allocated_check. compute_done. Qed.

Lemma one_letter_fragment : fragment_ok one_letter {[0; 1]} 0 1.
Proof. apply fragment_ok_check; compute_done. Qed.

Lemma r6_star_witness :
  let q0 := NFA.next_state one_letter + 1 in
  let q1 := NFA.next_state one_letter + 2 in
  ∃ n', Reductions.r6 [Reductions.Fragment 0 1; Reductions.Codepoint 42] (one_letter, 7)
        = Some (Reductions.Fragment q0 q1, n')
    ∧ fragment_ok n' ({[0; 1]} ∪ {[q0; q1]}) q0 q1
    ∧ extends one_letter n' ({[0; 1]} ∪ {[q0; q1]})
    ∧ ∀ w, NFA.path n' q0 w q1 ↔
           ∃ ws, w = concat ws ∧ Forall (λ v, NFA.path one_letter 0 v 1) ws.
Proof.
  apply (r6_star one_letter 7 {[0; 1]} 0 1 [Reductions.Codepoint 42]).
  - apply one_letter_allocated.
  - apply one_letter_fragment.
Defined.

(** X24: [r7] puts two new states around a part of the NFA, with an
    ε-transition that lets a path take the part again: the whole has a path
    from its entry to its exit exactly on the words made of one word of the
    part or more.  The transitions of the other states are kept. *)
Theorem r7_plus (n : NFA.t) (output : Z) (S : gset Z) qa qb rest :
  allocated n → fragment_ok n S qa qb →
  let q0 := NFA.next_state n + 1 in
  let q1 := NFA.next_state n + 2 in
  ∃ n', Reductions.r7 (Reductions.Fragment qa qb :: rest) (n, output)
        = Some (Reductions.Fragment q0 q1, n')
    ∧ fragment_ok n' (S ∪ {[q0; q1]}) q0 q1
    ∧ extends n n' (S ∪ {[q0; q1]})
    ∧ ∀ w, NFA.path n' q0 w q1 ↔
           ∃ ws, ws ≠ [] ∧ w = concat ws ∧ Forall (λ v, NFA.path n qa v qb) ws.
Proof.
  intros Hn Hfrag q0 q1.
  set (E := [(q0, qa); (qb, q1); (qb, qa)]).
  assert (∀ s t, (s, t) ∈ E → (s = q0 ∨ s = qb) ∧ (t = qa ∨ t = q1)) as HE.
  { intros s t Hst. unfold E in Hst. rewrite !elem_of_cons, elem_of_nil in Hst.
    destruct Hst as [[= -> ->]|[[= -> ->]|[[= -> ->]|[]]]]; tauto. }
  exists (foldl (λ nfa e, NFA.add_transition nfa e.1 e.2 EPSILON) (grown n) E).
  split.
  { unfold Reductions.r7, Reductions.fragment.
    rewrite !getitem_nonneg by (simpl; lia). simpl.
    by replace (NFA.next_state n + 1 + 1) with (NFA.next_state n + 2) by lia. }
  destruct (quantifier_ok n S qa qb Hn Hfrag E HE) as (Hok & Hext & _).
  destruct (quantifier_fresh n S qa qb Hfrag) as (H0 & H1 & H01 & Hb0 & Hb1 & Ha0 & Ha1).
  fold q0 q1 in H0, H1, H01, Hb0, Hb1, Ha0, Ha1.
  split_and!; [done|done|]. intros w. split.
  - intros [[Hin _]|[_ Hp]]%(quantifier_entry n S qa qb Hn Hfrag E HE).
    + exfalso. unfold E in Hin. rewrite !elem_of_cons, elem_of_nil in Hin.
      destruct Hin as [Hin|[Hin|[Hin|[]]]]; injection Hin; unfold q0, q1 in *; lia.
    + apply (quantifier_leaves n S qa qb Hn Hfrag E HE) in Hp
        as (w0 & ws & -> & Hw0 & Hws & _).
      exists (w0 :: ws). split; [done|]. split; [done|]. by constructor.
  - intros (ws & Hne & -> & Hws). destruct Hws as [|v ws Hv Hws]; [done|]. simpl.
    apply (NFA.path_eps _ q0 qa).
    { apply (quantifier_edge n S qa qb Hn Hfrag E HE). unfold E. set_solver. }
    eapply path_app; [by apply (quantifier_mono n S qa qb Hn Hfrag E HE)|].
    apply (path_loop _ qa qb q1).
    + apply (quantifier_edge n S qa qb Hn Hfrag E HE). unfold E. set_solver.
    + apply (quantifier_edge n S qa qb Hn Hfrag E HE). unfold E. set_solver.
    + eapply Forall_impl; [done|]. intros v' Hv'.
      by apply (quantifier_mono n S qa qb Hn Hfrag E HE).
Qed.

Lemma r7_plus_witness :
  let q0 := NFA.next_state one_letter + 1 in
  let q1 := NFA.next_state one_letter + 2 in
  ∃ n', Reductions.r7 [Reductions.Fragment 0 1; Reductions.Codepoint 43] (one_letter, 7)
        = Some (Reductions.Fragment q0 q1, n')
    ∧ fragment_ok n' ({[0; 1]} ∪ {[q0; q1]}) q0 q1
    ∧ extends one_letter n' ({[0; 1]} ∪ {[q0; q1]})
    ∧ ∀ w, NFA.path n' q0 w q1 ↔
           ∃ ws, ws ≠ [] ∧ w = concat ws ∧ Forall (λ v, NFA.path one_letter 0 v 1) ws.
Proof.
  apply (r7_plus one_letter 7 {[0; 1]} 0 1 [Reductions.Codepoint 43]).
  - apply one_letter_allocated.
  - apply one_letter_fragment.
Defined.

(** X25: [r8] puts two new states around a part of the NFA, with an
    ε-transition that lets a path skip the part: the whole has a path from
    its entry to its exit exactly on the empty word and on the words of the
    part.  The transitions of the other states are kept. *)
Theorem r8_optional (n : NFA.t) (output : Z) (S : gset Z) qa qb rest :
  allocated n → fragment_ok n S qa qb →
  let q0 := NFA.next_state n + 1 in
  let q1 := NFA.next_state n + 2 in
  ∃ n', Reductions.r8 (Reductions.Fragment qa qb :: rest) (n, output)
        = Some (Reductions.Fragment q0 q1, n')
    ∧ fragment_ok n' (S ∪ {[q0; q1]}) q0 q1
    ∧ extends n n' (S ∪ {[q0; q1]})
    ∧ ∀ w, NFA.path n' q0 w q1 ↔ w = [] ∨ NFA.path n qa w qb.
Proof.
  intros Hn Hfrag q0 q1.
  set (E := [(q0, qa); (qb, q1); (q0, q1)]).
  assert (∀ s t, (s, t) ∈ E → (s = q0 ∨ s = qb) ∧ (t = qa ∨ t = q1)) as HE.
  { intros s t Hst. unfold E in Hst. rewrite !elem_of_cons, elem_of_nil in Hst.
    destruct Hst as [[= -> ->]|[[= -> ->]|[[= -> ->]|[]]]]; tauto. }
  exists (foldl (λ nfa e, NFA.add_transition nfa e.1 e.2 EPSILON) (grown n) E).
  split.
  { unfold Reductions.r8, Reductions.fragment.
    rewrite !getitem_nonneg by (simpl; lia). simpl.
    by replace (NFA.next_state n + 1 + 1) with (NFA.next_state n + 2) by lia. }
  destruct (quantifier_ok n S qa qb Hn Hfrag E HE) as (Hok & Hext & _).
  destruct (quantifier_fresh n S qa qb Hfrag) as (H0 & H1 & H01 & Hb0 & Hb1 & Ha0 & Ha1).
  fold q0 q1 in H0, H1, H01, Hb0, Hb1, Ha0, Ha1.
  split_and!; [done|done|]. intros w. split.
  - intros [[_ ->]|[_ Hp]]%(quantifier_entry n S qa qb Hn Hfrag E HE); [by left|].
    apply (quantifier_leaves n S qa qb Hn Hfrag E HE) in Hp
      as (w0 & ws & -> & Hw0 & Hws & Hback & _).
    destruct ws as [|v ws]; [right; by rewrite app_nil_r|].
    exfalso. assert ((qb, qa) ∈ E) as Hin by by apply Hback.
    unfold E in Hin. rewrite !elem_of_cons, elem_of_nil in Hin.
    destruct Hin as [Hin|[Hin|[Hin|[]]]]; injection Hin; unfold q0, q1 in *; lia.
  - intros [->|Hp].
    + apply (NFA.path_eps _ q0 q1); [|constructor].
      apply (quantifier_edge n S qa qb Hn Hfrag E HE). unfold E. set_solver.
    + apply (NFA.path_eps _ q0 qa).
      { apply (quantifier_edge n S qa qb Hn Hfrag E HE). unfold E. set_solver. }
      rewrite <- (app_nil_r w).
      eapply path_app; [by apply (quantifier_mono n S qa qb Hn Hfrag E HE)|].
      apply (NFA.path_eps _ qb q1); [|constructor].
      apply (quantifier_edge n S qa qb Hn Hfrag E HE). unfold E. set_solver.
Qed.

Lemma r8_optional_witness :
  let q0 := NFA.next_state one_letter + 1 in
  let q1 := NFA.next_state one_letter + 2 in
  ∃ n', Reductions.r8 [Reductions.Fragment 0 1; Reductions.Codepoint 63] (one_letter, 7)
        = Some (Reductions.Fragment q0 q1, n')
    ∧ fragment_ok n' ({[0; 1]} ∪ {[q0; q1]}) q0 q1
    ∧ extends one_letter n' ({[0; 1]} ∪ {[q0; q1]})
    ∧ ∀ w, NFA.path n' q0 w q1 ↔ w = [] ∨ NFA.path one_letter 0 w 1.
Proof.
  apply (r8_optional one_letter 7 {[0; 1]} 0 1 [Reductions.Codepoint 63]).
  - apply one_letter_allocated.
  - apply one_letter_fragment.
Defined.

(** A part of the NFA that a callback does not work on keeps its paths: the
    parts on the stack of the parser stay what they are. *)
Lemma extends_frame n n' (S' S : gset Z) entry exit :
  extends n n' S' → fragment_ok n S entry exit → S ## S' →
  fragment_ok n' S entry exit ∧ ∀ w, NFA.path n' entry w exit ↔ NFA.path n entry w exit.
Proof.
  intros (Hnext & Halloc & _ & _ & Hmono & Hframe) (Hentry & Hexit & Hb & Hc & Hf) Hdisj.
  assert (∀ s c, s ∈ S → NFA.delta n' s c = NFA.delta n s c) as Hsame.
  { intros s c Hs. apply Hframe. set_solver. }
  split.
  - split_and!; [done|done| | |].
    + intros s Hs%Hb. lia.
    + intros s c t Hs. rewrite Hsame by done. by apply Hc.
    + intros c. by rewrite Hsame.
  - intros w. split; [|by apply path_mono].
    intros Hp. apply (path_closed n n' S) in Hp as [Hp _]; [done| |done].
    intros s c t Hs. rewrite Hsame by done. intros Ht. split; [done|]. by eapply Hc.
Qed.
